(** * A segregated free-list allocator (mm.c): shallow embedding and properties

    The allocator of [mm.c] manages one contiguous heap handed out by a host
    memory layer.  Every block is an 8-byte header word followed by a payload
    of 24 + 16k bytes; free blocks carry a footer in their last 8 bytes and
    two list links in their first 16 bytes; 15 doubly linked free lists are
    indexed by size class.

    The embedding follows the C source function by function.  Machine words
    ([size_t], [uint64_t]) are integers with the wrap-around modulo 2^64
    written out; the heap is a byte-addressed memory; the globals
    [segFreeList] and [lastHeader] live in an explicit state record that is
    threaded through a small state-and-error monad. *)

From Stdlib Require Import ZArith Lia List Bool.
From stdpp Require Import base list.

Open Scope Z_scope.

(** ** Machine integers *)

Definition wrap64 (x : Z) : Z := x mod 2 ^ 64.

(** Conversion of a [size_t] value to [int] (32 bits, two's complement). *)
Definition to_int (x : Z) : Z :=
  let y := x mod 2 ^ 32 in if y <? 2 ^ 31 then y else y - 2 ^ 32.

Definition ALIGNMENT : Z := 16.
Definition BASE_ALIGNMENT : Z := 24.
Definition HEADER_SIZE : Z := 8.
Definition FOOTER_SIZE : Z := 8.
Definition FREE_OFFSET : Z := 8.

Definition NULL : Z := 0.

(** ** Byte-addressed memory *)

Definition memory := Z -> Z.

Definition byte_of (v i : Z) : Z := (v / 2 ^ (8 * i)) mod 256.

(** Little-endian read of [n] bytes starting at [a]. *)
Fixpoint load_le (m : memory) (a : Z) (n : nat) : Z :=
  match n with
  | O => 0
  | S k => m a mod 256 + 256 * load_le m (a + 1) k
  end.

Definition load64 (m : memory) (a : Z) : Z := load_le m a 8.

Definition store64 (m : memory) (a v : Z) : memory :=
  fun x => if (a <=? x) && (x <? a + 8) then byte_of v (x - a) else m x.

Definition fill_bytes (m : memory) (dst c n : Z) : memory :=
  fun x => if (dst <=? x) && (x <? dst + n) then c mod 256 else m x.

Definition copy_bytes (m : memory) (dst src n : Z) : memory :=
  fun x => if (dst <=? x) && (x <? dst + n) then m (src + (x - dst)) else m x.

(** ** Allocator state

    [mem], [heap_lo], [heap_brk] and [heap_max] belong to the host memory
    layer (memlib); [segFreeList] and [lastHeader] are the two globals of
    mm.c. *)

Record state : Type := mkState {
  mem : memory;
  heap_lo : Z;
  heap_brk : Z;
  heap_max : Z;
  segFreeList : list Z;
  lastHeader : Z
}.

Definition set_mem (st : state) (m : memory) : state :=
  mkState m (heap_lo st) (heap_brk st) (heap_max st) (segFreeList st) (lastHeader st).

Definition set_brk (st : state) (b : Z) : state :=
  mkState (mem st) (heap_lo st) b (heap_max st) (segFreeList st) (lastHeader st).

Definition set_seg (st : state) (l : list Z) : state :=
  mkState (mem st) (heap_lo st) (heap_brk st) (heap_max st) l (lastHeader st).

Definition set_last (st : state) (h : Z) : state :=
  mkState (mem st) (heap_lo st) (heap_brk st) (heap_max st) (segFreeList st) h.

(** ** The state-and-error monad

    [None] stands for an execution that does not return: an access outside
    the heap (undefined behaviour in C) or a loop that ran out of fuel. *)

Definition M (A : Type) : Type := state -> option (A * state).

Definition ret {A} (x : A) : M A := fun st => Some (x, st).

Definition bind {A B} (c : M A) (k : A -> M B) : M B :=
  fun st => match c st with
            | Some (x, st') => k x st'
            | None => None
            end.

Definition fault {A} : M A := fun _ => None.

Notation "x <- c ;; k" := (bind c (fun x => k))
  (at level 100, c at next level, right associativity).
Notation "c ;;; k" := (bind c (fun _ => k))
  (at level 100, right associativity).

(** An access of [n] bytes at [a] is defined when it lies inside the heap. *)
Definition in_bounds (st : state) (a n : Z) : bool :=
  (heap_lo st <=? a) && (a + n <=? heap_brk st).

Definition load (a : Z) : M Z :=
  fun st => if in_bounds st a 8 then Some (load64 (mem st) a, st) else None.

Definition store (a v : Z) : M unit :=
  fun st => if in_bounds st a 8
            then Some (tt, set_mem st (store64 (mem st) a v)) else None.

(** [segFreeList[index]]: an index outside 0..14 is out of the array. *)
Definition seg_get (index : Z) : M Z :=
  fun st => if index <? 0 then None
            else match segFreeList st !! Z.to_nat index with
                 | Some p => Some (p, st)
                 | None => None
                 end.

Definition seg_set (index v : Z) : M unit :=
  fun st => if (0 <=? index) && (index <? Z.of_nat (length (segFreeList st)))
            then Some (tt, set_seg st (<[Z.to_nat index := v]> (segFreeList st)))
            else None.

Definition get_last : M Z := fun st => Some (lastHeader st, st).
Definition put_last (h : Z) : M unit := fun st => Some (tt, set_last st h).

(** ** The host memory layer

    Modelled from the spec: memlib.c ([mm_sbrk], [mm_heap_lo], [mm_heap_hi],
    [mm_memcpy], [memset]) is not part of the sources.  Section 6 of the
    specification describes it: the extender grows the heap by exactly [n]
    bytes at its high end and returns the start of the new region, or
    reports failure; [low] and [high] are the heap bounds.  The failure
    value is [(void * ) -1], the one [extendHeap] tests for; the extender
    refuses when the request would pass [heap_max]; [high] is the address of
    the last heap byte. *)

Definition SBRK_FAIL : Z := wrap64 (-1).

Definition mm_sbrk (incr : Z) : M Z :=
  fun st => if heap_brk st + incr <=? heap_max st
            then Some (heap_brk st, set_brk st (heap_brk st + incr))
            else Some (SBRK_FAIL, st).

Definition mm_heap_lo : M Z := fun st => Some (heap_lo st, st).
Definition mm_heap_hi : M Z := fun st => Some (heap_brk st - 1, st).

(** Modelled from the spec: the byte-copy primitive; it returns [dst]. *)
Definition mm_memcpy (dst src n : Z) : M Z :=
  fun st => if n =? 0 then Some (dst, st)
            else if in_bounds st dst n && in_bounds st src n
            then Some (dst, set_mem st (copy_bytes (mem st) dst src n))
            else None.

(** Modelled from the spec: the byte-fill primitive. *)
Definition memset (dst c n : Z) : M unit :=
  fun st => if n =? 0 then Some (tt, st)
            else if in_bounds st dst n
            then Some (tt, set_mem st (fill_bytes (mem st) dst c n))
            else None.

(** ** mm.c, function by function *)

(** Arithmetic on a [uint64_t * ]: one unit is 8 bytes.  The address is
    computed in [Z] without wrap-around; it is the address that the machine
    computes as long as it lies between 0 and 2^64, which is the case for
    every pointer formed inside a heap that satisfies the invariant. *)
Definition ptr_add (p k : Z) : Z := p + 8 * k.
Definition ptr_sub (p k : Z) : Z := p - 8 * k.

Definition align (x : Z) : Z :=
  wrap64 (ALIGNMENT * (wrap64 (wrap64 (x + ALIGNMENT) - 1) / ALIGNMENT)).

Definition newAlign (x : Z) : Z :=
  if x <=? BASE_ALIGNMENT then BASE_ALIGNMENT
  else wrap64 (align (wrap64 (x - BASE_ALIGNMENT)) + BASE_ALIGNMENT).

Definition aligned (p : Z) : bool := align p =? p.

Definition in_heap (p : Z) : M bool :=
  hi <- mm_heap_hi ;;
  lo <- mm_heap_lo ;;
  ret ((p <=? hi) && (p >=? lo)).

Definition isFree (ptr : Z) : M bool :=
  w <- load ptr ;; ret (Z.land w 0x1 =? 0).

Definition setFree (ptr : Z) : M unit :=
  w <- load ptr ;; store ptr (Z.land w 0xFFFFFFFFFFFFFFFE).

Definition setAlloc (ptr : Z) : M unit :=
  w <- load ptr ;; store ptr (Z.lor w 0x1).

Definition isPrevFree (ptr : Z) : M bool :=
  w <- load ptr ;; ret (Z.land w 0x2 =? 0).

Definition setPrevFree (ptr : Z) : M unit :=
  w <- load ptr ;; store ptr (Z.land w 0xFFFFFFFFFFFFFFFD).

Definition setPrevAlloc (ptr : Z) : M unit :=
  w <- load ptr ;; store ptr (Z.lor w 0x2).

Definition getBlockSize (ptr : Z) : M Z :=
  w <- load ptr ;; ret (Z.land w 0xFFFFFFFFFFFFFFF8).

Definition setBlockSize (ptr size : Z) : M unit :=
  w <- load ptr ;;
  store ptr (Z.land w 0x7) ;;;
  w' <- load ptr ;;
  store ptr (Z.lor w' size).

Definition get8ByteAlignment (numBytes : Z) : Z := numBytes / 8.

Definition getFooter (header size : Z) : Z :=
  ptr_add header (get8ByteAlignment (wrap64 (wrap64 (HEADER_SIZE + size) - FOOTER_SIZE))).

Definition getPrevFooter (header : Z) : Z :=
  ptr_sub header (get8ByteAlignment FOOTER_SIZE).

Definition getNextHeader (header size : Z) : Z :=
  ptr_add header (get8ByteAlignment (wrap64 (HEADER_SIZE + size))).

Definition getPrevHeader (header size : Z) : Z :=
  ptr_sub header (get8ByteAlignment (wrap64 (HEADER_SIZE + size))).

Definition getPayload (header : Z) : Z :=
  ptr_add header (get8ByteAlignment HEADER_SIZE).

Definition getNextFreeBlock (ptr : Z) : M Z := load ptr.

Definition getPrevFreeBlock (ptr : Z) : M Z :=
  load (ptr_add ptr (get8ByteAlignment FREE_OFFSET)).

Definition setNextFreeBlock (ptr newptr : Z) : M unit := store ptr newptr.

Definition setPrevFreeBlock (ptr newptr : Z) : M unit :=
  store (ptr_add ptr (get8ByteAlignment FREE_OFFSET)) newptr.

Definition removeFreeBlock (ptr freeListIndex : Z) : M unit :=
  head <- seg_get freeListIndex ;;
  if ptr =? head then
    nextptr <- getNextFreeBlock ptr ;;
    (if negb (nextptr =? NULL) then setPrevFreeBlock nextptr NULL else ret tt) ;;;
    seg_set freeListIndex nextptr
  else
    nextptr <- getNextFreeBlock ptr ;;
    prevptr <- getPrevFreeBlock ptr ;;
    (if negb (nextptr =? NULL) then setPrevFreeBlock nextptr prevptr else ret tt) ;;;
    setNextFreeBlock prevptr nextptr.

Definition addFreeBlock (ptr freeListIndex : Z) : M unit :=
  head <- seg_get freeListIndex ;;
  (if head =? NULL then
     setNextFreeBlock ptr NULL ;;;
     setPrevFreeBlock ptr NULL
   else
     head1 <- seg_get freeListIndex ;;
     setNextFreeBlock ptr head1 ;;;
     head2 <- seg_get freeListIndex ;;
     setPrevFreeBlock head2 ptr ;;;
     setPrevFreeBlock ptr NULL) ;;;
  seg_set freeListIndex ptr.

Definition getFreeListIndex (size : Z) : Z :=
  let sizeMul := wrap64 (size - 8) / 16 in
  if sizeMul <=? 4 then to_int (wrap64 (sizeMul - 1))
  else if sizeMul <=? 6 then 4
  else if sizeMul <=? 8 then 5
  else if sizeMul <=? 16 then 6
  else if sizeMul <=? 32 then 7
  else if sizeMul <=? 64 then 8
  else if sizeMul <=? 128 then 9
  else if sizeMul <=? 256 then 10
  else if sizeMul <=? 512 then 11
  else if sizeMul <=? 1024 then 12
  else if sizeMul <=? 2048 then 13
  else 14.

Definition extendHeap (size : Z) : M Z :=
  header <- mm_sbrk (wrap64 (HEADER_SIZE + size)) ;;
  if header =? SBRK_FAIL then ret NULL
  else
    store header 0x0 ;;;
    setAlloc header ;;;
    setBlockSize header size ;;;
    last <- get_last ;;
    lo <- mm_heap_lo ;;
    (if negb (last =? lo) then
       f <- isFree last ;;
       if negb f then setPrevAlloc header else ret tt
     else setPrevAlloc header) ;;;
    put_last header ;;;
    ret header.

Fixpoint init_lists (n : nat) (i : Z) : M unit :=
  match n with
  | O => ret tt
  | S k => seg_set i NULL ;;; init_lists k (i + 1)
  end.

Definition mm_init : M bool :=
  heap_start <- mm_sbrk HEADER_SIZE ;;
  lo <- mm_heap_lo ;;
  if negb (heap_start =? lo) then ret false
  else
    store heap_start 0x0 ;;;
    setAlloc heap_start ;;;
    lo' <- mm_heap_lo ;;
    put_last lo' ;;;
    init_lists 15 0 ;;;
    ret true.

(** The body of malloc's [if (new_block_size <= block_size)] branch: the
    victim [ptr] (header [header], payload size [block_size]) found in list
    [index] is split when large enough, marked allocated and unlinked. *)
Definition place (header ptr index new_block_size block_size : Z) : M Z :=
  (if wrap64 (block_size - new_block_size) >=? 32 then
     let split_block_size :=
       wrap64 (wrap64 (block_size - new_block_size) - HEADER_SIZE) in
     setBlockSize header new_block_size ;;;
     let nextHeader := getNextHeader header new_block_size in
     let nextFooter := getFooter nextHeader split_block_size in
     store nextHeader 0x0 ;;;
     setBlockSize nextHeader split_block_size ;;;
     setPrevAlloc nextHeader ;;;
     store nextFooter 0x0 ;;;
     setBlockSize nextFooter split_block_size ;;;
     let split_block_index := getFreeListIndex split_block_size in
     addFreeBlock (getPayload nextHeader) split_block_index ;;;
     last <- get_last ;;
     if header =? last then put_last nextHeader else ret tt
   else
     last <- get_last ;;
     if negb (header =? last)
     then setPrevAlloc (getNextHeader header block_size)
     else ret tt) ;;;
  setAlloc header ;;;
  removeFreeBlock ptr index ;;;
  ret ptr.

(** malloc's [while (ptr || nextList)] loop.  [Some p]: the loop returned
    [p] from inside; [None]: the loop ended without a fit. *)
Fixpoint malloc_loop (fuel : nat) (new_block_size ptr index : Z)
    (nextList : bool) : M (option Z) :=
  match fuel with
  | O => fault
  | S fuel' =>
    if negb (ptr =? NULL) || nextList then
      if ptr =? NULL then
        if index =? 14 then
          malloc_loop fuel' new_block_size ptr index false
        else
          let index := index + 1 in
          ptr <- seg_get index ;;
          malloc_loop fuel' new_block_size ptr index nextList
      else
        let header := ptr_sub ptr (get8ByteAlignment HEADER_SIZE) in
        block_size <- getBlockSize header ;;
        if new_block_size <=? block_size then
          p <- place header ptr index new_block_size block_size ;;
          ret (Some p)
        else if index <=? 3 then
          let index := index + 1 in
          ptr <- seg_get index ;;
          malloc_loop fuel' new_block_size ptr index nextList
        else
          ptr <- getNextFreeBlock ptr ;;
          malloc_loop fuel' new_block_size ptr index nextList
    else ret None
  end.

Definition malloc (fuel : nat) (size : Z) : M Z :=
  if size =? 0 then ret NULL
  else
    let new_block_size := newAlign size in
    let index := getFreeListIndex new_block_size in
    ptr <- seg_get index ;;
    r <- malloc_loop fuel new_block_size ptr index true ;;
    match r with
    | Some p => ret p
    | None =>
      newHeader <- extendHeap new_block_size ;;
      ret (getPayload newHeader)
    end.

(** The four branches of free.  Each returns the payload pointer and the
    list index that the final [addFreeBlock] of free receives. *)

(** Case 1: coalesce previous, current, and next blocks. *)
Definition free_case1 (header nextHeader prevFooter : Z) : M (Z * Z) :=
  psz <- getBlockSize prevFooter ;;
  let prevHeader := getPrevHeader header psz in
  nsz <- getBlockSize nextHeader ;;
  let nextFooter := getFooter nextHeader nsz in
  s1 <- getBlockSize prevHeader ;;
  let prevBlock_index := getFreeListIndex s1 in
  s2 <- getBlockSize nextHeader ;;
  let nextBlock_index := getFreeListIndex s2 in
  a <- getBlockSize prevHeader ;;
  b <- getBlockSize header ;;
  c <- getBlockSize nextHeader ;;
  let newSize := wrap64 (wrap64 (wrap64 (a + b) + c) + 2 * HEADER_SIZE) in
  let index := getFreeListIndex newSize in
  setBlockSize prevHeader newSize ;;;
  setBlockSize nextFooter newSize ;;;
  setFree prevHeader ;;;
  setFree nextFooter ;;;
  removeFreeBlock (ptr_add prevHeader (get8ByteAlignment HEADER_SIZE))
    prevBlock_index ;;;
  removeFreeBlock (ptr_add nextHeader (get8ByteAlignment HEADER_SIZE))
    nextBlock_index ;;;
  let ptr := getPayload prevHeader in
  last <- get_last ;;
  (if nextHeader =? last then put_last prevHeader else ret tt) ;;;
  ret (ptr, index).

(** Case 2: coalesce current and next blocks. *)
Definition free_case2 (ptr header nextHeader : Z) : M (Z * Z) :=
  nsz <- getBlockSize nextHeader ;;
  let nextFooter := getFooter nextHeader nsz in
  s2 <- getBlockSize nextHeader ;;
  let nextBlock_index := getFreeListIndex s2 in
  b <- getBlockSize header ;;
  c <- getBlockSize nextFooter ;;
  let newSize := wrap64 (wrap64 (b + c) + HEADER_SIZE) in
  let index := getFreeListIndex newSize in
  setBlockSize header newSize ;;;
  setBlockSize nextFooter newSize ;;;
  setFree nextFooter ;;;
  setFree header ;;;
  removeFreeBlock (ptr_add nextHeader (get8ByteAlignment HEADER_SIZE))
    nextBlock_index ;;;
  last <- get_last ;;
  (if nextHeader =? last then put_last header else ret tt) ;;;
  ret (ptr, index).

(** Case 3: coalesce current and previous blocks. *)
Definition free_case3 (header footer nextHeader prevFooter : Z) : M (Z * Z) :=
  psz <- getBlockSize prevFooter ;;
  let prevHeader := getPrevHeader header psz in
  s1 <- getBlockSize prevHeader ;;
  let prevBlock_index := getFreeListIndex s1 in
  a <- getBlockSize prevHeader ;;
  b <- getBlockSize header ;;
  let newSize := wrap64 (wrap64 (a + b) + HEADER_SIZE) in
  let index := getFreeListIndex newSize in
  setBlockSize footer newSize ;;;
  setBlockSize prevHeader newSize ;;;
  setFree prevHeader ;;;
  setFree footer ;;;
  removeFreeBlock (ptr_add prevHeader (get8ByteAlignment HEADER_SIZE))
    prevBlock_index ;;;
  let ptr := getPayload prevHeader in
  last <- get_last ;;
  (if negb (header =? last) then setPrevFree nextHeader
   else put_last prevHeader) ;;;
  ret (ptr, index).

(** Case 4: no coalescing. *)
Definition free_case4 (ptr header footer nextHeader block_size index : Z)
    : M (Z * Z) :=
  setBlockSize footer block_size ;;;
  setFree footer ;;;
  setFree header ;;;
  last <- get_last ;;
  (if negb (header =? last) then setPrevFree nextHeader else ret tt) ;;;
  ret (ptr, index).

Definition free (ptr : Z) : M unit :=
  inh <- in_heap ptr ;;
  if inh then
    let header := ptr - HEADER_SIZE in
    block_size <- getBlockSize header ;;
    let footer := getFooter header block_size in
    let index := getFreeListIndex block_size in
    let nextHeader := getNextHeader header block_size in
    last <- get_last ;;
    nextFree <- (if negb (header =? last) then isFree nextHeader else ret false) ;;
    lo <- mm_heap_lo ;;
    prevFree <- (if negb (ptr_sub header (get8ByteAlignment HEADER_SIZE) =? lo)
                 then isPrevFree header else ret false) ;;
    let prevFooter := getPrevFooter header in
    pi <-
      (if nextFree && prevFree then free_case1 header nextHeader prevFooter
       else if nextFree then free_case2 ptr header nextHeader
       else if prevFree then free_case3 header footer nextHeader prevFooter
       else free_case4 ptr header footer nextHeader block_size index) ;;
    addFreeBlock (fst pi) (snd pi)
  else ret tt.

Definition realloc (fuel : nat) (oldptr size : Z) : M Z :=
  if oldptr =? NULL then malloc fuel size
  else if size =? 0 then
    free oldptr ;;;
    ret NULL
  else
    newptr <- malloc fuel size ;;
    if newptr =? NULL then ret NULL
    else
      old_size <- getBlockSize (ptr_sub oldptr (get8ByteAlignment HEADER_SIZE)) ;;
      newptr <- (if size >? old_size then mm_memcpy newptr oldptr old_size
                 else mm_memcpy newptr oldptr size) ;;
      free oldptr ;;;
      ret newptr.

Definition calloc (fuel : nat) (nmemb size : Z) : M Z :=
  let size := wrap64 (size * nmemb) in
  ptr <- malloc fuel size ;;
  (if negb (ptr =? NULL) then memset ptr 0 size else ret tt) ;;;
  ret ptr.

(** [DEBUG] is not defined in the shipped source (the [#define] is commented
    out), so the preprocessor removes the whole checking body. *)
Definition mm_checkheap (lineno : Z) : M bool := ret true.

(** ** Weakest preconditions for the monad *)

(** [wpg N c st Q]: running [c] from [st] returns a result that satisfies
    [Q], or it does not return and [N] holds.  With [N := False] this is
    total correctness; the loop of malloc uses [N] to say that the fuel was
    too small. *)
Definition wpg {A} (N : Prop) (c : M A) (st : state)
    (Q : A -> state -> Prop) : Prop :=
  match c st with
  | Some (x, st') => Q x st'
  | None => N
  end.

Abbreviation wp := (wpg False).

(** ** The abstract heap

    A heap is described by the list of its blocks in address order, each
    with its payload size and allocated flag, and by the contents of the 15
    free lists (payload addresses, head first). *)

Definition block : Type := Z * bool.

Definition valid_size (n : Z) : Prop := 24 <= n /\ n mod 16 = 8.

(** Ceiling of [a / b] for positive [b]. *)
Definition ceil_div (a b : Z) : Z := - ((- a) / b).

Definition b2z (b : bool) : Z := if b then 1 else 0.

(** The header word of a block: size, allocated bit, previous-allocated bit. *)
Definition hdr (s : Z) (al pa : bool) : Z := s + b2z al + 2 * b2z pa.

(** Bytes occupied by a list of blocks, headers included. *)
Fixpoint total (bs : list block) : Z :=
  match bs with
  | [] => 0
  | (s, _) :: r => 8 + s + total r
  end.

(** The blocks with their header addresses, the first header at [a]. *)
Fixpoint blocks_at (a : Z) (bs : list block) : list (Z * Z * bool) :=
  match bs with
  | [] => []
  | (s, al) :: r => (a, s, al) :: blocks_at (a + 8 + s) r
  end.

(** Memory holds the boundary tags of [bs] from address [a] on; [pa] is the
    allocated flag of the block to the left. *)
Fixpoint layout (m : memory) (a : Z) (pa : bool) (bs : list block) : Prop :=
  match bs with
  | [] => True
  | (s, al) :: r =>
    load64 m a = hdr s al pa /\
    (al = false -> Z.land (load64 m (a + s)) 0xFFFFFFFFFFFFFFF8 = s) /\
    layout m (a + 8 + s) al r
  end.

Fixpoint adjacent_free (bs : list block) : bool :=
  match bs with
  | [] => false
  | (_, al) :: r =>
    match r with
    | (_, al') :: _ => (negb al && negb al') || adjacent_free r
    | [] => false
    end
  end.

(** Address of the header of the last block ([lo] when there is none). *)
Definition last_header (lo : Z) (bs : list block) : Z :=
  match bs with
  | [] => lo
  | _ => lo + 8 + total (removelast bs)
  end.

(** A doubly linked list segment in memory: [l] are the payload addresses
    from [h] on, [prev] is the back link of the first node and [nxt] the
    forward link of the last. *)
Fixpoint dllseg (m : memory) (prev h : Z) (l : list Z) (nxt : Z) : Prop :=
  match l with
  | [] => h = nxt
  | p :: l' =>
    h = p /\ p <> NULL /\ load64 m (p + 8) = prev /\
    dllseg m p (load64 m p) l' nxt
  end.

Definition dll (m : memory) (h : Z) (l : list Z) : Prop :=
  dllseg m NULL h l NULL.

(** Every free list of the state is a well-formed doubly linked list. *)
Definition lists_ok (st : state) (fls : Z -> list Z) : Prop :=
  forall i, 0 <= i < 15 ->
    exists h, segFreeList st !! Z.to_nat i = Some h /\ dll (mem st) h (fls i).

(** The block part of the invariant: the boundary tags in memory describe
    the block list [bs]. *)
Record heap_layout (st : state) (bs : list block) : Prop := mkHeapLayout {
  hl_lo : 0 < heap_lo st /\ heap_lo st mod 16 = 0;
  hl_brk : heap_brk st = heap_lo st + 8 + total bs;
  hl_max : heap_brk st <= heap_max st /\ heap_max st < 2 ^ 64;
  hl_seglen : length (segFreeList st) = 15%nat;
  hl_prologue : Z.land (load64 (mem st) (heap_lo st)) 0x1 = 1;
  hl_sizes : Forall (fun b : block => valid_size (fst b)) bs;
  hl_layout : layout (mem st) (heap_lo st + 8) true bs;
  hl_noadj : adjacent_free bs = false;
  hl_last : lastHeader st = last_header (heap_lo st) bs
}.

(** The heap invariant: the block list [bs] is laid out in memory, the
    free lists are well-formed, and their nodes are exactly the payloads of
    the free blocks, each in the list of its size class. *)
Record inv (st : state) (bs : list block) (fls : Z -> list Z) : Prop := mkInv {
  inv_heap : heap_layout st bs;
  inv_lists : lists_ok st fls;
  inv_nodup : forall i, NoDup (fls i);
  inv_members : forall i q, q ∈ fls i <->
    exists s, (q - 8, s, false) ∈ blocks_at (heap_lo st + 8) bs /\
              getFreeListIndex s = i
}.

Definition heap_ok (st : state) : Prop := exists bs fls, inv st bs fls.

(** Replace the contents of one free list. *)
Definition upd_list (fls : Z -> list Z) (i : Z) (l : list Z) : Z -> list Z :=
  fun j => if j =? i then l else fls j.

(** Remove an address from a list. *)
Fixpoint remove_addr (p : Z) (l : list Z) : list Z :=
  match l with
  | [] => []
  | q :: r => if q =? p then r else q :: remove_addr p r
  end.

(** The allocated flag of the last block of [l] ([pa] for the empty list). *)
Definition last_alloc (pa : bool) (l : list block) : bool :=
  match l with
  | [] => pa
  | _ => snd (List.last l (0, pa))
  end.

(** Allocated flag of the first block ([true] when there is none). *)
Definition head_alloc (l : list block) : bool :=
  match l with
  | [] => true
  | b :: _ => snd b
  end.

(** The bytes of a block that carry no boundary tag: the payload of an
    allocated block, the payload minus the footer of a free one. *)
Definition interior (b : Z * Z * bool) (x : Z) : Prop :=
  b.1.1 + 8 <= x < b.1.1 + b.1.2 + (if b.2 then 8 else 0).

(** The link cells (16 bytes each) of the nodes of one list do not overlap. *)
Definition cells_sep (l : list Z) : Prop :=
  forall q q', q ∈ l -> q' ∈ l -> q = q' \/ q + 16 <= q' \/ q' + 16 <= q.

(** The nodes of all lists lie in the heap, are pairwise apart and occur once. *)
Record cells_ok (st : state) (fls : Z -> list Z) : Prop := mkCellsOk {
  cells_apart : forall i j q q', q ∈ fls i -> q' ∈ fls j ->
    (q = q' /\ i = j) \/ q + 16 <= q' \/ q' + 16 <= q;
  cells_in : forall i q, q ∈ fls i ->
    0 <= i < 15 /\ q <> NULL /\ heap_lo st <= q /\ q + 16 <= heap_brk st;
  cells_nodup : forall i, NoDup (fls i)
}.

(** The last address of [l], or [d] when [l] is empty. *)
Fixpoint last_or (d : Z) (l : list Z) : Z :=
  match l with
  | [] => d
  | p :: l' => last_or p l'
  end.

(** Which branch free takes for the block with header [h] and payload size
    [s], given whether the right and the left neighbours are free. *)
Definition free_branch (h s : Z) (nf pf : bool) : M (Z * Z) :=
  if nf && pf then free_case1 h (h + 8 + s) (h - 8)
  else if nf then free_case2 (h + 8) h (h + 8 + s)
  else if pf then free_case3 h (h + s) (h + 8 + s) (h - 8)
  else free_case4 (h + 8) h (h + s) (h + 8 + s) s (getFreeListIndex s).

(** [x] lies outside the link cells of all free blocks of [bs]. *)
Definition outside_cells (a : Z) (bs : list block) (x : Z) : Prop :=
  forall a' s, (a', s, false) ∈ blocks_at a bs -> x < a' + 8 \/ a' + 24 <= x.

(** A free neighbour that free absorbs, if any, given by its payload size. *)
Definition nb (o : option Z) : list block :=
  match o with
  | Some z => [(z, false)]
  | None => []
  end.

(** Bytes that an absorbed neighbour adds to the freed block. *)
Definition nbsz (o : option Z) : Z :=
  match o with
  | Some z => 8 + z
  | None => 0
  end.

(** The free lists without the node [q] of an absorbed neighbour. *)
Definition drop_nb (o : option Z) (q : Z) (fls : Z -> list Z) : Z -> list Z :=
  match o with
  | Some z => upd_list fls (getFreeListIndex z) (remove_addr q (fls (getFreeListIndex z)))
  | None => fls
  end.

Definition is_some (o : option Z) : bool :=
  match o with
  | Some _ => true
  | None => false
  end.

(** The free lists after free: the nodes of the absorbed neighbours are
    gone and the merged block (header [a0], payload size [n]) heads the list
    of its size class. *)
Definition free_lists (op on : option Z) (a0 h s n : Z) (fls : Z -> list Z)
    : Z -> list Z :=
  let F2 := drop_nb on (h + 8 + s + 8) (drop_nb op (a0 + 8) fls) in
  upd_list F2 (getFreeListIndex n) (a0 + 8 :: F2 (getFreeListIndex n)).

(** The bounds of the heap are the same in both states. *)
Definition same_heap (st st' : state) : Prop :=
  heap_lo st' = heap_lo st /\ heap_brk st' = heap_brk st /\
  heap_max st' = heap_max st.

(** What malloc makes of a free victim of payload size [b] for the
    normalized request [n]. *)
Definition split_blocks (n b : Z) : list block :=
  if 32 <=? b - n then [(n, true); (b - n - 8, false)] else [(b, true)].

(** The free lists after malloc took the victim with header [h]: the
    remainder of a split heads the list of its size class, and the victim
    has left its list. *)
Definition split_lists (h n b : Z) (fls : Z -> list Z) : Z -> list Z :=
  let F1 := if 32 <=? b - n
            then upd_list fls (getFreeListIndex (b - n - 8))
                   (h + 8 + n + 8 :: fls (getFreeListIndex (b - n - 8)))
            else fls in
  upd_list F1 (getFreeListIndex b) (remove_addr (h + 8) (F1 (getFreeListIndex b))).

(** The first node of a list, [NULL] for the empty list. *)
Definition hd_or (l : list Z) : Z :=
  match l with
  | [] => NULL
  | p :: _ => p
  end.

(** The number of nodes in the [k] lists from index [i] on. *)
Fixpoint tail_len (fls : Z -> list Z) (k : nat) (i : Z) : nat :=
  match k with
  | O => O
  | S k' => (length (fls i) + tail_len fls k' (i + 1))%nat
  end.

(** Steps that malloc's loop needs at most, when it stands at the nodes
    [l2] of list [14 - k]. *)
Definition loop_steps (fls : Z -> list Z) (k : nat) (l2 : list Z)
    (nextList : bool) : nat :=
  (length l2 + tail_len fls k (14 - Z.of_nat k + 1) + k
   + (if nextList then 1 else 0))%nat.

(** The nodes of the [k] lists from index [i] on. *)
Fixpoint nodes (fls : Z -> list Z) (k : nat) (i : Z) : list Z :=
  match k with
  | O => []
  | S k' => fls i ++ nodes fls k' (i + 1)
  end.

(** [p] is the payload address of an allocated block of payload size [s]. *)
Definition allocated_at (st : state) (bs : list block) (p s : Z) : Prop :=
  (p - 8, s, true) ∈ blocks_at (heap_lo st + 8) bs.

(** ** Runs *)

(** The state in which a run ends (the start state when it faults). *)
Definition exec {A} (c : M A) (st : state) : state :=
  match c st with
  | Some (_, st') => st'
  | None => st
  end.

(** Modelled from the spec: the host heap before [mm_init], an empty region
    with low address [lo] that may grow up to [mx]; the globals of mm.c are
    zero-initialized. *)
Definition fresh_state (lo mx : Z) : state :=
  mkState (fun _ => 0) lo lo mx (replicate 15 0) 0.

(** The forward-coalescing scenario: three allocations of 40 bytes, then the
    first two are freed in order. *)
Definition coalesce_scenario (fuel : nat) : M (Z * Z * Z) :=
  mm_init ;;;
  a <- malloc fuel 40 ;;
  b <- malloc fuel 40 ;;
  c <- malloc fuel 40 ;;
  free a ;;;
  free b ;;;
  ret (a, b, c).

(** The public operations as requests; [run_request] returns the pointer
    that the operation returns ([NULL] for free). *)
Inductive request : Type :=
  | ReqMalloc (size : Z)
  | ReqFree (ptr : Z)
  | ReqRealloc (ptr size : Z)
  | ReqCalloc (nmemb size : Z).

Definition run_request (fuel : nat) (r : request) : M Z :=
  match r with
  | ReqMalloc size => malloc fuel size
  | ReqFree ptr => free ptr ;;; ret NULL
  | ReqRealloc ptr size => realloc fuel ptr size
  | ReqCalloc nmemb size => calloc fuel nmemb size
  end.

(** The arguments a caller may pass: sizes whose normalization does not
    wrap around, and for free and realloc a pointer that is null, outside
    the heap (free only) or the payload of an allocated block. *)
Definition valid_request (st : state) (bs : list block) (r : request) : Prop :=
  match r with
  | ReqMalloc size => 0 <= size <= 2 ^ 64 - 24
  | ReqFree ptr =>
      (ptr < heap_lo st \/ heap_brk st <= ptr) \/ exists s, allocated_at st bs ptr s
  | ReqRealloc ptr size =>
      0 <= size <= 2 ^ 64 - 24 /\ (ptr = NULL \/ exists s, allocated_at st bs ptr s)
  | ReqCalloc nmemb size => wrap64 (size * nmemb) <= 2 ^ 64 - 24
  end.

(** The extender cannot provide a block for [size] bytes. *)
Definition no_room (st : state) (size : Z) : Prop :=
  heap_max st < heap_brk st + 8 + newAlign size.

(** realloc and calloc use the pointer that malloc returns after a failed
    extension; this is when that can happen. *)
Definition uses_failed_malloc (st : state) (r : request) : Prop :=
  match r with
  | ReqMalloc _ => False
  | ReqFree _ => False
  | ReqRealloc ptr size => ptr <> NULL /\ 0 < size /\ no_room st size
  | ReqCalloc nmemb size =>
      0 < wrap64 (size * nmemb) /\ no_room st (wrap64 (size * nmemb))
  end.


(** The heap on which the statements below are exercised: the state after
    the forward-coalescing scenario on a fresh heap at 4096 that may grow
    to 5120. *)
Definition demo_heap : state :=
  exec (coalesce_scenario 32) (fresh_state 4096 5120).

(** ** Reading a boundary tag *)

(** The three fields of the tag word at [a]: payload size, free flag and
    previous-free flag, read with the accessors of mm.c. *)
Definition read_tag (a : Z) : M (Z * bool * bool) :=
  s <- getBlockSize a ;;
  f <- isFree a ;;
  p <- isPrevFree a ;;
  ret (s, f, p).

(** [x] is a byte of the payload of an allocated block of [bs], laid out
    from address [a]. *)
Definition untouchable (a : Z) (bs : list block) (x : Z) : Prop :=
  exists a' s, (a', s, true) ∈ blocks_at a bs /\ a' + 8 <= x < a' + 8 + s.

(** * Machine words *)

Ltac zdm := Z.to_euclidean_division_equations; lia.

Lemma wrap64_small x : 0 <= x < 2 ^ 64 -> wrap64 x = x.
Proof. intros H. unfold wrap64. apply Z.mod_small. exact H. Qed.

Lemma land_ldiff_l a b c : Z.land a (Z.ldiff b c) = Z.ldiff (Z.land a b) c.
Proof.
  apply Z.bits_inj'. intros n Hn.
  rewrite !Z.land_spec, !Z.ldiff_spec, !Z.land_spec.
  destruct (Z.testbit a n), (Z.testbit b n), (Z.testbit c n); reflexivity.
Qed.

Lemma land_mask_size w :
  0 <= w < 2 ^ 64 -> Z.land w 0xFFFFFFFFFFFFFFF8 = 8 * (w / 8).
Proof.
  intros Hw. change 0xFFFFFFFFFFFFFFF8 with (Z.ldiff (Z.ones 64) (Z.ones 3)).
  rewrite land_ldiff_l, Z.land_ones by lia.
  rewrite Z.mod_small by lia.
  rewrite Z.ldiff_ones_r by lia.
  rewrite Z.shiftl_mul_pow2, Z.shiftr_div_pow2 by lia.
  change (2 ^ 3) with 8. lia.
Qed.

Lemma land_mask_free w :
  0 <= w < 2 ^ 64 -> Z.land w 0xFFFFFFFFFFFFFFFE = 2 * (w / 2).
Proof.
  intros Hw. change 0xFFFFFFFFFFFFFFFE with (Z.ldiff (Z.ones 64) (Z.ones 1)).
  rewrite land_ldiff_l, Z.land_ones by lia.
  rewrite Z.mod_small by lia.
  rewrite Z.ldiff_ones_r by lia.
  rewrite Z.shiftl_mul_pow2, Z.shiftr_div_pow2 by lia.
  change (2 ^ 1) with 2. lia.
Qed.

Lemma land_7 w : Z.land w 0x7 = w mod 8.
Proof. change 0x7 with (Z.ones 3). rewrite Z.land_ones by lia. reflexivity. Qed.

Lemma land_1 w : Z.land w 0x1 = w mod 2.
Proof. change 0x1 with (Z.ones 1). rewrite Z.land_ones by lia. reflexivity. Qed.

Lemma land_2 w : Z.land w 0x2 = 2 * ((w / 2) mod 2).
Proof.
  rewrite <- land_1. change 2 with (2 ^ 1) at 2 3.
  rewrite <- Z.shiftr_div_pow2, <- (Z.mul_comm _ (2 ^ 1)), <- Z.shiftl_mul_pow2 by lia.
  apply Z.bits_inj'. intros n Hn.
  destruct (Z.eq_dec n 0) as [->|Hn0].
  - rewrite Z.land_spec, Z.shiftl_spec_low by lia.
    change (Z.testbit 2 0) with false. apply andb_false_r.
  - rewrite Z.land_spec, Z.shiftl_spec, Z.land_spec, Z.shiftr_spec by lia.
    replace (n - 1 + 1) with n by lia.
    change 2 with (Z.shiftl 1 1). rewrite Z.shiftl_spec by lia. reflexivity.
Qed.

Lemma lor_plus a b : Z.lor a b = a + b - Z.land a b.
Proof. pose proof (Z.add_lor_land a b). lia. Qed.

Lemma land_mask_prev w :
  0 <= w < 2 ^ 64 -> Z.land w 0xFFFFFFFFFFFFFFFD = w - 2 * ((w / 2) mod 2).
Proof.
  intros Hw. change 0xFFFFFFFFFFFFFFFD with (Z.ldiff (Z.ones 64) 2).
  rewrite land_ldiff_l, Z.land_ones by lia.
  rewrite Z.mod_small by lia.
  rewrite <- land_2.
  rewrite (Z.sub_nocarry_ldiff w (Z.land w 2)).
  - apply Z.bits_inj'. intros n Hn.
    rewrite !Z.ldiff_spec, Z.land_spec.
    destruct (Z.testbit w n), (Z.testbit 2 n); reflexivity.
  - apply Z.bits_inj'. intros n Hn.
    rewrite !Z.ldiff_spec, Z.land_spec, Z.bits_0.
    destruct (Z.testbit w n), (Z.testbit 2 n); reflexivity.
Qed.

Lemma lor_1 w : Z.lor w 0x1 = w + 1 - w mod 2.
Proof. rewrite lor_plus, land_1. reflexivity. Qed.

Lemma lor_2 w : Z.lor w 0x2 = w + 2 - 2 * ((w / 2) mod 2).
Proof. rewrite lor_plus, land_2. reflexivity. Qed.

Lemma land_small_mul8 r k : 0 <= r < 8 -> Z.land r (8 * k) = 0.
Proof.
  intros Hr. apply Z.bits_inj'. intros n Hn. rewrite Z.land_spec, Z.bits_0.
  destruct (Z.lt_ge_cases n 3).
  - replace (8 * k) with (k * 2 ^ 3) by lia.
    rewrite Z.mul_pow2_bits_low by lia. apply andb_false_r.
  - rewrite (Z.bits_above_log2 r n); [reflexivity | lia |].
    destruct (Z.eq_dec r 0) as [->|]; [simpl; lia|].
    apply Z.log2_lt_pow2; [lia|]. 
    apply Z.lt_le_trans with (2 ^ 3); [simpl; lia|].
    apply Z.pow_le_mono_r; lia.
Qed.

Lemma lor_low_size w s : s mod 8 = 0 -> Z.lor (Z.land w 0x7) s = w mod 8 + s.
Proof.
  intros Hs. rewrite land_7, lor_plus.
  replace s with (8 * (s / 8)) at 2 by zdm.
  rewrite land_small_mul8 by zdm. lia.
Qed.

(** Accessors applied to a well-formed header word. *)

Section HeaderWords.
Variables (s : Z) (al pa : bool).
Hypothesis Hs8 : s mod 8 = 0.
Hypothesis Hs : 0 <= s < 2 ^ 64 - 8.

Lemma hdr_range : 0 <= hdr s al pa < 2 ^ 64.
Proof. unfold hdr, b2z. destruct al, pa; zdm. Qed.

Lemma hdr_size : Z.land (hdr s al pa) 0xFFFFFFFFFFFFFFF8 = s.
Proof.
  rewrite land_mask_size by apply hdr_range.
  unfold hdr, b2z. destruct al, pa; zdm.
Qed.

Lemma hdr_isFree : (Z.land (hdr s al pa) 0x1 =? 0) = negb al.
Proof.
  rewrite land_1. unfold hdr, b2z.
  destruct al, pa; simpl; [apply Z.eqb_neq|apply Z.eqb_neq|apply Z.eqb_eq|apply Z.eqb_eq]; zdm.
Qed.

Lemma hdr_isPrevFree : (Z.land (hdr s al pa) 0x2 =? 0) = negb pa.
Proof.
  rewrite land_2. unfold hdr, b2z.
  destruct al, pa; simpl; [apply Z.eqb_neq|apply Z.eqb_eq|apply Z.eqb_neq|apply Z.eqb_eq]; zdm.
Qed.

Lemma hdr_setAlloc : Z.lor (hdr s al pa) 0x1 = hdr s true pa.
Proof. rewrite lor_1. unfold hdr, b2z. destruct al, pa; zdm. Qed.

Lemma hdr_setFree : Z.land (hdr s al pa) 0xFFFFFFFFFFFFFFFE = hdr s false pa.
Proof.
  rewrite land_mask_free by apply hdr_range.
  unfold hdr, b2z. destruct al, pa; zdm.
Qed.

Lemma hdr_setPrevAlloc : Z.lor (hdr s al pa) 0x2 = hdr s al true.
Proof. rewrite lor_2. unfold hdr, b2z. destruct al, pa; zdm. Qed.

Lemma hdr_setPrevFree : Z.land (hdr s al pa) 0xFFFFFFFFFFFFFFFD = hdr s al false.
Proof.
  rewrite land_mask_prev by apply hdr_range.
  unfold hdr, b2z. destruct al, pa; zdm.
Qed.

Lemma hdr_low : Z.land (hdr s al pa) 0x7 = hdr 0 al pa.
Proof. rewrite land_7. unfold hdr, b2z. destruct al, pa; zdm. Qed.

End HeaderWords.

Lemma hdr_setBlockSize al pa s' :
  s' mod 8 = 0 -> Z.lor (hdr 0 al pa) s' = hdr s' al pa.
Proof.
  intros Hs'. rewrite <- (Z.mod_small (hdr 0 al pa) 8), <- land_7.
  - rewrite lor_low_size by assumption. unfold hdr, b2z. destruct al, pa; zdm.
  - unfold hdr, b2z. destruct al, pa; lia.
Qed.

(** A footer word keeps whatever low bits the payload held. *)
Lemma footer_size w s :
  0 <= s < 2 ^ 64 - 8 -> s mod 8 = 0 ->
  Z.land (Z.land (Z.lor (Z.land w 0x7) s) 0xFFFFFFFFFFFFFFFE) 0xFFFFFFFFFFFFFFF8 = s.
Proof.
  intros Hs Hs8. rewrite lor_low_size by assumption.
  rewrite land_mask_free by zdm. rewrite land_mask_size by zdm. zdm.
Qed.

Lemma footer_size0 w s :
  0 <= s < 2 ^ 64 - 8 -> s mod 8 = 0 ->
  Z.land (Z.lor (Z.land w 0x7) s) 0xFFFFFFFFFFFFFFF8 = s.
Proof.
  intros Hs Hs8. rewrite lor_low_size by assumption.
  rewrite land_mask_size by zdm. zdm.
Qed.

Lemma footer_word_range w s :
  0 <= s < 2 ^ 64 - 8 -> s mod 8 = 0 ->
  0 <= Z.lor (Z.land w 0x7) s < 2 ^ 64.
Proof. intros Hs Hs8. rewrite lor_low_size by assumption. zdm. Qed.

Lemma footer_free_range w :
  0 <= w < 2 ^ 64 -> 0 <= Z.land w 0xFFFFFFFFFFFFFFFE < 2 ^ 64.
Proof. intros Hw. rewrite land_mask_free by assumption. zdm. Qed.

(** * Memory *)

Lemma load_le_range m a n : 0 <= load_le m a n < 256 ^ Z.of_nat n.
Proof.
  revert a. induction n as [|n IH]; intros a.
  - simpl. lia.
  - rewrite Nat2Z.inj_succ, Z.pow_succ_r by lia. simpl.
    specialize (IH (a + 1)). pose proof (Z.mod_pos_bound (m a) 256). lia.
Qed.

Lemma load64_range m a : 0 <= load64 m a < 2 ^ 64.
Proof. apply (load_le_range m a 8). Qed.

Lemma load_le_ext m m' a n :
  (forall x, a <= x < a + Z.of_nat n -> m' x = m x) ->
  load_le m' a n = load_le m a n.
Proof.
  revert a. induction n as [|n IH]; intros a H; simpl; [reflexivity|].
  rewrite H by lia. rewrite IH; [reflexivity|]. intros x Hx. apply H. lia.
Qed.

Lemma load64_ext m m' a :
  (forall x, a <= x < a + 8 -> m' x = m x) -> load64 m' a = load64 m a.
Proof. intros H. apply load_le_ext. exact H. Qed.

Lemma load_le_store m a v k n :
  0 <= k -> k + Z.of_nat n <= 8 ->
  load_le (store64 m a v) (a + k) n = (v / 256 ^ k) mod 256 ^ Z.of_nat n.
Proof.
  revert k. induction n as [|n IH]; intros k Hk Hkn.
  - simpl. rewrite Z.mod_1_r. reflexivity.
  - rewrite Nat2Z.inj_succ, Z.pow_succ_r by lia. cbn [load_le].
    replace (a + k + 1) with (a + (k + 1)) by lia.
    rewrite IH by lia.
    unfold store64.
    replace ((a <=? a + k) && (a + k <? a + 8)) with true
      by (symmetry; apply andb_true_iff; split; [apply Z.leb_le|apply Z.ltb_lt]; lia).
    unfold byte_of. replace (a + k - a) with k by lia.
    replace (2 ^ (8 * k)) with (256 ^ k)
      by (change 256 with (2 ^ 8); rewrite <- Z.pow_mul_r by lia; reflexivity).
    rewrite Z.mod_mod by lia.
    rewrite Z.pow_add_r, Z.pow_1_r by lia.
    rewrite <- Z.div_div by (try apply Z.pow_pos_nonneg; lia).
    assert (0 < 256 ^ Z.of_nat n) by (apply Z.pow_pos_nonneg; lia).
    rewrite Z.rem_mul_r by lia. reflexivity.
Qed.

Lemma load64_store64_same m a v : load64 (store64 m a v) a = v mod 2 ^ 64.
Proof.
  unfold load64. pose proof (load_le_store m a v 0 8) as H.
  rewrite Z.add_0_r, Z.pow_0_r, Z.div_1_r in H. apply H; simpl; lia.
Qed.

Lemma load64_store64_eq m a v : 0 <= v < 2 ^ 64 -> load64 (store64 m a v) a = v.
Proof. intros H. rewrite load64_store64_same. apply Z.mod_small. exact H. Qed.

Lemma store64_other m a v x : x < a \/ a + 8 <= x -> store64 m a v x = m x.
Proof.
  intros H. unfold store64.
  destruct (a <=? x) eqn:E1; [|reflexivity].
  destruct (x <? a + 8) eqn:E2; [|reflexivity].
  apply Z.leb_le in E1. apply Z.ltb_lt in E2. lia.
Qed.

Lemma load64_store64_other m a v b :
  b + 8 <= a \/ a + 8 <= b -> load64 (store64 m a v) b = load64 m b.
Proof. intros H. apply load64_ext. intros x Hx. apply store64_other. lia. Qed.

Lemma fill_bytes_in m dst c n x : dst <= x < dst + n -> fill_bytes m dst c n x = c mod 256.
Proof.
  intros H. unfold fill_bytes.
  replace ((dst <=? x) && (x <? dst + n)) with true; [reflexivity|].
  symmetry. apply andb_true_iff. split; [apply Z.leb_le|apply Z.ltb_lt]; lia.
Qed.

Lemma fill_bytes_out m dst c n x : x < dst \/ dst + n <= x -> fill_bytes m dst c n x = m x.
Proof.
  intros H. unfold fill_bytes.
  destruct (dst <=? x) eqn:E1; [|reflexivity].
  destruct (x <? dst + n) eqn:E2; [|reflexivity].
  apply Z.leb_le in E1. apply Z.ltb_lt in E2. lia.
Qed.

Lemma copy_bytes_in m dst src n x :
  dst <= x < dst + n -> copy_bytes m dst src n x = m (src + (x - dst)).
Proof.
  intros H. unfold copy_bytes.
  replace ((dst <=? x) && (x <? dst + n)) with true; [reflexivity|].
  symmetry. apply andb_true_iff. split; [apply Z.leb_le|apply Z.ltb_lt]; lia.
Qed.

Lemma copy_bytes_out m dst src n x :
  x < dst \/ dst + n <= x -> copy_bytes m dst src n x = m x.
Proof.
  intros H. unfold copy_bytes.
  destruct (dst <=? x) eqn:E1; [|reflexivity].
  destruct (x <? dst + n) eqn:E2; [|reflexivity].
  apply Z.leb_le in E1. apply Z.ltb_lt in E2. lia.
Qed.

(** * Rules of the weakest-precondition calculus *)

Section WpRules.
Context {A B : Type} (N : Prop).

Lemma wpg_bind (c : M A) (k : A -> M B) st Q :
  wpg N c st (fun x st' => wpg N (k x) st' Q) -> wpg N (bind c k) st Q.
Proof. unfold wpg, bind. destruct (c st) as [[x st']|]; auto. Qed.

Lemma wpg_ret (x : A) st (Q : A -> state -> Prop) : Q x st -> wpg N (ret x) st Q.
Proof. auto. Qed.

Lemma wpg_conseq (c : M A) st (Q Q' : A -> state -> Prop) :
  wpg N c st Q -> (forall x st', Q x st' -> Q' x st') -> wpg N c st Q'.
Proof. unfold wpg. destruct (c st) as [[x st']|]; auto. Qed.

Lemma wp_wpg (c : M A) st (Q : A -> state -> Prop) : wp c st Q -> wpg N c st Q.
Proof. unfold wpg. destruct (c st) as [[x st']|]; [auto|tauto]. Qed.

Lemma wpg_elim (c : M A) st (Q : A -> state -> Prop) x st' :
  wpg N c st Q -> c st = Some (x, st') -> Q x st'.
Proof. unfold wpg. intros H E. rewrite E in H. exact H. Qed.

Lemma wp_result (c : M A) st (Q : A -> state -> Prop) :
  wp c st Q -> exists x st', c st = Some (x, st') /\ Q x st'.
Proof. unfold wpg. destruct (c st) as [[x st']|]; [eauto|tauto]. Qed.

Lemma wpg_intro (c : M A) st (Q : A -> state -> Prop) x st' :
  c st = Some (x, st') -> Q x st' -> wpg N c st Q.
Proof. unfold wpg. intros ->. auto. Qed.
End WpRules.

Lemma in_bounds_true st a n :
  heap_lo st <= a -> a + n <= heap_brk st -> in_bounds st a n = true.
Proof.
  intros H1 H2. unfold in_bounds. apply andb_true_iff.
  split; apply Z.leb_le; assumption.
Qed.

Section WpPrims.
Context (N : Prop).

Lemma wpg_load a st Q :
  heap_lo st <= a -> a + 8 <= heap_brk st ->
  Q (load64 (mem st) a) st -> wpg N (load a) st Q.
Proof. intros H1 H2 HQ. unfold wpg, load. rewrite in_bounds_true by assumption. exact HQ. Qed.

Lemma wpg_store a v st Q :
  heap_lo st <= a -> a + 8 <= heap_brk st ->
  Q tt (set_mem st (store64 (mem st) a v)) -> wpg N (store a v) st Q.
Proof. intros H1 H2 HQ. unfold wpg, store. rewrite in_bounds_true by assumption. exact HQ. Qed.

Lemma wpg_seg_get i h st Q :
  0 <= i -> segFreeList st !! Z.to_nat i = Some h ->
  Q h st -> wpg N (seg_get i) st Q.
Proof.
  intros H1 H2 HQ. unfold wpg, seg_get.
  destruct (Z.ltb_spec i 0); [lia|]. rewrite H2. exact HQ.
Qed.

Lemma wpg_seg_set i v st Q :
  0 <= i < Z.of_nat (length (segFreeList st)) ->
  Q tt (set_seg st (<[Z.to_nat i := v]> (segFreeList st))) ->
  wpg N (seg_set i v) st Q.
Proof.
  intros H1 HQ. unfold wpg, seg_set.
  destruct (Z.leb_spec 0 i); [|lia].
  destruct (Z.ltb_spec i (Z.of_nat (length (segFreeList st)))); [|lia].
  exact HQ.
Qed.

Lemma wpg_get_last st Q : Q (lastHeader st) st -> wpg N get_last st Q.
Proof. auto. Qed.

Lemma wpg_put_last h st Q : Q tt (set_last st h) -> wpg N (put_last h) st Q.
Proof. auto. Qed.

Lemma wpg_mm_heap_lo st Q : Q (heap_lo st) st -> wpg N mm_heap_lo st Q.
Proof. auto. Qed.

Lemma wpg_mm_heap_hi st Q : Q (heap_brk st - 1) st -> wpg N mm_heap_hi st Q.
Proof. auto. Qed.
End WpPrims.

(** * Geometry of the block list *)

Lemma total_app l1 l2 : total (l1 ++ l2) = total l1 + total l2.
Proof. induction l1 as [|[s al] l1 IH]; simpl; lia. Qed.

Lemma blocks_at_app a l1 l2 :
  blocks_at a (l1 ++ l2) = blocks_at a l1 ++ blocks_at (a + total l1) l2.
Proof.
  revert a. induction l1 as [|[s al] l1 IH]; intros a; simpl.
  - f_equal. lia.
  - rewrite IH. do 3 f_equal. lia.
Qed.

Lemma valid_size_pos s : valid_size s -> 24 <= s /\ s mod 8 = 0 /\ s mod 16 = 8.
Proof. unfold valid_size. intros [H1 H2]. repeat split; try assumption. zdm. Qed.

Lemma total_nonneg bs : Forall (fun b : block => valid_size (fst b)) bs -> 0 <= total bs.
Proof.
  induction 1 as [|[s al] bs H _ IH]; simpl; [lia|].
  simpl in H. destruct H. lia.
Qed.

Lemma total_mod16 bs :
  Forall (fun b : block => valid_size (fst b)) bs -> total bs mod 16 = 0.
Proof.
  induction 1 as [|[s al] bs H _ IH]; simpl; [reflexivity|].
  simpl in H. destruct H. zdm.
Qed.

Lemma blocks_at_bounds a bs a' s al :
  Forall (fun b : block => valid_size (fst b)) bs ->
  (a', s, al) ∈ blocks_at a bs ->
  a <= a' /\ a' + 8 + s <= a + total bs /\ valid_size s /\ (s, al) ∈ bs.
Proof.
  intros Hv. revert a. induction Hv as [|[s0 al0] bs H Hv IH]; intros a Hin; simpl in *.
  - inversion Hin.
  - apply elem_of_cons in Hin. destruct Hin as [E|Hin].
    + injection E as -> -> ->. pose proof (total_nonneg bs Hv).
      pose proof H as [? ?].
      split; [lia|]. split; [lia|]. split; [exact H|]. apply elem_of_cons; auto.
    + specialize (IH _ Hin). pose proof H as [? ?].
      destruct IH as (? & ? & ? & ?).
      split; [lia|]. split; [lia|]. split; [assumption|]. apply elem_of_cons; auto.
Qed.

Lemma blocks_at_sep a bs b1 b2 :
  Forall (fun b : block => valid_size (fst b)) bs ->
  b1 ∈ blocks_at a bs -> b2 ∈ blocks_at a bs ->
  b1 = b2 \/
  b1.1.1 + 8 + b1.1.2 <= b2.1.1 \/ b2.1.1 + 8 + b2.1.2 <= b1.1.1.
Proof.
  intros Hv. revert a. induction Hv as [|[s0 al0] bs H Hv IH]; intros a H1 H2; simpl in *.
  - inversion H1.
  - apply elem_of_cons in H1. apply elem_of_cons in H2.
    destruct b1 as [[a1 s1] al1], b2 as [[a2 s2] al2]. simpl.
    destruct H1 as [E1|H1], H2 as [E2|H2].
    + left. congruence.
    + injection E1 as -> -> ->. apply (blocks_at_bounds _ _ _ _ _ Hv) in H2. lia.
    + injection E2 as -> -> ->. apply (blocks_at_bounds _ _ _ _ _ Hv) in H1. lia.
    + apply (IH _ H1 H2).
Qed.

Lemma blocks_at_split a bs a' s al :
  (a', s, al) ∈ blocks_at a bs ->
  exists pre post, bs = pre ++ (s, al) :: post /\ a' = a + total pre.
Proof.
  revert a. induction bs as [|[s0 al0] bs IH]; intros a Hin; simpl in *.
  - inversion Hin.
  - apply elem_of_cons in Hin. destruct Hin as [E|Hin].
    + injection E as -> -> ->. exists [], bs. simpl. split; [reflexivity|lia].
    + destruct (IH _ Hin) as (pre & post & -> & ->).
      exists ((s0, al0) :: pre), post. simpl. split; [reflexivity|lia].
Qed.

Lemma blocks_at_mid a pre s al post :
  (a + total pre, s, al) ∈ blocks_at a (pre ++ (s, al) :: post).
Proof. rewrite blocks_at_app. apply elem_of_app. right. simpl. apply elem_of_cons; auto. Qed.

Lemma last_alloc_cons pa b l : last_alloc pa (b :: l) = last_alloc (snd b) l.
Proof.
  unfold last_alloc. destruct l as [|c l]; [reflexivity|].
  change (List.last (b :: c :: l) (0, pa)) with (List.last (c :: l) (0, pa)).
  revert c. induction l as [|d l IH]; intros c; [reflexivity|].
  change (List.last (c :: d :: l) (0, pa)) with (List.last (d :: l) (0, pa)).
  change (List.last (c :: d :: l) (0, b.2)) with (List.last (d :: l) (0, b.2)).
  apply IH.
Qed.

Lemma last_alloc_snoc pa l b : last_alloc pa (l ++ [b]) = snd b.
Proof.
  revert pa. induction l as [|c l IH]; intros pa; [reflexivity|].
  change ((c :: l) ++ [b]) with (c :: (l ++ [b])). rewrite last_alloc_cons. apply IH.
Qed.

Lemma layout_app m a pa l1 l2 :
  layout m a pa (l1 ++ l2) <->
  layout m a pa l1 /\ layout m (a + total l1) (last_alloc pa l1) l2.
Proof.
  revert a pa. induction l1 as [|[s al] l1 IH]; intros a pa.
  - simpl. replace (a + 0) with a by lia. tauto.
  - change (((s, al) :: l1) ++ l2) with ((s, al) :: (l1 ++ l2)).
    rewrite last_alloc_cons. cbn [layout total snd].
    rewrite IH. replace (a + 8 + s + total l1) with (a + (8 + s + total l1)) by lia.
    tauto.
Qed.

Lemma layout_frame m m' a pa bs :
  Forall (fun b : block => valid_size (fst b)) bs ->
  (forall x, a <= x < a + total bs ->
             (forall b, b ∈ blocks_at a bs -> ~ interior b x) -> m' x = m x) ->
  layout m a pa bs -> layout m' a pa bs.
Proof.
  intros Hv. revert a pa. induction Hv as [|[s al] bs H Hv IH]; intros a pa Hf HL.
  - exact I.
  - cbn [layout] in *. destruct HL as (H1 & H2 & H3).
    simpl in H. destruct H as [Hs Hs16]. pose proof (total_nonneg bs Hv) as Ht.
    cbn [total blocks_at] in Hf.
    assert (Hout : forall x, (a <= x < a + 8 \/ (al = false /\ a + s <= x < a + s + 8)) ->
                             m' x = m x).
    { intros x Hx. apply Hf; [lia|]. intros b Hb. apply elem_of_cons in Hb.
      unfold interior. destruct Hb as [->|Hb]; simpl.
      - destruct al; lia.
      - destruct b as [[a' s'] al']. apply (blocks_at_bounds _ _ _ _ _ Hv) in Hb. simpl. lia. }
    split; [|split].
    + rewrite <- H1. apply load64_ext. intros x Hx. apply Hout. lia.
    + intros Hal. rewrite (load64_ext m m' (a + s)); [apply H2; exact Hal|].
      intros x Hx. apply Hout. right. split; [exact Hal|lia].
    + apply IH; [|exact H3]. intros x Hx Hb. apply Hf; [lia|].
      intros b Hin. apply elem_of_cons in Hin. destruct Hin as [->|Hin]; [|auto].
      unfold interior; simpl. destruct al; lia.
Qed.

Lemma adjacent_free_cons b l :
  adjacent_free (b :: l) = false <->
  adjacent_free l = false /\ (snd b = false -> last_alloc true (rev (firstn 1 l)) = true).
Proof.
  destruct b as [s al]. destruct l as [|[s' al'] l].
  - simpl. tauto.
  - cbn [adjacent_free firstn rev app last_alloc snd]. simpl List.last. simpl snd.
    rewrite orb_false_iff, andb_false_iff.
    destruct al, al'; simpl; intuition congruence.
Qed.

Lemma adjacent_free_cons' b l :
  adjacent_free (b :: l) = false <->
  adjacent_free l = false /\ (snd b = true \/ head_alloc l = true).
Proof.
  destruct b as [s al]. destruct l as [|[s' al'] l].
  - simpl. destruct al; intuition.
  - cbn [adjacent_free head_alloc snd].
    rewrite orb_false_iff, andb_false_iff.
    destruct al, al'; simpl; intuition congruence.
Qed.

Lemma adjacent_free_app l1 l2 :
  adjacent_free (l1 ++ l2) = false <->
  adjacent_free l1 = false /\ adjacent_free l2 = false /\
  (last_alloc true l1 = true \/ head_alloc l2 = true).
Proof.
  induction l1 as [|b l1 IH].
  - simpl. intuition.
  - change ((b :: l1) ++ l2) with (b :: (l1 ++ l2)).
    rewrite !adjacent_free_cons', IH, last_alloc_cons.
    destruct l1 as [|c l1].
    + simpl. destruct (snd b); intuition.
    + change (head_alloc ((c :: l1) ++ l2)) with (snd c).
      change (head_alloc (c :: l1)) with (snd c).
      rewrite (last_alloc_cons (snd b)), (last_alloc_cons true). tauto.
Qed.

Lemma last_header_snoc lo bs b : last_header lo (bs ++ [b]) = lo + 8 + total bs.
Proof.
  unfold last_header. destruct (bs ++ [b]) eqn:E.
  - destruct bs; discriminate.
  - rewrite <- E. rewrite removelast_last. reflexivity.
Qed.

Lemma last_header_mid lo pre b c post :
  last_header lo (pre ++ b :: c :: post) =
  last_header (lo + total pre + 8 + fst b) (c :: post).
Proof.
  revert pre b c. induction post as [|d post IH] using rev_ind; intros pre b c.
  - change (pre ++ [b; c]) with (pre ++ [b] ++ [c]). rewrite app_assoc.
    rewrite last_header_snoc, total_app. change [c] with ([] ++ [c]).
    rewrite last_header_snoc. destruct b. simpl. lia.
  - replace (pre ++ b :: c :: post ++ [d]) with ((pre ++ b :: c :: post) ++ [d])
      by (rewrite <- app_assoc; reflexivity).
    rewrite last_header_snoc.
    change (c :: post ++ [d]) with ((c :: post) ++ [d]). rewrite last_header_snoc.
    rewrite total_app. destruct b, c. simpl. lia.
Qed.

(** * Doubly linked lists in memory *)

Ltac elem :=
  repeat first [rewrite elem_of_app | rewrite elem_of_cons | rewrite elem_of_nil];
  tauto.

Ltac wsimpl :=
  cbv beta iota delta [heap_lo heap_brk heap_max mem segFreeList lastHeader
                       set_mem set_seg set_last set_brk].
Ltac wbounds := wsimpl; lia.
Ltac wstore := apply wpg_store; [wbounds|wbounds|wsimpl].
Ltac wload := apply wpg_load; [wbounds|wbounds|wsimpl].

Lemma last_or_elem_of l d : l <> [] -> last_or d l ∈ l.
Proof.
  revert d. induction l as [|p l IH]; intros d Hne; [congruence|].
  simpl. destruct l as [|q l].
  - simpl. apply elem_of_cons; auto.
  - apply elem_of_cons. right. apply IH. congruence.
Qed.

Lemma last_or_nonempty l d d' : l <> [] -> last_or d l = last_or d' l.
Proof. destruct l; [congruence|reflexivity]. Qed.

Lemma last_or_snoc l d x : last_or d (l ++ [x]) = x.
Proof. revert d. induction l as [|p l IH]; intros d; simpl; auto. Qed.

Lemma dllseg_frame m m' prev h l nxt :
  (forall q x, q ∈ l -> q <= x < q + 16 -> m' x = m x) ->
  dllseg m prev h l nxt -> dllseg m' prev h l nxt.
Proof.
  revert prev h. induction l as [|p l IH]; intros prev h Hf H; simpl in *; [exact H|].
  destruct H as (-> & Hp & Hprev & Hrest).
  assert (Hp8 : load64 m' (p + 8) = load64 m (p + 8)).
  { apply load64_ext. intros x Hx. apply (Hf p); [apply elem_of_cons; auto|lia]. }
  assert (Hp0 : load64 m' p = load64 m p).
  { apply load64_ext. intros x Hx. apply (Hf p); [apply elem_of_cons; auto|lia]. }
  repeat split; try assumption; try congruence.
  rewrite Hp0. apply IH; [|exact Hrest].
  intros q x Hq Hx. apply (Hf q); [apply elem_of_cons; auto|lia].
Qed.

Lemma dllseg_app m prev h l1 l2 nxt :
  dllseg m prev h (l1 ++ l2) nxt <->
  exists mid, dllseg m prev h l1 mid /\ dllseg m (last_or prev l1) mid l2 nxt.
Proof.
  revert prev h. induction l1 as [|p l1 IH]; intros prev h.
  - simpl. split.
    + intros H. exists h. auto.
    + intros (mid & -> & H). exact H.
  - change ((p :: l1) ++ l2) with (p :: (l1 ++ l2)). cbn [dllseg last_or]. split.
    + intros (-> & Hp & Hprev & H). apply IH in H. destruct H as (mid & H1 & H2).
      exists mid. auto.
    + intros (mid & (-> & Hp & Hprev & H1) & H2).
      repeat split; try assumption. apply IH. exists mid. auto.
Qed.

Lemma cells_sep_cons p l : cells_sep (p :: l) -> cells_sep l.
Proof. intros H q q' Hq Hq'. apply H; apply elem_of_cons; auto. Qed.

Lemma cells_sep_app_l l1 l2 : cells_sep (l1 ++ l2) -> cells_sep l1.
Proof. intros H q q' Hq Hq'. apply H; apply elem_of_app; auto. Qed.

Lemma cells_sep_app_r l1 l2 : cells_sep (l1 ++ l2) -> cells_sep l2.
Proof. intros H q q' Hq Hq'. apply H; apply elem_of_app; auto. Qed.

(** Rewriting the forward link of the last node of a segment. *)
Lemma dllseg_relink m prev h l nxt v d :
  l <> [] -> NoDup l -> cells_sep l -> 0 <= v < 2 ^ 64 ->
  dllseg m prev h l nxt ->
  dllseg (store64 m (last_or d l) v) prev h l v.
Proof.
  intros Hne Hnd Hsep Hv. revert prev h d Hne.
  induction l as [|p l IH]; intros prev h d Hne H; [congruence|].
  destruct H as (-> & Hp & Hprev & Hrest).
  apply NoDup_cons in Hnd. destruct Hnd as [Hpl Hnd].
  destruct l as [|q l].
  - simpl in *. split; [reflexivity|]. split; [assumption|]. split.
    + rewrite load64_store64_other by lia. exact Hprev.
    + rewrite load64_store64_eq by assumption. reflexivity.
  - assert (Hlast : last_or p (q :: l) ∈ q :: l) by (apply last_or_elem_of; congruence).
    assert (Hlp : last_or p (q :: l) + 16 <= p \/ p + 16 <= last_or p (q :: l)).
    { destruct (Hsep (last_or p (q :: l)) p) as [E|E];
        [apply elem_of_cons; auto|apply elem_of_cons; auto| |lia].
      rewrite E in Hlast. contradiction. }
    change (last_or d (p :: q :: l)) with (last_or p (q :: l)).
    split; [reflexivity|]. split; [assumption|]. split.
    + rewrite load64_store64_other by lia. exact Hprev.
    + rewrite load64_store64_other by lia.
      apply IH; try assumption; try congruence.
      apply cells_sep_cons in Hsep. exact Hsep.
Qed.

Lemma remove_addr_mid p l1 l2 : p ∉ l1 -> remove_addr p (l1 ++ p :: l2) = l1 ++ l2.
Proof.
  induction l1 as [|q l1 IH]; intros Hp; simpl.
  - rewrite Z.eqb_refl. reflexivity.
  - apply not_elem_of_cons in Hp. destruct Hp as [Hne Hp].
    destruct (Z.eqb_spec q p); [congruence|]. rewrite IH by assumption. reflexivity.
Qed.

Lemma elem_of_remove_addr p q l :
  NoDup l -> q ∈ remove_addr p l <-> q ∈ l /\ q <> p.
Proof.
  induction l as [|r l IH]; intros Hnd; simpl.
  - split; [inversion 1|intros [H _]; inversion H].
  - apply NoDup_cons in Hnd. destruct Hnd as [Hr Hnd].
    destruct (Z.eqb_spec r p) as [->|Hne].
    + rewrite elem_of_cons. split.
      * intros H. split; [auto|]. intros ->. contradiction.
      * intros [[->|H] Hq]; [congruence|exact H].
    + rewrite !elem_of_cons, IH by assumption. split.
      * intros [->|[H1 H2]]; auto.
      * intros [[->|H] Hq]; auto.
Qed.

Lemma NoDup_remove_addr p l : NoDup l -> NoDup (remove_addr p l).
Proof.
  induction l as [|r l IH]; intros Hnd; simpl; [constructor|].
  apply NoDup_cons in Hnd. destruct Hnd as [Hr Hnd].
  destruct (Z.eqb_spec r p); [exact Hnd|].
  apply NoDup_cons. split; [|auto].
  rewrite elem_of_remove_addr by assumption. tauto.
Qed.

(** ** Unlinking a node *)

Lemma removeFreeBlock_list N st i h l1 p l2 (Q : unit -> state -> Prop) :
  0 <= i -> segFreeList st !! Z.to_nat i = Some h ->
  dll (mem st) h (l1 ++ p :: l2) ->
  NoDup (l1 ++ p :: l2) -> cells_sep (l1 ++ p :: l2) ->
  (forall q, q ∈ l1 ++ p :: l2 -> heap_lo st <= q /\ q + 16 <= heap_brk st) ->
  (forall m' h',
      dll m' h' (l1 ++ l2) ->
      (forall x, (forall q, q ∈ l1 ++ l2 -> x < q \/ q + 16 <= x) -> m' x = mem st x) ->
      Q tt (set_seg (set_mem st m') (<[Z.to_nat i := h']> (segFreeList st)))) ->
  wpg N (removeFreeBlock p i) st Q.
Proof.
  intros Hi Hh Hdll Hnd Hsep Hin HQ.
  assert (Hlen : (Z.to_nat i < length (segFreeList st))%nat)
    by (apply lookup_lt_Some in Hh; exact Hh).
  destruct st as [m lo brk mx seg last]. cbn [mem segFreeList heap_lo heap_brk] in *.
  assert (Hpin : lo <= p /\ p + 16 <= brk).
  { apply Hin. apply elem_of_app. right. apply elem_of_cons; auto. }
  unfold removeFreeBlock. apply wpg_bind. eapply wpg_seg_get; [exact Hi|exact Hh|].
  unfold dll in Hdll. apply dllseg_app in Hdll. destruct Hdll as (mid & H1 & H2).
  cbn [dllseg] in H2. destruct H2 as (-> & Hp0 & Hprev & H2).
  assert (Hnxt : 0 <= load64 m p < 2 ^ 64) by apply load64_range.
  (* the node that follows [p], if any, gets a new back link *)
  assert (Hnext : forall v, 0 <= v < 2 ^ 64 ->
     (v = NULL \/ (v ∈ l1 /\ l1 <> [])) ->
     exists m1,
       wpg N (if negb (load64 m p =? NULL) then setPrevFreeBlock (load64 m p) v else ret tt)
           (mkState m lo brk mx seg last)
           (fun _ st' => st' = mkState m1 lo brk mx seg last) /\
       dllseg m1 v (load64 m p) l2 NULL /\
       (forall x, (forall q, q ∈ l2 -> x < q \/ q + 16 <= x) -> m1 x = m x)).
  { intros v Hv Hvl. destruct l2 as [|q l2].
    - simpl in H2. rewrite H2. exists m. simpl. split; [reflexivity|]. split; [reflexivity|auto].
    - cbn [dllseg] in H2. destruct H2 as (Hq & Hq0 & Hqprev & H2). rewrite Hq in *.
      destruct (Z.eqb_spec q NULL); [contradiction|]. simpl negb. cbv iota.
      assert (Hqin : lo <= q /\ q + 16 <= brk).
      { apply Hin. elem. }
      exists (store64 m (q + 8) v). split; [|split].
      + unfold setPrevFreeBlock, ptr_add, get8ByteAlignment, FREE_OFFSET.
        change (8 * (8 / 8)) with 8.
        apply wpg_store; cbn [heap_lo heap_brk]; try lia. reflexivity.
      + cbn [dllseg]. repeat split; try assumption.
        * apply load64_store64_eq. exact Hv.
        * rewrite load64_store64_other by lia.
          apply (dllseg_frame m); [|exact H2].
          intros q' x Hq' Hx. apply store64_other.
          assert (Hqq : q' ∈ l1 ++ p :: q :: l2) by elem.
          assert (Hqq2 : q ∈ l1 ++ p :: q :: l2) by elem.
          destruct (Hsep q' q Hqq Hqq2) as [E|E]; [|lia].
          subst q'. apply NoDup_app in Hnd. destruct Hnd as (_ & _ & Hnd).
          apply NoDup_cons in Hnd. destruct Hnd as [_ Hnd].
          apply NoDup_cons in Hnd. destruct Hnd as [Hnd _]. contradiction.
      + intros x Hx. apply store64_other.
        specialize (Hx q ltac:(apply elem_of_cons; auto)). lia. }
  destruct l1 as [|r l1].
  - (* [p] is the head of its list *)
    simpl in H1. subst h. rewrite Z.eqb_refl.
    apply wpg_bind. unfold getNextFreeBlock. apply wpg_load; cbn [heap_lo heap_brk mem]; try lia.
    destruct (Hnext NULL ltac:(unfold NULL; lia) ltac:(auto)) as (m1 & Hw & Hd & Hfr).
    apply wpg_bind. eapply wpg_conseq; [exact Hw|]. intros _ st' ->.
    apply wpg_seg_set; cbn [segFreeList]; [lia|].
    apply (HQ m1 (load64 m p)); [exact Hd|].
    intros x Hx. apply Hfr. intros q Hq. apply Hx. exact Hq.
  - (* [p] has a predecessor *)
    cbn [dllseg] in H1. destruct H1 as (-> & Hr0 & Hrprev & H1).
    assert (Hpr : p <> r).
    { intros ->. apply NoDup_app in Hnd. destruct Hnd as (_ & Hnd & _).
      apply (Hnd r); apply elem_of_cons; auto. }
    destruct (Z.eqb_spec p r); [contradiction|].
    apply wpg_bind. unfold getNextFreeBlock. apply wpg_load; cbn [heap_lo heap_brk mem]; try lia.
    apply wpg_bind. unfold getPrevFreeBlock, ptr_add, get8ByteAlignment, FREE_OFFSET.
    change (8 * (8 / 8)) with 8.
    apply wpg_load; cbn [heap_lo heap_brk mem]; try lia.
    cbn [last_or] in Hprev. rewrite Hprev.
    set (pv := last_or r l1) in *.
    assert (Hpv : pv ∈ r :: l1).
    { unfold pv. destruct l1 as [|r' l1]; [simpl; apply elem_of_cons; auto|].
      apply elem_of_cons. right. apply last_or_elem_of. congruence. }
    assert (Hpvin : lo <= pv /\ pv + 16 <= brk).
    { apply Hin. apply elem_of_app. left. exact Hpv. }
    assert (Hbrk : 0 <= pv < 2 ^ 64).
    { subst pv. rewrite <- Hprev. apply load64_range. }
    destruct (Hnext pv Hbrk) as (m1 & Hw & Hd & Hfr).
    { right. split; [exact Hpv|congruence]. }
    apply wpg_bind. eapply wpg_conseq; [exact Hw|]. intros _ st' ->.
    unfold setNextFreeBlock. apply wpg_store; cbn [heap_lo heap_brk mem]; try lia.
    replace seg with (<[Z.to_nat i := r]> seg) at 1 by (apply list_insert_id; exact Hh).
    assert (Hl2sep : forall q x, q ∈ l2 -> q <= x < q + 16 -> forall q', q' ∈ r :: l1 ->
                                 x < q' \/ q' + 16 <= x).
    { intros q x Hq Hx q' Hq'.
      destruct (Hsep q q') as [E|E].
      - apply elem_of_app. right. apply elem_of_cons. auto.
      - apply elem_of_app. left. exact Hq'.
      - subst q'. apply NoDup_app in Hnd. destruct Hnd as (_ & Hnd & _).
        exfalso. apply (Hnd q Hq'). apply elem_of_cons. auto.
      - lia. }
    apply (HQ (store64 m1 pv (load64 m p)) r).
    + unfold dll. apply dllseg_app. exists (load64 m p). split.
      * change (dllseg (store64 m1 (last_or 0 (r :: l1)) (load64 m p)) NULL r (r :: l1) (load64 m p)).
        apply dllseg_relink with (nxt := p); try assumption; try congruence.
        -- apply NoDup_app in Hnd. tauto.
        -- apply cells_sep_app_l in Hsep. exact Hsep.
        -- apply (dllseg_frame m).
           ++ intros q x Hq Hx. apply Hfr. intros q' Hq'.
              pose proof (Hl2sep q' x Hq') as HH.
              destruct (Z.lt_ge_cases x q'); [auto|].
              destruct (Z.lt_ge_cases x (q' + 16)); [|auto].
              specialize (HH ltac:(lia) q Hq). lia.
           ++ cbn [dllseg]. repeat split; assumption.
      * fold pv. change (last_or NULL (r :: l1)) with pv.
        apply (dllseg_frame m1); [|exact Hd].
        intros q x Hq Hx. apply store64_other.
        pose proof (Hl2sep q x Hq Hx pv Hpv). lia.
    + intros x Hx. rewrite store64_other.
      * apply Hfr. intros q Hq. apply Hx. apply elem_of_app. auto.
      * specialize (Hx pv ltac:(apply elem_of_app; auto)). lia.
Qed.

(** ** Linking a node at the head *)

Lemma addFreeBlock_list N st i h l p (Q : unit -> state -> Prop) :
  0 <= i -> segFreeList st !! Z.to_nat i = Some h ->
  dll (mem st) h l ->
  p <> NULL -> NoDup (p :: l) -> cells_sep (p :: l) ->
  0 <= heap_lo st -> heap_brk st <= 2 ^ 64 ->
  (forall q, q ∈ p :: l -> heap_lo st <= q /\ q + 16 <= heap_brk st) ->
  (forall m',
      dll m' p (p :: l) ->
      (forall x, (forall q, q ∈ p :: l -> x < q \/ q + 16 <= x) -> m' x = mem st x) ->
      Q tt (set_seg (set_mem st m') (<[Z.to_nat i := p]> (segFreeList st)))) ->
  wpg N (addFreeBlock p i) st Q.
Proof.
  intros Hi Hh Hdll Hp0 Hnd Hsep Hlo Hbrk Hin HQ.
  assert (Hlen : (Z.to_nat i < length (segFreeList st))%nat)
    by (apply lookup_lt_Some in Hh; exact Hh).
  destruct st as [m lo brk mx seg last]. cbn [mem segFreeList heap_lo heap_brk] in *.
  assert (Hpin : lo <= p /\ p + 16 <= brk) by (apply Hin; elem).
  apply NoDup_cons in Hnd. destruct Hnd as [Hpl Hnd].
  unfold addFreeBlock. apply wpg_bind. eapply wpg_seg_get; [exact Hi|exact Hh|].
  unfold setNextFreeBlock, setPrevFreeBlock, ptr_add, get8ByteAlignment, FREE_OFFSET.
  change (8 * (8 / 8)) with 8.
  destruct l as [|q l].
  - (* empty list *)
    unfold dll in Hdll. simpl in Hdll. subst h. change (NULL =? NULL) with true. cbv iota.
    apply wpg_bind. apply wpg_bind.
    wstore. wstore.
    apply wpg_seg_set; [wbounds|].
    apply (HQ (store64 (store64 m p NULL) (p + 8) NULL)).
    + unfold dll. cbn [dllseg]. split; [reflexivity|]. split; [assumption|]. split.
      * apply load64_store64_eq. unfold NULL. lia.
      * rewrite load64_store64_other by lia. apply load64_store64_eq. unfold NULL. lia.
    + intros x Hx. specialize (Hx p ltac:(elem)).
      rewrite !store64_other by lia. reflexivity.
  - (* [q] was the head *)
    unfold dll in Hdll. cbn [dllseg] in Hdll.
    destruct Hdll as (-> & Hq0 & Hqprev & Hrest).
    destruct (Z.eqb_spec q NULL); [contradiction|].
    assert (Hqin : lo <= q /\ q + 16 <= brk) by (apply Hin; elem).
    assert (Hpq : p + 16 <= q \/ q + 16 <= p).
    { destruct (Hsep p q) as [E|E]; [elem|elem| |lia].
      subst q. exfalso. apply Hpl. elem. }
    apply NoDup_cons in Hnd. destruct Hnd as [Hql Hnd].
    apply wpg_bind. apply wpg_bind.
    eapply wpg_seg_get; [exact Hi|exact Hh|].
    apply wpg_bind. wstore.
    apply wpg_bind. eapply wpg_seg_get; [exact Hi|exact Hh|].
    apply wpg_bind. wstore. wstore.
    apply wpg_seg_set; [wbounds|].
    apply (HQ (store64 (store64 (store64 m p q) (q + 8) p) (p + 8) NULL)).
    + unfold dll. cbn [dllseg]. split; [reflexivity|]. split; [assumption|]. split.
      * apply load64_store64_eq. unfold NULL. lia.
      * rewrite !load64_store64_other by lia. rewrite load64_store64_eq by lia.
        split; [reflexivity|]. split; [assumption|]. split.
        -- rewrite load64_store64_other by lia. apply load64_store64_eq. lia.
        -- rewrite !load64_store64_other by lia.
           apply (dllseg_frame m); [|exact Hrest].
           intros q' x Hq' Hx.
           assert (Hq'p : q' + 16 <= p \/ p + 16 <= q').
           { destruct (Hsep q' p) as [E|E]; [elem|elem| |lia].
             subst q'. exfalso. apply Hpl. elem. }
           assert (Hq'q : q' + 16 <= q \/ q + 16 <= q').
           { destruct (Hsep q' q) as [E|E]; [elem|elem| |lia].
             subst q'. contradiction. }
           rewrite !store64_other by lia. reflexivity.
    + intros x Hx. pose proof (Hx p ltac:(elem)). pose proof (Hx q ltac:(elem)).
      rewrite !store64_other by lia. reflexivity.
Qed.

(** * Size classes *)

Lemma getFreeListIndex_range s :
  valid_size s -> s < 2 ^ 64 -> 0 <= getFreeListIndex s < 15.
Proof.
  intros [Hs Hm] Hlt. unfold getFreeListIndex.
  rewrite (wrap64_small (s - 8)) by lia.
  assert (1 <= (s - 8) / 16) by zdm.
  repeat match goal with
         | |- context [?a <=? ?b] => destruct (Z.leb_spec a b)
         end; try lia.
  rewrite wrap64_small by lia. unfold to_int.
  rewrite Z.mod_small by lia.
  destruct (Z.ltb_spec ((s - 8) / 16 - 1) (2 ^ 31)); lia.
Qed.

(** * All free lists together *)

Lemma upd_list_same fls i l : upd_list fls i l i = l.
Proof. unfold upd_list. rewrite Z.eqb_refl. reflexivity. Qed.

Lemma upd_list_other fls i l j : j <> i -> upd_list fls i l j = fls j.
Proof. intros H. unfold upd_list. destruct (Z.eqb_spec j i); [contradiction|reflexivity]. Qed.

Lemma elem_of_upd_cons fls i p j q :
  q ∈ upd_list fls i (p :: fls i) j <-> q ∈ fls j \/ (j = i /\ q = p).
Proof.
  unfold upd_list. destruct (Z.eqb_spec j i) as [->|Hne].
  - rewrite elem_of_cons. tauto.
  - tauto.
Qed.

Lemma elem_of_upd_remove fls i p j q :
  (forall k, NoDup (fls k)) -> (forall k, p ∈ fls k -> k = i) ->
  q ∈ upd_list fls i (remove_addr p (fls i)) j <-> q ∈ fls j /\ q <> p.
Proof.
  intros Hnd Hp. unfold upd_list. destruct (Z.eqb_spec j i) as [->|Hne].
  - apply elem_of_remove_addr. apply Hnd.
  - split; [|tauto]. intros H. split; [exact H|]. intros ->. apply Hne. apply Hp. exact H.
Qed.

Lemma NoDup_upd_remove fls i p :
  (forall k, NoDup (fls k)) -> forall k, NoDup (upd_list fls i (remove_addr p (fls i)) k).
Proof.
  intros Hnd k. unfold upd_list. destruct (Z.eqb_spec k i); [|apply Hnd].
  apply NoDup_remove_addr. apply Hnd.
Qed.

Lemma NoDup_upd_cons fls i p :
  (forall k, NoDup (fls k)) -> p ∉ fls i ->
  forall k, NoDup (upd_list fls i (p :: fls i) k).
Proof.
  intros Hnd Hp k. unfold upd_list. destruct (Z.eqb_spec k i); [|apply Hnd].
  apply NoDup_cons. split; [exact Hp|apply Hnd].
Qed.

Lemma lists_ok_frame st fls m' :
  lists_ok st fls ->
  (forall j q x, q ∈ fls j -> q <= x < q + 16 -> m' x = mem st x) ->
  lists_ok (set_mem st m') fls.
Proof.
  intros H Hf i Hi. destruct (H i Hi) as (h & Hh & Hd).
  exists h. split; [exact Hh|]. cbn [mem set_mem].
  unfold dll in *. apply (dllseg_frame (mem st)); [|exact Hd].
  intros q x Hq Hx. apply (Hf i q x Hq Hx).
Qed.

Lemma cells_ok_sub st st' fls fls' :
  cells_ok st fls ->
  heap_lo st' = heap_lo st -> heap_brk st <= heap_brk st' ->
  (forall j q, q ∈ fls' j -> q ∈ fls j) -> (forall j, NoDup (fls' j)) ->
  cells_ok st' fls'.
Proof.
  intros [H1 H2 H3] Hlo Hbrk Hsub Hnd. constructor.
  - intros i j q q' Hq Hq'. apply H1; apply Hsub; assumption.
  - intros i q Hq. destruct (H2 i q (Hsub _ _ Hq)) as (? & ? & ? & ?).
    rewrite Hlo. repeat split; try assumption; lia.
  - exact Hnd.
Qed.

Lemma cells_ok_only st fls i j p : cells_ok st fls -> p ∈ fls i -> p ∈ fls j -> j = i.
Proof.
  intros [H1 _ _] Hi Hj. destruct (H1 i j p p Hi Hj) as [[_ E]|E]; [congruence|lia].
Qed.

Lemma cells_ok_remove st fls i p :
  cells_ok st fls -> p ∈ fls i ->
  cells_ok st (upd_list fls i (remove_addr p (fls i))).
Proof.
  intros H Hp. pose proof (cells_nodup _ _ H) as Hnd.
  apply (cells_ok_sub st st fls); try assumption; try reflexivity; try lia.
  - intros j q Hq. apply elem_of_upd_remove in Hq; [tauto|assumption|].
    intros k Hk. apply (cells_ok_only st fls i k p H Hp Hk).
  - apply NoDup_upd_remove. exact Hnd.
Qed.

Lemma remove_lists N st fls i p (Q : unit -> state -> Prop) :
  lists_ok st fls -> cells_ok st fls -> p ∈ fls i ->
  (forall m' seg',
      length seg' = length (segFreeList st) ->
      lists_ok (set_seg (set_mem st m') seg') (upd_list fls i (remove_addr p (fls i))) ->
      (forall x, (forall j q, q ∈ fls j -> q <> p -> x < q \/ q + 16 <= x) ->
                 m' x = mem st x) ->
      Q tt (set_seg (set_mem st m') seg')) ->
  wpg N (removeFreeBlock p i) st Q.
Proof.
  intros HL HC Hp HQ.
  pose proof HC as [Hap Hin Hnd].
  destruct (Hin i p Hp) as (Hi & _).
  destruct (HL i Hi) as (h & Hh & Hd).
  apply list_elem_of_split in Hp. destruct Hp as (l1 & l2 & El).
  pose proof (Hnd i) as Hndi. rewrite El in Hndi, Hd.
  assert (Hpl1 : p ∉ l1).
  { apply NoDup_app in Hndi. destruct Hndi as (_ & Hndi & _).
    intros H. apply (Hndi p H). elem. }
  assert (Hmem : forall q, q ∈ l1 ++ l2 <-> q ∈ fls i /\ q <> p).
  { intros q. rewrite <- (remove_addr_mid p l1 l2 Hpl1), <- El.
    apply elem_of_remove_addr. apply Hnd. }
  eapply removeFreeBlock_list; [lia|exact Hh|exact Hd|exact Hndi| | |].
  - intros q q' Hq Hq'. rewrite <- El in Hq, Hq'.
    destruct (Hap i i q q' Hq Hq') as [[E _]|E]; auto.
  - intros q Hq. rewrite <- El in Hq. destruct (Hin i q Hq) as (_ & _ & ? & ?). lia.
  - intros m' h' Hd' Hfr.
    assert (Hlen : (Z.to_nat i < length (segFreeList st))%nat)
      by (apply lookup_lt_Some in Hh; exact Hh).
    apply HQ.
    + apply length_insert.
    + intros j Hj. cbn [segFreeList set_seg mem set_mem].
      destruct (Z.eq_dec j i) as [->|Hne].
      * exists h'. rewrite list_lookup_insert_eq by exact Hlen.
        rewrite upd_list_same, El, remove_addr_mid by assumption. auto.
      * destruct (HL j Hj) as (hj & Hhj & Hdj). exists hj.
        rewrite list_lookup_insert_ne by lia. rewrite upd_list_other by assumption.
        split; [exact Hhj|]. unfold dll in *.
        apply (dllseg_frame (mem st)); [|exact Hdj].
        intros q x Hq Hx. apply Hfr. intros q' Hq'. apply Hmem in Hq'.
        destruct Hq' as [Hq' _].
        destruct (Hap j i q q' Hq Hq') as [[_ E]|E]; [contradiction|lia].
    + intros x Hx. apply Hfr. intros q Hq. apply Hmem in Hq. destruct Hq as [Hq Hqp].
      apply (Hx i q Hq Hqp).
Qed.

Lemma add_lists N st fls i p (Q : unit -> state -> Prop) :
  lists_ok st fls -> cells_ok st (upd_list fls i (p :: fls i)) ->
  0 <= heap_lo st -> heap_brk st <= 2 ^ 64 ->
  (forall m' seg',
      length seg' = length (segFreeList st) ->
      lists_ok (set_seg (set_mem st m') seg') (upd_list fls i (p :: fls i)) ->
      (forall x, (x < p \/ p + 16 <= x) ->
                 (forall j q, q ∈ fls j -> x < q \/ q + 16 <= x) ->
                 m' x = mem st x) ->
      Q tt (set_seg (set_mem st m') seg')) ->
  wpg N (addFreeBlock p i) st Q.
Proof.
  intros HL HC Hlo Hbrk HQ.
  pose proof HC as [Hap Hin Hnd].
  assert (Hpi : p ∈ upd_list fls i (p :: fls i) i) by (rewrite upd_list_same; elem).
  destruct (Hin i p Hpi) as (Hi & Hp0 & Hplo & Hpbrk).
  destruct (HL i Hi) as (h & Hh & Hd).
  pose proof (Hnd i) as Hndi. rewrite upd_list_same in Hndi.
  assert (Hsub : forall j q, q ∈ fls j -> q ∈ upd_list fls i (p :: fls i) j).
  { intros j q Hq. apply elem_of_upd_cons. auto. }
  eapply addFreeBlock_list; [lia|exact Hh|exact Hd|exact Hp0|exact Hndi| |exact Hlo|exact Hbrk| |].
  - intros q q' Hq Hq'. rewrite <- (upd_list_same fls i (p :: fls i)) in Hq, Hq'.
    destruct (Hap i i q q' Hq Hq') as [[E _]|E]; auto.
  - intros q Hq. rewrite <- (upd_list_same fls i (p :: fls i)) in Hq.
    destruct (Hin i q Hq) as (_ & _ & ? & ?). lia.
  - intros m' Hd' Hfr.
    assert (Hlen : (Z.to_nat i < length (segFreeList st))%nat)
      by (apply lookup_lt_Some in Hh; exact Hh).
    apply HQ.
    + apply length_insert.
    + intros j Hj. cbn [segFreeList set_seg mem set_mem].
      destruct (Z.eq_dec j i) as [->|Hne].
      * exists p. rewrite list_lookup_insert_eq by exact Hlen.
        rewrite upd_list_same. auto.
      * destruct (HL j Hj) as (hj & Hhj & Hdj). exists hj.
        rewrite list_lookup_insert_ne by lia. rewrite upd_list_other by assumption.
        split; [exact Hhj|]. unfold dll in *.
        apply (dllseg_frame (mem st)); [|exact Hdj].
        intros q x Hq Hx. apply Hfr. intros q' Hq'.
        rewrite <- (upd_list_same fls i (p :: fls i)) in Hq'.
        destruct (Hap j i q q' (Hsub _ _ Hq) Hq') as [[_ E]|E]; [contradiction|lia].
    + intros x Hxp Hx. apply Hfr. intros q Hq. apply elem_of_cons in Hq.
      destruct Hq as [->|Hq]; [exact Hxp|]. apply (Hx i q Hq).
Qed.

(** * Pointer arithmetic of the accessors *)

Lemma getNextHeader_eq h s :
  s mod 8 = 0 -> 0 <= s < 2 ^ 64 - 8 -> getNextHeader h s = h + 8 + s.
Proof.
  intros H8 Hs. unfold getNextHeader, ptr_add, get8ByteAlignment, HEADER_SIZE.
  rewrite wrap64_small by lia. zdm.
Qed.

Lemma getFooter_eq h s :
  s mod 8 = 0 -> 0 <= s < 2 ^ 64 - 8 -> getFooter h s = h + s.
Proof.
  intros H8 Hs. unfold getFooter, ptr_add, get8ByteAlignment, HEADER_SIZE, FOOTER_SIZE.
  rewrite (wrap64_small (8 + s)) by lia. rewrite wrap64_small by lia. zdm.
Qed.

Lemma getPrevHeader_eq h s :
  s mod 8 = 0 -> 0 <= s < 2 ^ 64 - 8 -> getPrevHeader h s = h - 8 - s.
Proof.
  intros H8 Hs. unfold getPrevHeader, ptr_sub, get8ByteAlignment, HEADER_SIZE.
  rewrite wrap64_small by lia. zdm.
Qed.

Lemma getPrevFooter_eq h : getPrevFooter h = h - 8.
Proof. reflexivity. Qed.

Lemma getPayload_eq h : getPayload h = h + 8.
Proof.
  unfold getPayload, ptr_add, get8ByteAlignment, HEADER_SIZE.
  change (8 / 8) with 1. lia.
Qed.

Lemma ptr_add_header h : ptr_add h (get8ByteAlignment HEADER_SIZE) = h + 8.
Proof.
  unfold ptr_add, get8ByteAlignment, HEADER_SIZE. change (8 / 8) with 1. lia.
Qed.

Lemma ptr_sub_header h : ptr_sub h (get8ByteAlignment HEADER_SIZE) = h - 8.
Proof.
  unfold ptr_sub, get8ByteAlignment, HEADER_SIZE. change (8 / 8) with 1. lia.
Qed.

(** * Accessors as weakest preconditions *)

Section WpAccessors.
Context (N : Prop).

Lemma wpg_getBlockSize a st Q :
  heap_lo st <= a -> a + 8 <= heap_brk st ->
  Q (Z.land (load64 (mem st) a) 0xFFFFFFFFFFFFFFF8) st ->
  wpg N (getBlockSize a) st Q.
Proof.
  intros H1 H2 HQ. unfold getBlockSize. apply wpg_bind.
  apply wpg_load; assumption.
Qed.

Lemma wpg_isFree a st Q :
  heap_lo st <= a -> a + 8 <= heap_brk st ->
  Q (Z.land (load64 (mem st) a) 0x1 =? 0) st ->
  wpg N (isFree a) st Q.
Proof.
  intros H1 H2 HQ. unfold isFree. apply wpg_bind.
  apply wpg_load; assumption.
Qed.

Lemma wpg_isPrevFree a st Q :
  heap_lo st <= a -> a + 8 <= heap_brk st ->
  Q (Z.land (load64 (mem st) a) 0x2 =? 0) st ->
  wpg N (isPrevFree a) st Q.
Proof.
  intros H1 H2 HQ. unfold isPrevFree. apply wpg_bind.
  apply wpg_load; assumption.
Qed.

Lemma wpg_setFree a st Q :
  heap_lo st <= a -> a + 8 <= heap_brk st ->
  Q tt (set_mem st (store64 (mem st) a
          (Z.land (load64 (mem st) a) 0xFFFFFFFFFFFFFFFE))) ->
  wpg N (setFree a) st Q.
Proof.
  intros H1 H2 HQ. unfold setFree. apply wpg_bind.
  apply wpg_load; try assumption. apply wpg_store; try assumption.
Qed.

Lemma wpg_setAlloc a st Q :
  heap_lo st <= a -> a + 8 <= heap_brk st ->
  Q tt (set_mem st (store64 (mem st) a (Z.lor (load64 (mem st) a) 0x1))) ->
  wpg N (setAlloc a) st Q.
Proof.
  intros H1 H2 HQ. unfold setAlloc. apply wpg_bind.
  apply wpg_load; try assumption. apply wpg_store; try assumption.
Qed.

Lemma wpg_setPrevFree a st Q :
  heap_lo st <= a -> a + 8 <= heap_brk st ->
  Q tt (set_mem st (store64 (mem st) a
          (Z.land (load64 (mem st) a) 0xFFFFFFFFFFFFFFFD))) ->
  wpg N (setPrevFree a) st Q.
Proof.
  intros H1 H2 HQ. unfold setPrevFree. apply wpg_bind.
  apply wpg_load; try assumption. apply wpg_store; try assumption.
Qed.

Lemma wpg_setPrevAlloc a st Q :
  heap_lo st <= a -> a + 8 <= heap_brk st ->
  Q tt (set_mem st (store64 (mem st) a (Z.lor (load64 (mem st) a) 0x2))) ->
  wpg N (setPrevAlloc a) st Q.
Proof.
  intros H1 H2 HQ. unfold setPrevAlloc. apply wpg_bind.
  apply wpg_load; try assumption. apply wpg_store; try assumption.
Qed.

Lemma wpg_setBlockSize a s st Q :
  heap_lo st <= a -> a + 8 <= heap_brk st ->
  Q tt (set_mem st (store64 (store64 (mem st) a (Z.land (load64 (mem st) a) 0x7)) a
          (Z.lor (Z.land (load64 (mem st) a) 0x7) s))) ->
  wpg N (setBlockSize a s) st Q.
Proof.
  intros H1 H2 HQ. unfold setBlockSize. apply wpg_bind.
  apply wpg_load; try assumption. apply wpg_bind.
  apply wpg_store; try assumption. apply wpg_bind.
  apply wpg_load; try assumption. apply wpg_store; try assumption.
  destruct st as [m lo brk mx seg last]. cbn [set_mem mem heap_lo heap_brk heap_max segFreeList lastHeader] in *.
  rewrite load64_store64_eq; [exact HQ|].
  rewrite land_7. pose proof (Z.mod_pos_bound (load64 m a) 8). lia.
Qed.
End WpAccessors.

(** The same word stored twice in a row reads back once. *)
Lemma store64_twice_other m a v v' x :
  x < a \/ a + 8 <= x -> store64 (store64 m a v) a v' x = m x.
Proof. intros H. rewrite !store64_other by exact H. reflexivity. Qed.

(** * Facts that follow from the invariant *)

Section InvProjections.
Context (st : state) (bs : list block) (fls : Z -> list Z).
Hypothesis Hinv : inv st bs fls.

Lemma inv_lo : 0 < heap_lo st /\ heap_lo st mod 16 = 0.
Proof. apply Hinv. Qed.
Lemma inv_brk : heap_brk st = heap_lo st + 8 + total bs.
Proof. apply Hinv. Qed.
Lemma inv_max : heap_brk st <= heap_max st /\ heap_max st < 2 ^ 64.
Proof. apply Hinv. Qed.
Lemma inv_seglen : length (segFreeList st) = 15%nat.
Proof. apply Hinv. Qed.
Lemma inv_prologue : Z.land (load64 (mem st) (heap_lo st)) 0x1 = 1.
Proof. apply Hinv. Qed.
Lemma inv_sizes : Forall (fun b : block => valid_size (fst b)) bs.
Proof. apply Hinv. Qed.
Lemma inv_layout : layout (mem st) (heap_lo st + 8) true bs.
Proof. apply Hinv. Qed.
Lemma inv_noadj : adjacent_free bs = false.
Proof. apply Hinv. Qed.
Lemma inv_last : lastHeader st = last_header (heap_lo st) bs.
Proof. apply Hinv. Qed.
End InvProjections.

Section InvFacts.
Context (st : state) (bs : list block) (fls : Z -> list Z).
Hypothesis Hinv : inv st bs fls.

Lemma inv_total_nonneg : 0 <= total bs.
Proof. apply total_nonneg. apply (inv_sizes _ _ _ Hinv). Qed.

Lemma inv_block_bounds a s al :
  (a, s, al) ∈ blocks_at (heap_lo st + 8) bs ->
  heap_lo st + 8 <= a /\ a + 8 + s <= heap_brk st /\
  24 <= s /\ s mod 16 = 8 /\ s mod 8 = 0 /\ 0 <= s < 2 ^ 64 - 8.
Proof.
  intros Hin. apply blocks_at_bounds in Hin; [|apply (inv_sizes _ _ _ Hinv)].
  destruct Hin as (H1 & H2 & [H3 H4] & _).
  pose proof (inv_brk _ _ _ Hinv). pose proof (inv_max _ _ _ Hinv).
  pose proof (inv_lo _ _ _ Hinv).
  split; [lia|]. split; [lia|]. split; [lia|]. split; [exact H4|].
  split; [zdm|lia].
Qed.

Lemma inv_brk_bound : heap_brk st < 2 ^ 64 /\ 0 < heap_lo st /\ heap_lo st + 8 <= heap_brk st.
Proof.
  pose proof (inv_brk _ _ _ Hinv). pose proof (inv_max _ _ _ Hinv).
  pose proof (inv_lo _ _ _ Hinv). pose proof inv_total_nonneg. lia.
Qed.

Lemma inv_focus a s al :
  (a, s, al) ∈ blocks_at (heap_lo st + 8) bs ->
  exists pre post, bs = pre ++ (s, al) :: post /\ a = heap_lo st + 8 + total pre.
Proof. apply blocks_at_split. Qed.
End InvFacts.

Lemma members_cells_ok st bs fls :
  0 < heap_lo st -> heap_brk st = heap_lo st + 8 + total bs ->
  Forall (fun b : block => valid_size (fst b)) bs ->
  heap_brk st <= 2 ^ 64 ->
  (forall i q, q ∈ fls i ->
     exists s, (q - 8, s, false) ∈ blocks_at (heap_lo st + 8) bs /\ getFreeListIndex s = i) ->
  (forall i, NoDup (fls i)) ->
  cells_ok st fls.
Proof.
  intros Hlo Hbrk Hv Hmx Hmem Hnd. constructor; [| |exact Hnd].
  - intros i j q q' Hq Hq'.
    destruct (Hmem _ _ Hq) as (s & Hb & Hi). destruct (Hmem _ _ Hq') as (s' & Hb' & Hj).
    pose proof (blocks_at_bounds _ _ _ _ _ Hv Hb) as (_ & _ & [? _] & _).
    pose proof (blocks_at_bounds _ _ _ _ _ Hv Hb') as (_ & _ & [? _] & _).
    destruct (blocks_at_sep _ _ _ _ Hv Hb Hb') as [E|E]; simpl in E.
    + injection E as E1 E2. left. split; [lia|]. congruence.
    + right. lia.
  - intros i q Hq. destruct (Hmem _ _ Hq) as (s & Hb & Hi).
    pose proof (blocks_at_bounds _ _ _ _ _ Hv Hb) as (? & ? & [? ?] & _).
    split.
    + rewrite <- Hi. apply getFreeListIndex_range; [split; assumption|lia].
    + unfold NULL. lia.
Qed.

Lemma inv_cells_ok st bs fls : inv st bs fls -> cells_ok st fls.
Proof.
  intros H. pose proof (inv_brk_bound _ _ _ H).
  apply (members_cells_ok st bs fls); try lia.
  - apply (inv_brk _ _ _ H).
  - apply (inv_sizes _ _ _ H).
  - intros i q Hq. apply (inv_members _ _ _ H). exact Hq.
  - apply (inv_nodup _ _ _ H).
Qed.

(** * Bytes outside the link cells *)

Lemma outside_cells_nil a x : outside_cells a [] x.
Proof. intros a' s H. inversion H. Qed.

Lemma outside_cells_cons a s al l x :
  outside_cells a ((s, al) :: l) x <->
  (al = false -> x < a + 8 \/ a + 24 <= x) /\ outside_cells (a + 8 + s) l x.
Proof.
  unfold outside_cells. cbn [blocks_at]. split.
  - intros H. split.
    + intros ->. apply (H a s). elem.
    + intros a' s' Hin. apply (H a' s'). elem.
  - intros [H1 H2] a' s' Hin. apply elem_of_cons in Hin. destruct Hin as [E|Hin].
    + injection E as -> -> <-. auto.
    + apply (H2 a' s' Hin).
Qed.

Lemma outside_cells_app a l1 l2 x :
  outside_cells a (l1 ++ l2) x <->
  outside_cells a l1 x /\ outside_cells (a + total l1) l2 x.
Proof.
  unfold outside_cells. rewrite blocks_at_app. split.
  - intros H. split; intros a' s Hin; apply (H a' s); elem.
  - intros [H1 H2] a' s Hin. apply elem_of_app in Hin. destruct Hin; eauto.
Qed.

Lemma outside_cells_range a l x :
  Forall (fun b : block => valid_size (fst b)) l ->
  x < a + 8 \/ a + total l <= x -> outside_cells a l x.
Proof.
  intros Hv Hx a' s Hin. apply (blocks_at_bounds _ _ _ _ _ Hv) in Hin.
  destruct Hin as (? & ? & [? ?] & _). lia.
Qed.

Lemma outside_cells_no_interior a l x :
  Forall (fun b : block => valid_size (fst b)) l ->
  (forall b, b ∈ blocks_at a l -> ~ interior b x) -> outside_cells a l x.
Proof.
  intros Hv H a' s Hin. pose proof (H _ Hin) as Hn. unfold interior in Hn. simpl in Hn.
  apply (blocks_at_bounds _ _ _ _ _ Hv) in Hin. destruct Hin as (? & ? & [? ?] & _). lia.
Qed.

Lemma member_cell_outside a bs (fls : Z -> list Z) j q x :
  (forall i q, q ∈ fls i -> exists s, (q - 8, s, false) ∈ blocks_at a bs /\
                                      getFreeListIndex s = i) ->
  q ∈ fls j -> outside_cells a bs x -> x < q \/ q + 16 <= x.
Proof.
  intros Hm Hq Hx. destruct (Hm _ _ Hq) as (s & Hb & _).
  specialize (Hx _ _ Hb). lia.
Qed.

(** * Replacing a group of adjacent blocks *)

Lemma last_alloc_app pa l1 l2 :
  last_alloc pa (l1 ++ l2) = last_alloc (last_alloc pa l1) l2.
Proof.
  revert pa. induction l1 as [|b l1 IH]; intros pa; [reflexivity|].
  change ((b :: l1) ++ l2) with (b :: (l1 ++ l2)).
  rewrite !last_alloc_cons. apply IH.
Qed.

Lemma layout_replace m m' a pre F F' post :
  Forall (fun b : block => valid_size (fst b)) pre ->
  Forall (fun b : block => valid_size (fst b)) F ->
  Forall (fun b : block => valid_size (fst b)) post ->
  total F' = total F ->
  layout m a true (pre ++ F ++ post) ->
  (forall x, x < a + total pre \/ a + total pre + total F <= x ->
             outside_cells a (pre ++ F ++ post) x -> m' x = m x) ->
  layout m' (a + total pre) (last_alloc true pre) F' ->
  last_alloc (last_alloc true pre) F' = last_alloc (last_alloc true pre) F ->
  layout m' a true (pre ++ F' ++ post).
Proof.
  intros Hvp HvF Hvq Ht HL Hfr HF' Hla.
  pose proof (total_nonneg _ Hvp). pose proof (total_nonneg _ HvF).
  pose proof (total_nonneg _ Hvq).
  apply layout_app in HL. destruct HL as [HLp HL].
  apply layout_app in HL. destruct HL as [_ HLq].
  apply layout_app. split; [|apply layout_app; split].
  - apply (layout_frame m); [exact Hvp| |exact HLp].
    intros x Hx Hni. apply Hfr; [lia|].
    apply outside_cells_app. split.
    + apply outside_cells_no_interior; assumption.
    + apply outside_cells_range; [apply Forall_app; auto|]. rewrite total_app. lia.
  - exact HF'.
  - rewrite Hla, Ht. apply (layout_frame m); [exact Hvq| |exact HLq].
    intros x Hx Hni. apply Hfr; [lia|].
    apply outside_cells_app. split; [|apply outside_cells_app; split].
    + apply outside_cells_range; [assumption|]. lia.
    + apply outside_cells_range; [assumption|]. lia.
    + apply outside_cells_no_interior; assumption.
Qed.

(** * Completing an operation with a final list insertion or removal *)

Lemma blocks_at_same_addr a bs a' s1 al1 s2 al2 :
  Forall (fun b : block => valid_size (fst b)) bs ->
  (a', s1, al1) ∈ blocks_at a bs -> (a', s2, al2) ∈ blocks_at a bs ->
  s1 = s2 /\ al1 = al2.
Proof.
  intros Hv H1 H2.
  pose proof (blocks_at_bounds _ _ _ _ _ Hv H1) as (_ & _ & [? _] & _).
  pose proof (blocks_at_bounds _ _ _ _ _ Hv H2) as (_ & _ & [? _] & _).
  destruct (blocks_at_sep _ _ _ _ Hv H1 H2) as [E|E]; simpl in E.
  - injection E as -> ->. auto.
  - lia.
Qed.

Lemma heap_layout_frame st bs m' seg' :
  heap_layout st bs ->
  length seg' = length (segFreeList st) ->
  (forall x, outside_cells (heap_lo st + 8) bs x -> m' x = mem st x) ->
  heap_layout (set_seg (set_mem st m') seg') bs.
Proof.
  intros [Hlo Hbrk Hmx Hlen Hpro Hv HL Hna Hlast] Hlen' Hfr.
  pose proof (total_nonneg _ Hv).
  constructor; cbn [heap_lo heap_brk heap_max mem segFreeList lastHeader set_mem set_seg];
    try assumption; try congruence.
  - rewrite (load64_ext (mem st) m'); [exact Hpro|].
    intros x Hx. apply Hfr. apply outside_cells_range; [assumption|lia].
  - apply (layout_frame (mem st)); [exact Hv| |exact HL].
    intros x Hx Hni. apply Hfr. apply outside_cells_no_interior; assumption.
Qed.

(** ** Payload bytes of allocated blocks *)

Lemma untouchable_app a l1 l2 x :
  untouchable a (l1 ++ l2) x <-> untouchable a l1 x \/ untouchable (a + total l1) l2 x.
Proof.
  unfold untouchable. rewrite blocks_at_app. split.
  - intros (a' & s & Hb & Hx). apply elem_of_app in Hb.
    destruct Hb as [Hb|Hb]; [left|right]; exists a', s; auto.
  - intros [(a' & s & Hb & Hx)|(a' & s & Hb & Hx)]; exists a', s; split; try assumption; elem.
Qed.

Lemma untouchable_cons_free a s l x :
  untouchable a ((s, false) :: l) x <-> untouchable (a + 8 + s) l x.
Proof.
  unfold untouchable. cbn [blocks_at]. split.
  - intros (a' & s' & Hb & Hx). apply elem_of_cons in Hb.
    destruct Hb as [E|Hb]; [discriminate|]. exists a', s'. auto.
  - intros (a' & s' & Hb & Hx). exists a', s'. split; [elem|exact Hx].
Qed.

Lemma untouchable_range a bs x :
  Forall (fun b : block => valid_size (fst b)) bs ->
  untouchable a bs x -> a + 8 <= x < a + total bs.
Proof.
  intros Hv (a' & s & Hb & Hx).
  pose proof (blocks_at_bounds _ _ _ _ _ Hv Hb) as (? & ? & _). lia.
Qed.

Lemma untouchable_outside_cells a bs x :
  Forall (fun b : block => valid_size (fst b)) bs ->
  untouchable a bs x -> outside_cells a bs x.
Proof.
  intros Hv (a' & s & Hb & Hx) a1 s1 H1.
  pose proof (blocks_at_bounds _ _ _ _ _ Hv H1) as (_ & _ & [? _] & _).
  destruct (blocks_at_sep _ _ _ _ Hv Hb H1) as [E|E]; [discriminate|]. simpl in E. lia.
Qed.

(** Bytes of allocated payloads around a free block at [a + total pre]. *)
Lemma untouchable_focus a pre n post x :
  Forall (fun b : block => valid_size (fst b)) pre ->
  Forall (fun b : block => valid_size (fst b)) post ->
  untouchable a (pre ++ (n, false) :: post) x ->
  (a + 8 <= x < a + total pre /\ outside_cells a pre x) \/
  (a + total pre + 8 + n + 8 <= x /\ outside_cells (a + total pre + 8 + n) post x).
Proof.
  intros Hv1 Hv2 Hu. apply untouchable_app in Hu. destruct Hu as [Hu|Hu].
  - left. split; [apply untouchable_range; assumption|].
    apply untouchable_outside_cells; assumption.
  - right. apply untouchable_cons_free in Hu.
    split; [apply (untouchable_range _ _ _ Hv2) in Hu; lia|].
    apply untouchable_outside_cells; assumption.
Qed.

Lemma add_completes N st bs F p sz (Q : unit -> state -> Prop) :
  heap_layout st bs -> lists_ok st F -> (forall i, NoDup (F i)) ->
  (p - 8, sz, false) ∈ blocks_at (heap_lo st + 8) bs ->
  (forall i q, q ∈ F i <->
     q <> p /\ exists s, (q - 8, s, false) ∈ blocks_at (heap_lo st + 8) bs /\
                         getFreeListIndex s = i) ->
  (forall st', inv st' bs (upd_list F (getFreeListIndex sz) (p :: F (getFreeListIndex sz))) ->
               same_heap st st' ->
               (forall x, outside_cells (heap_lo st + 8) bs x -> mem st' x = mem st x) ->
               Q tt st') ->
  wpg N (addFreeBlock p (getFreeListIndex sz)) st Q.
Proof.
  intros HH HL Hnd Hp Hmem HQ.
  pose proof HH as [Hlo Hbrk Hmx Hlen Hpro Hv HLay Hna Hlast].
  pose proof (total_nonneg _ Hv).
  set (i := getFreeListIndex sz) in *.
  assert (Hmem' : forall j q, q ∈ upd_list F i (p :: F i) j <->
     exists s, (q - 8, s, false) ∈ blocks_at (heap_lo st + 8) bs /\ getFreeListIndex s = j).
  { intros j q. rewrite elem_of_upd_cons, Hmem. split.
    - intros [[_ H1]|[-> ->]]; [exact H1|]. exists sz. auto.
    - intros (s & Hb & Hj). destruct (Z.eq_dec q p) as [->|Hne].
      + right. destruct (blocks_at_same_addr _ _ _ _ _ _ _ Hv Hb Hp) as [-> _]. auto.
      + left. split; [exact Hne|]. exists s. auto. }
  assert (Hnd' : forall j, NoDup (upd_list F i (p :: F i) j)).
  { apply NoDup_upd_cons; [exact Hnd|]. intros Hin. apply Hmem in Hin. tauto. }
  assert (HC : cells_ok st (upd_list F i (p :: F i))).
  { apply (members_cells_ok st bs); try assumption; try lia.
    intros j q Hq. apply Hmem'. exact Hq. }
  apply (add_lists N st F i p); try assumption; try lia.
  intros m' seg' Hlen' HL' Hfr.
  assert (Hfr' : forall x, outside_cells (heap_lo st + 8) bs x -> m' x = mem st x).
  { intros x Hx. apply Hfr.
    + specialize (Hx _ _ Hp). lia.
    + intros j q Hq. apply (member_cell_outside (heap_lo st + 8) bs (upd_list F i (p :: F i)) j q x);
        [intros i' q' Hq'; apply Hmem'; exact Hq'| |exact Hx].
      apply elem_of_upd_cons. auto. }
  apply HQ; [|repeat split|destruct st; exact Hfr']. constructor.
  - apply heap_layout_frame; [assumption|assumption|exact Hfr'].
  - exact HL'.
  - exact Hnd'.
  - exact Hmem'.
Qed.

Lemma Forall_valid_app (l1 l2 : list block) :
  Forall (fun b : block => valid_size (fst b)) (l1 ++ l2) <->
  Forall (fun b : block => valid_size (fst b)) l1 /\
  Forall (fun b : block => valid_size (fst b)) l2.
Proof. apply Forall_app. Qed.

Lemma last_header_ge lo l :
  Forall (fun b : block => valid_size (fst b)) l -> l <> [] ->
  lo + 8 <= last_header lo l.
Proof.
  intros Hv Hne. destruct l as [|b l] using rev_ind; [congruence|].
  rewrite last_header_snoc. apply Forall_app in Hv. destruct Hv as [Hv _].
  pose proof (total_nonneg _ Hv). lia.
Qed.

Lemma total_pos (l : list block) :
  Forall (fun b : block => valid_size (fst b)) l -> l <> [] -> 32 <= total l.
Proof.
  intros Hv Hne. destruct Hv as [|[s al] l [H _] Hv]; [congruence|].
  simpl in *. pose proof (total_nonneg _ Hv). lia.
Qed.

(** * free: the block being freed and its neighbours *)

Section FreeFocus.
Context (N : Prop).
Variables (m : memory) (lo brk mx : Z) (seg : list Z) (last : Z).
Variables (pre post : list block) (s : Z) (fls : Z -> list Z).

Abbreviation st := (mkState m lo brk mx seg last).
Abbreviation h := (lo + 8 + total pre).

Hypothesis Hinv : inv st (pre ++ (s, true) :: post) fls.

Lemma focus_valid :
  Forall (fun b : block => valid_size (fst b)) pre /\
  valid_size s /\
  Forall (fun b : block => valid_size (fst b)) post.
Proof.
  pose proof (inv_sizes _ _ _ Hinv) as H. apply Forall_app in H.
  destruct H as [H1 H2]. apply Forall_cons in H2. tauto.
Qed.

Lemma focus_arith :
  0 < lo /\ lo mod 16 = 0 /\ brk <= mx /\ mx < 2 ^ 64 /\
  0 <= total pre /\ 0 <= total post /\ 24 <= s /\ s mod 16 = 8 /\ s mod 8 = 0 /\
  brk = h + 8 + s + total post.
Proof.
  destruct focus_valid as (H1 & [H2 H3] & H4).
  pose proof (total_nonneg _ H1). pose proof (total_nonneg _ H4).
  pose proof (inv_lo _ _ _ Hinv) as [? ?]. pose proof (inv_max _ _ _ Hinv) as [? ?].
  pose proof (inv_brk _ _ _ Hinv) as Hb. cbn [heap_lo heap_brk heap_max] in *.
  rewrite total_app in Hb. cbn [total] in Hb.
  repeat (split; [first [assumption | lia | zdm]|]). lia.
Qed.

Lemma focus_layout :
  layout m (lo + 8) true pre /\
  load64 m h = hdr s true (last_alloc true pre) /\
  layout m (h + 8 + s) true post.
Proof.
  pose proof (inv_layout _ _ _ Hinv) as H. cbn [mem heap_lo] in H.
  apply layout_app in H. destruct H as [H1 H2]. cbn [layout] in H2.
  destruct H2 as (H2 & _ & H3). auto.
Qed.

Lemma focus_noadj :
  adjacent_free pre = false /\ adjacent_free post = false.
Proof.
  pose proof (inv_noadj _ _ _ Hinv) as H. apply adjacent_free_app in H.
  destruct H as (H1 & H2 & _). apply adjacent_free_cons' in H2. tauto.
Qed.

Lemma focus_last :
  last = last_header lo (pre ++ (s, true) :: post) /\
  ((h =? last) = match post with [] => true | _ => false end).
Proof.
  pose proof (inv_last _ _ _ Hinv) as H. cbn [lastHeader heap_lo] in H.
  split; [exact H|]. destruct focus_valid as (_ & [Hs _] & Hv). clear Hinv.
  destruct post as [|c post'].
  - rewrite H, last_header_snoc. apply Z.eqb_refl.
  - rewrite H, last_header_mid. apply Z.eqb_neq.
    pose proof (last_header_ge (lo + total pre + 8 + (s, true).1) _ Hv ltac:(congruence)) as HH.
    cbn [fst] in *. lia.
Qed.

Lemma focus_first : (h - 8 =? lo) = match pre with [] => true | _ => false end.
Proof.
  destruct focus_valid as (Hv & _). clear Hinv.
  destruct pre as [|c pre'].
  - simpl. apply Z.eqb_eq. lia.
  - apply Z.eqb_neq.
    pose proof (total_pos _ Hv ltac:(congruence)). lia.
Qed.

(** The header word of the right neighbour. *)
Lemma focus_next sn aln post' :
  post = (sn, aln) :: post' ->
  load64 m (h + 8 + s) = hdr sn aln true /\
  (aln = false -> Z.land (load64 m (h + 8 + s + sn)) 0xFFFFFFFFFFFFFFF8 = sn) /\
  layout m (h + 8 + s + 8 + sn) aln post' /\
  24 <= sn /\ sn mod 16 = 8 /\ sn mod 8 = 0 /\ 0 <= total post' /\
  total post = 8 + sn + total post'.
Proof.
  intros E. destruct focus_layout as (_ & _ & H). rewrite E in H. cbn [layout] in H.
  destruct H as (H1 & H2 & H3). destruct focus_valid as (_ & _ & Hv).
  rewrite E in Hv. apply Forall_cons in Hv. destruct Hv as [[? ?] Hv].
  pose proof (total_nonneg _ Hv). rewrite E. cbn [total fst] in *.
  repeat (split; [first [assumption | lia | zdm]|]). lia.
Qed.

(** The left neighbour, when there is one. *)
Lemma focus_prev pre' sp alp :
  pre = pre' ++ [(sp, alp)] ->
  layout m (lo + 8) true pre' /\
  load64 m (h - 8 - sp) = hdr sp alp (last_alloc true pre') /\
  (alp = false -> Z.land (load64 m (h - 8)) 0xFFFFFFFFFFFFFFF8 = sp) /\
  24 <= sp /\ sp mod 16 = 8 /\ sp mod 8 = 0 /\ 0 <= total pre' /\
  total pre = total pre' + 8 + sp /\ last_alloc true pre = alp.
Proof.
  intros E. destruct focus_layout as (H & _ & _). rewrite E in H.
  apply layout_app in H. destruct H as [H1 H2]. cbn [layout] in H2.
  destruct H2 as (H2 & H3 & _). destruct focus_valid as (Hv & _ & _).
  rewrite E in Hv. apply Forall_app in Hv. destruct Hv as [Hv Hv'].
  apply Forall_cons in Hv'. destruct Hv' as [[? ?] _].
  pose proof (total_nonneg _ Hv). rewrite E, total_app, last_alloc_snoc.
  cbn [total fst snd] in *.
  replace (lo + 8 + (total pre' + (8 + sp + 0)) - 8 - sp) with (lo + 8 + total pre') by lia.
  replace (lo + 8 + (total pre' + (8 + sp + 0)) - 8) with (lo + 8 + total pre' + sp) by lia.
  repeat (split; [first [assumption | lia | zdm]|]). reflexivity.
Qed.

Lemma free_preamble (Q : unit -> state -> Prop) :
  wpg N (pi <- free_branch h s (negb (head_alloc post)) (negb (last_alloc true pre)) ;;
         addFreeBlock (fst pi) (snd pi)) st Q ->
  wpg N (free (h + 8)) st Q.
Proof.
  intros HQ. destruct focus_arith as (? & ? & ? & ? & ? & ? & ? & ? & ? & ?).
  destruct focus_layout as (_ & Hh & _).
  unfold free. apply wpg_bind. unfold in_heap.
  apply wpg_bind. apply wpg_mm_heap_hi. apply wpg_bind. apply wpg_mm_heap_lo.
  apply wpg_ret. wsimpl.
  replace ((h + 8 <=? brk - 1) && (h + 8 >=? lo)) with true
    by (symmetry; apply andb_true_iff; split; [apply Z.leb_le|apply Z.geb_le]; lia).
  change (h + 8 - HEADER_SIZE) with (h + 8 - 8). replace (h + 8 - 8) with h by lia.
  apply wpg_bind. apply wpg_getBlockSize; [wbounds|wbounds|]. wsimpl.
  rewrite Hh, hdr_size by lia.
  rewrite getNextHeader_eq, getFooter_eq, getPrevFooter_eq, ptr_sub_header by lia.
  apply wpg_bind. apply wpg_get_last. wsimpl.
  destruct focus_last as [_ ->].
  apply wpg_bind.
  eapply (wpg_conseq N _ _ (fun r st' => r = negb (head_alloc post) /\ st' = st)).
  { pose proof focus_next as Hnx. clear HQ Hinv.
    destruct post as [|[sn aln] post'] eqn:E.
    - simpl. apply wpg_ret. auto.
    - simpl negb. cbv iota. destruct (Hnx sn aln post' eq_refl) as (Hn & _ & _ & ? & ? & ? & ? & ?).
      cbn [total] in *. apply wpg_isFree; [wbounds|wbounds|]. wsimpl.
      rewrite Hn, hdr_isFree by lia. split; reflexivity. }
  intros r st' [-> ->].
  apply wpg_bind. apply wpg_mm_heap_lo. wsimpl.
  apply wpg_bind. rewrite focus_first.
  eapply (wpg_conseq N _ _ (fun r st' => r = negb (last_alloc true pre) /\ st' = st)).
  { clear HQ Hinv. remember (last_alloc true pre) as la eqn:Ela.
    remember (total pre) as tp eqn:Etp. clear Etp.
    destruct pre as [|c pre'].
    - simpl in Ela. subst la. simpl. apply wpg_ret. auto.
    - simpl negb. cbv iota.
      apply wpg_isPrevFree; [wbounds|wbounds|]. wsimpl.
      rewrite Hh, hdr_isPrevFree by lia. split; reflexivity. }
  intros r st' [-> ->]. unfold free_branch in HQ. exact HQ.
Qed.

Lemma focus_blocks al :
  blocks_at (lo + 8) (pre ++ (s, al) :: post) =
  blocks_at (lo + 8) pre ++ (h, s, al) :: blocks_at (h + 8 + s) post.
Proof. rewrite blocks_at_app. reflexivity. Qed.

Lemma focus_member j q :
  q ∈ fls j ->
  exists sq, getFreeListIndex sq = j /\ 24 <= sq /\
    (((q - 8, sq, false) ∈ blocks_at (lo + 8) pre /\ lo + 8 <= q - 8 /\ q + sq <= h) \/
     ((q - 8, sq, false) ∈ blocks_at (h + 8 + s) post /\
      h + 8 + s <= q - 8 /\ q + sq <= h + 8 + s + total post)).
Proof.
  intros Hq. apply (inv_members _ _ _ Hinv) in Hq. destruct Hq as (sq & Hb & Hj).
  cbn [heap_lo] in Hb. rewrite focus_blocks in Hb.
  destruct focus_valid as (Hv1 & _ & Hv2).
  exists sq. split; [exact Hj|].
  apply elem_of_app in Hb. destruct Hb as [Hb|Hb].
  - pose proof (blocks_at_bounds _ _ _ _ _ Hv1 Hb) as (? & ? & [? ?] & _).
    split; [lia|]. left. split; [exact Hb|lia].
  - apply elem_of_cons in Hb. destruct Hb as [E|Hb]; [discriminate|].
    pose proof (blocks_at_bounds _ _ _ _ _ Hv2 Hb) as (? & ? & [? ?] & _).
    split; [lia|]. right. split; [exact Hb|lia].
Qed.

Lemma focus_outside_cells x :
  outside_cells (lo + 8) (pre ++ (s, true) :: post) x <->
  outside_cells (lo + 8) pre x /\ outside_cells (h + 8 + s) post x.
Proof.
  rewrite outside_cells_app, outside_cells_cons. intuition congruence.
Qed.
End FreeFocus.

Lemma last_header_flag lo pre s al al' post :
  last_header lo (pre ++ (s, al) :: post) = last_header lo (pre ++ (s, al') :: post).
Proof.
  destruct post as [|c post].
  - rewrite !last_header_snoc. reflexivity.
  - rewrite !last_header_mid. reflexivity.
Qed.

Ltac ld :=
  repeat first
    [ rewrite load64_store64_other by lia
    | rewrite load64_store64_eq by
        first [ lia | apply hdr_range; lia | apply footer_word_range; lia
              | apply footer_free_range; apply footer_word_range; lia ] ].

Ltac st_other := rewrite ?store64_other by lia.

(** * free, case 4: neither neighbour is free *)

Section FreeCase4.
Context (N : Prop).
Variables (m : memory) (lo brk mx : Z) (seg : list Z) (last : Z).
Variables (pre post : list block) (s : Z) (fls : Z -> list Z).

Abbreviation st := (mkState m lo brk mx seg last).
Abbreviation h := (lo + 8 + total pre).

Hypothesis Hinv : inv st (pre ++ (s, true) :: post) fls.
Hypothesis Hla : last_alloc true pre = true.
Hypothesis Hha : head_alloc post = true.

Lemma free_case4_ok (Q : unit -> state -> Prop) :
  (forall st',
      inv st' (pre ++ (s, false) :: post)
        (upd_list fls (getFreeListIndex s) (h + 8 :: fls (getFreeListIndex s))) ->
      same_heap st st' ->
      (forall x, untouchable (lo + 8) (pre ++ (s, false) :: post) x -> mem st' x = m x) ->
      Q tt st') ->
  wpg N (free (h + 8)) st Q.
Proof.
  intros HQ. apply free_preamble with (1 := Hinv). rewrite Hla, Hha. cbn [negb].
  unfold free_branch. cbn [andb].
  destruct (focus_arith _ _ _ _ _ _ _ _ _ _ Hinv) as (? & ? & ? & ? & ? & ? & ? & ? & ? & ?).
  destruct (focus_layout _ _ _ _ _ _ _ _ _ _ Hinv) as (HLpre & Hh & HLpost).
  destruct (focus_valid _ _ _ _ _ _ _ _ _ _ Hinv) as (Hvpre & Hvs & Hvpost).
  destruct (focus_noadj _ _ _ _ _ _ _ _ _ _ Hinv) as (Hnpre & Hnpost).
  destruct (focus_last _ _ _ _ _ _ _ _ _ _ Hinv) as (Hlast & Hlastb).
  pose proof (focus_member _ _ _ _ _ _ _ _ _ _ Hinv) as Hmemb.
  pose proof (focus_next _ _ _ _ _ _ _ _ _ _ Hinv) as Hnext.
  rewrite Hla in Hh.
  apply wpg_bind. unfold free_case4.
  apply wpg_bind. apply wpg_setBlockSize; [wbounds|wbounds|]. wsimpl.
  apply wpg_bind. apply wpg_setFree; [wbounds|wbounds|]. wsimpl. ld.
  apply wpg_bind. apply wpg_setFree; [wbounds|wbounds|]. wsimpl. ld.
  rewrite Hh, hdr_setFree by lia.
  apply wpg_bind. apply wpg_get_last. wsimpl. rewrite Hlastb.
  set (w := load64 m (h + s)).
  set (m1 := store64 _ h (hdr s false true)).
  assert (Hm1h : load64 m1 h = hdr s false true) by (unfold m1; ld; reflexivity).
  assert (Hm1f : Z.land (load64 m1 (h + s)) 0xFFFFFFFFFFFFFFF8 = s).
  { unfold m1. ld. apply footer_size; lia. }
  assert (Hm1fr : forall x, x < h \/ h + 8 <= x -> x < h + s \/ h + s + 8 <= x -> m1 x = m x).
  { intros x Hx1 Hx2. unfold m1. st_other. reflexivity. }
  clearbody m1.
  apply wpg_bind.
  eapply (wpg_conseq N _ _ (fun _ st' => exists m2,
     st' = mkState m2 lo brk mx seg last /\
     layout m2 (h + 8 + s) false post /\
     (forall x, x < h + 8 + s \/ h + 8 + s + 8 <= x -> m2 x = m1 x))).
  { clear HQ. destruct post as [|[sn aln] post'] eqn:Epost.
    - cbn [negb]. apply wpg_ret. exists m1. simpl. auto.
    - cbn [negb]. simpl in Hha. subst aln.
      destruct (Hnext sn true post' eq_refl) as (Hn & _ & HLp' & ? & ? & ? & ? & ?).
      cbn [total] in *.
      apply wpg_setPrevFree; [wbounds|wbounds|]. wsimpl.
      rewrite (load64_ext m m1) by (intros x Hx; apply Hm1fr; lia).
      rewrite Hn, hdr_setPrevFree by lia.
      eexists. split; [reflexivity|]. split.
      + cbn [layout]. split; [ld; reflexivity|]. split; [discriminate|].
        apply (layout_frame m); [|intros x Hx Hni|exact HLp'].
        * apply Forall_cons in Hvpost. tauto.
        * st_other. apply Hm1fr; lia.
      + intros x Hx. st_other. reflexivity. }
  intros _ st' (m2 & -> & HLpost2 & Hm2fr).
  apply wpg_ret. cbn [fst snd].
  assert (Hfr : forall x, x < h \/ h + 8 <= x -> x < h + s \/ h + s + 8 <= x ->
                          x < h + 8 + s \/ h + 8 + s + 8 <= x -> m2 x = m x).
  { intros x Hx1 Hx2 Hx3. rewrite Hm2fr by exact Hx3. apply Hm1fr; assumption. }
  assert (Hcell : forall j q x, q ∈ fls j -> q <= x < q + 16 ->
                                (x < h \/ h + 8 + s + 8 <= x) /\ lo + 8 <= x).
  { intros j q x Hq Hx. destruct (Hmemb j q Hq) as (sq & _ & ? & [(_ & ? & ?)|(Hb & ? & ?)]).
    - lia.
    - split; [|lia]. right.
      destruct post as [|[sn aln] post']; [inversion Hb|].
      simpl in Hha. subst aln. cbn [blocks_at] in Hb.
      apply elem_of_cons in Hb. destruct Hb as [E|Hb]; [discriminate|].
      apply Forall_cons in Hvpost. destruct Hvpost as [[? _] Hvp'].
      apply (blocks_at_bounds _ _ _ _ _ Hvp') in Hb. lia. }
  apply (add_completes N _ (pre ++ (s, false) :: post) fls (h + 8) s).
  - (* the block list is laid out *)
    pose proof (inv_heap _ _ _ Hinv) as [Hlo Hbrk Hmx Hlen Hpro Hv HLay Hna Hl].
    cbn [heap_lo heap_brk heap_max mem segFreeList lastHeader] in *.
    constructor; cbn [heap_lo heap_brk heap_max mem segFreeList lastHeader];
      try assumption.
    + rewrite Hbrk, !total_app. reflexivity.
    + rewrite (load64_ext m m2); [exact Hpro|]. intros x Hx. apply Hfr; lia.
    + apply Forall_app. split; [assumption|]. apply Forall_cons. auto.
    + apply layout_app. split.
      * apply (layout_frame m); [exact Hvpre| |exact HLpre].
        intros x Hx _. apply Hfr; lia.
      * cbn [layout]. rewrite Hla. split; [|split].
        -- rewrite (load64_ext m1 m2) by (intros x Hx; apply Hm2fr; lia). exact Hm1h.
        -- intros _. rewrite (load64_ext m1 m2) by (intros x Hx; apply Hm2fr; lia).
           exact Hm1f.
        -- exact HLpost2.
    + apply adjacent_free_app. split; [exact Hnpre|]. split.
      * apply adjacent_free_cons'. split; [exact Hnpost|]. right. exact Hha.
      * left. exact Hla.
    + rewrite Hl. apply last_header_flag.
  - (* the lists are untouched *)
    apply (lists_ok_frame st); [apply (inv_lists _ _ _ Hinv)|].
    intros j q x Hq Hx. cbn [mem]. destruct (Hcell j q x Hq Hx). apply Hfr; lia.
  - apply (inv_nodup _ _ _ Hinv).
  - cbn [heap_lo]. replace (h + 8 - 8) with h by lia. apply blocks_at_mid.
  - intros i q. cbn [heap_lo]. rewrite focus_blocks. split.
    + intros Hq. destruct (Hmemb i q Hq) as (sq & Hi & ? & [(Hb & ? & ?)|(Hb & ? & ?)]).
      * split; [lia|]. exists sq. split; [elem|exact Hi].
      * split; [lia|]. exists sq. split; [elem|exact Hi].
    + intros (Hne & sq & Hb & Hi). apply (inv_members _ _ _ Hinv).
      exists sq. split; [|exact Hi]. cbn [heap_lo]. rewrite focus_blocks.
      apply elem_of_app in Hb. destruct Hb as [Hb|Hb]; [elem|].
      apply elem_of_cons in Hb. destruct Hb as [E|Hb]; [|elem].
      injection E as E1 E2. lia.
  - intros st' Hinv' Hsame Hfr'. apply HQ; [exact Hinv'|exact Hsame|].
    intros x Hu. cbn [heap_lo mem] in Hfr'. rewrite Hfr'.
    + destruct (untouchable_focus _ _ _ _ _ Hvpre Hvpost Hu) as [[Hx _]|[Hx _]];
        apply Hfr; lia.
    + apply untouchable_outside_cells; [|exact Hu].
      apply Forall_app. split; [assumption|]. apply Forall_cons. auto.
Qed.
End FreeCase4.

Lemma last_header_app lo l1 post :
  post <> [] -> last_header lo (l1 ++ post) = last_header (lo + total l1) post.
Proof.
  intros Hne. destruct post as [|c post] using rev_ind; [congruence|]. clear IHpost.
  rewrite app_assoc, !last_header_snoc, total_app. lia.
Qed.

Lemma cells_ok_state st st' fls :
  heap_lo st' = heap_lo st -> heap_brk st' = heap_brk st ->
  cells_ok st fls -> cells_ok st' fls.
Proof.
  intros Hlo Hbrk H. apply (cells_ok_sub st st' fls fls H Hlo); [lia|auto|apply H].
Qed.

Lemma total_nb o : total (nb o) = nbsz o.
Proof. destruct o; simpl; lia. Qed.

(** * free: the general shape

    The freed block [(s, true)] sits between the neighbours it absorbs
    ([op] on the left, [on] on the right, each optional) and the rest of
    the heap ([pre], [post]). *)

Section FreeGen.
Context (N : Prop).
Variables (m : memory) (lo brk mx : Z) (seg : list Z) (last : Z).
Variables (pre post : list block) (op on : option Z) (s : Z) (fls : Z -> list Z).

Abbreviation gst := (mkState m lo brk mx seg last).
Abbreviation a0 := (lo + 8 + total pre).
Abbreviation gh := (lo + 8 + total pre + nbsz op).
Abbreviation Ns := (nbsz op + s + nbsz on).
Abbreviation bs_old := (pre ++ nb op ++ (s, true) :: nb on ++ post).
Abbreviation bs_new := (pre ++ (Ns, false) :: post).

Hypothesis Hinv : inv gst bs_old fls.
Hypothesis Hla : last_alloc true pre = true.
Hypothesis Hha : head_alloc post = true.

Lemma gen_valid :
  Forall (fun b : block => valid_size (fst b)) pre /\
  Forall (fun b : block => valid_size (fst b)) (nb op) /\
  valid_size s /\
  Forall (fun b : block => valid_size (fst b)) (nb on) /\
  Forall (fun b : block => valid_size (fst b)) post.
Proof using Hinv.
  clear Hla Hha.
  pose proof (inv_sizes _ _ _ Hinv) as H.
  apply Forall_app in H. destruct H as [H1 H].
  apply Forall_app in H. destruct H as [H2 H].
  apply Forall_cons in H. destruct H as [H3 H].
  apply Forall_app in H. destruct H as [H4 H5]. auto.
Qed.

Lemma gen_arith :
  0 < lo /\ lo mod 16 = 0 /\ brk <= mx /\ mx < 2 ^ 64 /\
  0 <= total pre /\ 0 <= total post /\ 24 <= s /\ s mod 16 = 8 /\
  brk = a0 + 8 + Ns + total post /\
  (forall z, op = Some z -> 24 <= z /\ z mod 16 = 8) /\
  (forall z, on = Some z -> 24 <= z /\ z mod 16 = 8) /\
  0 <= nbsz op /\ 0 <= nbsz on /\ nbsz op mod 16 = 0 /\ nbsz on mod 16 = 0.
Proof using Hinv.
  clear Hla Hha.
  destruct gen_valid as (H1 & H2 & [H3 H3'] & H4 & H5).
  pose proof (total_nonneg _ H1). pose proof (total_nonneg _ H5).
  pose proof (inv_lo _ _ _ Hinv) as [? ?]. pose proof (inv_max _ _ _ Hinv) as [? ?].
  pose proof (inv_brk _ _ _ Hinv) as Hb. cbn [heap_lo heap_brk heap_max] in *.
  rewrite !total_app in Hb. cbn [total] in Hb. rewrite total_app, !total_nb in Hb.
  assert (Hop : forall z, op = Some z -> 24 <= z /\ z mod 16 = 8).
  { intros z ->. simpl in H2. apply Forall_cons in H2. destruct H2 as [[? ?] _]. auto. }
  assert (Hon : forall z, on = Some z -> 24 <= z /\ z mod 16 = 8).
  { intros z ->. simpl in H4. apply Forall_cons in H4. destruct H4 as [[? ?] _]. auto. }
  assert (0 <= nbsz op /\ nbsz op mod 16 = 0).
  { destruct op as [z|]; simpl; [|split; [lia|reflexivity]].
    destruct (Hop z eq_refl). split; [lia|zdm]. }
  assert (0 <= nbsz on /\ nbsz on mod 16 = 0).
  { destruct on as [z|]; simpl; [|split; [lia|reflexivity]].
    destruct (Hon z eq_refl). split; [lia|zdm]. }
  repeat (split; [first [assumption | lia | zdm]|]). tauto.
Qed.

Lemma gen_Ns : valid_size Ns /\ Ns mod 8 = 0 /\ 24 <= Ns /\ 0 <= Ns < 2 ^ 64 - 8.
Proof using Hinv.
  clear Hla Hha.
  destruct gen_arith as (? & ? & ? & ? & ? & ? & ? & ? & ? & _ & _ & ? & ? & ? & ?).
  unfold valid_size. split; [split; [lia|zdm]|]. split; [zdm|]. lia.
Qed.

Lemma gen_blocks_old :
  blocks_at (lo + 8) bs_old =
  blocks_at (lo + 8) pre ++ blocks_at a0 (nb op) ++
  (gh, s, true) :: blocks_at (gh + 8 + s) (nb on) ++ blocks_at (a0 + 8 + Ns) post.
Proof using Type.
  rewrite !blocks_at_app. cbn [blocks_at]. rewrite blocks_at_app, !total_nb.
  replace (gh + 8 + s + nbsz on) with (a0 + 8 + Ns) by lia. reflexivity.
Qed.

Lemma gen_blocks_new :
  blocks_at (lo + 8) bs_new =
  blocks_at (lo + 8) pre ++ (a0, Ns, false) :: blocks_at (a0 + 8 + Ns) post.
Proof using Type. rewrite blocks_at_app. reflexivity. Qed.

(** Where the nodes of the free lists are. *)
Lemma gen_member j q :
  q ∈ fls j ->
  exists sq, getFreeListIndex sq = j /\ 24 <= sq /\
    (((q - 8, sq, false) ∈ blocks_at (lo + 8) pre /\ lo + 8 <= q - 8 /\ q + sq <= a0) \/
     (op = Some sq /\ q = a0 + 8) \/
     (on = Some sq /\ q = gh + 8 + s + 8) \/
     ((q - 8, sq, false) ∈ blocks_at (a0 + 8 + Ns) post /\
      a0 + 8 + Ns <= q - 8 /\ q + sq <= brk)).
Proof using Hinv.
  clear Hla Hha.
  intros Hq. apply (inv_members _ _ _ Hinv) in Hq. destruct Hq as (sq & Hb & Hj).
  cbn [heap_lo] in Hb. rewrite gen_blocks_old in Hb.
  destruct gen_valid as (Hv1 & Hv2 & Hv3 & Hv4 & Hv5).
  destruct gen_arith as (? & ? & ? & ? & ? & ? & ? & ? & ? & _).
  exists sq. split; [exact Hj|].
  apply elem_of_app in Hb. destruct Hb as [Hb|Hb].
  { pose proof (blocks_at_bounds _ _ _ _ _ Hv1 Hb) as (? & ? & [? ?] & _).
    split; [lia|]. left. split; [exact Hb|lia]. }
  apply elem_of_app in Hb. destruct Hb as [Hb|Hb].
  { destruct op as [z|]; simpl in Hb; [|inversion Hb].
    apply elem_of_cons in Hb. destruct Hb as [E|Hb]; [|inversion Hb].
    injection E as E1 E2. subst z.
    simpl in Hv2. apply Forall_cons in Hv2. destruct Hv2 as [[? ?] _].
    split; [assumption|]. right. left. split; [reflexivity|lia]. }
  apply elem_of_cons in Hb. destruct Hb as [E|Hb]; [discriminate|].
  apply elem_of_app in Hb. destruct Hb as [Hb|Hb].
  { destruct on as [z|]; simpl in Hb; [|inversion Hb].
    apply elem_of_cons in Hb. destruct Hb as [E|Hb]; [|inversion Hb].
    injection E as E1 E2. subst z.
    simpl in Hv4. apply Forall_cons in Hv4. destruct Hv4 as [[? ?] _].
    split; [assumption|]. right. right. left. split; [reflexivity|lia]. }
  pose proof (blocks_at_bounds _ _ _ _ _ Hv5 Hb) as (? & ? & [? ?] & _).
  split; [lia|]. right. right. right. split; [exact Hb|lia].
Qed.

Lemma gen_member_pp sp : op = Some sp -> a0 + 8 ∈ fls (getFreeListIndex sp).
Proof using Hinv.
  clear Hla Hha.
  intros E. apply (inv_members _ _ _ Hinv). exists sp. split; [|reflexivity].
  cbn [heap_lo]. rewrite gen_blocks_old, E. simpl.
  replace (lo + 8 + total pre + 8 - 8) with a0 by lia. elem.
Qed.

Lemma gen_member_np sn : on = Some sn -> gh + 8 + s + 8 ∈ fls (getFreeListIndex sn).
Proof using Hinv.
  clear Hla Hha.
  intros E. apply (inv_members _ _ _ Hinv). exists sn. split; [|reflexivity].
  cbn [heap_lo]. rewrite gen_blocks_old, E. simpl.
  replace (gh + 8 + s + 8 - 8) with (gh + 8 + s) by lia. elem.
Qed.

(** The link cells of all list nodes avoid the header and the footer of
    the merged block and everything outside the blocks. *)
Lemma gen_cell j q x :
  q ∈ fls j -> q <= x < q + 16 ->
  lo + 16 <= x /\ (x < a0 \/ a0 + 8 <= x) /\ (x < a0 + Ns \/ a0 + 8 + Ns + 8 <= x).
Proof using Hinv Hha.
  clear Hla.
  intros Hq Hx. destruct gen_arith as (? & ? & ? & ? & ? & ? & ? & ? & ? & Hop & Hon & ? & ? & _).
  destruct gen_valid as (_ & _ & _ & _ & Hv5).
  destruct (gen_member j q Hq) as (sq & _ & ? & [(_ & ? & ?)|[(E & ->)|[(E & ->)|(Hb & ? & ?)]]]).
  - lia.
  - rewrite E in *. simpl in *. lia.
  - rewrite E in *. simpl in *. lia.
  - split; [lia|]. split; [lia|]. right.
    clear Hinv. destruct post as [|[sn aln] post']; [inversion Hb|].
    simpl in Hha. subst aln. cbn [blocks_at] in Hb.
    apply elem_of_cons in Hb. destruct Hb as [E|Hb]; [discriminate|].
    apply Forall_cons in Hv5. destruct Hv5 as [[? _] Hvp'].
    apply (blocks_at_bounds _ _ _ _ _ Hvp') in Hb. lia.
Qed.

Lemma gen_outside_pre x :
  x < a0 -> outside_cells (lo + 8) pre x ->
  forall j q, q ∈ fls j -> x < q \/ q + 16 <= x.
Proof using Hinv.
  clear Hla Hha.
  intros Hx Ho j q Hq. destruct gen_arith as (? & ? & ? & ? & ? & ? & ? & ? & ? & Hop & Hon & ? & ? & _).
  destruct (gen_member j q Hq) as (sq & _ & ? & [(Hb & ? & ?)|[(E & ->)|[(E & ->)|(Hb & ? & ?)]]]).
  - specialize (Ho _ _ Hb). lia.
  - lia.
  - lia.
  - lia.
Qed.

Lemma free_assemble m2 seg2 last2 (F2 : Z -> list Z) (Q : unit -> state -> Prop) :
  load64 m2 a0 = hdr Ns false true ->
  Z.land (load64 m2 (a0 + Ns)) 0xFFFFFFFFFFFFFFF8 = Ns ->
  layout m2 (a0 + 8 + Ns) false post ->
  (forall x, x < a0 -> outside_cells (lo + 8) pre x -> m2 x = m x) ->
  (forall x, a0 + 8 + Ns + 8 <= x -> outside_cells (a0 + 8 + Ns) post x -> m2 x = m x) ->
  lists_ok (mkState m2 lo brk mx seg2 last2) F2 ->
  length seg2 = 15%nat ->
  (forall i, NoDup (F2 i)) ->
  (forall i q, q ∈ F2 i <-> q ∈ fls i /\ (q < a0 \/ a0 + 8 + Ns <= q)) ->
  last2 = last_header lo bs_new ->
  (forall st',
      inv st' bs_new
        (upd_list F2 (getFreeListIndex Ns) (a0 + 8 :: F2 (getFreeListIndex Ns))) ->
      same_heap gst st' ->
      (forall x, untouchable (lo + 8) bs_new x -> mem st' x = m x) ->
      Q tt st') ->
  wpg N (addFreeBlock (a0 + 8) (getFreeListIndex Ns)) (mkState m2 lo brk mx seg2 last2) Q.
Proof using Hinv Hla Hha.
  intros E1 E2 E3 E4 E4' E5 E6 E7 E8 E9 HQ.
  destruct gen_arith as (? & ? & ? & ? & ? & ? & ? & ? & ? & Hop & Hon & ? & ? & _).
  destruct gen_valid as (Hv1 & Hv2 & Hv3 & Hv4 & Hv5).
  destruct gen_Ns as (HvN & ? & ? & ?).
  pose proof (inv_heap _ _ _ Hinv) as [Hlo Hbrk Hmx Hlen Hpro Hv HLay Hna Hl].
  cbn [heap_lo heap_brk heap_max mem segFreeList lastHeader] in *.
  apply (add_completes N _ bs_new F2 (a0 + 8) Ns).
  - constructor; cbn [heap_lo heap_brk heap_max mem segFreeList lastHeader];
      try assumption.
    + rewrite total_app. cbn [total]. lia.
    + rewrite (load64_ext m m2); [exact Hpro|]. intros x Hx. apply E4; [lia|].
      apply outside_cells_range; [assumption|lia].
    + apply Forall_app. split; [assumption|]. apply Forall_cons. auto.
    + apply layout_app. split.
      * apply layout_app in HLay. destruct HLay as [HLp _].
        apply (layout_frame m); [exact Hv1| |exact HLp].
        intros x Hx Hni. apply E4; [lia|].
        apply outside_cells_no_interior; assumption.
      * cbn [layout]. rewrite Hla. auto.
    + apply adjacent_free_app in Hna. destruct Hna as (Hn1 & Hn2 & _).
      apply adjacent_free_app in Hn2. destruct Hn2 as (_ & Hn2 & _).
      apply adjacent_free_cons' in Hn2. destruct Hn2 as (Hn2 & _).
      apply adjacent_free_app in Hn2. destruct Hn2 as (_ & Hn2 & _).
      apply adjacent_free_app. split; [exact Hn1|]. split.
      * apply adjacent_free_cons'. split; [exact Hn2|]. right. exact Hha.
      * left. exact Hla.
  - exact E5.
  - exact E7.
  - cbn [heap_lo]. replace (a0 + 8 - 8) with a0 by lia. apply blocks_at_mid.
  - intros i q. cbn [heap_lo]. rewrite E8, gen_blocks_new. split.
    + intros [Hq Hout]. split; [lia|].
      destruct (gen_member i q Hq) as (sq & Hi & ? & [(Hb & ? & ?)|[(E & ->)|[(E & ->)|(Hb & ? & ?)]]]).
      * exists sq. split; [elem|exact Hi].
      * rewrite E in *. simpl in *. lia.
      * rewrite E in *. simpl in *. lia.
      * exists sq. split; [elem|exact Hi].
    + intros (Hne & sq & Hb & Hi).
      apply elem_of_app in Hb. destruct Hb as [Hb|Hb].
      * pose proof (blocks_at_bounds _ _ _ _ _ Hv1 Hb) as (? & ? & [? ?] & _).
        split; [|lia]. apply (inv_members _ _ _ Hinv). exists sq. split; [|exact Hi].
        cbn [heap_lo]. rewrite gen_blocks_old. elem.
      * apply elem_of_cons in Hb. destruct Hb as [E|Hb]; [injection E as Ea Eb; lia|].
        pose proof (blocks_at_bounds _ _ _ _ _ Hv5 Hb) as (? & ? & [? ?] & _).
        split; [|lia]. apply (inv_members _ _ _ Hinv). exists sq. split; [|exact Hi].
        cbn [heap_lo]. rewrite gen_blocks_old. elem.
  - intros st' Hinv' Hsame Hfr'. apply HQ; [exact Hinv'|exact Hsame|].
    intros x Hu. cbn [heap_lo mem] in Hfr'. rewrite Hfr'.
    + destruct (untouchable_focus _ _ _ _ _ Hv1 Hv5 Hu) as [[Hx Ho]|[Hx Ho]].
      * apply E4; [lia|exact Ho].
      * apply E4'; [lia|exact Ho].
    + apply untouchable_outside_cells; [|exact Hu].
      apply Forall_app. split; [assumption|]. apply Forall_cons. auto.
Qed.

Lemma gen_outside_post x :
  a0 + 8 + Ns <= x -> outside_cells (a0 + 8 + Ns) post x ->
  forall j q, q ∈ fls j -> x < q \/ q + 16 <= x.
Proof using Hinv.
  clear Hla Hha.
  intros Hx Ho j q Hq. destruct gen_arith as (? & ? & ? & ? & ? & ? & ? & ? & ? & Hop & Hon & ? & ? & _).
  destruct (gen_member j q Hq) as (sq & _ & ? & [(Hb & ? & ?)|[(E & ->)|[(E & ->)|(Hb & ? & ?)]]]).
  - lia.
  - rewrite E in *. simpl in *. lia.
  - rewrite E in *. simpl in *. lia.
  - specialize (Ho _ _ Hb). lia.
Qed.

(** What memory holds around the freed block. *)
Lemma gen_layout :
  layout m (lo + 8) true pre /\
  (forall sp, op = Some sp ->
     load64 m a0 = hdr sp false true /\
     Z.land (load64 m (a0 + sp)) 0xFFFFFFFFFFFFFFF8 = sp) /\
  load64 m gh = hdr s true (match op with Some _ => false | None => true end) /\
  (forall sn, on = Some sn ->
     load64 m (gh + 8 + s) = hdr sn false true /\
     Z.land (load64 m (gh + 8 + s + sn)) 0xFFFFFFFFFFFFFFF8 = sn) /\
  layout m (a0 + 8 + Ns) (match on with Some _ => false | None => true end) post.
Proof using Hinv Hla.
  clear Hha.
  pose proof (inv_layout _ _ _ Hinv) as H. cbn [mem heap_lo] in H.
  apply layout_app in H. destruct H as [H1 H]. rewrite Hla in H.
  apply layout_app in H. destruct H as [H2 H]. rewrite total_nb in H.
  cbn [layout] in H. destruct H as (H3 & _ & H).
  apply layout_app in H. destruct H as [H4 H5]. rewrite total_nb in H5.
  replace (gh + 8 + s + nbsz on) with (a0 + 8 + Ns) in H5 by lia.
  split; [exact H1|]. split; [|split; [|split]].
  - intros sp E. rewrite E in H2. cbn [nb layout] in H2.
    destruct H2 as (? & Hf & _). auto.
  - destruct op; exact H3.
  - intros sn E. rewrite E in H4. cbn [nb layout] in H4.
    destruct H4 as (? & Hf & _). auto.
  - destruct on; exact H5.
Qed.

Lemma gen_last :
  last = last_header lo bs_old /\
  last_header lo bs_new = match post with [] => a0 | _ => last end /\
  (gh =? last) = match on, post with None, [] => true | _, _ => false end /\
  (forall sn, on = Some sn ->
     (gh + 8 + s =? last) = match post with [] => true | _ => false end).
Proof using Hinv.
  clear Hla Hha.
  pose proof (inv_last _ _ _ Hinv) as H. cbn [lastHeader heap_lo] in H.
  destruct gen_arith as (? & ? & ? & ? & ? & ? & ? & ? & ? & Hop & Hon & ? & ? & _).
  destruct gen_valid as (Hv1 & Hv2 & Hv3 & Hv4 & Hv5).
  split; [exact H|]. clear Hinv.
  destruct post as [|c post'] eqn:Ep.
  - split; [apply last_header_snoc|].
    rewrite app_nil_r in H. split.
    + destruct on as [sn|].
      * simpl in H. replace (pre ++ nb op ++ [(s, true); (sn, false)])
          with ((pre ++ nb op ++ [(s, true)]) ++ [(sn, false)]) in H
          by (rewrite <- !app_assoc; reflexivity).
        rewrite last_header_snoc, !total_app, total_nb in H. cbn [total] in H.
        apply Z.eqb_neq. lia.
      * simpl in H. rewrite app_assoc, last_header_snoc, total_app, total_nb in H.
        apply Z.eqb_eq. lia.
    + intros sn ->. simpl in H.
      replace (pre ++ nb op ++ [(s, true); (sn, false)])
        with ((pre ++ nb op ++ [(s, true)]) ++ [(sn, false)]) in H
        by (rewrite <- !app_assoc; reflexivity).
      rewrite last_header_snoc, !total_app, total_nb in H. cbn [total] in H.
      apply Z.eqb_eq. lia.
  - rewrite <- Ep in *.
    assert (Hne : post <> []) by (rewrite Ep; congruence).
    replace (pre ++ nb op ++ (s, true) :: nb on ++ post)
      with ((pre ++ nb op ++ (s, true) :: nb on) ++ post) in H
      by (rewrite <- !app_assoc; reflexivity).
    rewrite last_header_app in H by exact Hne.
    assert (Ht : total (pre ++ nb op ++ (s, true) :: nb on) =
                 total pre + nbsz op + 8 + s + nbsz on).
    { rewrite !total_app. cbn [total]. rewrite ?total_app, !total_nb. lia. }
    rewrite Ht in H.
    replace (pre ++ (Ns, false) :: post) with ((pre ++ [(Ns, false)]) ++ post)
      by (rewrite <- app_assoc; reflexivity).
    rewrite last_header_app by exact Hne. rewrite total_app. cbn [total].
    pose proof (last_header_ge (lo + (total pre + nbsz op + 8 + s + nbsz on)) post Hv5 Hne).
    split; [|split].
    + rewrite H. f_equal. lia.
    + destruct on; apply Z.eqb_neq; lia.
    + intros sn E. destruct (Hon sn E). rewrite E in *. cbn [nbsz] in *.
      apply Z.eqb_neq. lia.
Qed.

(** The lists once the nodes of the absorbed neighbours are gone. *)
Lemma gen_drop_members :
  let F2 := drop_nb on (gh + 8 + s + 8) (drop_nb op (a0 + 8) fls) in
  (forall i, NoDup (F2 i)) /\
  (forall i q, q ∈ F2 i <-> q ∈ fls i /\ (q < a0 \/ a0 + 8 + Ns <= q)).
Proof using Hinv.
  clear Hla Hha.
  pose proof (inv_cells_ok _ _ _ Hinv) as HC.
  pose proof (inv_nodup _ _ _ Hinv) as Hnd.
  destruct gen_arith as (? & ? & ? & ? & ? & ? & ? & ? & ? & Hop & Hon & ? & ? & _).
  pose proof gen_member_pp as Hpp. pose proof gen_member_np as Hnp.
  pose proof gen_member as Hgm. clear Hinv.
  set (F1 := drop_nb op (a0 + 8) fls).
  assert (HF1 : (forall i, NoDup (F1 i)) /\
               (forall i q, q ∈ F1 i <-> q ∈ fls i /\ (op <> None -> q <> a0 + 8))).
  { unfold F1. destruct op as [sp|] eqn:E; simpl.
    - split; [apply NoDup_upd_remove; exact Hnd|]. intros i q.
      rewrite elem_of_upd_remove; [|exact Hnd|].
      + intuition congruence.
      + intros k Hk. apply (cells_ok_only _ _ _ _ _ HC (Hpp sp eq_refl) Hk).
    - split; [exact Hnd|]. intros i q. intuition congruence. }
  destruct HF1 as [Hnd1 Hm1]. simpl.
  assert (HF2 : (forall i, NoDup (drop_nb on (gh + 8 + s + 8) F1 i)) /\
    (forall i q, q ∈ drop_nb on (gh + 8 + s + 8) F1 i <->
                 q ∈ F1 i /\ (on <> None -> q <> gh + 8 + s + 8))).
  { destruct on as [sn|] eqn:E; simpl.
    - split; [apply NoDup_upd_remove; exact Hnd1|]. intros i q.
      rewrite elem_of_upd_remove; [|exact Hnd1|].
      + intuition congruence.
      + intros k Hk. apply Hm1 in Hk. destruct Hk as [Hk _].
        apply (cells_ok_only _ _ _ _ _ HC (Hnp sn eq_refl) Hk).
    - split; [exact Hnd1|]. intros i q. intuition congruence. }
  destruct HF2 as [Hnd2 Hm2]. split; [exact Hnd2|].
  intros i q. rewrite Hm2, Hm1. split.
  - intros ((Hq & Hp) & Hn). split; [exact Hq|].
    destruct (Hgm i q Hq) as (sq & _ & ? & [(Hb & ? & ?)|[(E & ->)|[(E & ->)|(Hb & ? & ?)]]]).
    + lia.
    + exfalso. apply Hp; congruence.
    + exfalso. apply Hn; congruence.
    + lia.
  - intros (Hq & Hout). split; [split; [exact Hq|]|].
    + intros _. lia.
    + intros Hn. destruct on as [sn|]; [|congruence].
      destruct (Hon sn eq_refl). simpl in *. lia.
Qed.

(** Writing header and footer of the merged block (and the header that
    follows it) leaves every list as it was. *)
Lemma gen_lists_frame m1 seg1 last1 :
  (forall x, lo + 16 <= x -> x < a0 \/ a0 + 8 <= x ->
             x < a0 + Ns \/ a0 + 8 + Ns + 8 <= x -> m1 x = m x) ->
  seg1 = seg ->
  lists_ok (mkState m1 lo brk mx seg1 last1) fls.
Proof using Hinv Hha.
  clear Hla.
  intros Hfr ->. pose proof (inv_lists _ _ _ Hinv) as HL.
  intros i Hi. destruct (HL i Hi) as (hd & Hh & Hd). exists hd.
  split; [exact Hh|]. cbn [mem] in *. unfold dll in *.
  apply (dllseg_frame m); [|exact Hd].
  intros q x Hq Hx. destruct (gen_cell i q x Hq Hx) as (? & ? & ?). apply Hfr; assumption.
Qed.

Lemma gen_tag_outside x :
  x < lo + 16 \/ a0 <= x < a0 + 8 \/ a0 + Ns <= x < a0 + 8 + Ns + 8 ->
  forall j q, q ∈ fls j -> x < q \/ q + 16 <= x.
Proof using Hinv Hha.
  clear Hla.
  intros Hx j q Hq.
  destruct (Z.lt_ge_cases x q) as [?|?]; [auto|].
  destruct (Z.lt_ge_cases x (q + 16)) as [?|?]; [|auto].
  destruct (gen_cell j q x Hq ltac:(lia)) as (? & ? & ?). lia.
Qed.

Lemma gen_preamble (Q : unit -> state -> Prop) :
  wpg N (pi <- free_branch gh s (is_some on) (is_some op) ;;
         addFreeBlock (fst pi) (snd pi)) gst Q ->
  wpg N (free (gh + 8)) gst Q.
Proof using Hinv Hla Hha.
  intros HQ.
  assert (Hinv' : inv gst ((pre ++ nb op) ++ (s, true) :: nb on ++ post) fls).
  { rewrite <- app_assoc. exact Hinv. }
  pose proof (free_preamble N _ _ _ _ _ _ _ _ _ _ Hinv' Q) as Hp.
  rewrite total_app, total_nb in Hp.
  replace (lo + 8 + (total pre + nbsz op)) with gh in Hp by lia.
  apply Hp.
  replace (negb (head_alloc (nb on ++ post))) with (is_some on).
  2:{ clear Hinv Hinv' Hp HQ. destruct on; simpl; [reflexivity|]. rewrite Hha. reflexivity. }
  replace (negb (last_alloc true (pre ++ nb op))) with (is_some op).
  2:{ rewrite last_alloc_app, Hla. clear Hinv Hinv' Hp HQ. destruct op; reflexivity. }
  exact HQ.
Qed.
End FreeGen.

(** * free, case 2: only the right neighbour is free *)

Section FreeCase2.
Context (N : Prop).
Variables (m : memory) (lo brk mx : Z) (seg : list Z) (last : Z).
Variables (pre post : list block) (s sn : Z) (fls : Z -> list Z).

Abbreviation st2 := (mkState m lo brk mx seg last).
Abbreviation h2 := (lo + 8 + total pre).

Hypothesis Hinv : inv st2 (pre ++ nb None ++ (s, true) :: nb (Some sn) ++ post) fls.
Hypothesis Hla : last_alloc true pre = true.
Hypothesis Hha : head_alloc post = true.

Lemma free_case2_ok (Q : unit -> state -> Prop) :
  (forall st',
      inv st' (pre ++ (nbsz None + s + nbsz (Some sn), false) :: post)
        (free_lists None (Some sn) h2 (h2 + nbsz None) s
           (nbsz None + s + nbsz (Some sn)) fls) ->
      same_heap st2 st' ->
      (forall x, untouchable (lo + 8)
                   (pre ++ (nbsz None + s + nbsz (Some sn), false) :: post) x ->
                 mem st' x = m x) ->
      Q tt st') ->
  wpg N (free (h2 + nbsz None + 8)) st2 Q.
Proof.
  intros HQ. apply (gen_preamble N _ _ _ _ _ _ _ _ _ _ _ _ Hinv Hla Hha).
  destruct (gen_arith _ _ _ _ _ _ _ _ _ _ _ _ Hinv)
    as (? & ? & ? & ? & ? & ? & ? & ? & Hbrk & Hop & Hon & ? & ? & ? & ?).
  destruct (Hon sn eq_refl) as [? ?].
  assert (s mod 8 = 0) by zdm. assert (sn mod 8 = 0) by zdm.
  destruct (gen_layout _ _ _ _ _ _ _ _ _ _ _ _ Hinv Hla) as (HLpre & _ & Hh & Hn & HLpost).
  destruct (Hn sn eq_refl) as [Hnh Hnf]. clear Hn.
  destruct (gen_Ns _ _ _ _ _ _ _ _ _ _ _ _ Hinv) as (HvN & ? & ? & ?).
  destruct (gen_last _ _ _ _ _ _ _ _ _ _ _ _ Hinv) as (Hlast & Hlastn & Hlb0 & Hlb).
  specialize (Hlb sn eq_refl).
  pose proof (gen_tag_outside _ _ _ _ _ _ _ _ _ _ _ _ Hinv Hha) as Htag.
  pose proof (gen_outside_pre _ _ _ _ _ _ _ _ _ _ _ _ Hinv) as Hopre.
  pose proof (gen_outside_post _ _ _ _ _ _ _ _ _ _ _ _ Hinv) as Hopost.
  pose proof (gen_drop_members _ _ _ _ _ _ _ _ _ _ _ _ Hinv) as [Hnd2 Hmem2].
  pose proof (gen_member_np _ _ _ _ _ _ _ _ _ _ _ _ Hinv sn eq_refl) as Hnp.
  pose proof (gen_valid _ _ _ _ _ _ _ _ _ _ _ _ Hinv) as (Hv1 & _ & _ & _ & Hv5).
  cbn [nbsz is_some] in *. replace (h2 + 0) with h2 in * by lia.
  unfold free_branch. cbn [andb].
  apply wpg_bind. unfold free_case2.
  apply wpg_bind. apply wpg_getBlockSize; [wbounds|wbounds|]. wsimpl.
  rewrite Hnh, hdr_size by lia. rewrite getFooter_eq by lia.
  apply wpg_bind. apply wpg_getBlockSize; [wbounds|wbounds|]. wsimpl.
  rewrite Hnh, hdr_size by lia.
  apply wpg_bind. apply wpg_getBlockSize; [wbounds|wbounds|]. wsimpl.
  rewrite Hh, hdr_size by lia.
  apply wpg_bind. apply wpg_getBlockSize; [wbounds|wbounds|]. wsimpl.
  rewrite Hnf. unfold HEADER_SIZE.
  rewrite (wrap64_small (s + sn)) by lia. rewrite wrap64_small by lia.
  replace (s + sn + 8) with (0 + s + (8 + sn)) by lia.
  set (Nz := 0 + s + (8 + sn)) in *.
  replace (h2 + 8 + s + sn) with (h2 + Nz) by (unfold Nz; lia).
  apply wpg_bind. apply wpg_setBlockSize; [wbounds|wbounds|]. wsimpl.
  rewrite Hh, hdr_low, hdr_setBlockSize by lia.
  apply wpg_bind. apply wpg_setBlockSize; [wbounds|wbounds|]. wsimpl. ld.
  apply wpg_bind. apply wpg_setFree; [wbounds|wbounds|]. wsimpl. ld.
  apply wpg_bind. apply wpg_setFree; [wbounds|wbounds|]. wsimpl. ld.
  rewrite hdr_setFree by lia.
  set (w := load64 m (h2 + Nz)).
  set (m1 := store64 _ h2 (hdr Nz false true)).
  assert (Hm1h : load64 m1 h2 = hdr Nz false true) by (unfold m1; ld; reflexivity).
  assert (Hm1f : Z.land (load64 m1 (h2 + Nz)) 0xFFFFFFFFFFFFFFF8 = Nz).
  { unfold m1. ld. apply footer_size; lia. }
  assert (Hm1fr : forall x, x < h2 \/ h2 + 8 <= x -> x < h2 + Nz \/ h2 + Nz + 8 <= x -> m1 x = m x).
  { intros x Hx1 Hx2. unfold m1. st_other. reflexivity. }
  clearbody m1.
  rewrite ptr_add_header.
  apply wpg_bind.
  apply (remove_lists N _ fls (getFreeListIndex sn) (h2 + 8 + s + 8)).
  { apply (gen_lists_frame _ _ _ _ _ _ _ _ _ _ _ _ Hinv Hha); [|reflexivity].
    intros x ? ? ?. cbn [nbsz] in *. apply Hm1fr; unfold Nz; lia. }
  { apply (cells_ok_state st2); [reflexivity|reflexivity|]. apply (inv_cells_ok _ _ _ Hinv). }
  { exact Hnp. }
  intros m2 seg2 Hlen2 HL2 Hfr2. wsimpl.
  assert (Hfr2' : forall x, (forall j q, q ∈ fls j -> x < q \/ q + 16 <= x) -> m2 x = m1 x).
  { intros x Hx. apply Hfr2. intros j q Hq _. apply (Hx j q Hq). }
  apply wpg_bind. apply wpg_get_last. wsimpl. rewrite Hlb.
  apply wpg_bind.
  eapply (wpg_conseq N _ _ (fun _ st' =>
     st' = mkState m2 lo brk mx seg2 (last_header lo (pre ++ (Nz, false) :: post)))).
  { rewrite Hlastn. clear. destruct post; apply wpg_ret || apply wpg_put_last; reflexivity. }
  intros _ st' ->. apply wpg_ret. cbn [fst snd].
  apply (free_assemble N _ _ _ _ _ _ _ _ None (Some sn) _ _ Hinv Hla Hha m2 seg2 _
           (drop_nb (Some sn) (h2 + 8 + s + 8) (drop_nb None (h2 + 8) fls))).
  - cbn [nbsz]. rewrite (load64_ext m1 m2); [exact Hm1h|].
    intros x Hx. apply Hfr2'. apply Htag. lia.
  - cbn [nbsz]. rewrite (load64_ext m1 m2); [exact Hm1f|].
    intros x Hx. apply Hfr2'. apply Htag. unfold Nz in *. lia.
  - cbn [nbsz]. apply (layout_frame m); [exact Hv5| |exact HLpost].
    intros x Hx Hni. rewrite Hfr2'.
    + apply Hm1fr; unfold Nz in *; lia.
    + apply Hopost; [lia|]. apply outside_cells_no_interior; assumption.
  - intros x Hx Ho. rewrite Hfr2'.
    + apply Hm1fr; unfold Nz in *; lia.
    + apply Hopre; assumption.
  - cbn [nbsz]. intros x Hx Ho. rewrite Hfr2'.
    + apply Hm1fr; unfold Nz in *; lia.
    + apply Hopost; [unfold Nz in *; lia|exact Ho].
  - exact HL2.
  - rewrite Hlen2. apply (inv_seglen _ _ _ Hinv).
  - apply Hnd2.
  - apply Hmem2.
  - reflexivity.
  - exact HQ.
Qed.
End FreeCase2.

(** * free, case 3: only the left neighbour is free *)

Section FreeCase3.
Context (N : Prop).
Variables (m : memory) (lo brk mx : Z) (seg : list Z) (last : Z).
Variables (pre post : list block) (s sp : Z) (fls : Z -> list Z).

Abbreviation st3 := (mkState m lo brk mx seg last).
Abbreviation a3 := (lo + 8 + total pre).

Hypothesis Hinv : inv st3 (pre ++ nb (Some sp) ++ (s, true) :: nb None ++ post) fls.
Hypothesis Hla : last_alloc true pre = true.
Hypothesis Hha : head_alloc post = true.

Lemma free_case3_ok (Q : unit -> state -> Prop) :
  (forall st',
      inv st' (pre ++ (nbsz (Some sp) + s + nbsz None, false) :: post)
        (free_lists (Some sp) None a3 (a3 + nbsz (Some sp)) s
           (nbsz (Some sp) + s + nbsz None) fls) ->
      same_heap st3 st' ->
      (forall x, untouchable (lo + 8)
                   (pre ++ (nbsz (Some sp) + s + nbsz None, false) :: post) x ->
                 mem st' x = m x) ->
      Q tt st') ->
  wpg N (free (a3 + nbsz (Some sp) + 8)) st3 Q.
Proof using Hinv Hla Hha.
  intros HQ. apply (gen_preamble N _ _ _ _ _ _ _ _ _ _ _ _ Hinv Hla Hha).
  destruct (gen_arith _ _ _ _ _ _ _ _ _ _ _ _ Hinv)
    as (? & ? & ? & ? & ? & ? & ? & ? & Hbrk & Hop & Hon & ? & ? & ? & ?).
  destruct (Hop sp eq_refl) as [? ?].
  assert (s mod 8 = 0) by zdm. assert (sp mod 8 = 0) by zdm.
  destruct (gen_layout _ _ _ _ _ _ _ _ _ _ _ _ Hinv Hla) as (HLpre & Hp & Hh & _ & HLpost).
  destruct (Hp sp eq_refl) as [Hph Hpf]. clear Hp.
  destruct (gen_Ns _ _ _ _ _ _ _ _ _ _ _ _ Hinv) as (HvN & ? & ? & ?).
  destruct (gen_last _ _ _ _ _ _ _ _ _ _ _ _ Hinv) as (Hlast & Hlastn & Hlb & _).
  pose proof (gen_tag_outside _ _ _ _ _ _ _ _ _ _ _ _ Hinv Hha) as Htag.
  pose proof (gen_outside_pre _ _ _ _ _ _ _ _ _ _ _ _ Hinv) as Hopre.
  pose proof (gen_outside_post _ _ _ _ _ _ _ _ _ _ _ _ Hinv) as Hopost.
  pose proof (gen_drop_members _ _ _ _ _ _ _ _ _ _ _ _ Hinv) as [Hnd2 Hmem2].
  pose proof (gen_member_pp _ _ _ _ _ _ _ _ _ _ _ _ Hinv sp eq_refl) as Hpp.
  pose proof (gen_valid _ _ _ _ _ _ _ _ _ _ _ _ Hinv) as (Hv1 & _ & _ & _ & Hv5).
  cbn [nbsz is_some drop_nb] in *.
  unfold free_branch. cbn [andb].
  set (Nz := 8 + sp + s + 0) in *.
  assert (HNz : Nz = 8 + sp + s) by (unfold Nz; lia).
  apply wpg_bind. unfold free_case3.
  replace (a3 + (8 + sp) - 8) with (a3 + sp) by lia.
  apply wpg_bind. apply wpg_getBlockSize; [wbounds|wbounds|]. wsimpl.
  rewrite Hpf. rewrite getPrevHeader_eq by lia.
  replace (a3 + (8 + sp) - 8 - sp) with a3 by lia.
  apply wpg_bind. apply wpg_getBlockSize; [wbounds|wbounds|]. wsimpl.
  rewrite Hph, hdr_size by lia.
  apply wpg_bind. apply wpg_getBlockSize; [wbounds|wbounds|]. wsimpl.
  rewrite Hph, hdr_size by lia.
  apply wpg_bind. apply wpg_getBlockSize; [wbounds|wbounds|]. wsimpl.
  rewrite Hh, hdr_size by lia. unfold HEADER_SIZE.
  rewrite (wrap64_small (sp + s)) by lia. rewrite wrap64_small by lia.
  replace (sp + s + 8) with Nz by lia.
  replace (a3 + (8 + sp) + s) with (a3 + Nz) by lia.
  apply wpg_bind. apply wpg_setBlockSize; [wbounds|wbounds|]. wsimpl.
  apply wpg_bind. apply wpg_setBlockSize; [wbounds|wbounds|]. wsimpl. ld.
  rewrite Hph, hdr_low, hdr_setBlockSize by lia.
  apply wpg_bind. apply wpg_setFree; [wbounds|wbounds|]. wsimpl. ld.
  rewrite hdr_setFree by lia.
  apply wpg_bind. apply wpg_setFree; [wbounds|wbounds|]. wsimpl. ld.
  set (w := load64 m (a3 + Nz)).
  match goal with |- context [mkState ?mm _ _ _ _ _] => set (m1 := mm) end.
  assert (Hm1h : load64 m1 a3 = hdr Nz false true) by (unfold m1; ld; reflexivity).
  assert (Hm1f : Z.land (load64 m1 (a3 + Nz)) 0xFFFFFFFFFFFFFFF8 = Nz).
  { unfold m1. ld. apply footer_size; lia. }
  assert (Hm1fr : forall x, x < a3 \/ a3 + 8 <= x -> x < a3 + Nz \/ a3 + Nz + 8 <= x -> m1 x = m x).
  { intros x Hx1 Hx2. unfold m1. st_other. reflexivity. }
  clearbody m1.
  rewrite ptr_add_header.
  apply wpg_bind.
  apply (remove_lists N _ fls (getFreeListIndex sp) (a3 + 8)).
  { apply (gen_lists_frame _ _ _ _ _ _ _ _ _ _ _ _ Hinv Hha); [|reflexivity].
    intros x ? ? ?. cbn [nbsz] in *. apply Hm1fr; lia. }
  { apply (cells_ok_state st3); [reflexivity|reflexivity|]. apply (inv_cells_ok _ _ _ Hinv). }
  { exact Hpp. }
  intros m2 seg2 Hlen2 HL2 Hfr2. wsimpl.
  assert (Hfr2' : forall x, (forall j q, q ∈ fls j -> x < q \/ q + 16 <= x) -> m2 x = m1 x).
  { intros x Hx. apply Hfr2. intros j q Hq _. apply (Hx j q Hq). }
  apply wpg_bind. apply wpg_get_last. wsimpl. rewrite Hlb.
  rewrite getPayload_eq.
  apply wpg_bind.
  eapply (wpg_conseq N _ _ (fun _ st' => exists m3,
     st' = mkState m3 lo brk mx seg2 (last_header lo (pre ++ (Nz, false) :: post)) /\
     layout m3 (a3 + 8 + Nz) false post /\
     (forall x, x < a3 + 8 + Nz \/ a3 + 8 + Nz + 8 <= x -> m3 x = m2 x))).
  { rewrite Hlastn. clear HQ Hinv Hmem2 Hnd2 HL2.
    destruct post as [|[sn aln] post'] eqn:Epost.
    - cbn [negb]. apply wpg_put_last. exists m2. simpl. auto.
    - cbn [negb]. simpl in Hha. subst aln. cbn [layout total] in *.
      destruct HLpost as (Hn & _ & HLp').
      apply Forall_cons in Hv5. destruct Hv5 as [[? ?] Hv5']. cbn [fst] in *.
      pose proof (total_nonneg _ Hv5'). assert (sn mod 8 = 0) by zdm.
      replace (a3 + (8 + sp) + 8 + s) with (a3 + 8 + Nz) by lia.
      assert (Hn2 : load64 m2 (a3 + 8 + Nz) = hdr sn true true).
      { rewrite <- Hn. rewrite (load64_ext m1 m2).
        - apply load64_ext. intros x Hx. apply Hm1fr; lia.
        - intros x Hx. apply Hfr2'. apply Htag. lia. }
      apply wpg_setPrevFree; [wbounds|wbounds|]. wsimpl.
      rewrite Hn2, hdr_setPrevFree by lia.
      eexists. split; [reflexivity|]. split.
      + cbn [layout]. split; [ld; reflexivity|]. split; [discriminate|].
        apply (layout_frame m); [exact Hv5'|intros x Hx Hni|exact HLp'].
        st_other. rewrite Hfr2'.
        * apply Hm1fr; lia.
        * apply Hopost; [lia|]. apply outside_cells_cons. split; [discriminate|].
          apply outside_cells_no_interior; assumption.
      + intros x Hx. st_other. reflexivity. }
  intros _ st' (m3 & -> & HLpost3 & Hm3fr).
  apply wpg_ret. cbn [fst snd].
  apply (free_assemble N _ _ _ _ _ _ _ _ (Some sp) None _ _ Hinv Hla Hha m3 seg2 _
           (drop_nb None (a3 + (8 + sp) + 8 + s + 8) (drop_nb (Some sp) (a3 + 8) fls))).
  - cbn [nbsz]. rewrite (load64_ext m2 m3) by (intros x Hx; apply Hm3fr; lia).
    rewrite (load64_ext m1 m2); [exact Hm1h|].
    intros x Hx. apply Hfr2'. apply Htag. lia.
  - cbn [nbsz]. rewrite (load64_ext m2 m3) by (intros x Hx; apply Hm3fr; lia).
    rewrite (load64_ext m1 m2); [exact Hm1f|].
    intros x Hx. apply Hfr2'. apply Htag. lia.
  - cbn [nbsz]. exact HLpost3.
  - intros x Hx Ho. rewrite Hm3fr by lia. rewrite Hfr2'.
    + apply Hm1fr; lia.
    + apply Hopre; assumption.
  - cbn [nbsz]. intros x Hx Ho. rewrite Hm3fr by lia. rewrite Hfr2'.
    + apply Hm1fr; lia.
    + apply Hopost; [lia|exact Ho].
  - apply (lists_ok_frame (mkState m2 lo brk mx seg2 last)); [exact HL2|].
    intros j q x Hq Hx. cbn [mem]. apply Hm3fr.
    assert (Hq' : q ∈ fls j).
    { cbn [drop_nb] in Hq. apply Hmem2 in Hq. tauto. }
    destruct (gen_cell _ _ _ _ _ _ _ _ _ _ _ _ Hinv Hha j q x Hq' Hx) as (? & ? & ?).
    cbn [nbsz] in *. lia.
  - rewrite Hlen2. apply (inv_seglen _ _ _ Hinv).
  - apply Hnd2.
  - apply Hmem2.
  - reflexivity.
  - exact HQ.
Qed.
End FreeCase3.

(** * free, case 1: both neighbours are free *)

Section FreeCase1.
Context (N : Prop).
Variables (m : memory) (lo brk mx : Z) (seg : list Z) (last : Z).
Variables (pre post : list block) (s sp sn : Z) (fls : Z -> list Z).

Abbreviation st1 := (mkState m lo brk mx seg last).
Abbreviation a1 := (lo + 8 + total pre).

Hypothesis Hinv :
  inv st1 (pre ++ nb (Some sp) ++ (s, true) :: nb (Some sn) ++ post) fls.
Hypothesis Hla : last_alloc true pre = true.
Hypothesis Hha : head_alloc post = true.

Lemma free_case1_ok (Q : unit -> state -> Prop) :
  (forall st',
      inv st' (pre ++ (nbsz (Some sp) + s + nbsz (Some sn), false) :: post)
        (free_lists (Some sp) (Some sn) a1 (a1 + nbsz (Some sp)) s
           (nbsz (Some sp) + s + nbsz (Some sn)) fls) ->
      same_heap st1 st' ->
      (forall x, untouchable (lo + 8)
                   (pre ++ (nbsz (Some sp) + s + nbsz (Some sn), false) :: post) x ->
                 mem st' x = m x) ->
      Q tt st') ->
  wpg N (free (a1 + nbsz (Some sp) + 8)) st1 Q.
Proof using Hinv Hla Hha.
  intros HQ. apply (gen_preamble N _ _ _ _ _ _ _ _ _ _ _ _ Hinv Hla Hha).
  destruct (gen_arith _ _ _ _ _ _ _ _ _ _ _ _ Hinv)
    as (? & ? & ? & ? & ? & ? & ? & ? & Hbrk & Hop & Hon & ? & ? & ? & ?).
  destruct (Hop sp eq_refl) as [? ?]. destruct (Hon sn eq_refl) as [? ?].
  assert (s mod 8 = 0) by zdm. assert (sp mod 8 = 0) by zdm.
  assert (sn mod 8 = 0) by zdm.
  destruct (gen_layout _ _ _ _ _ _ _ _ _ _ _ _ Hinv Hla) as (HLpre & Hp & Hh & Hn & HLpost).
  destruct (Hp sp eq_refl) as [Hph Hpf]. clear Hp.
  destruct (Hn sn eq_refl) as [Hnh Hnf]. clear Hn.
  destruct (gen_Ns _ _ _ _ _ _ _ _ _ _ _ _ Hinv) as (HvN & ? & ? & ?).
  destruct (gen_last _ _ _ _ _ _ _ _ _ _ _ _ Hinv) as (Hlast & Hlastn & _ & Hlb).
  specialize (Hlb sn eq_refl).
  pose proof (gen_tag_outside _ _ _ _ _ _ _ _ _ _ _ _ Hinv Hha) as Htag.
  pose proof (gen_outside_pre _ _ _ _ _ _ _ _ _ _ _ _ Hinv) as Hopre.
  pose proof (gen_outside_post _ _ _ _ _ _ _ _ _ _ _ _ Hinv) as Hopost.
  pose proof (gen_drop_members _ _ _ _ _ _ _ _ _ _ _ _ Hinv) as [Hnd2 Hmem2].
  pose proof (gen_member_pp _ _ _ _ _ _ _ _ _ _ _ _ Hinv sp eq_refl) as Hpp.
  pose proof (gen_member_np _ _ _ _ _ _ _ _ _ _ _ _ Hinv sn eq_refl) as Hnp.
  pose proof (gen_valid _ _ _ _ _ _ _ _ _ _ _ _ Hinv) as (Hv1 & _ & _ & _ & Hv5).
  pose proof (inv_cells_ok _ _ _ Hinv) as HC.
  pose proof (inv_nodup _ _ _ Hinv) as Hnd.
  cbn [nbsz is_some] in *.
  unfold free_branch. cbn [andb].
  set (Nz := 8 + sp + s + (8 + sn)) in *.
  assert (HNz : Nz = 8 + sp + s + (8 + sn)) by reflexivity.
  apply wpg_bind. unfold free_case1.
  replace (a1 + (8 + sp) - 8) with (a1 + sp) by lia.
  apply wpg_bind. apply wpg_getBlockSize; [wbounds|wbounds|]. wsimpl.
  rewrite Hpf. rewrite getPrevHeader_eq by lia.
  replace (a1 + (8 + sp) - 8 - sp) with a1 by lia.
  apply wpg_bind. apply wpg_getBlockSize; [wbounds|wbounds|]. wsimpl.
  rewrite Hnh, hdr_size by lia. rewrite getFooter_eq by lia.
  apply wpg_bind. apply wpg_getBlockSize; [wbounds|wbounds|]. wsimpl.
  rewrite Hph, hdr_size by lia.
  apply wpg_bind. apply wpg_getBlockSize; [wbounds|wbounds|]. wsimpl.
  rewrite Hnh, hdr_size by lia.
  apply wpg_bind. apply wpg_getBlockSize; [wbounds|wbounds|]. wsimpl.
  rewrite Hph, hdr_size by lia.
  apply wpg_bind. apply wpg_getBlockSize; [wbounds|wbounds|]. wsimpl.
  rewrite Hh, hdr_size by lia.
  apply wpg_bind. apply wpg_getBlockSize; [wbounds|wbounds|]. wsimpl.
  rewrite Hnh, hdr_size by lia. unfold HEADER_SIZE.
  rewrite (wrap64_small (sp + s)) by lia. rewrite (wrap64_small (sp + s + sn)) by lia.
  rewrite wrap64_small by lia.
  replace (sp + s + sn + 2 * 8) with Nz by lia.
  replace (a1 + (8 + sp) + 8 + s + sn) with (a1 + Nz) by lia.
  apply wpg_bind. apply wpg_setBlockSize; [wbounds|wbounds|]. wsimpl.
  rewrite Hph, hdr_low, hdr_setBlockSize by lia.
  apply wpg_bind. apply wpg_setBlockSize; [wbounds|wbounds|]. wsimpl. ld.
  apply wpg_bind. apply wpg_setFree; [wbounds|wbounds|]. wsimpl. ld.
  rewrite hdr_setFree by lia.
  apply wpg_bind. apply wpg_setFree; [wbounds|wbounds|]. wsimpl. ld.
  set (w := load64 m (a1 + Nz)).
  match goal with |- context [mkState ?mm _ _ _ _ _] => set (m1 := mm) end.
  assert (Hm1h : load64 m1 a1 = hdr Nz false true) by (unfold m1; ld; reflexivity).
  assert (Hm1f : Z.land (load64 m1 (a1 + Nz)) 0xFFFFFFFFFFFFFFF8 = Nz).
  { unfold m1. ld. apply footer_size; lia. }
  assert (Hm1fr : forall x, x < a1 \/ a1 + 8 <= x -> x < a1 + Nz \/ a1 + Nz + 8 <= x -> m1 x = m x).
  { intros x Hx1 Hx2. unfold m1. st_other. reflexivity. }
  clearbody m1.
  rewrite !ptr_add_header.
  apply wpg_bind.
  apply (remove_lists N _ fls (getFreeListIndex sp) (a1 + 8)).
  { apply (gen_lists_frame _ _ _ _ _ _ _ _ _ _ _ _ Hinv Hha); [|reflexivity].
    intros x ? ? ?. cbn [nbsz] in *. apply Hm1fr; lia. }
  { apply (cells_ok_state st1); [reflexivity|reflexivity|]. exact HC. }
  { exact Hpp. }
  intros m2 seg2 Hlen2 HL2 Hfr2. wsimpl.
  assert (Hfr2' : forall x, (forall j q, q ∈ fls j -> x < q \/ q + 16 <= x) -> m2 x = m1 x).
  { intros x Hx. apply Hfr2. intros j q Hq _. apply (Hx j q Hq). }
  set (F1 := upd_list fls (getFreeListIndex sp)
               (remove_addr (a1 + 8) (fls (getFreeListIndex sp)))) in *.
  assert (HF1 : forall j q, q ∈ F1 j <-> q ∈ fls j /\ q <> a1 + 8).
  { intros j q. apply elem_of_upd_remove; [exact Hnd|].
    intros k Hk. apply (cells_ok_only _ _ _ _ _ HC Hpp Hk). }
  apply wpg_bind.
  apply (remove_lists N _ F1 (getFreeListIndex sn) (a1 + (8 + sp) + 8 + s + 8)).
  { exact HL2. }
  { apply (cells_ok_state st1); [reflexivity|reflexivity|].
    apply cells_ok_remove; assumption. }
  { apply HF1. split; [exact Hnp|lia]. }
  intros m3 seg3 Hlen3 HL3 Hfr3. wsimpl.
  assert (Hfr3' : forall x, (forall j q, q ∈ fls j -> x < q \/ q + 16 <= x) -> m3 x = m2 x).
  { intros x Hx. apply Hfr3. intros j q Hq _. apply HF1 in Hq. apply (Hx j q). tauto. }
  apply wpg_bind. apply wpg_get_last. wsimpl. rewrite Hlb.
  rewrite getPayload_eq.
  apply wpg_bind.
  eapply (wpg_conseq N _ _ (fun _ st' =>
     st' = mkState m3 lo brk mx seg3 (last_header lo (pre ++ (Nz, false) :: post)))).
  { rewrite Hlastn. clear. destruct post; apply wpg_ret || apply wpg_put_last; reflexivity. }
  intros _ st' ->. apply wpg_ret. cbn [fst snd].
  apply (free_assemble N _ _ _ _ _ _ _ _ (Some sp) (Some sn) _ _ Hinv Hla Hha m3 seg3 _
           (drop_nb (Some sn) (a1 + (8 + sp) + 8 + s + 8) (drop_nb (Some sp) (a1 + 8) fls))).
  - cbn [nbsz]. rewrite (load64_ext m2 m3), (load64_ext m1 m2); [exact Hm1h| |].
    + intros x Hx. apply Hfr2'. apply Htag. lia.
    + intros x Hx. apply Hfr3'. apply Htag. lia.
  - cbn [nbsz]. rewrite (load64_ext m2 m3), (load64_ext m1 m2); [exact Hm1f| |].
    + intros x Hx. apply Hfr2'. apply Htag. lia.
    + intros x Hx. apply Hfr3'. apply Htag. lia.
  - cbn [nbsz]. apply (layout_frame m); [exact Hv5| |exact HLpost].
    intros x Hx Hni.
    assert (Ho : forall j q, q ∈ fls j -> x < q \/ q + 16 <= x).
    { apply Hopost; [lia|]. apply outside_cells_no_interior; assumption. }
    rewrite Hfr3', Hfr2' by exact Ho. apply Hm1fr; lia.
  - intros x Hx Ho.
    assert (Ho' : forall j q, q ∈ fls j -> x < q \/ q + 16 <= x).
    { apply Hopre; assumption. }
    rewrite Hfr3', Hfr2' by exact Ho'. apply Hm1fr; lia.
  - cbn [nbsz]. intros x Hx Ho.
    assert (Ho' : forall j q, q ∈ fls j -> x < q \/ q + 16 <= x).
    { apply Hopost; [lia|exact Ho]. }
    rewrite Hfr3', Hfr2' by exact Ho'. apply Hm1fr; lia.
  - exact HL3.
  - rewrite Hlen3. wsimpl. rewrite Hlen2. apply (inv_seglen _ _ _ Hinv).
  - apply Hnd2.
  - apply Hmem2.
  - reflexivity.
  - exact HQ.
Qed.
End FreeCase1.

(** * free: all four cases together *)

Lemma free_gen_ok N st pre post op on s fls (Q : unit -> state -> Prop) :
  inv st (pre ++ nb op ++ (s, true) :: nb on ++ post) fls ->
  last_alloc true pre = true -> head_alloc post = true ->
  (forall st',
      inv st' (pre ++ (nbsz op + s + nbsz on, false) :: post)
        (free_lists op on (heap_lo st + 8 + total pre)
           (heap_lo st + 8 + total pre + nbsz op) s (nbsz op + s + nbsz on) fls) ->
      same_heap st st' ->
      (forall x, untouchable (heap_lo st + 8)
                   (pre ++ (nbsz op + s + nbsz on, false) :: post) x ->
                 mem st' x = mem st x) ->
      Q tt st') ->
  wpg N (free (heap_lo st + 8 + total pre + nbsz op + 8)) st Q.
Proof.
  intros Hinv Hla Hha HQ. destruct st as [m lo brk mx seg last]. cbn [heap_lo] in *.
  destruct op as [sp|], on as [sn|].
  - apply (free_case1_ok N _ _ _ _ _ _ _ _ _ _ _ _ Hinv Hla Hha). exact HQ.
  - apply (free_case3_ok N _ _ _ _ _ _ _ _ _ _ _ Hinv Hla Hha). exact HQ.
  - apply (free_case2_ok N _ _ _ _ _ _ _ _ _ _ _ Hinv Hla Hha). exact HQ.
  - cbn [nb nbsz app] in *. unfold free_lists in HQ. cbn [drop_nb] in HQ.
    replace (lo + 8 + total pre + 0) with (lo + 8 + total pre) in * by lia.
    replace (0 + s + 0) with s in HQ by lia.
    apply (free_case4_ok N _ _ _ _ _ _ _ _ _ _ Hinv Hla Hha). exact HQ.
Qed.

(** ** Finding the neighbours that free absorbs *)

Lemma split_prev_spec pre0 :
  adjacent_free pre0 = false ->
  exists pre op, pre0 = pre ++ nb op /\ last_alloc true pre = true /\
                 is_some op = negb (last_alloc true pre0).
Proof.
  intros Hna. destruct pre0 as [|b pre0] using rev_ind.
  - exists [], None. simpl. auto.
  - clear IHpre0. destruct b as [sp [|]].
    + exists (pre0 ++ [(sp, true)]), None. rewrite app_nil_r, !last_alloc_snoc. simpl. auto.
    + exists pre0, (Some sp). simpl. split; [reflexivity|]. rewrite last_alloc_snoc.
      split; [|reflexivity].
      apply adjacent_free_app in Hna. destruct Hna as (_ & _ & [H|H]); [exact H|discriminate].
Qed.

Lemma split_next_spec post0 :
  adjacent_free post0 = false ->
  exists on post, post0 = nb on ++ post /\ head_alloc post = true /\
                  is_some on = negb (head_alloc post0).
Proof.
  intros Hna. destruct post0 as [|[sn [|]] post0].
  - exists None, []. simpl. auto.
  - exists None, ((sn, true) :: post0). simpl. auto.
  - exists (Some sn), post0. simpl. split; [reflexivity|]. split; [|reflexivity].
    apply adjacent_free_cons' in Hna. destruct Hna as (_ & [H|H]); [discriminate|exact H].
Qed.

(** free of an allocated block re-establishes the invariant: the block is
    merged with its free neighbours. *)
Lemma free_inv_fr N st pre0 post0 fls s (Q : unit -> state -> Prop) :
  inv st (pre0 ++ (s, true) :: post0) fls ->
  (forall st' pre op on post fls',
      pre0 = pre ++ nb op -> post0 = nb on ++ post ->
      is_some op = negb (last_alloc true pre0) ->
      is_some on = negb (head_alloc post0) ->
      inv st' (pre ++ (nbsz op + s + nbsz on, false) :: post) fls' ->
      same_heap st st' ->
      (forall x, untouchable (heap_lo st + 8)
                   (pre ++ (nbsz op + s + nbsz on, false) :: post) x ->
                 mem st' x = mem st x) ->
      Q tt st') ->
  wpg N (free (heap_lo st + 8 + total pre0 + 8)) st Q.
Proof.
  intros Hinv HQ.
  pose proof (inv_noadj _ _ _ Hinv) as Hna.
  apply adjacent_free_app in Hna. destruct Hna as (Hn1 & Hn2 & _).
  apply adjacent_free_cons' in Hn2. destruct Hn2 as (Hn2 & _).
  destruct (split_prev_spec pre0 Hn1) as (pre & op & E1 & Hla & Hop).
  destruct (split_next_spec post0 Hn2) as (on & post & E2 & Hha & Hon).
  assert (Ebs : pre0 ++ (s, true) :: post0 = pre ++ nb op ++ (s, true) :: nb on ++ post).
  { rewrite E1, E2, <- app_assoc. reflexivity. }
  rewrite Ebs in Hinv.
  replace (heap_lo st + 8 + total pre0 + 8) with (heap_lo st + 8 + total pre + nbsz op + 8)
    by (rewrite E1, total_app, total_nb; lia).
  apply (free_gen_ok N st pre post op on s fls Q Hinv Hla Hha).
  intros st' Hinv' Hsame Hfr. apply (HQ st' pre op on post _ E1 E2 Hop Hon Hinv' Hsame Hfr).
Qed.

Lemma free_inv N st pre0 post0 fls s (Q : unit -> state -> Prop) :
  inv st (pre0 ++ (s, true) :: post0) fls ->
  (forall st' pre op on post fls',
      pre0 = pre ++ nb op -> post0 = nb on ++ post ->
      is_some op = negb (last_alloc true pre0) ->
      is_some on = negb (head_alloc post0) ->
      inv st' (pre ++ (nbsz op + s + nbsz on, false) :: post) fls' ->
      same_heap st st' -> Q tt st') ->
  wpg N (free (heap_lo st + 8 + total pre0 + 8)) st Q.
Proof.
  intros Hinv HQ. apply (free_inv_fr N st pre0 post0 fls s Q Hinv).
  intros st' pre op on post fls' E1 E2 Hop Hon Hinv' Hsame _.
  apply (HQ st' pre op on post fls'); assumption.
Qed.

(** * Completing an operation with a final list removal *)

Lemma remove_completes N st bs F p i (Q : unit -> state -> Prop) :
  heap_layout st bs -> lists_ok st F -> cells_ok st F -> p ∈ F i ->
  (forall j q, q ∈ F j <->
     (q = p /\ j = i) \/
     exists s, (q - 8, s, false) ∈ blocks_at (heap_lo st + 8) bs /\
               getFreeListIndex s = j) ->
  (forall s0, (p - 8, s0, false) ∉ blocks_at (heap_lo st + 8) bs) ->
  (forall st', inv st' bs (upd_list F i (remove_addr p (F i))) ->
               same_heap st st' ->
               (forall x, outside_cells (heap_lo st + 8) bs x -> mem st' x = mem st x) ->
               Q tt st') ->
  wpg N (removeFreeBlock p i) st Q.
Proof.
  intros HH HL HC Hp Hmem Hnot HQ.
  pose proof (cells_nodup _ _ HC) as Hnd.
  apply (remove_lists N st F i p Q HL HC Hp).
  intros m' seg' Hlen' HL' Hfr.
  assert (Hfr' : forall x, outside_cells (heap_lo st + 8) bs x -> m' x = mem st x).
  { intros x Hx. apply Hfr. intros j q Hq Hne. apply Hmem in Hq.
    destruct Hq as [[-> _]|(s & Hb & _)]; [contradiction|].
    specialize (Hx _ _ Hb). lia. }
  apply HQ; [|repeat split|destruct st; exact Hfr']. constructor.
  - apply heap_layout_frame; [assumption|assumption|exact Hfr'].
  - exact HL'.
  - apply NoDup_upd_remove. exact Hnd.
  - intros j q. cbn [heap_lo set_seg set_mem].
    rewrite elem_of_upd_remove; [|exact Hnd|].
    + rewrite Hmem. split.
      * intros [[[-> _]|H] Hne]; [contradiction|exact H].
      * intros (s & Hb & Hj). split; [right; exists s; auto|].
        intros ->. apply (Hnot s Hb).
    + intros k Hk. apply (cells_ok_only st F i k p HC Hp Hk).
Qed.

(** * malloc: the victim block and its neighbours *)

Section Victim.
Context (N : Prop).
Variables (m : memory) (lo brk mx : Z) (seg : list Z) (last : Z).
Variables (pre post : list block) (b : Z) (fls : Z -> list Z).

Abbreviation vst := (mkState m lo brk mx seg last).
Abbreviation vh := (lo + 8 + total pre).

Hypothesis Hinv : inv vst (pre ++ (b, false) :: post) fls.

Lemma victim_valid :
  Forall (fun c : block => valid_size (fst c)) pre /\
  valid_size b /\
  Forall (fun c : block => valid_size (fst c)) post.
Proof using Hinv.
  pose proof (inv_sizes _ _ _ Hinv) as H. apply Forall_app in H.
  destruct H as [H1 H2]. apply Forall_cons in H2. tauto.
Qed.

Lemma victim_noadj : last_alloc true pre = true /\ head_alloc post = true.
Proof using Hinv.
  pose proof (inv_noadj _ _ _ Hinv) as H. apply adjacent_free_app in H.
  destruct H as (_ & H2 & H3). apply adjacent_free_cons' in H2.
  destruct H2 as (_ & H2). simpl in *.
  split; [destruct H3; [assumption|discriminate]|destruct H2; [discriminate|assumption]].
Qed.

Lemma victim_arith :
  0 < lo /\ lo mod 16 = 0 /\ brk <= mx /\ mx < 2 ^ 64 /\
  0 <= total pre /\ 0 <= total post /\ 24 <= b /\ b mod 16 = 8 /\ b mod 8 = 0 /\
  brk = vh + 8 + b + total post.
Proof using Hinv.
  destruct victim_valid as (H1 & [H2 H3] & H4).
  pose proof (total_nonneg _ H1). pose proof (total_nonneg _ H4).
  pose proof (inv_lo _ _ _ Hinv) as [? ?]. pose proof (inv_max _ _ _ Hinv) as [? ?].
  pose proof (inv_brk _ _ _ Hinv) as Hb. cbn [heap_lo heap_brk heap_max] in *.
  rewrite total_app in Hb. cbn [total] in Hb.
  repeat (split; [first [assumption | lia | zdm]|]). lia.
Qed.

Lemma victim_layout :
  layout m (lo + 8) true pre /\
  load64 m vh = hdr b false true /\
  Z.land (load64 m (vh + b)) 0xFFFFFFFFFFFFFFF8 = b /\
  layout m (vh + 8 + b) false post.
Proof using Hinv.
  pose proof (inv_layout _ _ _ Hinv) as H. cbn [mem heap_lo] in H.
  apply layout_app in H. destruct H as [H1 H2]. cbn [layout] in H2.
  destruct victim_noadj as [Hla _]. rewrite Hla in H2.
  destruct H2 as (H2 & H3 & H4). auto.
Qed.

Lemma victim_last :
  last = last_header lo (pre ++ (b, false) :: post) /\
  ((vh =? last) = match post with [] => true | _ => false end).
Proof using Hinv.
  pose proof (inv_last _ _ _ Hinv) as H. cbn [lastHeader heap_lo] in H.
  split; [exact H|]. destruct victim_valid as (_ & [Hs _] & Hv). clear Hinv.
  destruct post as [|c post'].
  - rewrite H, last_header_snoc. apply Z.eqb_refl.
  - rewrite H, last_header_mid. apply Z.eqb_neq.
    pose proof (last_header_ge (lo + total pre + 8 + (b, false).1) _ Hv ltac:(congruence)) as HH.
    cbn [fst] in *. lia.
Qed.

Lemma victim_blocks al :
  blocks_at (lo + 8) (pre ++ (b, al) :: post) =
  blocks_at (lo + 8) pre ++ (vh, b, al) :: blocks_at (vh + 8 + b) post.
Proof using Type. rewrite blocks_at_app. reflexivity. Qed.

Lemma victim_member j q :
  q ∈ fls j ->
  exists sq, getFreeListIndex sq = j /\ 24 <= sq /\
    (((q - 8, sq, false) ∈ blocks_at (lo + 8) pre /\ lo + 8 <= q - 8 /\ q + sq <= vh) \/
     (q = vh + 8 /\ sq = b) \/
     ((q - 8, sq, false) ∈ blocks_at (vh + 8 + b) post /\
      vh + 8 + b + 32 <= q - 8 /\ q + sq <= brk)).
Proof using Hinv.
  intros Hq. apply (inv_members _ _ _ Hinv) in Hq. destruct Hq as (sq & Hb & Hj).
  cbn [heap_lo] in Hb. rewrite victim_blocks in Hb.
  destruct victim_valid as (Hv1 & _ & Hv2). destruct victim_noadj as [_ Hha].
  destruct victim_arith as (? & ? & ? & ? & ? & ? & ? & ? & ? & ?).
  exists sq. split; [exact Hj|].
  apply elem_of_app in Hb. destruct Hb as [Hb|Hb].
  - pose proof (blocks_at_bounds _ _ _ _ _ Hv1 Hb) as (? & ? & [? ?] & _).
    split; [lia|]. left. split; [exact Hb|lia].
  - apply elem_of_cons in Hb. destruct Hb as [E|Hb].
    + injection E as E1 E2. split; [lia|]. right. left. split; lia.
    + pose proof (blocks_at_bounds _ _ _ _ _ Hv2 Hb) as (? & ? & [? ?] & _).
      split; [lia|]. right. right. split; [exact Hb|]. split; [|lia].
      clear Hinv. destruct post as [|[sn aln] post']; [inversion Hb|].
      simpl in Hha. subst aln. cbn [blocks_at] in Hb.
      apply elem_of_cons in Hb. destruct Hb as [E|Hb]; [discriminate|].
      apply Forall_cons in Hv2. destruct Hv2 as [[? _] Hvp']. cbn [fst] in *.
      apply (blocks_at_bounds _ _ _ _ _ Hvp') in Hb. lia.
Qed.

Lemma victim_in_list : vh + 8 ∈ fls (getFreeListIndex b).
Proof using Hinv.
  apply (inv_members _ _ _ Hinv). exists b. split; [|reflexivity].
  cbn [heap_lo]. replace (vh + 8 - 8) with vh by lia. apply blocks_at_mid.
Qed.

(** Bytes of the tags around the victim lie in no link cell, except that
    the victim's own cell is [vh + 8, vh + 24). *)
Lemma victim_cell j q x :
  q ∈ fls j -> q <= x < q + 16 ->
  lo + 16 <= x /\ (x < vh \/ vh + 8 <= x) /\
  (x < vh + 24 \/ vh + b + 16 <= x).
Proof using Hinv.
  intros Hq Hx. destruct victim_arith as (? & ? & ? & ? & ? & ? & ? & ? & ? & ?).
  destruct (victim_member j q Hq) as (sq & _ & ? & [(_ & ? & ?)|[(-> & ->)|(_ & ? & ?)]]); lia.
Qed.

Lemma victim_outside_pre x :
  x < vh -> outside_cells (lo + 8) pre x ->
  forall j q, q ∈ fls j -> x < q \/ q + 16 <= x.
Proof using Hinv.
  intros Hx Ho j q Hq. destruct victim_arith as (? & ? & ? & ? & ? & ? & ? & ? & ? & ?).
  destruct (victim_member j q Hq) as (sq & _ & ? & [(Hb & ? & ?)|[(-> & ->)|(Hb & ? & ?)]]).
  - specialize (Ho _ _ Hb). lia.
  - lia.
  - lia.
Qed.

Lemma victim_outside_post x :
  vh + 8 + b <= x -> outside_cells (vh + 8 + b) post x ->
  forall j q, q ∈ fls j -> x < q \/ q + 16 <= x.
Proof using Hinv.
  intros Hx Ho j q Hq. destruct victim_arith as (? & ? & ? & ? & ? & ? & ? & ? & ? & ?).
  destruct (victim_member j q Hq) as (sq & _ & ? & [(Hb & ? & ?)|[(-> & ->)|(Hb & ? & ?)]]).
  - lia.
  - lia.
  - specialize (Ho _ _ Hb). lia.
Qed.

Lemma victim_lists_frame m1 :
  (forall x, lo + 16 <= x -> x < vh \/ vh + 8 <= x ->
             x < vh + 24 \/ vh + b + 16 <= x -> m1 x = m x) ->
  lists_ok (mkState m1 lo brk mx seg last) fls.
Proof using Hinv.
  intros Hfr. pose proof (inv_lists _ _ _ Hinv) as HL.
  intros i Hi. destruct (HL i Hi) as (hd & Hh & Hd). exists hd.
  split; [exact Hh|]. cbn [mem] in *. unfold dll in *.
  apply (dllseg_frame m); [|exact Hd].
  intros q x Hq Hx. destruct (victim_cell i q x Hq Hx) as (? & ? & ?). apply Hfr; assumption.
Qed.
End Victim.

(** * malloc: taking the victim whole *)

Section PlaceWhole.
Context (N : Prop).
Variables (m : memory) (lo brk mx : Z) (seg : list Z) (last : Z).
Variables (pre post : list block) (b n : Z) (fls : Z -> list Z).

Abbreviation pst := (mkState m lo brk mx seg last).
Abbreviation ph := (lo + 8 + total pre).

Hypothesis Hinv : inv pst (pre ++ (b, false) :: post) fls.
Hypothesis Hn : 0 <= n <= b.
Hypothesis Hsmall : b - n < 32.

Lemma place_whole_ok (Q : Z -> state -> Prop) :
  (forall st',
      inv st' (pre ++ (b, true) :: post)
        (upd_list fls (getFreeListIndex b)
           (remove_addr (ph + 8) (fls (getFreeListIndex b)))) ->
      same_heap pst st' ->
      (forall x, untouchable (lo + 8) (pre ++ (b, false) :: post) x -> mem st' x = m x) ->
      Q (ph + 8) st') ->
  wpg N (place ph (ph + 8) (getFreeListIndex b) n b) pst Q.
Proof using Hinv Hn Hsmall.
  intros HQ.
  destruct (victim_arith _ _ _ _ _ _ _ _ _ _ Hinv) as (? & ? & ? & ? & ? & ? & ? & ? & ? & Hbrk).
  destruct (victim_layout _ _ _ _ _ _ _ _ _ _ Hinv) as (HLpre & Hh & Hf & HLpost).
  destruct (victim_valid _ _ _ _ _ _ _ _ _ _ Hinv) as (Hv1 & Hvb & Hv5).
  destruct (victim_noadj _ _ _ _ _ _ _ _ _ _ Hinv) as (Hla & Hha).
  destruct (victim_last _ _ _ _ _ _ _ _ _ _ Hinv) as (Hlast & Hlastb).
  pose proof (victim_member _ _ _ _ _ _ _ _ _ _ Hinv) as Hmemb.
  pose proof (victim_in_list _ _ _ _ _ _ _ _ _ _ Hinv) as Hvin.
  unfold place. rewrite wrap64_small by lia.
  destruct (Z.geb_spec (b - n) 32) as [?|_]; [lia|].
  apply wpg_bind. apply wpg_bind. apply wpg_get_last. wsimpl.
  rewrite Hlastb.
  eapply (wpg_conseq N _ _ (fun _ st' => exists m1,
     st' = mkState m1 lo brk mx seg last /\
     layout m1 (ph + 8 + b) true post /\
     (forall x, x < ph + 8 + b \/ ph + 8 + b + 8 <= x -> m1 x = m x))).
  { clear HQ Hinv Hmemb Hvin. destruct post as [|[sn aln] post'] eqn:Epost.
    - cbn [negb]. apply wpg_ret. exists m. simpl. auto.
    - cbn [negb]. simpl in Hha. subst aln. cbn [layout total] in *.
      destruct HLpost as (Hnh & _ & HLp').
      apply Forall_cons in Hv5. destruct Hv5 as [[? ?] Hv5']. cbn [fst] in *.
      pose proof (total_nonneg _ Hv5'). assert (sn mod 8 = 0) by zdm.
      rewrite getNextHeader_eq by lia.
      apply wpg_setPrevAlloc; [wbounds|wbounds|]. wsimpl.
      rewrite Hnh, hdr_setPrevAlloc by lia.
      eexists. split; [reflexivity|]. split.
      + cbn [layout]. split; [ld; reflexivity|]. split; [discriminate|].
        apply (layout_frame m); [exact Hv5'|intros x Hx Hni|exact HLp'].
        st_other. reflexivity.
      + intros x Hx. st_other. reflexivity. }
  intros _ st' (m1 & -> & HLpost1 & Hm1fr).
  apply wpg_bind. apply wpg_setAlloc; [wbounds|wbounds|]. wsimpl.
  rewrite (load64_ext m m1) by (intros x Hx; apply Hm1fr; lia).
  rewrite Hh, hdr_setAlloc by lia.
  set (m2 := store64 m1 ph (hdr b true true)).
  assert (Hm2fr : forall x, x < ph \/ ph + 8 <= x ->
                            x < ph + 8 + b \/ ph + 8 + b + 8 <= x -> m2 x = m x).
  { intros x Hx1 Hx2. unfold m2. st_other. apply Hm1fr. exact Hx2. }
  assert (Hm2h : load64 m2 ph = hdr b true true) by (unfold m2; ld; reflexivity).
  assert (HLpost2 : layout m2 (ph + 8 + b) true post).
  { apply (layout_frame m1); [exact Hv5| |exact HLpost1].
    intros x Hx _. unfold m2. st_other. reflexivity. }
  clearbody m2.
  pose proof (inv_heap _ _ _ Hinv) as [Hlo Hbrk' Hmx Hlen Hpro Hv HLay Hna Hl].
  cbn [heap_lo heap_brk heap_max mem segFreeList lastHeader] in *.
  apply wpg_bind.
  apply (remove_completes N _ (pre ++ (b, true) :: post) fls (ph + 8) (getFreeListIndex b)).
  - constructor; cbn [heap_lo heap_brk heap_max mem segFreeList lastHeader];
      try assumption.
    + rewrite Hbrk', !total_app. reflexivity.
    + rewrite (load64_ext m m2); [exact Hpro|]. intros x Hx. apply Hm2fr; lia.
    + apply Forall_app. split; [assumption|]. apply Forall_cons. auto.
    + apply layout_app. split.
      * apply (layout_frame m); [exact Hv1| |exact HLpre].
        intros x Hx _. apply Hm2fr; lia.
      * cbn [layout]. rewrite Hla. split; [exact Hm2h|]. split; [discriminate|].
        exact HLpost2.
    + apply adjacent_free_app in Hna. destruct Hna as (Hn1 & Hn2 & _).
      apply adjacent_free_cons' in Hn2. destruct Hn2 as (Hn2 & _).
      apply adjacent_free_app. split; [exact Hn1|]. split.
      * apply adjacent_free_cons'. split; [exact Hn2|]. left. reflexivity.
      * left. exact Hla.
    + rewrite Hl. apply last_header_flag.
  - apply (victim_lists_frame _ _ _ _ _ _ _ _ _ _ Hinv).
    intros x ? ? ?. apply Hm2fr; lia.
  - apply (cells_ok_state pst); [reflexivity|reflexivity|]. apply (inv_cells_ok _ _ _ Hinv).
  - exact Hvin.
  - intros j q. cbn [heap_lo]. rewrite victim_blocks. split.
    + intros Hq. destruct (Hmemb j q Hq) as (sq & Hj & ? & [(Hb & ? & ?)|[(-> & ->)|(Hb & ? & ?)]]).
      * right. exists sq. split; [elem|exact Hj].
      * left. auto.
      * right. exists sq. split; [elem|exact Hj].
    + intros [[-> ->]|(sq & Hb & Hj)]; [exact Hvin|].
      apply (inv_members _ _ _ Hinv). exists sq. split; [|exact Hj].
      cbn [heap_lo]. rewrite victim_blocks.
      apply elem_of_app in Hb. destruct Hb as [Hb|Hb]; [elem|].
      apply elem_of_cons in Hb. destruct Hb as [E|Hb]; [discriminate|elem].
  - intros s0 Hb. cbn [heap_lo] in Hb. rewrite victim_blocks in Hb.
    apply elem_of_app in Hb. destruct Hb as [Hb|Hb].
    + apply (blocks_at_bounds _ _ _ _ _ Hv1) in Hb. destruct Hb as (? & ? & [? ?] & _). lia.
    + apply elem_of_cons in Hb. destruct Hb as [E|Hb]; [discriminate|].
      apply (blocks_at_bounds _ _ _ _ _ Hv5) in Hb. destruct Hb as (? & ? & [? ?] & _). lia.
  - intros st' Hinv' Hsame Hfr'. apply wpg_ret. apply HQ; [assumption|assumption|].
    intros x Hu. cbn [heap_lo mem] in Hfr'.
    destruct (untouchable_focus _ _ _ _ _ Hv1 Hv5 Hu) as [[Hx Ho]|[Hx Ho]].
    + rewrite Hfr'; [apply Hm2fr; lia|].
      apply outside_cells_app. split; [exact Ho|].
      apply outside_cells_cons. split; [discriminate|].
      apply outside_cells_range; [exact Hv5|lia].
    + rewrite Hfr'; [apply Hm2fr; lia|].
      apply outside_cells_app. split; [apply outside_cells_range; [exact Hv1|lia]|].
      apply outside_cells_cons. split; [discriminate|exact Ho].
Qed.
End PlaceWhole.

Lemma cells_ok_add st fls i p :
  cells_ok st fls -> 0 <= i < 15 -> p <> NULL ->
  heap_lo st <= p -> p + 16 <= heap_brk st ->
  (forall j q, q ∈ fls j -> q + 16 <= p \/ p + 16 <= q) ->
  cells_ok st (upd_list fls i (p :: fls i)).
Proof.
  intros [H1 H2 H3] Hi Hp0 Hlo Hbrk Hsep. constructor.
  - intros j k q q' Hq Hq'. apply elem_of_upd_cons in Hq. apply elem_of_upd_cons in Hq'.
    destruct Hq as [Hq|[-> ->]], Hq' as [Hq'|[-> ->]].
    + apply H1; assumption.
    + specialize (Hsep _ _ Hq). lia.
    + specialize (Hsep _ _ Hq'). lia.
    + left. auto.
  - intros j q Hq. apply elem_of_upd_cons in Hq. destruct Hq as [Hq|[-> ->]].
    + apply H2. exact Hq.
    + auto.
  - apply NoDup_upd_cons; [exact H3|]. intros Hin. specialize (Hsep _ _ Hin). lia.
Qed.

(** * malloc: splitting the victim *)

Section PlaceSplit.
Context (N : Prop).
Variables (m : memory) (lo brk mx : Z) (seg : list Z) (last : Z).
Variables (pre post : list block) (b n : Z) (fls : Z -> list Z).

Abbreviation sst := (mkState m lo brk mx seg last).
Abbreviation sh := (lo + 8 + total pre).
Abbreviation srh := (lo + 8 + total pre + 8 + n).
Abbreviation sr := (b - n - 8).

Hypothesis Hinv : inv sst (pre ++ (b, false) :: post) fls.
Hypothesis Hvn : valid_size n.
Hypothesis Hsplit : 32 <= b - n.

Lemma place_split_ok (Q : Z -> state -> Prop) :
  (forall st',
      inv st' (pre ++ (n, true) :: (sr, false) :: post)
        (let F1 := upd_list fls (getFreeListIndex sr)
                     (srh + 8 :: fls (getFreeListIndex sr)) in
         upd_list F1 (getFreeListIndex b)
           (remove_addr (sh + 8) (F1 (getFreeListIndex b)))) ->
      same_heap sst st' ->
      (forall x, untouchable (lo + 8) (pre ++ (b, false) :: post) x -> mem st' x = m x) ->
      Q (sh + 8) st') ->
  wpg N (place sh (sh + 8) (getFreeListIndex b) n b) sst Q.
Proof using Hinv Hvn Hsplit.
  intros HQ.
  destruct (victim_arith _ _ _ _ _ _ _ _ _ _ Hinv) as (? & ? & ? & ? & ? & ? & ? & ? & ? & Hbrk).
  destruct (victim_layout _ _ _ _ _ _ _ _ _ _ Hinv) as (HLpre & Hh & Hf & HLpost).
  destruct (victim_valid _ _ _ _ _ _ _ _ _ _ Hinv) as (Hv1 & Hvb & Hv5).
  destruct (victim_noadj _ _ _ _ _ _ _ _ _ _ Hinv) as (Hla & Hha).
  destruct (victim_last _ _ _ _ _ _ _ _ _ _ Hinv) as (Hlast & Hlastb).
  pose proof (victim_member _ _ _ _ _ _ _ _ _ _ Hinv) as Hmemb.
  pose proof (victim_in_list _ _ _ _ _ _ _ _ _ _ Hinv) as Hvin.
  pose proof (victim_cell _ _ _ _ _ _ _ _ _ _ Hinv) as Hcell.
  pose proof (victim_outside_pre _ _ _ _ _ _ _ _ _ _ Hinv) as Hopre.
  pose proof (victim_outside_post _ _ _ _ _ _ _ _ _ _ Hinv) as Hopost.
  pose proof (inv_cells_ok _ _ _ Hinv) as HC.
  destruct Hvn as [Hn24 Hn16]. assert (n mod 8 = 0) by zdm.
  assert (Hr : 24 <= sr /\ sr mod 16 = 8 /\ sr mod 8 = 0) by (repeat split; zdm).
  destruct Hr as (? & ? & ?).
  assert (Hir : 0 <= getFreeListIndex sr < 15).
  { apply getFreeListIndex_range; [split; assumption|lia]. }
  unfold place. rewrite (wrap64_small (b - n)) by lia.
  destruct (Z.geb_spec (b - n) 32) as [_|?]; [|lia].
  unfold HEADER_SIZE. rewrite (wrap64_small (b - n - 8)) by lia.
  rewrite getNextHeader_eq by lia. rewrite getFooter_eq by lia. rewrite getPayload_eq.
  replace (sh + 8 + n + sr) with (sh + b) by lia.
  apply wpg_bind. apply wpg_bind. apply wpg_setBlockSize; [wbounds|wbounds|]. wsimpl.
  rewrite Hh, hdr_low, hdr_setBlockSize by lia.
  apply wpg_bind. wstore.
  apply wpg_bind. apply wpg_setBlockSize; [wbounds|wbounds|]. wsimpl.
  rewrite (load64_store64_eq _ srh 0) by lia.
  change (Z.land 0 7) with 0. rewrite Z.lor_0_l.
  apply wpg_bind. apply wpg_setPrevAlloc; [wbounds|wbounds|]. wsimpl.
  rewrite (load64_store64_eq _ srh sr) by lia.
  replace (Z.lor sr 2) with (hdr sr false true)
    by (rewrite lor_2; unfold hdr, b2z; zdm).
  apply wpg_bind. wstore.
  apply wpg_bind. apply wpg_setBlockSize; [wbounds|wbounds|]. wsimpl.
  rewrite (load64_store64_eq _ (sh + b) 0) by lia.
  change (Z.land 0 7) with 0. rewrite Z.lor_0_l.
  match goal with |- context [mkState ?mm _ _ _ _ _] => set (m1 := mm) end.
  assert (Hm1h : load64 m1 sh = hdr n false true) by (unfold m1; ld; reflexivity).
  assert (Hm1r : load64 m1 srh = hdr sr false true) by (unfold m1; ld; reflexivity).
  assert (Hm1f : Z.land (load64 m1 (sh + b)) 0xFFFFFFFFFFFFFFF8 = sr).
  { unfold m1. ld. rewrite land_mask_size by lia. zdm. }
  assert (Hm1fr : forall x, x < sh \/ sh + 8 <= x -> x < srh \/ srh + 8 <= x ->
                            x < sh + b \/ sh + b + 8 <= x -> m1 x = m x).
  { intros x Hx1 Hx2 Hx3. unfold m1. st_other. reflexivity. }
  clearbody m1.
  (* the remainder enters its list *)
  assert (Hnew : forall j q, q ∈ fls j -> q + 16 <= srh + 8 \/ srh + 8 + 16 <= q).
  { intros j q Hq.
    destruct (Hmemb j q Hq) as (sq & _ & ? & [(_ & ? & ?)|[(-> & ->)|(_ & ? & ?)]]); lia. }
  apply wpg_bind.
  apply (add_lists N _ fls (getFreeListIndex sr) (srh + 8)).
  { apply (victim_lists_frame _ _ _ _ _ _ _ _ _ _ Hinv).
    intros x ? ? ?. apply Hm1fr; lia. }
  { apply (cells_ok_state sst); [reflexivity|reflexivity|].
    apply cells_ok_add; try assumption; cbn [heap_lo heap_brk]; try lia. unfold NULL. lia. }
  { wbounds. }
  { wbounds. }
  intros m2 seg2 Hlen2 HL2 Hfr2. wsimpl.
  set (F1 := upd_list fls (getFreeListIndex sr) (srh + 8 :: fls (getFreeListIndex sr))) in *.
  assert (Hfr2' : forall x, x < srh + 8 \/ srh + 24 <= x ->
                    (forall j q, q ∈ fls j -> x < q \/ q + 16 <= x) -> m2 x = m1 x).
  { intros x Hx1 Hx2. apply Hfr2; [lia|exact Hx2]. }
  assert (Htag : forall x, x < lo + 16 \/ sh <= x < sh + 8 \/ sh + 24 <= x < sh + b + 16 ->
                    forall j q, q ∈ fls j -> x < q \/ q + 16 <= x).
  { intros x Hx j q Hq.
    destruct (Z.lt_ge_cases x q) as [?|?]; [auto|].
    destruct (Z.lt_ge_cases x (q + 16)) as [?|?]; [|auto].
    destruct (Hcell j q x Hq ltac:(lia)) as (? & ? & ?). lia. }
  apply wpg_bind. apply wpg_get_last. wsimpl. rewrite Hlastb.
  eapply (wpg_conseq N _ _ (fun _ st' =>
     st' = mkState m2 lo brk mx seg2
             (last_header lo (pre ++ (n, true) :: (sr, false) :: post)))).
  { clear HQ Hinv Hmemb Hvin Hcell Hopre Hopost HL2 HC. destruct post as [|c post'].
    - apply wpg_put_last. wsimpl. f_equal.
      change (pre ++ [(n, true); (sr, false)]) with (pre ++ [(n, true)] ++ [(sr, false)]).
      rewrite app_assoc, last_header_snoc, total_app. simpl. lia.
    - apply wpg_ret. f_equal. rewrite Hlast.
      change (pre ++ (b, false) :: c :: post') with (pre ++ [(b, false)] ++ c :: post').
      change (pre ++ (n, true) :: (sr, false) :: c :: post')
        with (pre ++ [(n, true); (sr, false)] ++ c :: post').
      rewrite !app_assoc, !last_header_app by congruence.
      rewrite !total_app. simpl. f_equal. lia. }
  intros _ st' ->.
  apply wpg_bind. apply wpg_setAlloc; [wbounds|wbounds|]. wsimpl.
  rewrite (load64_ext m1 m2).
  2:{ intros x Hx. apply Hfr2'; [lia|]. apply Htag. lia. }
  rewrite Hm1h, hdr_setAlloc by lia.
  set (m3 := store64 m2 sh (hdr n true true)).
  assert (Hm3h : load64 m3 sh = hdr n true true) by (unfold m3; ld; reflexivity).
  assert (Hm3fr : forall x, x < sh \/ sh + 8 <= x -> m3 x = m2 x).
  { intros x Hx. unfold m3. st_other. reflexivity. }
  clearbody m3.
  pose proof (inv_heap _ _ _ Hinv) as [Hlo Hbrk' Hmx Hlen Hpro Hv HLay Hna Hl].
  cbn [heap_lo heap_brk heap_max mem segFreeList lastHeader] in *.
  assert (Hbl : blocks_at (lo + 8) (pre ++ (n, true) :: (sr, false) :: post) =
                blocks_at (lo + 8) pre ++ (sh, n, true) :: (srh, sr, false) ::
                blocks_at (sh + 8 + b) post).
  { rewrite blocks_at_app. cbn [blocks_at].
    replace (sh + 8 + n + 8 + sr) with (sh + 8 + b) by lia. reflexivity. }
  apply wpg_bind.
  apply (remove_completes N _ (pre ++ (n, true) :: (sr, false) :: post) F1 (sh + 8)
           (getFreeListIndex b)).
  - constructor; cbn [heap_lo heap_brk heap_max mem segFreeList lastHeader].
    + exact Hlo.
    + rewrite Hbrk', !total_app. cbn [total]. lia.
    + exact Hmx.
    + rewrite Hlen2. exact Hlen.
    + rewrite (load64_ext m m3); [exact Hpro|]. intros x Hx.
      rewrite Hm3fr by lia. rewrite Hfr2'; [apply Hm1fr; lia|lia|]. apply Htag. lia.
    + apply Forall_app. split; [assumption|]. apply Forall_cons. split; [split; assumption|].
      apply Forall_cons. split; [split; assumption|assumption].
    + apply layout_app. split.
      * apply (layout_frame m); [exact Hv1| |exact HLpre].
        intros x Hx Hni. rewrite Hm3fr by lia. rewrite Hfr2'; [apply Hm1fr; lia|lia|].
        apply Hopre; [lia|]. apply outside_cells_no_interior; assumption.
      * cbn [layout]. rewrite Hla. split; [exact Hm3h|]. split; [discriminate|].
        split; [|split].
        -- rewrite (load64_ext m2 m3) by (intros x Hx; apply Hm3fr; lia).
           rewrite (load64_ext m1 m2); [exact Hm1r|].
           intros x Hx. apply Hfr2'; [lia|]. apply Htag. lia.
        -- intros _. replace (sh + 8 + n + sr) with (sh + b) by lia.
           rewrite (load64_ext m2 m3) by (intros x Hx; apply Hm3fr; lia).
           rewrite (load64_ext m1 m2); [exact Hm1f|].
           intros x Hx. apply Hfr2'; [lia|]. apply Htag. lia.
        -- replace (sh + 8 + n + 8 + sr) with (sh + 8 + b) by lia.
           apply (layout_frame m); [exact Hv5| |exact HLpost].
           intros x Hx Hni. rewrite Hm3fr by lia.
           rewrite Hfr2'; [apply Hm1fr; lia|lia|].
           apply Hopost; [lia|]. apply outside_cells_no_interior; assumption.
    + apply adjacent_free_app in Hna. destruct Hna as (Hn1 & Hn2 & _).
      apply adjacent_free_cons' in Hn2. destruct Hn2 as (Hn2 & _).
      apply adjacent_free_app. split; [exact Hn1|]. split.
      * apply adjacent_free_cons'. split; [|left; reflexivity].
        apply adjacent_free_cons'. split; [exact Hn2|]. right. exact Hha.
      * left. exact Hla.
    + reflexivity.
  - apply (lists_ok_frame (mkState m2 lo brk mx seg2 last)); [exact HL2|].
    intros j q x Hq Hx. cbn [mem]. apply Hm3fr.
    apply elem_of_upd_cons in Hq. destruct Hq as [Hq|[_ ->]]; [|lia].
    destruct (Hcell j q x Hq Hx) as (? & ? & ?). lia.
  - apply (cells_ok_state sst); [reflexivity|reflexivity|].
    apply cells_ok_add; try assumption; cbn [heap_lo heap_brk]; try lia. unfold NULL. lia.
  - apply elem_of_upd_cons. left. exact Hvin.
  - intros j q. cbn [heap_lo]. rewrite Hbl. unfold F1. rewrite elem_of_upd_cons. split.
    + intros [Hq|[-> ->]].
      * destruct (Hmemb j q Hq) as (sq & Hj & ? & [(Hb & ? & ?)|[(-> & ->)|(Hb & ? & ?)]]).
        -- right. exists sq. split; [elem|exact Hj].
        -- left. auto.
        -- right. exists sq. split; [elem|exact Hj].
      * right. exists sr. split; [|reflexivity].
        replace (srh + 8 - 8) with srh by lia. elem.
    + intros [[-> ->]|(sq & Hb & Hj)]; [left; exact Hvin|].
      apply elem_of_app in Hb. destruct Hb as [Hb|Hb].
      { left. apply (inv_members _ _ _ Hinv). exists sq. split; [|exact Hj].
        cbn [heap_lo]. rewrite victim_blocks. elem. }
      apply elem_of_cons in Hb. destruct Hb as [E|Hb]; [discriminate|].
      apply elem_of_cons in Hb. destruct Hb as [E|Hb].
      { injection E as E1 E2. right. split; [congruence|lia]. }
      left. apply (inv_members _ _ _ Hinv). exists sq. split; [|exact Hj].
      cbn [heap_lo]. rewrite victim_blocks. elem.
  - intros s0 Hb. cbn [heap_lo] in Hb. rewrite Hbl in Hb.
    apply elem_of_app in Hb. destruct Hb as [Hb|Hb].
    + apply (blocks_at_bounds _ _ _ _ _ Hv1) in Hb. destruct Hb as (? & ? & [? ?] & _). lia.
    + apply elem_of_cons in Hb. destruct Hb as [E|Hb]; [discriminate|].
      apply elem_of_cons in Hb. destruct Hb as [E|Hb]; [injection E as E1 E2; lia|].
      apply (blocks_at_bounds _ _ _ _ _ Hv5) in Hb. destruct Hb as (? & ? & [? ?] & _). lia.
  - intros st' Hinv' Hsame Hfr'. apply wpg_ret. apply HQ; [assumption|assumption|].
    intros x Hu. cbn [heap_lo mem] in Hfr'.
    destruct (untouchable_focus _ _ _ _ _ Hv1 Hv5 Hu) as [[Hx Ho]|[Hx Ho]].
    + rewrite Hfr'.
      * rewrite Hm3fr by lia. rewrite Hfr2'; [apply Hm1fr; lia|lia|].
        apply Hopre; [lia|exact Ho].
      * apply outside_cells_app. split; [exact Ho|].
        apply outside_cells_cons. split; [discriminate|].
        apply outside_cells_cons. split; [intros _; lia|].
        apply outside_cells_range; [exact Hv5|lia].
    + rewrite Hfr'.
      * rewrite Hm3fr by lia. rewrite Hfr2'; [apply Hm1fr; lia|lia|].
        apply Hopost; [lia|exact Ho].
      * apply outside_cells_app. split; [apply outside_cells_range; [exact Hv1|lia]|].
        apply outside_cells_cons. split; [discriminate|].
        apply outside_cells_cons. split; [intros _; lia|].
        replace (sh + 8 + n + 8 + sr) with (sh + 8 + b) by lia. exact Ho.
Qed.
End PlaceSplit.

Lemma wpg_weaken {A} (N N' : Prop) (c : M A) st (Q : A -> state -> Prop) :
  (N -> N') -> wpg N c st Q -> wpg N' c st Q.
Proof. unfold wpg. destruct (c st) as [[x st']|]; auto. Qed.

(** malloc's treatment of the victim, both cases; the bytes of the
    allocated payloads are left as they were. *)
Lemma place_ok_fr N st pre b post fls n (Q : Z -> state -> Prop) :
  inv st (pre ++ (b, false) :: post) fls ->
  valid_size n -> n <= b ->
  (forall st',
      inv st' (pre ++ split_blocks n b ++ post)
        (split_lists (heap_lo st + 8 + total pre) n b fls) ->
      same_heap st st' ->
      (forall x, untouchable (heap_lo st + 8) (pre ++ (b, false) :: post) x ->
                 mem st' x = mem st x) ->
      Q (heap_lo st + 8 + total pre + 8) st') ->
  wpg N (place (heap_lo st + 8 + total pre) (heap_lo st + 8 + total pre + 8)
           (getFreeListIndex b) n b) st Q.
Proof.
  intros Hinv Hvn Hnb HQ. destruct st as [m lo brk mx seg last]. cbn [heap_lo mem] in *.
  unfold split_blocks, split_lists in HQ.
  destruct (Z.leb_spec 32 (b - n)) as [Hs|Hs].
  - apply (place_split_ok N _ _ _ _ _ _ _ _ _ _ _ Hinv Hvn Hs). exact HQ.
  - destruct Hvn as [? ?].
    apply (place_whole_ok N _ _ _ _ _ _ _ _ _ _ _ Hinv); [lia|exact Hs|]. exact HQ.
Qed.


Lemma dll_head m h l : dll m h l -> h = hd_or l.
Proof. destruct l as [|p l]; simpl; [auto|]. intros (-> & _). reflexivity. Qed.

Lemma dll_next m h l1 p l2 : dll m h (l1 ++ p :: l2) -> load64 m p = hd_or l2.
Proof.
  unfold dll. intros H. apply dllseg_app in H. destruct H as (mid & _ & H).
  cbn [dllseg] in H. destruct H as (_ & _ & _ & H).
  destruct l2 as [|q l2]; simpl in *; [exact H|]. destruct H as (-> & _). reflexivity.
Qed.

Lemma seg_head st fls i :
  lists_ok st fls -> 0 <= i < 15 ->
  segFreeList st !! Z.to_nat i = Some (hd_or (fls i)).
Proof.
  intros HL Hi. destruct (HL i Hi) as (h & Hh & Hd).
  rewrite Hh. f_equal. eapply dll_head. exact Hd.
Qed.

Lemma member_block st bs fls i p :
  inv st bs fls -> p ∈ fls i ->
  exists pre b post,
    bs = pre ++ (b, false) :: post /\ p = heap_lo st + 8 + total pre + 8 /\
    getFreeListIndex b = i.
Proof.
  intros Hinv Hp. apply (inv_members _ _ _ Hinv) in Hp. destruct Hp as (s & Hb & Hi).
  apply blocks_at_split in Hb. destruct Hb as (pre & post & -> & E).
  exists pre, s, post. split; [reflexivity|]. split; [lia|exact Hi].
Qed.

(** The search loop of malloc: it ends without a fit and without touching
    the state, or it takes a free block that is large enough, leaving the
    bytes of the allocated payloads as they were. *)
Lemma malloc_loop_ok_fr fuel : forall k l1 l2 nextList st bs fls n (Q : option Z -> state -> Prop),
  inv st bs fls -> valid_size n -> (k <= 14)%nat ->
  fls (14 - Z.of_nat k) = l1 ++ l2 ->
  Q None st ->
  (forall pre b post st',
      bs = pre ++ (b, false) :: post -> n <= b ->
      inv st' (pre ++ split_blocks n b ++ post)
        (split_lists (heap_lo st + 8 + total pre) n b fls) ->
      same_heap st st' ->
      (forall x, untouchable (heap_lo st + 8) bs x -> mem st' x = mem st x) ->
      Q (Some (heap_lo st + 8 + total pre + 8)) st') ->
  wpg (fuel <= loop_steps fls k l2 nextList)%nat
    (malloc_loop fuel n (hd_or l2) (14 - Z.of_nat k) nextList) st Q.
Proof.
  induction fuel as [|fuel IH]; intros k l1 l2 nextList st bs fls n Q Hinv Hvn Hk Hl HQn HQs.
  { unfold wpg. simpl. lia. }
  pose proof (inv_lists _ _ _ Hinv) as HL.
  assert (Hnext : forall k', k = S k' ->
            wpg (S fuel <= loop_steps fls k l2 nextList)%nat
              (ptr <- seg_get (14 - Z.of_nat k + 1) ;;
               malloc_loop fuel n ptr (14 - Z.of_nat k + 1) nextList) st Q).
  { intros k' ->. replace (14 - Z.of_nat (S k') + 1) with (14 - Z.of_nat k') by lia.
    apply wpg_bind.
    apply (wpg_seg_get _ _ (hd_or (fls (14 - Z.of_nat k')))); [lia|apply seg_head; [exact HL|lia]|].
    eapply wpg_weaken; [|apply (IH k' [] (fls (14 - Z.of_nat k')) nextList st bs fls n Q);
                          try assumption; [lia|reflexivity]].
    unfold loop_steps. cbn [tail_len].
    replace (14 - Z.of_nat (S k') + 1) with (14 - Z.of_nat k') by lia.
    destruct nextList; lia. }
  cbn [malloc_loop]. destruct l2 as [|p l2]; cbn [hd_or].
  - change (NULL =? NULL) with true. cbn [negb orb].
    destruct nextList; [|apply wpg_ret; exact HQn].
    destruct k as [|k'].
    + change (14 - Z.of_nat 0 =? 14) with true. cbv iota.
      eapply wpg_weaken; [|apply (IH 0%nat l1 [] false st bs fls n Q); assumption].
      unfold loop_steps. simpl. lia.
    + destruct (Z.eqb_spec (14 - Z.of_nat (S k')) 14) as [?|_]; [lia|].
      apply (Hnext k'). reflexivity.
  - assert (Hp : p ∈ fls (14 - Z.of_nat k)) by (rewrite Hl; elem).
    destruct (member_block _ _ _ _ _ Hinv Hp) as (pre & b & post & -> & -> & Hidx).
    pose proof (inv_heap _ _ _ Hinv) as [Hlo Hbrk Hmx Hlen Hpro Hv HLay Hna Hlast].
    apply Forall_app in Hv. destruct Hv as [Hv1 Hv2].
    apply Forall_cons in Hv2. destruct Hv2 as [[Hb24 Hb16] Hv2]. cbn [fst] in *.
    pose proof (total_nonneg _ Hv1). pose proof (total_nonneg _ Hv2).
    rewrite total_app in Hbrk. cbn [total] in Hbrk.
    apply layout_app in HLay. destruct HLay as [_ HLay]. cbn [layout] in HLay.
    destruct HLay as (Hh & _).
    set (h := heap_lo st + 8 + total pre) in *.
    assert (b mod 8 = 0) by zdm.
    destruct (Z.eqb_spec (h + 8) NULL) as [E|_]; [unfold NULL in E; lia|].
    cbn [negb orb]. unfold ptr_sub, get8ByteAlignment, HEADER_SIZE.
    change (8 / 8) with 1. replace (h + 8 - 8 * 1) with h by lia.
    apply wpg_bind. apply wpg_getBlockSize; [lia|lia|].
    rewrite Hh, hdr_size by lia.
    destruct (Z.leb_spec n b) as [Hnb|Hnb].
    + apply wpg_bind. rewrite <- Hidx.
      apply (place_ok_fr _ st pre b post fls n); try assumption.
      intros st' Hinv' Hsame Hfr. apply wpg_ret. apply (HQs pre b post); auto.
    + destruct (Z.leb_spec (14 - Z.of_nat k) 3) as [Hi3|Hi3].
      * destruct k as [|k']; [simpl in Hi3; lia|]. apply (Hnext k'). reflexivity.
      * apply wpg_bind. unfold getNextFreeBlock. apply wpg_load; [lia|lia|].
        assert (Hd : load64 (mem st) (h + 8) = hd_or l2).
        { destruct (HL (14 - Z.of_nat k) ltac:(lia)) as (hd & _ & Hd).
          rewrite Hl in Hd. eapply dll_next. exact Hd. }
        rewrite Hd.
        eapply wpg_weaken;
          [|apply (IH k (l1 ++ [h + 8]) l2 nextList st (pre ++ (b, false) :: post) fls n Q);
            try assumption].
        -- unfold loop_steps. cbn [length]. lia.
        -- rewrite Hl, <- app_assoc. reflexivity.
Qed.

(** The search loop of malloc: it ends without a fit and without touching
    the state, or it takes a free block that is large enough. *)
Lemma malloc_loop_ok fuel k l1 l2 nextList st bs fls n (Q : option Z -> state -> Prop) :
  inv st bs fls -> valid_size n -> (k <= 14)%nat ->
  fls (14 - Z.of_nat k) = l1 ++ l2 ->
  Q None st ->
  (forall pre b post st',
      bs = pre ++ (b, false) :: post -> n <= b ->
      inv st' (pre ++ split_blocks n b ++ post)
        (split_lists (heap_lo st + 8 + total pre) n b fls) ->
      same_heap st st' ->
      Q (Some (heap_lo st + 8 + total pre + 8)) st') ->
  wpg (fuel <= loop_steps fls k l2 nextList)%nat
    (malloc_loop fuel n (hd_or l2) (14 - Z.of_nat k) nextList) st Q.
Proof.
  intros Hinv Hvn Hk Hl HQn HQs.
  apply (malloc_loop_ok_fr fuel k l1 l2 nextList st bs fls n Q); try assumption.
  intros pre b post st' E Hnb Hinv' Hsame _. apply (HQs pre b post); assumption.
Qed.

(** * Growing the heap *)

Lemma wpg_mm_sbrk {A} N incr st (k : Z -> M A) (Q : A -> state -> Prop) :
  (heap_brk st + incr <= heap_max st ->
   wpg N (k (heap_brk st)) (set_brk st (heap_brk st + incr)) Q) ->
  (heap_max st < heap_brk st + incr -> wpg N (k SBRK_FAIL) st Q) ->
  wpg N (bind (mm_sbrk incr) k) st Q.
Proof.
  intros H1 H2. unfold wpg, bind, mm_sbrk.
  destruct (Z.leb_spec (heap_brk st + incr) (heap_max st)) as [H|H].
  - apply H1. exact H.
  - apply H2. exact H.
Qed.

Lemma last_block_header st bs s al l :
  heap_layout st bs -> bs = l ++ [(s, al)] ->
  load64 (mem st) (heap_lo st + 8 + total l) = hdr s al (last_alloc true l).
Proof.
  intros H ->. pose proof (hl_layout _ _ H) as HL.
  apply layout_app in HL. destruct HL as [_ HL]. cbn [layout] in HL. apply HL.
Qed.

Lemma extendHeap_ok N st bs fls n (Q : Z -> state -> Prop) :
  inv st bs fls -> valid_size n -> n <= 2 ^ 64 - 24 ->
  (heap_max st < heap_brk st + 8 + n -> Q NULL st) ->
  (heap_brk st + 8 + n <= heap_max st ->
   forall st', inv st' (bs ++ [(n, true)]) fls ->
     heap_lo st' = heap_lo st -> heap_brk st' = heap_brk st + 8 + n ->
     heap_max st' = heap_max st ->
     (forall x, x < heap_brk st -> mem st' x = mem st x) ->
     Q (heap_brk st) st') ->
  wpg N (extendHeap n) st Q.
Proof.
  intros Hinv [Hn24 Hn16] Hnmax HQf HQs.
  pose proof (inv_heap _ _ _ Hinv) as HH.
  pose proof HH as [Hlo Hbrk Hmx Hlen Hpro Hv HLay Hna Hlast].
  pose proof (total_nonneg _ Hv) as Ht.
  pose proof (inv_cells_ok _ _ _ Hinv) as HC.
  assert (n mod 8 = 0) by zdm.
  unfold extendHeap, HEADER_SIZE. rewrite wrap64_small by lia.
  apply wpg_mm_sbrk; intros Hroom.
  2:{ change (SBRK_FAIL =? SBRK_FAIL) with true. cbv iota. apply wpg_ret. apply HQf. lia. }
  destruct (Z.eqb_spec (heap_brk st) SBRK_FAIL) as [E|_].
  { exfalso. unfold SBRK_FAIL in E. change (wrap64 (-1)) with (2 ^ 64 - 1) in E. lia. }
  destruct st as [m lo brk mx seg last].
  cbn [heap_lo heap_brk heap_max mem segFreeList lastHeader set_brk] in *.
  apply wpg_bind. wstore.
  apply wpg_bind. apply wpg_setAlloc; [wbounds|wbounds|]. wsimpl.
  rewrite (load64_store64_eq _ brk 0) by lia. change (Z.lor 0 1) with (hdr 0 true false).
  apply wpg_bind. apply wpg_setBlockSize; [wbounds|wbounds|]. wsimpl.
  rewrite (load64_store64_eq _ brk (hdr 0 true false)) by (apply hdr_range; lia).
  rewrite hdr_low, hdr_setBlockSize by (try reflexivity; lia).
  apply wpg_bind. apply wpg_get_last. wsimpl.
  apply wpg_bind. apply wpg_mm_heap_lo. wsimpl.
  set (pa := last_alloc true bs).
  apply wpg_bind.
  eapply (wpg_conseq N _ _ (fun _ st' => exists m',
     st' = mkState m' lo (brk + (8 + n)) mx seg last /\
     load64 m' brk = hdr n true pa /\
     forall x, x < brk \/ brk + 8 <= x -> m' x = m x)).
  { subst pa. destruct bs as [|b0 bs0 _] using rev_ind.
    - simpl in Hlast. subst last. rewrite Z.eqb_refl. cbn [negb].
      apply wpg_setPrevAlloc; [wbounds|wbounds|]. wsimpl.
      rewrite (load64_store64_eq _ brk (hdr n true false)) by (apply hdr_range; lia).
      rewrite hdr_setPrevAlloc by lia.
      eexists. split; [reflexivity|]. split.
      + ld. reflexivity.
      + intros x Hx. st_other. reflexivity.
    - destruct b0 as [s al]. rewrite last_header_snoc in Hlast.
      rewrite last_alloc_snoc. cbn [snd].
      pose proof (last_block_header _ _ s al bs0 HH eq_refl) as Hh. cbn [mem heap_lo] in Hh.
      apply Forall_app in Hv. destruct Hv as [Hv0 Hvs].
      apply Forall_cons in Hvs. destruct Hvs as [[Hs24 Hs16] _]. cbn [fst] in *.
      pose proof (total_nonneg _ Hv0). rewrite total_app in Hbrk, Ht. cbn [total] in Hbrk, Ht.
      assert (s mod 8 = 0) by zdm.
      destruct (Z.eqb_spec last lo) as [?|_]; [lia|]. cbn [negb].
      apply wpg_bind. apply wpg_isFree; [wbounds|wbounds|]. wsimpl.
      subst last. ld. rewrite Hh, hdr_isFree by lia. rewrite negb_involutive.
      destruct al.
      + apply wpg_setPrevAlloc; [wbounds|wbounds|]. wsimpl.
        rewrite (load64_store64_eq _ brk (hdr n true false)) by (apply hdr_range; lia).
        rewrite hdr_setPrevAlloc by lia.
        eexists. split; [reflexivity|]. split.
        * ld. reflexivity.
        * intros x Hx. st_other. reflexivity.
      + apply wpg_ret. eexists. split; [reflexivity|]. split.
        * ld. reflexivity.
        * intros x Hx. st_other. reflexivity. }
  intros _ st' (m' & -> & Hh' & Hfr).
  apply wpg_bind. apply wpg_put_last. wsimpl. apply wpg_ret.
  apply HQs; [lia| |reflexivity|cbn [heap_brk]; lia|reflexivity|intros x Hx; apply Hfr; lia].
  constructor.
  - constructor; cbn [heap_lo heap_brk heap_max mem segFreeList lastHeader].
    + exact Hlo.
    + rewrite total_app. cbn [total]. lia.
    + lia.
    + exact Hlen.
    + rewrite (load64_ext m m'); [exact Hpro|]. intros x Hx. apply Hfr. lia.
    + apply Forall_app. split; [exact Hv|]. apply Forall_cons. split; [split; assumption|constructor].
    + apply layout_app. split.
      * apply (layout_frame m); [exact Hv| |exact HLay]. intros x Hx _. apply Hfr. lia.
      * cbn [layout]. replace (lo + 8 + total bs) with brk by lia.
        split; [exact Hh'|]. split; [discriminate|exact I].
    + apply adjacent_free_app. split; [exact Hna|]. split; [reflexivity|]. right. reflexivity.
    + rewrite last_header_snoc. lia.
  - apply (lists_ok_frame (mkState m lo brk mx seg last) fls m' (inv_lists _ _ _ Hinv)).
    intros j q x Hq Hx. apply Hfr.
    destruct (cells_in _ _ HC j q Hq) as (_ & _ & _ & Hb). cbn [heap_brk] in Hb. lia.
  - apply (inv_nodup _ _ _ Hinv).
  - intros i q. rewrite (inv_members _ _ _ Hinv i q). cbn [heap_lo].
    rewrite blocks_at_app. cbn [blocks_at]. split.
    + intros (s & Hb & Hi). exists s. split; [elem|exact Hi].
    + intros (s & Hb & Hi). exists s. split; [|exact Hi].
      apply elem_of_app in Hb. destruct Hb as [Hb|Hb]; [exact Hb|].
      apply elem_of_cons in Hb. destruct Hb as [E|Hb]; [discriminate|inversion Hb].
Qed.

(** * Initialization *)

Lemma init_lists_all st :
  length (segFreeList st) = 15%nat ->
  init_lists 15 0 st = Some (tt, set_seg st (replicate 15 NULL)).
Proof.
  destruct st as [m lo brk mx seg last]. cbn [segFreeList]. intros Hlen.
  do 15 (destruct seg as [|? seg]; [discriminate|]).
  destruct seg; [|discriminate]. reflexivity.
Qed.

Lemma mm_init_ok N st (Q : bool -> state -> Prop) :
  heap_brk st = heap_lo st -> 0 < heap_lo st -> heap_lo st mod 16 = 0 ->
  heap_lo st + 8 <= heap_max st < 2 ^ 64 ->
  length (segFreeList st) = 15%nat ->
  (forall st', inv st' [] (fun _ => []) ->
     heap_lo st' = heap_lo st -> heap_max st' = heap_max st -> Q true st') ->
  wpg N mm_init st Q.
Proof.
  intros Hbrk Hlo Hal Hmx Hlen HQ. unfold mm_init, HEADER_SIZE.
  apply wpg_mm_sbrk; intros Hroom; [|lia].
  destruct st as [m lo brk mx seg last].
  cbn [heap_lo heap_brk heap_max mem segFreeList lastHeader set_brk] in *. subst brk.
  apply wpg_bind. apply wpg_mm_heap_lo. wsimpl. rewrite Z.eqb_refl. cbn [negb].
  apply wpg_bind. wstore.
  apply wpg_bind. apply wpg_setAlloc; [wbounds|wbounds|]. wsimpl.
  rewrite (load64_store64_eq _ lo 0) by lia. change (Z.lor 0 1) with 1.
  apply wpg_bind. apply wpg_mm_heap_lo. wsimpl.
  apply wpg_bind. apply wpg_put_last. wsimpl.
  apply wpg_bind. unfold wpg at 1. rewrite init_lists_all by exact Hlen.
  apply wpg_ret. wsimpl. apply HQ; [|reflexivity|reflexivity].
  constructor.
  - constructor; cbn [heap_lo heap_brk heap_max mem segFreeList lastHeader total layout].
    + auto.
    + lia.
    + lia.
    + reflexivity.
    + ld. reflexivity.
    + constructor.
    + exact I.
    + reflexivity.
    + reflexivity.
  - intros i Hi. exists NULL. split; [|reflexivity]. cbn [segFreeList].
    apply lookup_replicate_2. lia.
  - intros i. constructor.
  - intros i q. split.
    + intros Hq. inversion Hq.
    + intros (s & Hb & _). inversion Hb.
Qed.

(** * Size normalization *)

Lemma newAlign_small s : s <= 24 -> newAlign s = 24.
Proof.
  intros H. unfold newAlign, BASE_ALIGNMENT.
  destruct (Z.leb_spec s 24); [reflexivity|lia].
Qed.

Lemma newAlign_large s :
  24 < s <= 2 ^ 64 - 8 -> newAlign s = 24 + 16 * ((s - 24 + 15) / 16).
Proof.
  intros H. unfold newAlign, align, BASE_ALIGNMENT, ALIGNMENT.
  destruct (Z.leb_spec s 24); [lia|].
  rewrite (wrap64_small (s - 24)) by lia.
  rewrite (wrap64_small (s - 24 + 16)) by lia.
  rewrite (wrap64_small (s - 24 + 16 - 1)) by lia.
  replace (s - 24 + 16 - 1) with (s - 24 + 15) by lia.
  assert (0 <= (s - 24 + 15) / 16 /\ 16 * ((s - 24 + 15) / 16) <= s - 24 + 15) by zdm.
  rewrite (wrap64_small (16 * _)) by lia.
  rewrite wrap64_small by lia. lia.
Qed.

Lemma newAlign_valid s :
  0 <= s <= 2 ^ 64 - 8 ->
  valid_size (newAlign s) /\ s <= newAlign s /\ newAlign s <= Z.max 24 (s + 15).
Proof.
  intros H. destruct (Z.le_gt_cases s 24) as [Hs|Hs].
  - rewrite newAlign_small by exact Hs. unfold valid_size. split; [split; [lia|reflexivity]|lia].
  - rewrite newAlign_large by lia. unfold valid_size. zdm.
Qed.

Lemma newAlign_bound s :
  0 <= s <= 2 ^ 64 - 24 -> newAlign s <= 2 ^ 64 - 24.
Proof.
  intros H. destruct (Z.le_gt_cases s 24) as [Hs|Hs].
  - rewrite newAlign_small by exact Hs. lia.
  - rewrite newAlign_large by lia. zdm.
Qed.

(** * Counting the nodes of the free lists *)

Lemma tail_len_nodes fls k i : tail_len fls k i = length (nodes fls k i).
Proof.
  revert i. induction k as [|k IH]; intros i; [reflexivity|].
  cbn [tail_len nodes]. rewrite length_app, IH. reflexivity.
Qed.

Lemma elem_of_nodes fls k i x :
  x ∈ nodes fls k i <-> exists j, i <= j < i + Z.of_nat k /\ x ∈ fls j.
Proof.
  revert i. induction k as [|k IH]; intros i.
  - simpl. split; [intros H; inversion H|intros (j & ? & _); lia].
  - cbn [nodes]. rewrite elem_of_app, IH. split.
    + intros [H|(j & ? & H)]; [exists i|exists j]; split; try assumption; lia.
    + intros (j & Hj & H). destruct (Z.eq_dec j i) as [->|?]; [left; exact H|].
      right. exists j. split; [lia|exact H].
Qed.

Lemma NoDup_nodes st fls k i : cells_ok st fls -> NoDup (nodes fls k i).
Proof.
  intros HC. revert i. induction k as [|k IH]; intros i; [constructor|].
  cbn [nodes]. apply NoDup_app. split; [apply (cells_nodup _ _ HC)|]. split; [|apply IH].
  intros x Hx Hx'. apply elem_of_nodes in Hx'. destruct Hx' as (j & Hj & Hx').
  destruct (cells_apart _ _ HC i j x x Hx Hx') as [[_ ?]|[?|?]]; lia.
Qed.

Lemma length_blocks_at a bs : length (blocks_at a bs) = length bs.
Proof.
  revert a. induction bs as [|[s al] bs IH]; intros a; [reflexivity|].
  cbn [blocks_at length]. rewrite IH. reflexivity.
Qed.

Lemma nodes_bound st bs fls k i :
  inv st bs fls -> (length (nodes fls k i) <= length bs)%nat.
Proof.
  intros Hinv.
  rewrite <- (length_blocks_at (heap_lo st + 8) bs).
  rewrite <- (length_fmap (fun b : Z * Z * bool => fst (fst b) + 8)).
  apply submseteq_length, NoDup_submseteq.
  - apply (NoDup_nodes st). apply (inv_cells_ok _ _ _ Hinv).
  - intros x Hx. apply elem_of_nodes in Hx. destruct Hx as (j & _ & Hx).
    apply (inv_members _ _ _ Hinv) in Hx. destruct Hx as (s & Hb & _).
    apply list_elem_of_fmap. exists (x - 8, s, false). split; [simpl; lia|exact Hb].
Qed.

(** * malloc *)

Lemma malloc_ok_fr fuel st bs fls size (Q : Z -> state -> Prop) :
  inv st bs fls -> 0 < size <= 2 ^ 64 - 24 ->
  (forall pre b post st',
      bs = pre ++ (b, false) :: post -> newAlign size <= b ->
      inv st' (pre ++ split_blocks (newAlign size) b ++ post)
        (split_lists (heap_lo st + 8 + total pre) (newAlign size) b fls) ->
      same_heap st st' ->
      (forall x, untouchable (heap_lo st + 8) bs x -> mem st' x = mem st x) ->
      Q (heap_lo st + 8 + total pre + 8) st') ->
  (heap_brk st + 8 + newAlign size <= heap_max st ->
   forall st', inv st' (bs ++ [(newAlign size, true)]) fls ->
     heap_lo st' = heap_lo st -> heap_brk st' = heap_brk st + 8 + newAlign size ->
     heap_max st' = heap_max st ->
     (forall x, x < heap_brk st -> mem st' x = mem st x) ->
     Q (heap_brk st + 8) st') ->
  (heap_max st < heap_brk st + 8 + newAlign size -> Q 8 st) ->
  wpg (fuel <= length bs + 15)%nat (malloc fuel size) st Q.
Proof.
  intros Hinv Hsz HQfit HQext HQfail. unfold malloc.
  destruct (Z.eqb_spec size 0) as [?|_]; [lia|].
  destruct (newAlign_valid size ltac:(lia)) as (Hvn & Hle & _).
  pose proof (newAlign_bound size ltac:(lia)) as Hnb.
  set (n := newAlign size) in *.
  pose proof (getFreeListIndex_range n Hvn ltac:(lia)) as Hidx.
  set (index := getFreeListIndex n) in *.
  apply wpg_bind.
  apply (wpg_seg_get _ _ (hd_or (fls index)));
    [lia|apply seg_head; [apply (inv_lists _ _ _ Hinv)|exact Hidx]|].
  apply wpg_bind.
  replace index with (14 - Z.of_nat (Z.to_nat (14 - index))) by lia.
  set (k := Z.to_nat (14 - index)).
  eapply wpg_weaken;
    [|apply (malloc_loop_ok_fr fuel k [] (fls (14 - Z.of_nat k)) true st bs fls n);
      [exact Hinv|exact Hvn|lia|reflexivity| |]].
  - unfold loop_steps. intros Hf.
    pose proof (nodes_bound st bs fls (S k) (14 - Z.of_nat k) Hinv) as Hb.
    cbn [nodes] in Hb. rewrite length_app, <- tail_len_nodes in Hb. lia.
  - apply wpg_bind. apply (extendHeap_ok _ st bs fls n); assumption.
  - intros pre b post st' -> Hb Hinv' Hsame Hfr. apply wpg_ret.
    apply (HQfit pre b post); auto.
Qed.

Lemma malloc_ok fuel st bs fls size (Q : Z -> state -> Prop) :
  inv st bs fls -> 0 < size <= 2 ^ 64 - 24 ->
  (forall pre b post st',
      bs = pre ++ (b, false) :: post -> newAlign size <= b ->
      inv st' (pre ++ split_blocks (newAlign size) b ++ post)
        (split_lists (heap_lo st + 8 + total pre) (newAlign size) b fls) ->
      same_heap st st' ->
      Q (heap_lo st + 8 + total pre + 8) st') ->
  (heap_brk st + 8 + newAlign size <= heap_max st ->
   forall st', inv st' (bs ++ [(newAlign size, true)]) fls ->
     heap_lo st' = heap_lo st -> heap_brk st' = heap_brk st + 8 + newAlign size ->
     heap_max st' = heap_max st ->
     (forall x, x < heap_brk st -> mem st' x = mem st x) ->
     Q (heap_brk st + 8) st') ->
  (heap_max st < heap_brk st + 8 + newAlign size -> Q 8 st) ->
  wpg (fuel <= length bs + 15)%nat (malloc fuel size) st Q.
Proof.
  intros Hinv Hsz HQfit HQext HQfail.
  apply (malloc_ok_fr fuel st bs fls size Q); try assumption.
  intros pre b post st' E Hb Hinv' Hsame _. apply (HQfit pre b post); assumption.
Qed.

(** * Allocated blocks *)

Lemma allocated_bounds st bs fls p s :
  inv st bs fls -> allocated_at st bs p s ->
  heap_lo st + 16 <= p /\ p + s <= heap_brk st /\ valid_size s /\ p mod 16 = 0.
Proof.
  intros Hinv Hal. unfold allocated_at in Hal.
  pose proof (inv_heap _ _ _ Hinv) as [Hlo Hbrk Hmx Hlen Hpro Hv HLay Hna Hlast].
  pose proof (blocks_at_bounds _ _ _ _ _ Hv Hal) as (? & ? & Hvs & _).
  apply blocks_at_split in Hal. destruct Hal as (pre & post & -> & E).
  apply Forall_app in Hv. destruct Hv as [Hv1 _].
  pose proof (total_mod16 _ Hv1). repeat split; try lia; try apply Hvs. zdm.
Qed.

Lemma allocated_split st bs p s :
  allocated_at st bs p s ->
  exists pre post, bs = pre ++ (s, true) :: post /\ p = heap_lo st + 8 + total pre + 8.
Proof.
  intros Hal. apply blocks_at_split in Hal. destruct Hal as (pre & post & -> & E).
  exists pre, post. split; [reflexivity|lia].
Qed.

(** Writing into the payload of an allocated block keeps the invariant. *)
Lemma inv_payload_write st bs fls p s m' :
  inv st bs fls -> allocated_at st bs p s ->
  (forall x, x < p \/ p + s <= x -> m' x = mem st x) ->
  inv (set_mem st m') bs fls.
Proof.
  intros Hinv Hal Hfr. pose proof (allocated_bounds _ _ _ _ _ Hinv Hal) as (? & ? & _ & _).
  destruct Hinv as [HH HL HN HM].
  pose proof HH as [Hlo Hbrk Hmx Hlen Hpro Hv HLay Hna Hlast].
  constructor; [|apply lists_ok_frame; [exact HL|]|exact HN|exact HM].
  - constructor; cbn [heap_lo heap_brk heap_max mem segFreeList lastHeader set_mem];
      try assumption.
    + rewrite (load64_ext (mem st) m'); [exact Hpro|]. intros x Hx. apply Hfr. lia.
    + apply (layout_frame (mem st)); [exact Hv| |exact HLay].
      intros x Hx Hni. apply Hfr. specialize (Hni _ Hal). unfold interior in Hni.
      simpl in Hni. lia.
  - intros j q x Hq Hx. apply Hfr. apply HM in Hq. destruct Hq as (sq & Hb & _).
    pose proof (blocks_at_bounds _ _ _ _ _ Hv Hb) as (_ & _ & [? _] & _).
    destruct (blocks_at_sep _ _ _ _ Hv Hb Hal) as [E|E]; [discriminate|]. simpl in E. lia.
Qed.

Lemma total_split_blocks n b : total (split_blocks n b) = 8 + b.
Proof. unfold split_blocks. destruct (32 <=? b - n); simpl; lia. Qed.

(** Taking a free block keeps the allocated blocks and adds the victim. *)
Lemma allocated_after_fit a pre b post n q t :
  (q, t, true) ∈ blocks_at a (pre ++ (b, false) :: post) ->
  (q, t, true) ∈ blocks_at a (pre ++ split_blocks n b ++ post).
Proof.
  rewrite !blocks_at_app, total_split_blocks. cbn [blocks_at].
  replace (a + total pre + (8 + b)) with (a + total pre + 8 + b) by lia.
  rewrite !elem_of_app, elem_of_cons. intros [H|[H|H]]; [auto|discriminate|auto].
Qed.

Lemma victim_after_fit a pre b post n :
  n <= b ->
  exists s, n <= s /\
    (a + total pre, s, true) ∈ blocks_at a (pre ++ split_blocks n b ++ post).
Proof.
  intros Hn. rewrite !blocks_at_app. unfold split_blocks.
  destruct (32 <=? b - n); cbn [blocks_at].
  - exists n. split; [lia|]. elem.
  - exists b. split; [lia|]. elem.
Qed.

(** malloc, in terms of the allocated blocks: a successful call returns the
    payload of a new allocated block that is large enough and keeps the
    other allocated blocks; the call fails only when the heap cannot grow,
    and then it returns 8 and leaves the state alone. *)
Lemma malloc_spec_fr fuel st bs fls size (Q : Z -> state -> Prop) :
  inv st bs fls -> 0 < size <= 2 ^ 64 - 24 ->
  (forall st' bs' fls' p s,
      inv st' bs' fls' -> heap_lo st' = heap_lo st -> heap_max st' = heap_max st ->
      heap_brk st <= heap_brk st' ->
      allocated_at st' bs' p s -> size <= s ->
      (forall t, ~ allocated_at st bs p t) ->
      (forall q t, allocated_at st bs q t -> allocated_at st' bs' q t) ->
      (forall x, untouchable (heap_lo st + 8) bs x -> mem st' x = mem st x) ->
      Q p st') ->
  (heap_max st < heap_brk st + 8 + newAlign size -> Q 8 st) ->
  wpg (fuel <= length bs + 15)%nat (malloc fuel size) st Q.
Proof.
  intros Hinv Hsz HQ HQfail.
  destruct (newAlign_valid size ltac:(lia)) as ([Hn24 Hn16] & Hle & _).
  pose proof (inv_sizes _ _ _ Hinv) as Hv.
  apply (malloc_ok_fr fuel st bs fls size Q Hinv Hsz); [| |exact HQfail].
  - intros pre b post st' -> Hb Hinv' (E1 & E2 & E3) Hfr.
    destruct (victim_after_fit (heap_lo st + 8) pre b post (newAlign size) Hb)
      as (s & Hs & Hal).
    apply (HQ st' _ _ _ s Hinv' E1 E3); [lia| |lia| | |exact Hfr].
    + unfold allocated_at. rewrite E1.
      replace (heap_lo st + 8 + total pre + 8 - 8) with (heap_lo st + 8 + total pre) by lia.
      exact Hal.
    + intros t Ht. unfold allocated_at in Ht.
      replace (heap_lo st + 8 + total pre + 8 - 8) with (heap_lo st + 8 + total pre) in Ht by lia.
      pose proof (blocks_at_mid (heap_lo st + 8) pre b false post) as Hmid.
      destruct (blocks_at_same_addr _ _ _ _ _ _ _ Hv Ht Hmid) as [_ ?]. discriminate.
    + intros q t Hq. unfold allocated_at in *. rewrite E1.
      apply allocated_after_fit. exact Hq.
  - intros Hroom st' Hinv' E1 E2 E3 Hfr.
    pose proof (inv_brk _ _ _ Hinv) as Hbrk.
    apply (HQ st' _ _ _ (newAlign size) Hinv' E1 E3); [lia| |lia| | |].
    4:{ intros x Hu. apply Hfr. apply (untouchable_range _ _ _ Hv) in Hu. lia. }
    + unfold allocated_at. rewrite E1, blocks_at_app. cbn [blocks_at].
      replace (heap_brk st + 8 - 8) with (heap_lo st + 8 + total bs) by lia. elem.
    + intros t Ht. unfold allocated_at in Ht.
      pose proof (blocks_at_bounds _ _ _ _ _ Hv Ht) as (_ & ? & [? _] & _). lia.
    + intros q t Hq. unfold allocated_at in *. rewrite E1, blocks_at_app. elem.
Qed.

Lemma malloc_spec fuel st bs fls size (Q : Z -> state -> Prop) :
  inv st bs fls -> 0 < size <= 2 ^ 64 - 24 ->
  (forall st' bs' fls' p s,
      inv st' bs' fls' -> heap_lo st' = heap_lo st -> heap_max st' = heap_max st ->
      heap_brk st <= heap_brk st' ->
      allocated_at st' bs' p s -> size <= s ->
      (forall t, ~ allocated_at st bs p t) ->
      (forall q t, allocated_at st bs q t -> allocated_at st' bs' q t) ->
      Q p st') ->
  (heap_max st < heap_brk st + 8 + newAlign size -> Q 8 st) ->
  wpg (fuel <= length bs + 15)%nat (malloc fuel size) st Q.
Proof.
  intros Hinv Hsz HQ HQfail.
  apply (malloc_spec_fr fuel st bs fls size Q Hinv Hsz); [|exact HQfail].
  intros st' bs' fls' p s Hinv' E1 E2 E3 Hal Hs Hnew Hkeep _.
  apply (HQ st' bs' fls' p s); assumption.
Qed.

(** free of the payload of an allocated block. *)
Lemma free_spec_fr N st bs fls p s (Q : unit -> state -> Prop) :
  inv st bs fls -> allocated_at st bs p s ->
  (forall st' pre op on post fls',
      bs = pre ++ nb op ++ (s, true) :: nb on ++ post ->
      p = heap_lo st + 8 + total pre + nbsz op + 8 ->
      last_alloc true pre = true -> head_alloc post = true ->
      inv st' (pre ++ (nbsz op + s + nbsz on, false) :: post) fls' ->
      same_heap st st' ->
      (forall x, untouchable (heap_lo st + 8)
                   (pre ++ (nbsz op + s + nbsz on, false) :: post) x ->
                 mem st' x = mem st x) ->
      Q tt st') ->
  wpg N (free p) st Q.
Proof.
  intros Hinv Hal HQ.
  destruct (allocated_split _ _ _ _ Hal) as (pre0 & post0 & -> & ->).
  apply (free_inv_fr N st pre0 post0 fls s Q Hinv).
  intros st' pre op on post fls' -> -> Hop Hon Hinv' Hsame Hfr.
  pose proof (inv_noadj _ _ _ Hinv) as Hna.
  apply (HQ st' pre op on post fls'); try assumption.
  - rewrite <- app_assoc. reflexivity.
  - rewrite total_app, total_nb. lia.
  - rewrite <- app_assoc in Hna. apply adjacent_free_app in Hna.
    destruct Hna as (_ & Hna & Hor). destruct op as [z|]; simpl in *.
    + destruct Hor as [Hor|Hor]; [exact Hor|discriminate].
    + rewrite app_nil_r in Hop. destruct (last_alloc true pre); [reflexivity|discriminate].
  - destruct on as [z|]; simpl in *.
    + rewrite <- app_assoc in Hna. apply adjacent_free_app in Hna.
      destruct Hna as (_ & Hna & _). apply adjacent_free_app in Hna.
      destruct Hna as (_ & Hna & _). apply adjacent_free_cons' in Hna.
      destruct Hna as (Hna & _). apply adjacent_free_cons' in Hna.
      destruct Hna as (_ & [Hf|Hh]); [discriminate|exact Hh].
    + destruct (head_alloc post); [reflexivity|discriminate].
Qed.

Lemma free_spec N st bs fls p s (Q : unit -> state -> Prop) :
  inv st bs fls -> allocated_at st bs p s ->
  (forall st' pre op on post fls',
      bs = pre ++ nb op ++ (s, true) :: nb on ++ post ->
      p = heap_lo st + 8 + total pre + nbsz op + 8 ->
      last_alloc true pre = true -> head_alloc post = true ->
      inv st' (pre ++ (nbsz op + s + nbsz on, false) :: post) fls' ->
      same_heap st st' -> Q tt st') ->
  wpg N (free p) st Q.
Proof.
  intros Hinv Hal HQ. apply (free_spec_fr N st bs fls p s Q Hinv Hal).
  intros st' pre op on post fls' E1 E2 Hla Hha Hinv' Hsame _.
  apply (HQ st' pre op on post fls'); assumption.
Qed.

Lemma allocated_header st bs fls p s :
  inv st bs fls -> allocated_at st bs p s ->
  exists pa, load64 (mem st) (p - 8) = hdr s true pa.
Proof.
  intros Hinv Hal. destruct (allocated_split _ _ _ _ Hal) as (pre & post & -> & ->).
  pose proof (inv_layout _ _ _ Hinv) as HL. apply layout_app in HL.
  destruct HL as [_ HL]. cbn [layout] in HL. destruct HL as (Hh & _).
  exists (last_alloc true pre).
  replace (heap_lo st + 8 + total pre + 8 - 8) with (heap_lo st + 8 + total pre) by lia.
  exact Hh.
Qed.

Lemma allocated_after_free a pre op on post s q t :
  q <> a + total pre + nbsz op ->
  (q, t, true) ∈ blocks_at a (pre ++ nb op ++ (s, true) :: nb on ++ post) ->
  (q, t, true) ∈ blocks_at a (pre ++ (nbsz op + s + nbsz on, false) :: post).
Proof.
  intros Hq.
  replace (pre ++ nb op ++ (s, true) :: nb on ++ post)
    with (pre ++ (nb op ++ (s, true) :: nb on) ++ post)
    by (rewrite <- !app_assoc; reflexivity).
  rewrite !blocks_at_app. cbn [blocks_at].
  replace (a + total pre + total (nb op ++ (s, true) :: nb on))
    with (a + total pre + 8 + (nbsz op + s + nbsz on))
    by (rewrite total_app; cbn [total]; rewrite !total_nb; lia).
  intros H. apply elem_of_app in H. destruct H as [H|H]; [apply elem_of_app; left; exact H|].
  apply elem_of_app in H.
  destruct H as [H|H]; [exfalso|apply elem_of_app; right; apply elem_of_cons; right; exact H].
  destruct op as [zp|], on as [zn|]; cbn [nb nbsz app blocks_at total] in *;
    repeat (apply elem_of_cons in H; destruct H as [H|H];
            [first [discriminate H | injection H; intros; lia]|]);
    inversion H.
Qed.

Lemma wpg_mm_memcpy N dst src n st (Q : Z -> state -> Prop) :
  0 < n -> heap_lo st <= dst -> dst + n <= heap_brk st ->
  heap_lo st <= src -> src + n <= heap_brk st ->
  Q dst (set_mem st (copy_bytes (mem st) dst src n)) ->
  wpg N (mm_memcpy dst src n) st Q.
Proof.
  intros Hn H1 H2 H3 H4 HQ. unfold wpg, mm_memcpy.
  destruct (Z.eqb_spec n 0) as [?|_]; [lia|].
  rewrite !in_bounds_true by assumption. exact HQ.
Qed.

Lemma wpg_memset N dst c n st (Q : unit -> state -> Prop) :
  0 < n -> heap_lo st <= dst -> dst + n <= heap_brk st ->
  Q tt (set_mem st (fill_bytes (mem st) dst c n)) ->
  wpg N (memset dst c n) st Q.
Proof.
  intros Hn H1 H2 HQ. unfold wpg, memset.
  destruct (Z.eqb_spec n 0) as [?|_]; [lia|].
  rewrite in_bounds_true by assumption. exact HQ.
Qed.

Lemma in_bounds_low st a n : a < heap_lo st -> in_bounds st a n = false.
Proof.
  intros H. unfold in_bounds. destruct (Z.leb_spec (heap_lo st) a); [lia|reflexivity].
Qed.

(** * realloc *)

Lemma realloc_spec fuel st bs fls oldptr old_size size (Q : Z -> state -> Prop) :
  inv st bs fls -> allocated_at st bs oldptr old_size -> 0 < size <= 2 ^ 64 - 24 ->
  (forall st' bs' fls' p s,
      inv st' bs' fls' -> heap_lo st' = heap_lo st -> heap_max st' = heap_max st ->
      allocated_at st' bs' p s -> size <= s -> Q p st') ->
  wpg ((fuel <= length bs + 15)%nat \/
       heap_max st < heap_brk st + 8 + newAlign size)
    (realloc fuel oldptr size) st Q.
Proof.
  intros Hinv Hold Hsz HQ.
  pose proof (allocated_bounds _ _ _ _ _ Hinv Hold) as (Ho1 & Ho2 & [Ho3 Ho4] & _).
  pose proof (inv_lo _ _ _ Hinv) as [Hlo0 Hlo16]. pose proof (inv_max _ _ _ Hinv) as [Hmx1 Hmx2].
  assert (Hlo8 : 8 < heap_lo st) by zdm.
  assert (Hs8 : old_size mod 8 = 0) by zdm.
  unfold realloc.
  destruct (Z.eqb_spec oldptr NULL) as [E|_]; [unfold NULL in E; lia|].
  destruct (Z.eqb_spec size 0) as [?|_]; [lia|].
  apply wpg_bind.
  eapply wpg_weaken; [intros H; left; exact H|].
  apply (malloc_spec fuel st bs fls size _ Hinv Hsz).
  - intros st1 bs1 fls1 p s Hinv1 E1 E3 Hbrk1 Hp Hps Hfresh Hkeep.
    pose proof (Hkeep _ _ Hold) as Hold1.
    pose proof (allocated_bounds _ _ _ _ _ Hinv1 Hp) as (Hp1 & Hp2 & _ & _).
    pose proof (allocated_bounds _ _ _ _ _ Hinv1 Hold1) as (Hq1 & Hq2 & _ & _).
    pose proof (inv_max _ _ _ Hinv1) as [Hm1 Hm2].
    destruct (allocated_header _ _ _ _ _ Hinv1 Hold1) as (pa & Hh).
    destruct (Z.eqb_spec p NULL) as [E|_]; [unfold NULL in E; lia|].
    unfold ptr_sub, get8ByteAlignment, HEADER_SIZE. change (8 / 8) with 1.
    replace (oldptr - 8 * 1) with (oldptr - 8) by lia.
    apply wpg_bind. apply wpg_getBlockSize; [lia|lia|].
    rewrite Hh, hdr_size by lia.
    set (cnt := if size >? old_size then old_size else size).
    assert (Hcnt : 0 < cnt <= old_size /\ cnt <= size).
    { unfold cnt. destruct (Z.gtb_spec size old_size); lia. }
    replace (if size >? old_size then mm_memcpy p oldptr old_size
             else mm_memcpy p oldptr size)
      with (mm_memcpy p oldptr cnt)
      by (unfold cnt; destruct (size >? old_size); reflexivity).
    clearbody cnt.
    apply wpg_bind. apply wpg_mm_memcpy; [lia|lia|lia|lia|lia|].
    assert (Hinv2 : inv (set_mem st1 (copy_bytes (mem st1) p oldptr cnt)) bs1 fls1).
    { apply (inv_payload_write st1 bs1 fls1 p s); [exact Hinv1|exact Hp|].
      intros x Hx. apply copy_bytes_out. lia. }
    apply wpg_bind.
    apply (free_spec _ _ bs1 fls1 oldptr old_size); [exact Hinv2|exact Hold1|].
    intros st3 pre op on post fls3 -> Eold Hla Hha Hinv3 (F1 & F2 & F3).
    cbn [heap_lo heap_brk heap_max set_mem] in *.
    apply wpg_ret. apply (HQ st3 _ fls3 p s Hinv3); [congruence|congruence| |exact Hps].
    unfold allocated_at in *. rewrite F1.
    apply allocated_after_free; [|exact Hp].
    intros Ep. apply (Hfresh old_size). unfold allocated_at.
    replace (p - 8) with (oldptr - 8) by lia. exact Hold.
  - intros Hfail.
    destruct (allocated_header _ _ _ _ _ Hinv Hold) as (pa & Hh).
    change (8 =? NULL) with false. cbv iota.
    unfold ptr_sub, get8ByteAlignment, HEADER_SIZE. change (8 / 8) with 1.
    replace (oldptr - 8 * 1) with (oldptr - 8) by lia.
    apply wpg_bind. apply wpg_getBlockSize; [lia|lia|].
    rewrite Hh, hdr_size by lia.
    apply wpg_bind. unfold wpg at 1.
    assert (Hf : forall n, 0 < n -> mm_memcpy 8 oldptr n st = None).
    { intros n Hn. unfold mm_memcpy. destruct (Z.eqb_spec n 0) as [?|_]; [lia|].
      rewrite (in_bounds_low st 8) by lia. reflexivity. }
    destruct (size >? old_size); rewrite Hf by lia; right; exact Hfail.
Qed.

(** * calloc *)

Lemma calloc_spec fuel st bs fls nmemb size (Q : Z -> state -> Prop) :
  inv st bs fls -> wrap64 (size * nmemb) <= 2 ^ 64 - 24 ->
  (wrap64 (size * nmemb) = 0 -> Q NULL st) ->
  (forall st' bs' fls' p s,
      0 < wrap64 (size * nmemb) ->
      inv st' bs' fls' -> heap_lo st' = heap_lo st -> heap_max st' = heap_max st ->
      allocated_at st' bs' p s -> wrap64 (size * nmemb) <= s ->
      (forall x, p <= x < p + wrap64 (size * nmemb) -> mem st' x = 0) ->
      Q p st') ->
  wpg ((fuel <= length bs + 15)%nat \/
       (0 < wrap64 (size * nmemb) /\
        heap_max st < heap_brk st + 8 + newAlign (wrap64 (size * nmemb))))
    (calloc fuel nmemb size) st Q.
Proof.
  intros Hinv Hsz HQ0 HQ. unfold calloc.
  assert (0 <= wrap64 (size * nmemb)) by (unfold wrap64; zdm).
  set (sz := wrap64 (size * nmemb)) in *.
  pose proof (inv_lo _ _ _ Hinv) as [Hlo0 Hlo16].
  assert (Hlo8 : 8 < heap_lo st) by zdm.
  apply wpg_bind. destruct (Z.eq_dec sz 0) as [E0|Hnz].
  { unfold malloc. rewrite E0. change (0 =? 0) with true. cbv iota.
    apply wpg_ret. change (negb (NULL =? NULL)) with false. cbv iota.
    apply wpg_bind. apply wpg_ret. apply wpg_ret. apply HQ0. exact E0. }
  eapply wpg_weaken; [intros Hf; left; exact Hf|].
  apply (malloc_spec fuel st bs fls sz _ Hinv ltac:(lia)).
  - intros st1 bs1 fls1 p s Hinv1 E1 E3 Hbrk1 Hp Hps Hfresh Hkeep.
    pose proof (allocated_bounds _ _ _ _ _ Hinv1 Hp) as (Hp1 & Hp2 & _ & _).
    destruct (Z.eqb_spec p NULL) as [E|_]; [unfold NULL in E; lia|]. cbn [negb].
    apply wpg_bind. apply wpg_memset; [lia|lia|lia|]. apply wpg_ret.
    apply (HQ _ bs1 fls1 p s); try assumption; [lia| |].
    + apply (inv_payload_write st1 bs1 fls1 p s); [exact Hinv1|exact Hp|].
      intros x Hx. apply fill_bytes_out. lia.
    + intros x Hx. cbn [mem set_mem]. rewrite fill_bytes_in by exact Hx. reflexivity.
  - intros Hfail. change (negb (8 =? NULL)) with true. cbv iota.
    apply wpg_bind. unfold wpg at 1, memset.
    destruct (Z.eqb_spec sz 0) as [?|_]; [lia|].
    rewrite (in_bounds_low st 8) by lia. right. split; [lia|exact Hfail].
Qed.

(** * Runs *)

Lemma wp_exec {A} (c : M A) st (Q : A -> state -> Prop) :
  wp c st Q -> exists x, c st = Some (x, exec c st) /\ Q x (exec c st).
Proof.
  unfold wpg, exec. destruct (c st) as [[x st']|]; [|tauto].
  intros H. exists x. auto.
Qed.

Lemma wpg_exec {A} (N : Prop) (c : M A) st (Q : A -> state -> Prop) :
  wpg N c st Q -> ~ N -> exists x, c st = Some (x, exec c st) /\ Q x (exec c st).
Proof.
  unfold wpg, exec. destruct (c st) as [[x st']|]; [|tauto].
  intros H _. exists x. auto.
Qed.

(** * malloc when no free block fits *)

Lemma malloc_no_fit fuel st bs fls size (Q : Z -> state -> Prop) :
  inv st bs fls -> 0 < size <= 2 ^ 64 - 24 ->
  (forall b, (b, false) ∈ bs -> b < newAlign size) ->
  (~ no_room st size ->
   forall st', inv st' (bs ++ [(newAlign size, true)]) fls ->
     heap_lo st' = heap_lo st -> heap_brk st' = heap_brk st + 8 + newAlign size ->
     heap_max st' = heap_max st -> Q (heap_brk st + 8) st') ->
  (no_room st size -> Q 8 st) ->
  wpg (fuel <= length bs + 15)%nat (malloc fuel size) st Q.
Proof.
  intros Hinv Hsz Hnofit HQext HQfail.
  apply (malloc_ok fuel st bs fls size Q Hinv Hsz).
  - intros pre b post st' -> Hb _ _. exfalso.
    assert (Hin : (b, false) ∈ pre ++ (b, false) :: post) by elem.
    specialize (Hnofit b Hin). lia.
  - intros Hroom st' Hinv' E1 E2 E3 _. apply HQext; try assumption.
    unfold no_room. lia.
  - exact HQfail.
Qed.

(** * The forward-coalescing scenario *)

Lemma coalesce_scenario_ok fuel st0 (Q : Z * Z * Z -> state -> Prop) :
  heap_brk st0 = heap_lo st0 -> 0 < heap_lo st0 -> heap_lo st0 mod 16 = 0 ->
  heap_lo st0 + 152 <= heap_max st0 < 2 ^ 64 ->
  length (segFreeList st0) = 15%nat ->
  (18 <= fuel)%nat ->
  (forall st' fls',
      inv st' [(88, false); (40, true)] fls' ->
      heap_lo st' = heap_lo st0 -> heap_max st' = heap_max st0 ->
      Q (heap_lo st0 + 16, heap_lo st0 + 64, heap_lo st0 + 112) st') ->
  wp (coalesce_scenario fuel) st0 Q.
Proof.
  intros Hbrk0 Hlo0 Hal0 Hmx0 Hlen0 Hfuel HQ.
  set (lo := heap_lo st0) in *. set (mx := heap_max st0) in *.
  assert (Hn40 : newAlign 40 = 40) by reflexivity.
  unfold coalesce_scenario.
  apply wpg_bind. apply mm_init_ok; try assumption; [fold lo mx; lia|].
  intros st1 Hinv1 L1 M1. fold lo in L1. fold mx in M1.
  pose proof (inv_brk _ _ _ Hinv1) as B1. cbn [total] in B1.
  (* a *)
  apply wpg_bind.
  apply (wpg_weaken (fuel <= length (@nil block) + 15)%nat); [simpl; lia|].
  apply (malloc_no_fit fuel st1 [] _ 40 _ Hinv1); [lia|intros b Hb; inversion Hb| |].
  2:{ unfold no_room. rewrite Hn40. lia. }
  rewrite Hn40. intros _ st2 Hinv2 L2 B2 M2. cbn [app] in Hinv2.
  (* b *)
  apply wpg_bind.
  apply (wpg_weaken (fuel <= length [(40, true)] + 15)%nat); [simpl; lia|].
  apply (malloc_no_fit fuel st2 _ _ 40 _ Hinv2); [lia| | |].
  { intros b Hb. apply elem_of_cons in Hb. destruct Hb as [E|Hb]; [discriminate|inversion Hb]. }
  2:{ unfold no_room. rewrite Hn40. lia. }
  rewrite Hn40. intros _ st3 Hinv3 L3 B3 M3. cbn [app] in Hinv3.
  (* c *)
  apply wpg_bind.
  apply (wpg_weaken (fuel <= length [(40, true); (40, true)] + 15)%nat); [simpl; lia|].
  apply (malloc_no_fit fuel st3 _ _ 40 _ Hinv3); [lia| | |].
  { intros b Hb. repeat (apply elem_of_cons in Hb; destruct Hb as [E|Hb]; [discriminate|]).
    inversion Hb. }
  2:{ unfold no_room. rewrite Hn40. lia. }
  rewrite Hn40. intros _ st4 Hinv4 L4 B4 M4. cbn [app] in Hinv4.
  (* free a *)
  apply wpg_bind.
  replace (heap_brk st1 + 8) with (heap_lo st4 + 8 + total [] + 8) by (cbn [total]; lia).
  apply (free_inv False st4 [] [(40, true); (40, true)] _ 40 _ Hinv4).
  intros st5 pre op on post fls5 Epre Epost Hop Hon Hinv5 (L5 & B5 & M5).
  destruct op as [z|]; [discriminate Hop|]. destruct on as [z|]; [discriminate Hon|].
  cbn [nb nbsz app] in *. rewrite app_nil_r in Epre. subst pre post.
  cbn [app] in Hinv5. change (0 + 40 + 0) with 40 in Hinv5.
  (* free b *)
  apply wpg_bind.
  replace (heap_brk st2 + 8) with (heap_lo st5 + 8 + total [(40, false)] + 8)
    by (cbn [total]; lia).
  apply (free_inv False st5 [(40, false)] [(40, true)] _ 40 _ Hinv5).
  clear Hop Hon.
  intros st6 pre op on post fls6 Epre Epost Hop Hon Hinv6 (L6 & B6 & M6).
  destruct op as [z|]; [|discriminate Hop]. destruct on as [z'|]; [discriminate Hon|].
  cbn [nb nbsz app] in *. subst post.
  destruct pre as [|x pre]; [|destruct pre; discriminate Epre].
  injection Epre as <-. cbn [app] in Hinv6. change (8 + 40 + 40 + 0) with 88 in Hinv6.
  apply wpg_ret. cbn [total].
  replace (heap_lo st4 + 8 + 0 + 8) with (lo + 16) by lia.
  replace (heap_lo st5 + 8 + (8 + 40 + 0) + 8) with (lo + 64) by lia.
  replace (heap_brk st3 + 8) with (lo + 112) by lia.
  apply (HQ st6 fls6 Hinv6); congruence.
Qed.

Lemma demo_heap_inv :
  exists fls, inv demo_heap [(88, false); (40, true)] fls /\
    heap_lo demo_heap = 4096 /\ heap_brk demo_heap = 4248 /\ heap_max demo_heap = 5120.
Proof.
  destruct (wp_exec (coalesce_scenario 32) (fresh_state 4096 5120)
              (fun _ st' => exists fls, inv st' [(88, false); (40, true)] fls /\
                 heap_lo st' = 4096 /\ heap_brk st' = 4248 /\ heap_max st' = 5120))
    as (x & _ & H); [|exact H].
  apply coalesce_scenario_ok; try reflexivity; cbn [heap_lo heap_max fresh_state]; try lia.
  intros st' fls' Hinv L M. exists fls'. split; [exact Hinv|]. split; [exact L|].
  split; [|exact M]. rewrite (inv_brk _ _ _ Hinv), L. reflexivity.
Qed.

Lemma free_outside st p :
  p < heap_lo st \/ heap_brk st - 1 < p -> free p st = Some (tt, st).
Proof.
  intros H.
  assert (E : in_heap p st = Some (false, st)).
  { unfold in_heap, bind, mm_heap_hi, mm_heap_lo, ret. cbv beta. do 2 f_equal.
    destruct (Z.leb_spec p (heap_brk st - 1)); destruct (Z.geb_spec p (heap_lo st));
      try reflexivity; lia. }
  unfold free. unfold bind at 1. rewrite E. reflexivity.
Qed.

(** * The public operations keep the invariant *)

Lemma malloc_request_ok fuel st bs fls size (Q : Z -> state -> Prop) :
  inv st bs fls -> 0 <= size <= 2 ^ 64 - 24 -> (length bs + 15 < fuel)%nat ->
  (size = 0 -> Q NULL st) ->
  (no_room st size -> Q 8 st) ->
  (forall st' bs' fls' p s, inv st' bs' fls' -> allocated_at st' bs' p s -> Q p st') ->
  wp (malloc fuel size) st Q.
Proof.
  intros Hinv Hsz Hfuel HQ0 HQ8 HQ.
  destruct (Z.eq_dec size 0) as [->|Hnz]; [apply wpg_ret; auto|].
  apply (wpg_weaken (fuel <= length bs + 15)%nat); [lia|].
  apply (malloc_spec fuel st bs fls size Q Hinv); [lia| |exact HQ8].
  intros st' bs' fls' p s Hinv' _ _ _ Hp _ _ _. apply (HQ st' bs' fls' p s); assumption.
Qed.

Lemma request_ok fuel st bs fls r :
  inv st bs fls -> valid_request st bs r -> (length bs + 15 < fuel)%nat ->
  wpg (uses_failed_malloc st r) (run_request fuel r) st
    (fun p st' => exists bs' fls', inv st' bs' fls' /\
       (p = NULL \/
        (p = 8 /\ st' = st /\ exists size,
            (r = ReqMalloc size \/ r = ReqRealloc NULL size) /\ no_room st size) \/
        exists s, allocated_at st' bs' p s)).
Proof.
  intros Hinv Hval Hfuel. destruct r as [size|ptr|ptr size|nmemb size]; cbn [run_request].
  - apply wp_wpg. apply (malloc_request_ok fuel st bs fls size); try assumption.
    + intros _. exists bs, fls. auto.
    + intros Hno. exists bs, fls. split; [exact Hinv|]. right. left.
      split; [reflexivity|]. split; [reflexivity|]. exists size. auto.
    + intros st' bs' fls' p s Hinv' Hp. exists bs', fls'. split; [exact Hinv'|].
      right. right. exists s. exact Hp.
  - apply wp_wpg. apply wpg_bind. destruct Hval as [Hout|(s & Hal)].
    + unfold wpg. rewrite free_outside by lia. exists bs, fls. auto.
    + apply (free_spec _ st bs fls ptr s); [exact Hinv|exact Hal|].
      intros st' pre op on post fls' _ _ _ _ Hinv' _. apply wpg_ret.
      eexists _, fls'. split; [exact Hinv'|]. left. reflexivity.
  - destruct Hval as (Hsz & [->|(s & Hal)]).
    + apply wp_wpg. unfold realloc. change (NULL =? NULL) with true. cbv iota.
      apply (malloc_request_ok fuel st bs fls size); try assumption.
      * intros _. exists bs, fls. auto.
      * intros Hno. exists bs, fls. split; [exact Hinv|]. right. left.
        split; [reflexivity|]. split; [reflexivity|]. exists size. auto.
      * intros st' bs' fls' p t Hinv' Hp. exists bs', fls'. split; [exact Hinv'|].
        right. right. exists t. exact Hp.
    + pose proof (allocated_bounds _ _ _ _ _ Hinv Hal) as (Hb1 & _).
      pose proof (inv_lo _ _ _ Hinv) as [Hlo _].
      assert (Hnn : ptr <> NULL) by (unfold NULL; lia).
      destruct (Z.eq_dec size 0) as [->|Hnz].
      * apply wp_wpg. unfold realloc.
        destruct (Z.eqb_spec ptr NULL) as [?|_]; [contradiction|].
        change (0 =? 0) with true. cbv iota. apply wpg_bind.
        apply (free_spec _ st bs fls ptr s); [exact Hinv|exact Hal|].
        intros st' pre op on post fls' _ _ _ _ Hinv' _. apply wpg_ret.
        eexists _, fls'. split; [exact Hinv'|]. left. reflexivity.
      * eapply wpg_weaken;
          [|apply (realloc_spec fuel st bs fls ptr s size); [exact Hinv|exact Hal|lia|]].
        -- intros [Hf|Hno]; [lia|]. cbn [uses_failed_malloc]. split; [exact Hnn|].
           split; [lia|exact Hno].
        -- intros st' bs' fls' p t Hinv' _ _ Hp _. exists bs', fls'.
           split; [exact Hinv'|]. right. right. exists t. exact Hp.
  - cbn [valid_request] in Hval.
    eapply wpg_weaken; [|apply (calloc_spec fuel st bs fls nmemb size); [exact Hinv|exact Hval| |]].
    + intros [Hf|Hno]; [lia|exact Hno].
    + intros _. exists bs, fls. auto.
    + intros st' bs' fls' p s _ Hinv' _ _ Hp _ _. exists bs', fls'.
      split; [exact Hinv'|]. right. right. exists s. exact Hp.
Qed.

(** * The specification, claim by claim *)

Lemma wpg_eq {A} (N : Prop) (c : M A) st v st0 :
  wpg N c st (fun x s => x = v /\ s = st0) -> ~ N -> c st = Some (v, st0).
Proof.
  unfold wpg. destruct (c st) as [[x s]|]; [|tauto]. intros [-> ->] _. reflexivity.
Qed.

Lemma wpg_none {A} (N : Prop) (c : M A) st :
  wpg N c st (fun _ _ => False) -> c st = None.
Proof. unfold wpg. destruct (c st) as [[x s]|]; [tauto|reflexivity]. Qed.

Lemma malloc_failure_eq fuel st bs fls size :
  inv st bs fls -> 0 < size <= 2 ^ 64 - 24 ->
  (forall b, (b, false) ∈ bs -> b < newAlign size) ->
  no_room st size -> (length bs + 15 < fuel)%nat ->
  malloc fuel size st = Some (8, st).
Proof.
  intros Hinv Hsz Hnofit Hno Hfuel.
  apply (wpg_eq (fuel <= length bs + 15)%nat); [|lia].
  apply (malloc_no_fit fuel st bs fls size _ Hinv Hsz Hnofit).
  - intros Hroom. contradiction.
  - intros _. auto.
Qed.

Lemma demo_heap_no_fit b :
  (b, false) ∈ [(88, false); (40, true)] -> b < newAlign 2000.
Proof.
  intros Hb. change (newAlign 2000) with 2008.
  apply elem_of_cons in Hb. destruct Hb as [E|Hb]; [injection E as ->; lia|].
  apply elem_of_cons in Hb. destruct Hb as [E|Hb]; [discriminate|inversion Hb].
Qed.

(** C10: without the DEBUG macro, [mm_checkheap] returns true for every
    heap state and every call-site tag and leaves the state untouched; it
    reads no heap data and so never reports a violated invariant. *)
Theorem checkheap_always_true :
  forall lineno st, mm_checkheap lineno st = Some (true, st).
Proof. reflexivity. Qed.

(** C8: free of a pointer outside the heap bounds, the null pointer
    included, is a no-op: the memory, the 15 list heads and the last-block
    pointer (the whole state) are unchanged. *)
Theorem free_outside_heap_noop :
  forall st p,
    (p < heap_lo st \/ heap_brk st - 1 < p -> free p st = Some (tt, st)) /\
    (0 < heap_lo st -> free NULL st = Some (tt, st)).
Proof.
  intros st p. split.
  - apply free_outside.
  - intros H. apply free_outside. unfold NULL. lia.
Qed.

Lemma free_outside_heap_noop_witness :
  free 8 (fresh_state 4096 5120) = Some (tt, fresh_state 4096 5120) /\
  free NULL (fresh_state 4096 5120) = Some (tt, fresh_state 4096 5120).
Proof.
  destruct (free_outside_heap_noop (fresh_state 4096 5120) 8) as [H1 H2].
  split.
  - apply H1. left. cbn [heap_lo fresh_state]. lia.
  - apply H2. cbn [heap_lo fresh_state]. lia.
Defined.

(** C7, as stated, fails for the largest sizes: the normalization of
    2^64 - 1 wraps around to 8, which is neither the value of the formula,
    nor a valid payload size, nor at least the request. *)
Lemma newAlign_wraps :
  newAlign (2 ^ 64 - 1) = 8 /\
  newAlign (2 ^ 64 - 1) <> Z.max 24 (24 + 16 * ceil_div (2 ^ 64 - 1 - 24) 16) /\
  ~ valid_size (newAlign (2 ^ 64 - 1)) /\
  ~ (2 ^ 64 - 1 <= newAlign (2 ^ 64 - 1)).
Proof.
  assert (E : newAlign (2 ^ 64 - 1) = 8) by (vm_compute; reflexivity).
  rewrite E. split; [reflexivity|]. split; [vm_compute; discriminate|].
  split; [intros [H _]; lia|lia].
Qed.

(** C7, amended: for every requested size 0 < s <= 2^64 - 8, [newAlign]
    gives n = max(24, 24 + 16 * ceil((s - 24) / 16)), which is a valid payload
    size, is at least s, and is the smallest valid payload size that is. *)
Theorem newAlign_normalizes :
  forall s, 0 < s <= 2 ^ 64 - 8 ->
    newAlign s = Z.max 24 (24 + 16 * ceil_div (s - 24) 16) /\
    valid_size (newAlign s) /\ s <= newAlign s /\
    (forall m, valid_size m -> s <= m -> newAlign s <= m).
Proof.
  intros s Hs. destruct (newAlign_valid s ltac:(lia)) as (Hv & Hle & _).
  split; [|split; [exact Hv|split; [exact Hle|]]].
  - unfold ceil_div. destruct (Z.le_gt_cases s 24) as [H|H].
    + rewrite newAlign_small by exact H. zdm.
    + rewrite newAlign_large by lia. zdm.
  - intros m [Hm1 Hm2] Hsm. destruct (Z.le_gt_cases s 24) as [H|H].
    + rewrite newAlign_small by exact H. exact Hm1.
    + rewrite newAlign_large by lia. zdm.
Qed.

Lemma newAlign_normalizes_witness :
  newAlign 100 = Z.max 24 (24 + 16 * ceil_div (100 - 24) 16) /\
  valid_size (newAlign 100) /\ 100 <= newAlign 100 /\
  (forall m, valid_size m -> 100 <= m -> newAlign 100 <= m).
Proof. apply (newAlign_normalizes 100). lia. Defined.

(** C1 fails on the code.  When no free block fits a request s > 0 and the
    heap extender fails, [extendHeap] returns NULL, but malloc returns
    [getPayload NULL], the address 8, which is not the null sentinel; the
    state is left as it was, so the heap invariant still holds and earlier
    pointers can still be freed. *)
Theorem malloc_extender_failure :
  forall fuel st bs fls size,
    inv st bs fls -> 0 < size <= 2 ^ 64 - 24 ->
    (forall b, (b, false) ∈ bs -> b < newAlign size) ->
    no_room st size -> (length bs + 15 < fuel)%nat ->
    extendHeap (newAlign size) st = Some (NULL, st) /\
    malloc fuel size st = Some (8, st) /\ 8 <> NULL.
Proof.
  intros fuel st bs fls size Hinv Hsz Hnofit Hno Hfuel.
  split; [|split; [|discriminate]].
  - destruct (newAlign_valid size ltac:(lia)) as (Hv & _ & _).
    pose proof (newAlign_bound size ltac:(lia)) as Hb.
    apply (wpg_eq False); [|tauto].
    apply (extendHeap_ok False st bs fls (newAlign size)); try assumption.
    + intros _. auto.
    + intros Hroom. unfold no_room in Hno. lia.
  - apply (malloc_failure_eq fuel st bs fls size); assumption.
Qed.

Lemma malloc_extender_failure_witness :
  extendHeap (newAlign 2000) demo_heap = Some (NULL, demo_heap) /\
  malloc 32 2000 demo_heap = Some (8, demo_heap) /\ 8 <> NULL.
Proof.
  destruct demo_heap_inv as (fls & Hinv & L & B & Mx).
  apply (malloc_extender_failure 32 demo_heap [(88, false); (40, true)] fls 2000 Hinv).
  - lia.
  - apply demo_heap_no_fit.
  - unfold no_room. rewrite B, Mx. change (newAlign 2000) with 2008. lia.
  - simpl. lia.
Defined.

(** C2 fails on the code where the internal allocation fails: malloc
    returns 8 and not NULL, realloc's null test does not fire, and the copy
    is directed at address 8, outside the heap; realloc does not return
    NULL. *)
Theorem realloc_extender_failure :
  forall fuel st bs fls p s size,
    inv st bs fls -> allocated_at st bs p s -> 0 < size <= 2 ^ 64 - 24 ->
    (forall b, (b, false) ∈ bs -> b < newAlign size) ->
    no_room st size -> (length bs + 15 < fuel)%nat ->
    malloc fuel size st = Some (8, st) /\
    in_bounds st 8 (Z.min size s) = false /\
    realloc fuel p size st = None.
Proof.
  intros fuel st bs fls p s size Hinv Hal Hsz Hnofit Hno Hfuel.
  pose proof (malloc_failure_eq fuel st bs fls size Hinv Hsz Hnofit Hno Hfuel) as Em.
  pose proof (allocated_bounds _ _ _ _ _ Hinv Hal) as (Hb1 & Hb2 & [Hs24 Hs16] & _).
  pose proof (inv_lo _ _ _ Hinv) as [Hlo Hlo16]. pose proof (inv_max _ _ _ Hinv) as [Hm1 Hm2].
  assert (Hlo8 : 8 < heap_lo st) by zdm. assert (Hs8 : s mod 8 = 0) by zdm.
  split; [exact Em|]. split; [apply in_bounds_low; exact Hlo8|].
  apply (wpg_none True). unfold realloc.
  destruct (Z.eqb_spec p NULL) as [E|_]; [unfold NULL in E; lia|].
  destruct (Z.eqb_spec size 0) as [?|_]; [lia|].
  apply wpg_bind. apply (wpg_intro True _ _ _ 8 st Em).
  change (8 =? NULL) with false. cbv iota.
  destruct (allocated_header _ _ _ _ _ Hinv Hal) as (pa & Hh).
  unfold ptr_sub, get8ByteAlignment, HEADER_SIZE. change (8 / 8) with 1.
  replace (p - 8 * 1) with (p - 8) by lia.
  apply wpg_bind. apply wpg_getBlockSize; [lia|lia|].
  rewrite Hh, hdr_size by lia.
  apply wpg_bind. unfold wpg at 1.
  assert (Hf : forall n, 0 < n -> mm_memcpy 8 p n st = None).
  { intros n Hn. unfold mm_memcpy. destruct (Z.eqb_spec n 0) as [?|_]; [lia|].
    rewrite (in_bounds_low st 8) by lia. reflexivity. }
  destruct (size >? s); rewrite Hf by lia; exact I.
Qed.

Lemma realloc_extender_failure_witness :
  malloc 32 2000 demo_heap = Some (8, demo_heap) /\
  in_bounds demo_heap 8 (Z.min 2000 40) = false /\
  realloc 32 4208 2000 demo_heap = None.
Proof.
  destruct demo_heap_inv as (fls & Hinv & L & B & Mx).
  apply (realloc_extender_failure 32 demo_heap [(88, false); (40, true)] fls 4208 40 2000 Hinv).
  - unfold allocated_at. rewrite L. cbn [blocks_at]. elem.
  - lia.
  - apply demo_heap_no_fit.
  - unfold no_room. rewrite B, Mx. change (newAlign 2000) with 2008. lia.
  - simpl. lia.
Defined.

(** C9: a calloc that succeeds returns a buffer whose first
    [wrap64 (size * nmemb)] bytes are zero, inside an allocated block that
    malloc provided for that many bytes; the product is the machine product,
    so it is the first nmemb * size bytes exactly when the product does not
    overflow.  calloc returns NULL only for a zero product, and it returns
    nothing only when the heap extender fails. *)
Theorem calloc_zeroes :
  forall fuel st bs fls nmemb size,
    inv st bs fls -> wrap64 (size * nmemb) <= 2 ^ 64 - 24 ->
    (length bs + 15 < fuel)%nat ->
    (0 <= size * nmemb < 2 ^ 64 -> wrap64 (size * nmemb) = size * nmemb) /\
    wpg (0 < wrap64 (size * nmemb) /\ no_room st (wrap64 (size * nmemb)))
      (calloc fuel nmemb size) st
      (fun p st' =>
         (p = NULL /\ wrap64 (size * nmemb) = 0 /\ st' = st) \/
         (p <> NULL /\
          (exists bs' fls' s, inv st' bs' fls' /\ allocated_at st' bs' p s /\
             wrap64 (size * nmemb) <= s) /\
          forall x, p <= x < p + wrap64 (size * nmemb) -> mem st' x = 0)).
Proof.
  intros fuel st bs fls nmemb size Hinv Hsz Hfuel. split.
  { intros H. apply wrap64_small. lia. }
  eapply wpg_weaken; [|apply (calloc_spec fuel st bs fls nmemb size); [exact Hinv|exact Hsz| |]].
  - intros [Hf|Hno]; [lia|exact Hno].
  - intros E. left. auto.
  - intros st' bs' fls' p s Hpos Hinv' _ _ Hp Hps Hz. right.
    pose proof (allocated_bounds _ _ _ _ _ Hinv' Hp) as (Hb1 & _).
    pose proof (inv_lo _ _ _ Hinv') as [Hlo _].
    split; [unfold NULL; lia|]. split; [|exact Hz].
    exists bs', fls', s. auto.
Qed.

Lemma calloc_zeroes_witness :
  (0 <= 8 * 5 < 2 ^ 64 -> wrap64 (8 * 5) = 8 * 5) /\
  wpg (0 < wrap64 (8 * 5) /\ no_room demo_heap (wrap64 (8 * 5)))
    (calloc 32 5 8) demo_heap
    (fun p st' =>
       (p = NULL /\ wrap64 (8 * 5) = 0 /\ st' = demo_heap) \/
       (p <> NULL /\
        (exists bs' fls' s, inv st' bs' fls' /\ allocated_at st' bs' p s /\
           wrap64 (8 * 5) <= s) /\
        forall x, p <= x < p + wrap64 (8 * 5) -> mem st' x = 0)).
Proof.
  destruct demo_heap_inv as (fls & Hinv & L & B & Mx).
  apply (calloc_zeroes 32 demo_heap [(88, false); (40, true)] fls 5 8 Hinv).
  - change (wrap64 (8 * 5)) with 40. lia.
  - simpl. lia.
Defined.

Lemma split_blocks_split n b :
  32 <= b - n -> split_blocks n b = [(n, true); (b - n - 8, false)].
Proof. intros H. unfold split_blocks. destruct (Z.leb_spec 32 (b - n)); [reflexivity|lia]. Qed.

Lemma split_blocks_whole n b : b - n < 32 -> split_blocks n b = [(b, true)].
Proof. intros H. unfold split_blocks. destruct (Z.leb_spec 32 (b - n)); [lia|reflexivity]. Qed.

(** C5: on a freshly initialized heap, after a = malloc(40), b = malloc(40),
    c = malloc(40), free(a), free(b), the heap consists of one free block
    of payload size 88 = 40 + 40 + 8, whose header and footer carry that
    size, followed by the allocated block of c, whose header has the
    previous-allocated bit 0. *)
Theorem forward_coalescing :
  forall fuel st0,
    heap_brk st0 = heap_lo st0 -> 0 < heap_lo st0 -> heap_lo st0 mod 16 = 0 ->
    heap_lo st0 + 152 <= heap_max st0 < 2 ^ 64 ->
    length (segFreeList st0) = 15%nat -> (18 <= fuel)%nat ->
    wp (coalesce_scenario fuel) st0
      (fun abc st' =>
         let lo := heap_lo st0 in
         abc = (lo + 16, lo + 64, lo + 112) /\
         (exists fls', inv st' [(88, false); (40, true)] fls' /\
                       lo + 16 ∈ fls' (getFreeListIndex 88)) /\
         load64 (mem st') (lo + 16 - 8) = hdr 88 false true /\
         Z.land (load64 (mem st') (lo + 16 - 8 + 88)) 0xFFFFFFFFFFFFFFF8 = 88 /\
         load64 (mem st') (lo + 112 - 8) = hdr 40 true false /\
         Z.land (load64 (mem st') (lo + 112 - 8)) 0x2 = 0).
Proof.
  intros fuel st0 Hbrk Hlo Hal Hmx Hlen Hfuel.
  apply coalesce_scenario_ok; try assumption.
  intros st' fls' Hinv L M. cbv zeta. split; [reflexivity|].
  pose proof (inv_layout _ _ _ Hinv) as HL. rewrite L in HL. cbn [layout] in HL.
  destruct HL as (Hh & Hf & Hc & _).
  replace (heap_lo st0 + 16 - 8) with (heap_lo st0 + 8) by lia.
  replace (heap_lo st0 + 112 - 8) with (heap_lo st0 + 8 + 8 + 88) by lia.
  split; [|split; [exact Hh|split; [apply Hf; reflexivity|split; [exact Hc|]]]].
  - exists fls'. split; [exact Hinv|]. apply (inv_members _ _ _ Hinv).
    exists 88. split; [|reflexivity]. rewrite L. cbn [blocks_at].
    replace (heap_lo st0 + 16 - 8) with (heap_lo st0 + 8) by lia. elem.
  - rewrite Hc. reflexivity.
Qed.

Lemma forward_coalescing_witness :
  exists st',
    coalesce_scenario 32 (fresh_state 4096 5120) = Some ((4112, 4160, 4208), st') /\
    load64 (mem st') 4104 = hdr 88 false true /\
    Z.land (load64 (mem st') 4200) 0x2 = 0.
Proof.
  destruct (wp_exec _ _ _ (forward_coalescing 32 (fresh_state 4096 5120)
              eq_refl ltac:(cbn [heap_lo fresh_state]; lia) eq_refl
              ltac:(cbn [heap_lo heap_max fresh_state]; lia) eq_refl ltac:(lia)))
    as (abc & E & H).
  cbn [heap_lo fresh_state] in H. destruct H as (H1 & _ & H2 & _ & _ & H3).
  exists (exec (coalesce_scenario 32) (fresh_state 4096 5120)).
  rewrite E, H1. split; [exact eq_refl|]. split; [exact H2|exact H3].
Defined.

(** The model runs: the scenario on a concrete heap, and the two failing
    calls. *)
Example scenario_runs :
  option_map fst (coalesce_scenario 32 (fresh_state 4096 5120)) =
  Some (4112, 4160, 4208).
Proof. vm_compute. reflexivity. Qed.

Example malloc_failure_runs :
  option_map fst ((coalesce_scenario 32 ;;; malloc 32 2000) (fresh_state 4096 5120)) =
  Some 8.
Proof. vm_compute. reflexivity. Qed.

Example realloc_failure_runs :
  option_map fst ((coalesce_scenario 32 ;;; realloc 32 4208 2000) (fresh_state 4096 5120)) =
  None.
Proof. vm_compute. reflexivity. Qed.

Example malloc_reuses_merged_block :
  option_map fst ((coalesce_scenario 32 ;;; malloc 32 24) (fresh_state 4096 5120)) =
  Some 4112.
Proof. vm_compute. reflexivity. Qed.

(** * Further properties of the code *)

(** ** Boundary tags *)

Lemma read_tag_eq st a :
  heap_lo st <= a -> a + 8 <= heap_brk st ->
  read_tag a st =
  Some ((Z.land (load64 (mem st) a) 0xFFFFFFFFFFFFFFF8,
         Z.land (load64 (mem st) a) 0x1 =? 0,
         Z.land (load64 (mem st) a) 0x2 =? 0), st).
Proof.
  intros H1 H2. unfold read_tag, getBlockSize, isFree, isPrevFree, bind, load, ret.
  repeat (rewrite in_bounds_true by assumption; cbv beta iota). reflexivity.
Qed.

Lemma wp_fst {A} (c : M A) st v :
  wp c st (fun x _ => x = v) -> option_map fst (c st) = Some v.
Proof.
  unfold wpg. destruct (c st) as [[x st']|]; [|tauto]. intros ->. reflexivity.
Qed.

Lemma wp_read_tag st a m' v (Q : Z * bool * bool -> state -> Prop) :
  heap_lo st <= a -> a + 8 <= heap_brk st -> 0 <= v < 2 ^ 64 ->
  load64 m' a = v ->
  Q (8 * (v / 8), v mod 2 =? 0, 2 * ((v / 2) mod 2) =? 0) (set_mem st m') ->
  wp (read_tag a) (set_mem st m') Q.
Proof.
  intros H1 H2 Hv Hl HQ. unfold wpg. rewrite read_tag_eq by assumption.
  cbn [mem set_mem]. rewrite Hl, land_mask_size, land_1, land_2 by exact Hv. exact HQ.
Qed.

(** X1: each setter of a tag word changes its own field and nothing else.
    For a tag inside the heap that reads as size [s], free flag [f] and
    previous-free flag [p]: [setAlloc] and [setFree] set the free flag to
    false and true, [setPrevAlloc] and [setPrevFree] set the previous-free
    flag to false and true, and [setBlockSize] with a multiple of 8 below
    2^64 sets the size; the other two fields read back as before. *)
Theorem tag_setters_independent :
  forall st a s f p s',
    option_map fst (read_tag a st) = Some (s, f, p) ->
    0 <= s' < 2 ^ 64 -> s' mod 8 = 0 ->
    option_map fst ((setAlloc a ;;; read_tag a) st) = Some (s, false, p) /\
    option_map fst ((setFree a ;;; read_tag a) st) = Some (s, true, p) /\
    option_map fst ((setPrevAlloc a ;;; read_tag a) st) = Some (s, f, false) /\
    option_map fst ((setPrevFree a ;;; read_tag a) st) = Some (s, f, true) /\
    option_map fst ((setBlockSize a s' ;;; read_tag a) st) = Some (s', f, p).
Proof.
  intros st a s f p s' Hrd Hs' Hs8.
  assert (Hb : heap_lo st <= a /\ a + 8 <= heap_brk st).
  { unfold read_tag, getBlockSize, bind, load, in_bounds in Hrd.
    destruct (Z.leb_spec (heap_lo st) a); [|discriminate].
    destruct (Z.leb_spec (a + 8) (heap_brk st)); [|discriminate]. lia. }
  destruct Hb as [Hb1 Hb2]. rewrite read_tag_eq in Hrd by assumption.
  cbn [option_map fst] in Hrd. injection Hrd as Es Ef Ep.
  pose proof (load64_range (mem st) a) as Hw.
  set (w := load64 (mem st) a) in *.
  rewrite land_mask_size in Es by exact Hw. rewrite land_1 in Ef. rewrite land_2 in Ep.
  subst s f p.
  repeat split; apply wp_fst; apply wpg_bind.
  - apply wpg_setAlloc; [assumption|assumption|]. fold w.
    apply (wp_read_tag st a _ (Z.lor w 1)); try assumption;
      [rewrite lor_1; zdm|apply load64_store64_eq; rewrite lor_1; zdm|].
    rewrite lor_1. f_equal; [f_equal|]; [zdm|apply Z.eqb_neq; zdm|f_equal; zdm].
  - apply wpg_setFree; [assumption|assumption|]. fold w.
    apply (wp_read_tag st a _ (Z.land w 0xFFFFFFFFFFFFFFFE)); try assumption;
      [rewrite land_mask_free by exact Hw; zdm
      |apply load64_store64_eq; rewrite land_mask_free by exact Hw; zdm|].
    rewrite land_mask_free by exact Hw.
    f_equal; [f_equal|]; [zdm|apply Z.eqb_eq; zdm|f_equal; zdm].
  - apply wpg_setPrevAlloc; [assumption|assumption|]. fold w.
    apply (wp_read_tag st a _ (Z.lor w 2)); try assumption;
      [rewrite lor_2; zdm|apply load64_store64_eq; rewrite lor_2; zdm|].
    rewrite lor_2. f_equal; [f_equal|]; [zdm|f_equal; zdm|apply Z.eqb_neq; zdm].
  - apply wpg_setPrevFree; [assumption|assumption|]. fold w.
    apply (wp_read_tag st a _ (Z.land w 0xFFFFFFFFFFFFFFFD)); try assumption;
      [rewrite land_mask_prev by exact Hw; zdm
      |apply load64_store64_eq; rewrite land_mask_prev by exact Hw; zdm|].
    rewrite land_mask_prev by exact Hw.
    f_equal; [f_equal|]; [zdm|f_equal; zdm|apply Z.eqb_eq; zdm].
  - apply wpg_setBlockSize; [assumption|assumption|]. fold w.
    apply (wp_read_tag st a _ (Z.lor (Z.land w 7) s')); try assumption;
      [rewrite lor_low_size by exact Hs8; zdm
      |apply load64_store64_eq; rewrite lor_low_size by exact Hs8; zdm|].
    rewrite lor_low_size by exact Hs8.
    f_equal; [f_equal|]; [zdm|f_equal; zdm|f_equal; zdm].
Qed.

Lemma tag_setters_independent_witness :
  option_map fst ((setAlloc 4104 ;;; read_tag 4104) demo_heap) = Some (88, false, false) /\
  option_map fst ((setFree 4104 ;;; read_tag 4104) demo_heap) = Some (88, true, false) /\
  option_map fst ((setPrevAlloc 4104 ;;; read_tag 4104) demo_heap) = Some (88, true, false) /\
  option_map fst ((setPrevFree 4104 ;;; read_tag 4104) demo_heap) = Some (88, true, true) /\
  option_map fst ((setBlockSize 4104 40 ;;; read_tag 4104) demo_heap) = Some (40, true, false).
Proof.
  apply (tag_setters_independent demo_heap 4104 88 true false 40).
  - vm_compute. reflexivity.
  - lia.
  - reflexivity.
Defined.

(** ** Moving between the tags of neighbouring blocks *)

(** X2: for a header at address [h] of a block of payload size [s] (a
    multiple of 8) that lies, header and payload, below 2^64 (0 <= h and
    h + 8 + s < 2^64, so that none of the pointers computed here wraps
    around), the pointer functions agree with each other: the next header
    is [s] bytes past the payload, the footer is the word before the next
    header and is what [getPrevFooter] finds from there, and
    [getPrevHeader] from the next header leads back to [h]; all of these
    addresses lie between [h] and 2^64. *)
Theorem tag_navigation_roundtrip :
  forall h s, 0 <= h -> 0 <= s -> h + 8 + s < 2 ^ 64 -> s mod 8 = 0 ->
    getNextHeader h s = getPayload h + s /\
    getFooter h s + 8 = getNextHeader h s /\
    getPrevFooter (getNextHeader h s) = getFooter h s /\
    getPrevHeader (getNextHeader h s) s = h /\
    h < getPayload h /\ getPayload h <= getNextHeader h s /\
    getNextHeader h s < 2 ^ 64 /\ h <= getFooter h s /\ getFooter h s < 2 ^ 64.
Proof.
  intros h s Hh Hs0 Hhs Hs8.
  assert (Hs : 0 <= s < 2 ^ 64 - 8) by lia.
  rewrite (getPrevHeader_eq (getNextHeader h s) s) by assumption.
  rewrite getNextHeader_eq, getFooter_eq, getPrevFooter_eq, getPayload_eq by assumption.
  repeat split; lia.
Qed.

Lemma tag_navigation_roundtrip_witness :
  getNextHeader 4104 88 = getPayload 4104 + 88 /\
  getFooter 4104 88 + 8 = getNextHeader 4104 88 /\
  getPrevFooter (getNextHeader 4104 88) = getFooter 4104 88 /\
  getPrevHeader (getNextHeader 4104 88) 88 = 4104.
Proof.
  destruct (tag_navigation_roundtrip 4104 88) as (H1 & H2 & H3 & H4 & _);
    [lia|lia|lia|reflexivity|].
  split; [exact H1|]. split; [exact H2|]. split; [exact H3|exact H4].
Defined.

(** ** Rounding *)

(** X3: [align] rounds up to the next multiple of 16 as long as the result
    fits in 64 bits, it leaves multiples of 16 alone, and [aligned] is the
    test for a multiple of 16; above 2^64 - 16 the sum wraps around and
    [align] gives 0. *)
Theorem align_rounds_up :
  forall x,
    (0 <= x <= 2 ^ 64 - 16 ->
       align x mod 16 = 0 /\ x <= align x < x + 16 /\
       align (align x) = align x /\
       (aligned x = true <-> x mod 16 = 0)) /\
    (2 ^ 64 - 16 < x < 2 ^ 64 -> align x = 0).
Proof.
  intros x.
  assert (Hsmall : forall y, 0 <= y <= 2 ^ 64 - 16 -> align y = 16 * ((y + 15) / 16)).
  { intros y Hy. unfold align, ALIGNMENT.
    assert (E : wrap64 (wrap64 (y + 16) - 1) = y + 15).
    { destruct (Z.eq_dec y (2 ^ 64 - 16)) as [->|Hne]; [reflexivity|].
      rewrite (wrap64_small (y + 16)) by lia. rewrite wrap64_small by lia. lia. }
    rewrite E. apply wrap64_small.
    assert (0 <= (y + 15) / 16 < 2 ^ 60).
    { split; [apply Z.div_pos; lia|apply Z.div_lt_upper_bound; lia]. }
    lia. }
  split.
  - intros Hx. rewrite (Hsmall x Hx).
    assert (Hq : 0 <= (x + 15) / 16 < 2 ^ 60).
    { split; [apply Z.div_pos; lia|apply Z.div_lt_upper_bound; lia]. }
    assert (Hr : 0 <= 16 * ((x + 15) / 16) <= 2 ^ 64 - 16) by lia.
    split; [zdm|]. split; [zdm|]. split.
    + rewrite (Hsmall _ Hr). zdm.
    + unfold aligned. rewrite (Hsmall x Hx). split.
      * intros H. apply Z.eqb_eq in H. zdm.
      * intros H. apply Z.eqb_eq. zdm.
  - intros Hx. unfold align, ALIGNMENT.
    assert (E : wrap64 (x + 16) = x + 16 - 2 ^ 64) by (unfold wrap64; zdm).
    rewrite E. rewrite (wrap64_small (x + 16 - 2 ^ 64 - 1)) by lia.
    replace ((x + 16 - 2 ^ 64 - 1) / 16) with 0 by zdm. reflexivity.
Qed.

Lemma align_rounds_up_witness :
  (align 100 mod 16 = 0 /\ 100 <= align 100 < 100 + 16 /\
   align (align 100) = align 100 /\ (aligned 100 = true <-> 100 mod 16 = 0)) /\
  align (2 ^ 64 - 1) = 0.
Proof.
  destruct (align_rounds_up 100) as [H1 _].
  destruct (align_rounds_up (2 ^ 64 - 1)) as [_ H2].
  split; [apply H1; lia|apply H2; lia].
Defined.

(** ** Size classes *)

Lemma getFreeListIndex_cases s :
  valid_size s -> s < 2 ^ 64 ->
  exists k, s = 16 * k + 8 /\ 1 <= k /\
    getFreeListIndex s =
    (if k <=? 4 then k - 1
     else if k <=? 6 then 4 else if k <=? 8 then 5 else if k <=? 16 then 6
     else if k <=? 32 then 7 else if k <=? 64 then 8 else if k <=? 128 then 9
     else if k <=? 256 then 10 else if k <=? 512 then 11
     else if k <=? 1024 then 12 else if k <=? 2048 then 13 else 14).
Proof.
  intros [Hs Hm] Hlt. exists ((s - 8) / 16). split; [zdm|]. split; [zdm|].
  unfold getFreeListIndex. rewrite (wrap64_small (s - 8)) by lia.
  set (k := (s - 8) / 16). assert (Hk : 1 <= k) by (unfold k; zdm). clearbody k.
  destruct (Z.leb_spec k 4) as [H4|H4]; [|reflexivity].
  assert (Hc : k = 1 \/ k = 2 \/ k = 3 \/ k = 4) by lia.
  destruct Hc as [->|[->|[->| ->]]]; reflexivity.
Qed.

(** X4: on valid payload sizes (24 + 16j, below 2^64) [getFreeListIndex]
    gives an index of the array of 15 lists, it is monotone in the size, and
    the classes 0 to 3 hold one size each (24, 40, 56 and 72), which is what
    lets malloc look only at the first node of these lists. *)
Theorem size_classes_monotone :
  forall s t, valid_size s -> valid_size t -> t < 2 ^ 64 -> s <= t ->
    0 <= getFreeListIndex s <= getFreeListIndex t /\ getFreeListIndex t <= 14 /\
    (getFreeListIndex s <= 3 -> s = 24 + 16 * getFreeListIndex s) /\
    (getFreeListIndex s = getFreeListIndex t -> getFreeListIndex t <= 3 -> s = t).
Proof.
  intros s t Hvs Hvt Ht Hst.
  destruct (getFreeListIndex_cases s Hvs ltac:(lia)) as (k & Es & Hk & Is).
  destruct (getFreeListIndex_cases t Hvt Ht) as (j & Et & Hj & It).
  rewrite Is, It. subst s t. assert (Hkj : k <= j) by lia. clear Is It Hvs Hvt Hst Ht.
  repeat match goal with
         | |- context [?a <=? ?b] => destruct (Z.leb_spec a b)
         end; repeat split; intros; lia.
Qed.

Lemma size_classes_monotone_witness :
  0 <= getFreeListIndex 40 <= getFreeListIndex 88 /\ getFreeListIndex 88 <= 14 /\
  (getFreeListIndex 40 <= 3 -> 40 = 24 + 16 * getFreeListIndex 40) /\
  (getFreeListIndex 40 = getFreeListIndex 88 -> getFreeListIndex 88 <= 3 -> 40 = 88).
Proof.
  apply (size_classes_monotone 40 88); [split; [lia|reflexivity]|split; [lia|reflexivity]|lia|lia].
Defined.

(** ** Initialization *)

(** X5: on an empty host heap (break at the low address, which is positive
    and 16-byte aligned) with room for 8 bytes, [mm_init] returns true; the
    heap then holds just the prologue word, marked allocated, there are no
    blocks, all 15 list heads are NULL and [lastHeader] is the low
    address. *)
Theorem mm_init_fresh :
  forall st,
    heap_brk st = heap_lo st -> 0 < heap_lo st -> heap_lo st mod 16 = 0 ->
    heap_lo st + 8 <= heap_max st < 2 ^ 64 ->
    length (segFreeList st) = 15%nat ->
    wp mm_init st
      (fun r st' =>
         r = true /\ inv st' [] (fun _ => []) /\
         heap_lo st' = heap_lo st /\ heap_brk st' = heap_lo st + 8 /\
         heap_max st' = heap_max st /\ lastHeader st' = heap_lo st /\
         Z.land (load64 (mem st') (heap_lo st)) 0x1 = 1 /\
         forall i, 0 <= i < 15 -> segFreeList st' !! Z.to_nat i = Some NULL).
Proof.
  intros st Hbrk Hlo Hal Hmx Hlen. apply mm_init_ok; try assumption.
  intros st' Hinv L Mx. split; [reflexivity|]. split; [exact Hinv|].
  split; [exact L|]. split; [rewrite (inv_brk _ _ _ Hinv), L; simpl; lia|].
  split; [exact Mx|]. split; [rewrite (inv_last _ _ _ Hinv), L; reflexivity|].
  split; [rewrite <- L; apply (inv_prologue _ _ _ Hinv)|].
  intros i Hi. apply (seg_head st' (fun _ => []) i (inv_lists _ _ _ Hinv) Hi).
Qed.

Lemma mm_init_fresh_witness :
  exists st',
    mm_init (fresh_state 4096 5120) = Some (true, st') /\
    inv st' [] (fun _ => []) /\ heap_brk st' = 4104 /\ lastHeader st' = 4096.
Proof.
  destruct (wp_exec _ _ _ (mm_init_fresh (fresh_state 4096 5120)
              eq_refl ltac:(cbn [heap_lo fresh_state]; lia) eq_refl
              ltac:(cbn [heap_lo heap_max fresh_state]; lia) eq_refl))
    as (r & E & H).
  destruct H as (-> & Hinv & _ & B & _ & L & _).
  exists (exec mm_init (fresh_state 4096 5120)).
  split; [exact E|]. split; [exact Hinv|]. split; [exact B|exact L].
Defined.

(** X6: [mm_init] returns false when the host cannot provide the 8 bytes
    of the prologue, leaving the state as it was, and also when the heap is
    not empty (the break is not at the low address); in that case the 8
    bytes it requested stay added to the heap. *)
Theorem mm_init_failure :
  forall st,
    heap_lo st <> SBRK_FAIL ->
    (heap_max st < heap_brk st + 8 -> mm_init st = Some (false, st)) /\
    (heap_brk st + 8 <= heap_max st -> heap_brk st <> heap_lo st ->
     mm_init st = Some (false, set_brk st (heap_brk st + 8))).
Proof.
  intros st Hlo. unfold mm_init, bind, mm_sbrk, mm_heap_lo, HEADER_SIZE. split.
  - intros H. destruct (Z.leb_spec (heap_brk st + 8) (heap_max st)); [lia|].
    destruct (Z.eqb_spec SBRK_FAIL (heap_lo st)) as [E|_]; [congruence|]. reflexivity.
  - intros H Hne. destruct (Z.leb_spec (heap_brk st + 8) (heap_max st)); [|lia].
    destruct st as [m lo brk mx seg last]. cbn [heap_lo heap_brk set_brk] in *.
    destruct (Z.eqb_spec brk lo) as [E|_]; [congruence|]. reflexivity.
Qed.

Lemma mm_init_failure_witness :
  mm_init (fresh_state 4096 4100) = Some (false, fresh_state 4096 4100) /\
  mm_init (mkState (fun _ => 0) 4096 4104 5120 (replicate 15 0) 4096) =
  Some (false, mkState (fun _ => 0) 4096 4112 5120 (replicate 15 0) 4096).
Proof.
  destruct (mm_init_failure (fresh_state 4096 4100)) as [H1 _].
  { cbn [heap_lo fresh_state]. unfold SBRK_FAIL. discriminate. }
  destruct (mm_init_failure (mkState (fun _ => 0) 4096 4104 5120 (replicate 15 0) 4096))
    as [_ H2].
  { cbn [heap_lo]. unfold SBRK_FAIL. discriminate. }
  split.
  - apply H1. cbn [heap_brk heap_max fresh_state]. lia.
  - apply H2; cbn [heap_brk heap_max heap_lo]; lia.
Defined.

(** ** The free lists *)

Lemma lists_ok_ext st F G :
  (forall j, F j = G j) -> lists_ok st F -> lists_ok st G.
Proof.
  intros E H i Hi. destruct (H i Hi) as (h & Hh & Hd). exists h.
  rewrite <- E. auto.
Qed.

Lemma demo_heap_members fls j q :
  inv demo_heap [(88, false); (40, true)] fls -> heap_lo demo_heap = 4096 ->
  q ∈ fls j -> q = 4112.
Proof.
  intros Hinv L Hq. apply (inv_members _ _ _ Hinv) in Hq. destruct Hq as (s & Hb & _).
  rewrite L in Hb. cbn [blocks_at] in Hb.
  apply elem_of_cons in Hb. destruct Hb as [E|Hb]; [injection E as E _; lia|].
  apply elem_of_cons in Hb. destruct Hb as [E|Hb]; [discriminate|inversion Hb].
Qed.

Lemma demo_heap_new_node fls :
  inv demo_heap [(88, false); (40, true)] fls -> heap_lo demo_heap = 4096 ->
  heap_brk demo_heap = 4248 ->
  cells_ok demo_heap (upd_list fls 1 (4208 :: fls 1)).
Proof.
  intros Hinv L B. apply cells_ok_add.
  - apply (inv_cells_ok _ _ _ Hinv).
  - lia.
  - discriminate.
  - rewrite L. lia.
  - rewrite B. lia.
  - intros j q Hq. rewrite (demo_heap_members fls j q Hinv L Hq). lia.
Qed.

(** X7: [addFreeBlock] pushes the node [p] on the front of list [i]: when
    the lists are well-formed doubly linked lists and [p] is a new node of
    the heap apart from all others, the lists are well formed afterwards
    with [p] first in list [i] and the other lists as before, the head of
    list [i] is [p], and memory changes only inside link cells. *)
Theorem addFreeBlock_pushes_front :
  forall st fls i p,
    lists_ok st fls -> cells_ok st (upd_list fls i (p :: fls i)) ->
    0 <= heap_lo st -> heap_brk st <= 2 ^ 64 ->
    wp (addFreeBlock p i) st
      (fun _ st' =>
         lists_ok st' (upd_list fls i (p :: fls i)) /\
         segFreeList st' !! Z.to_nat i = Some p /\
         heap_lo st' = heap_lo st /\ heap_brk st' = heap_brk st /\
         lastHeader st' = lastHeader st /\
         forall x, x < p \/ p + 16 <= x ->
                   (forall j q, q ∈ fls j -> x < q \/ q + 16 <= x) ->
                   mem st' x = mem st x).
Proof.
  intros st fls i p HL HC Hlo Hbrk.
  assert (Hi : 0 <= i < 15).
  { apply (cells_in _ _ HC i p). rewrite upd_list_same. elem. }
  apply (add_lists False st fls i p); try assumption.
  intros m' seg' Hlen HL' Hfr. split; [exact HL'|]. split.
  - rewrite (seg_head _ _ i HL' Hi), upd_list_same. reflexivity.
  - destruct st as [m lo brk mx seg last]. repeat split. exact Hfr.
Qed.

Lemma addFreeBlock_pushes_front_witness :
  exists fls st',
    addFreeBlock 4208 1 demo_heap = Some (tt, st') /\
    lists_ok st' (upd_list fls 1 (4208 :: fls 1)) /\
    segFreeList st' !! Z.to_nat 1 = Some 4208.
Proof.
  destruct demo_heap_inv as (fls & Hinv & L & B & Mx). exists fls.
  destruct (wp_exec _ _ _ (addFreeBlock_pushes_front demo_heap fls 1 4208
              (inv_lists _ _ _ Hinv) (demo_heap_new_node fls Hinv L B)
              ltac:(rewrite L; lia) ltac:(rewrite B; lia)))
    as ([] & E & H1 & H2 & _).
  exists (exec (addFreeBlock 4208 1) demo_heap).
  split; [exact E|]. split; [exact H1|exact H2].
Defined.

(** X8: [removeFreeBlock] unlinks exactly the node [p] from list [i]: when
    the lists are well formed and [p] is a node of list [i], the lists are
    well formed afterwards, list [i] has lost [p] and kept its other nodes
    in order, the other lists are as before, and memory changes only inside
    the link cells of other nodes. *)
Theorem removeFreeBlock_unlinks :
  forall st fls i p,
    lists_ok st fls -> cells_ok st fls -> p ∈ fls i ->
    wp (removeFreeBlock p i) st
      (fun _ st' =>
         lists_ok st' (upd_list fls i (remove_addr p (fls i))) /\
         (p ∉ remove_addr p (fls i)) /\
         (forall q, q ∈ remove_addr p (fls i) <-> q ∈ fls i /\ q <> p) /\
         (exists l1 l2, fls i = l1 ++ p :: l2 /\ remove_addr p (fls i) = l1 ++ l2) /\
         heap_lo st' = heap_lo st /\ heap_brk st' = heap_brk st /\
         lastHeader st' = lastHeader st /\
         forall x, (forall j q, q ∈ fls j -> q <> p -> x < q \/ q + 16 <= x) ->
                   mem st' x = mem st x).
Proof.
  intros st fls i p HL HC Hp.
  pose proof (cells_nodup _ _ HC i) as Hnd.
  apply (remove_lists False st fls i p _ HL HC Hp).
  intros m' seg' Hlen HL' Hfr. split; [exact HL'|].
  split; [rewrite elem_of_remove_addr by exact Hnd; tauto|].
  split; [intros q; apply elem_of_remove_addr; exact Hnd|]. split.
  - destruct (list_elem_of_split _ _ Hp) as (l1 & l2 & E). exists l1, l2.
    split; [exact E|]. rewrite E in Hnd |- *. apply remove_addr_mid.
    apply NoDup_app in Hnd. destruct Hnd as (_ & Hd & _). intros Hin.
    apply (Hd p Hin). elem.
  - destruct st as [m lo brk mx seg last]. repeat split. exact Hfr.
Qed.

Lemma removeFreeBlock_unlinks_witness :
  exists fls st',
    removeFreeBlock 4112 (getFreeListIndex 88) demo_heap = Some (tt, st') /\
    lists_ok st'
      (upd_list fls (getFreeListIndex 88) (remove_addr 4112 (fls (getFreeListIndex 88)))) /\
    4112 ∉ remove_addr 4112 (fls (getFreeListIndex 88)).
Proof.
  destruct demo_heap_inv as (fls & Hinv & L & B & Mx). exists fls.
  assert (Hp : 4112 ∈ fls (getFreeListIndex 88)).
  { apply (inv_members _ _ _ Hinv). exists 88. split; [|reflexivity].
    rewrite L. cbn [blocks_at]. elem. }
  destruct (wp_exec _ _ _ (removeFreeBlock_unlinks demo_heap fls (getFreeListIndex 88) 4112
              (inv_lists _ _ _ Hinv) (inv_cells_ok _ _ _ Hinv) Hp))
    as ([] & E & H1 & H2 & _).
  exists (exec (removeFreeBlock 4112 (getFreeListIndex 88)) demo_heap).
  split; [exact E|]. split; [exact H1|exact H2].
Defined.

(** X9: [removeFreeBlock] undoes [addFreeBlock]: pushing a new node [p] on
    list [i] and removing it again leaves all lists well formed with their
    old nodes in their old order and every list head as before; memory
    differs at most inside link cells. *)
Theorem add_then_remove_restores :
  forall st fls i p,
    lists_ok st fls -> cells_ok st (upd_list fls i (p :: fls i)) ->
    0 <= heap_lo st -> heap_brk st <= 2 ^ 64 ->
    wp (addFreeBlock p i ;;; removeFreeBlock p i) st
      (fun _ st' =>
         lists_ok st' fls /\
         (forall j, 0 <= j < 15 ->
            segFreeList st' !! Z.to_nat j = segFreeList st !! Z.to_nat j) /\
         forall x, x < p \/ p + 16 <= x ->
                   (forall j q, q ∈ fls j -> x < q \/ q + 16 <= x) ->
                   mem st' x = mem st x).
Proof.
  intros st fls i p HL HC Hlo Hbrk.
  apply wpg_bind. apply (add_lists False st fls i p); try assumption.
  intros m1 seg1 Hlen1 HL1 Hfr1.
  set (F1 := upd_list fls i (p :: fls i)) in *.
  assert (Hp : p ∈ F1 i) by (unfold F1; rewrite upd_list_same; elem).
  assert (HC1 : cells_ok (set_seg (set_mem st m1) seg1) F1).
  { apply (cells_ok_state st); [destruct st; reflexivity|destruct st; reflexivity|exact HC]. }
  apply (remove_lists False _ F1 i p _ HL1 HC1 Hp).
  intros m2 seg2 Hlen2 HL2 Hfr2.
  assert (HL' : lists_ok (set_seg (set_mem (set_seg (set_mem st m1) seg1) m2) seg2) fls).
  { apply (lists_ok_ext _ (upd_list F1 i (remove_addr p (F1 i)))); [|exact HL2].
    intros j. unfold upd_list at 1. destruct (Z.eqb_spec j i) as [->|Hne].
    - unfold F1. rewrite upd_list_same. simpl. rewrite Z.eqb_refl. reflexivity.
    - unfold F1. apply upd_list_other. exact Hne. }
  split; [exact HL'|]. split.
  - intros j Hj. rewrite (seg_head _ _ j HL' Hj), (seg_head _ _ j HL Hj). reflexivity.
  - intros x Hx Hout. destruct st as [m lo brk mx seg last]. cbn [mem set_mem set_seg] in *.
    rewrite Hfr2.
    + apply Hfr1; assumption.
    + intros j q Hq Hne. unfold F1 in Hq. apply elem_of_upd_cons in Hq.
      destruct Hq as [Hq|[_ ->]]; [apply (Hout j q Hq)|contradiction].
Qed.

Lemma add_then_remove_restores_witness :
  exists fls st',
    (addFreeBlock 4208 1 ;;; removeFreeBlock 4208 1) demo_heap = Some (tt, st') /\
    lists_ok st' fls.
Proof.
  destruct demo_heap_inv as (fls & Hinv & L & B & Mx). exists fls.
  destruct (wp_exec _ _ _ (add_then_remove_restores demo_heap fls 1 4208
              (inv_lists _ _ _ Hinv) (demo_heap_new_node fls Hinv L B)
              ltac:(rewrite L; lia) ltac:(rewrite B; lia)))
    as ([] & E & H1 & _).
  exists (exec (addFreeBlock 4208 1 ;;; removeFreeBlock 4208 1) demo_heap).
  split; [exact E|exact H1].
Defined.

(** ** Growing the heap *)

(** X10: when the host has room, [extendHeap] returns the old break as the
    header of a new last block: the heap has grown by 8 bytes plus the
    payload size, the new block is allocated, its previous-allocated bit
    tells whether the block before it is allocated (set when there is
    none), [lastHeader] points at it, and nothing below the old break has
    changed. *)
Theorem extendHeap_appends_block :
  forall st bs fls n,
    inv st bs fls -> valid_size n -> n <= 2 ^ 64 - 24 ->
    heap_brk st + 8 + n <= heap_max st ->
    wp (extendHeap n) st
      (fun h st' =>
         h = heap_brk st /\ h <> NULL /\
         inv st' (bs ++ [(n, true)]) fls /\
         heap_lo st' = heap_lo st /\ heap_brk st' = heap_brk st + 8 + n /\
         load64 (mem st') h = hdr n true (last_alloc true bs) /\
         lastHeader st' = h /\
         forall x, x < heap_brk st -> mem st' x = mem st x).
Proof.
  intros st bs fls n Hinv Hvn Hn Hroom.
  pose proof (inv_brk _ _ _ Hinv) as Hbrk. pose proof (inv_lo _ _ _ Hinv) as [Hlo _].
  pose proof (inv_total_nonneg _ _ _ Hinv) as Ht.
  apply (extendHeap_ok False st bs fls n); try assumption; [lia|].
  intros _ st' Hinv' L B Mx Hfr. split; [reflexivity|].
  split; [unfold NULL; lia|]. split; [exact Hinv'|]. split; [exact L|]. split; [exact B|].
  split; [|split; [|exact Hfr]].
  - pose proof (inv_layout _ _ _ Hinv') as HL. apply layout_app in HL.
    destruct HL as [_ HL]. cbn [layout] in HL. destruct HL as (Hh & _).
    rewrite L in Hh. rewrite Hbrk. exact Hh.
  - rewrite (inv_last _ _ _ Hinv'), last_header_snoc, L. lia.
Qed.

Lemma extendHeap_appends_block_witness :
  exists st',
    extendHeap 40 demo_heap = Some (4248, st') /\
    heap_brk st' = 4296 /\ load64 (mem st') 4248 = hdr 40 true true.
Proof.
  destruct demo_heap_inv as (fls & Hinv & L & B & Mx).
  destruct (wp_exec _ _ _ (extendHeap_appends_block demo_heap _ fls 40 Hinv
              ltac:(split; [lia|reflexivity]) ltac:(lia) ltac:(rewrite B, Mx; lia)))
    as (h & E & -> & _ & _ & _ & B' & Hh & _).
  exists (exec (extendHeap 40) demo_heap). rewrite B in E, B', Hh.
  split; [exact E|]. split; [exact B'|exact Hh].
Defined.

(** ** What malloc and free do to the allocated blocks *)

Lemma nbsz_nonneg o :
  Forall (fun b : block => valid_size (fst b)) (nb o) -> 0 <= nbsz o.
Proof.
  destruct o as [z|]; simpl; [|lia]. intros H. apply Forall_cons in H.
  destruct H as [[H _] _]. simpl in H. lia.
Qed.

(** free of an allocated block, with what happens to the allocated blocks. *)
Lemma free_releases N st bs fls p s (Q : unit -> state -> Prop) :
  inv st bs fls -> allocated_at st bs p s ->
  (forall st' bs' fls',
      inv st' bs' fls' -> same_heap st st' ->
      (forall t, ~ allocated_at st' bs' p t) ->
      (forall q t, q <> p -> allocated_at st bs q t -> allocated_at st' bs' q t) ->
      (forall q t, allocated_at st' bs' q t -> allocated_at st bs q t) ->
      (exists a n, (a, n, false) ∈ blocks_at (heap_lo st' + 8) bs' /\
                   a + 8 <= p /\ p + s <= a + 8 + n) ->
      (forall q t x, q <> p -> allocated_at st bs q t -> q <= x < q + t ->
                     mem st' x = mem st x) ->
      Q tt st') ->
  wpg N (free p) st Q.
Proof.
  intros Hinv Hal HQ. apply (free_spec_fr N st bs fls p s _ Hinv Hal).
  intros st' pre op on post fls' -> Ep Hla Hha Hinv' Hsame Hfr.
  pose proof Hsame as (L & _ & _).
  pose proof (inv_sizes _ _ _ Hinv) as Hv.
  apply Forall_app in Hv. destruct Hv as [Hv1 Hv]. apply Forall_app in Hv.
  destruct Hv as [Hvo Hv]. apply Forall_cons in Hv. destruct Hv as [[Hs24 _] Hv].
  apply Forall_app in Hv. destruct Hv as [Hvn Hv2]. cbn [fst] in Hs24.
  pose proof (nbsz_nonneg _ Hvo) as Ho. pose proof (nbsz_nonneg _ Hvn) as Hn.
  pose proof (inv_sizes _ _ _ Hinv') as Hv'.
  pose proof (blocks_at_mid (heap_lo st + 8) pre (nbsz op + s + nbsz on) false post) as Hmid.
  apply (HQ st' _ fls' Hinv' Hsame).
  - intros t Ht. unfold allocated_at in Ht. rewrite L in Ht.
    pose proof (blocks_at_bounds _ _ _ _ _ Hv' Ht) as (_ & _ & [Ht24 _] & _).
    destruct (blocks_at_sep _ _ _ _ Hv' Ht Hmid) as [E|E]; [discriminate|].
    simpl in E. lia.
  - intros q t Hne Hq. unfold allocated_at in *. rewrite L.
    apply allocated_after_free; [lia|exact Hq].
  - intros q t Hq. unfold allocated_at in *. rewrite L in Hq.
    replace (pre ++ nb op ++ (s, true) :: nb on ++ post)
      with (pre ++ (nb op ++ (s, true) :: nb on) ++ post)
      by (rewrite <- !app_assoc; reflexivity).
    rewrite !blocks_at_app in *. cbn [blocks_at] in Hq.
    replace (heap_lo st + 8 + total pre + total (nb op ++ (s, true) :: nb on))
      with (heap_lo st + 8 + total pre + 8 + (nbsz op + s + nbsz on))
      by (rewrite total_app; cbn [total]; rewrite !total_nb; lia).
    apply elem_of_app in Hq. destruct Hq as [Hq|Hq]; [elem|].
    apply elem_of_cons in Hq. destruct Hq as [E|Hq]; [discriminate|elem].
  - exists (heap_lo st + 8 + total pre), (nbsz op + s + nbsz on).
    rewrite L. split; [exact Hmid|]. lia.
  - intros q t x Hne Hq Hx. apply Hfr. exists (q - 8), t. split; [|lia].
    unfold allocated_at in Hq. apply allocated_after_free; [lia|exact Hq].
Qed.

(** X11: a malloc of a positive size either fails because the heap cannot
    grow (it then returns 8 and leaves the state alone), or returns the
    payload of an allocated block inside the heap that is at least as large
    as the request, was not allocated before, and does not overlap any block
    that was allocated before; those blocks all stay allocated with their
    sizes, and the heap does not shrink. *)
Theorem malloc_returns_fresh_block :
  forall fuel st bs fls size,
    inv st bs fls -> 0 < size <= 2 ^ 64 - 24 -> (length bs + 15 < fuel)%nat ->
    wp (malloc fuel size) st
      (fun p st' =>
         (p = 8 /\ st' = st /\ no_room st size) \/
         exists bs' fls' s,
           inv st' bs' fls' /\ allocated_at st' bs' p s /\ size <= s /\
           heap_lo st' = heap_lo st /\ heap_brk st <= heap_brk st' /\
           heap_lo st + 16 <= p /\ p + s <= heap_brk st' /\
           (forall t, ~ allocated_at st bs p t) /\
           forall q t, allocated_at st bs q t ->
             allocated_at st' bs' q t /\ (q + t <= p - 8 \/ p + s <= q - 8)).
Proof.
  intros fuel st bs fls size Hinv Hsz Hfuel.
  apply (wpg_weaken (fuel <= length bs + 15)%nat); [lia|].
  apply (malloc_spec fuel st bs fls size _ Hinv Hsz).
  - intros st' bs' fls' p s Hinv' L Mx Hb Hp Hps Hfresh Hkeep. right.
    exists bs', fls', s.
    pose proof (allocated_bounds _ _ _ _ _ Hinv' Hp) as (Hp1 & Hp2 & _ & _).
    repeat (split; [first [assumption|lia]|]).
    intros q t Hq. pose proof (Hkeep q t Hq) as Hq'. split; [exact Hq'|].
    destruct (blocks_at_sep _ _ _ _ (inv_sizes _ _ _ Hinv') Hq' Hp) as [E|E].
    + exfalso. injection E as E1 E2. apply (Hfresh t).
      replace p with q by lia. exact Hq.
    + simpl in E. lia.
  - intros Hno. left. auto.
Qed.

Lemma malloc_returns_fresh_block_witness :
  exists p st',
    malloc 32 24 demo_heap = Some (p, st') /\
    ((p = 8 /\ st' = demo_heap) \/
     exists bs' fls' s, inv st' bs' fls' /\ allocated_at st' bs' p s /\ 24 <= s).
Proof.
  destruct demo_heap_inv as (fls & Hinv & L & B & Mx).
  destruct (wp_exec _ _ _ (malloc_returns_fresh_block 32 demo_heap _ fls 24 Hinv
              ltac:(lia) ltac:(simpl; lia))) as (p & E & H).
  exists p, (exec (malloc 32 24) demo_heap). split; [exact E|].
  destruct H as [(H1 & H2 & _)|(bs' & fls' & s & H1 & H2 & H3 & _)].
  - left. split; [exact H1|exact H2].
  - right. exists bs', fls', s. split; [exact H1|]. split; [exact H2|exact H3].
Defined.

(** X12: free of the payload of an allocated block releases that block and
    no other: afterwards the pointer lies inside a free block, every other
    allocated block is still allocated with its size, no block has become
    allocated, the invariant holds and the heap bounds are as before. *)
Theorem free_releases_only_its_block :
  forall st bs fls p s,
    inv st bs fls -> allocated_at st bs p s ->
    wp (free p) st
      (fun _ st' => exists bs' fls',
         inv st' bs' fls' /\ same_heap st st' /\
         (forall t, ~ allocated_at st' bs' p t) /\
         (forall q t, q <> p -> allocated_at st bs q t -> allocated_at st' bs' q t) /\
         (forall q t, allocated_at st' bs' q t -> allocated_at st bs q t) /\
         exists a n, (a, n, false) ∈ blocks_at (heap_lo st' + 8) bs' /\
                     a + 8 <= p /\ p + s <= a + 8 + n).
Proof.
  intros st bs fls p s Hinv Hal. apply (free_releases False st bs fls p s _ Hinv Hal).
  intros st' bs' fls' H1 H2 H3 H4 H5 H6 _. exists bs', fls'.
  repeat (split; [assumption|]). exact H6.
Qed.

Lemma free_releases_only_its_block_witness :
  exists st' bs' fls',
    free 4208 demo_heap = Some (tt, st') /\ inv st' bs' fls' /\
    forall t, ~ allocated_at st' bs' 4208 t.
Proof.
  destruct demo_heap_inv as (fls & Hinv & L & B & Mx).
  assert (Hal : allocated_at demo_heap [(88, false); (40, true)] 4208 40).
  { unfold allocated_at. rewrite L. cbn [blocks_at]. elem. }
  destruct (wp_exec _ _ _ (free_releases_only_its_block demo_heap _ fls 4208 40 Hinv Hal))
    as ([] & E & bs' & fls' & H1 & _ & H3 & _).
  exists (exec (free 4208) demo_heap), bs', fls'.
  split; [exact E|]. split; [exact H1|exact H3].
Defined.

(** ** The search of malloc is complete *)

Lemma wpg_and {A} (N : Prop) (c : M A) st (Q1 Q2 : A -> state -> Prop) :
  wpg N c st Q1 -> wpg True c st Q2 -> wpg N c st (fun x s => Q1 x s /\ Q2 x s).
Proof. unfold wpg. destruct (c st) as [[x st']|]; auto. Qed.

Lemma wpg_any {A} (c : M A) st (Q : A -> state -> Prop) :
  (forall x st', Q x st') -> wpg True c st Q.
Proof. unfold wpg. destruct (c st) as [[x st']|]; auto. Qed.

Lemma getFreeListIndex_mono s t :
  valid_size s -> valid_size t -> t < 2 ^ 64 -> s <= t ->
  getFreeListIndex s <= getFreeListIndex t.
Proof.
  intros Hvs Hvt Ht Hst.
  destruct (getFreeListIndex_cases s Hvs ltac:(lia)) as (k & Es & Hk & Is).
  destruct (getFreeListIndex_cases t Hvt Ht) as (j & Et & Hj & It).
  rewrite Is, It. subst s t. assert (Hkj : k <= j) by lia. clear Is It Hvs Hvt Hst Ht.
  repeat match goal with
         | |- context [?a <=? ?b] => destruct (Z.leb_spec a b)
         end; lia.
Qed.

Lemma getFreeListIndex_small s :
  valid_size s -> s < 2 ^ 64 -> getFreeListIndex s <= 3 ->
  s = 24 + 16 * getFreeListIndex s.
Proof.
  intros Hvs Hs. destruct (getFreeListIndex_cases s Hvs Hs) as (k & Es & Hk & Is).
  rewrite Is. subst s. clear Is Hvs Hs.
  repeat match goal with
         | |- context [?a <=? ?b] => destruct (Z.leb_spec a b)
         end; lia.
Qed.

(** The size of the free block whose payload is a node of a list. *)
Lemma node_size st bs fls i q b :
  inv st bs fls -> q ∈ fls i ->
  (q - 8, b, false) ∈ blocks_at (heap_lo st + 8) bs ->
  getFreeListIndex b = i /\ valid_size b /\ b < 2 ^ 64.
Proof.
  intros Hinv Hq Hb. pose proof (inv_sizes _ _ _ Hinv) as Hv.
  apply (inv_members _ _ _ Hinv) in Hq. destruct Hq as (t & Ht & Hi).
  destruct (blocks_at_same_addr _ _ _ _ _ _ _ Hv Hb Ht) as [-> _].
  pose proof (blocks_at_bounds _ _ _ _ _ Hv Ht) as (? & ? & Hvt & _).
  pose proof (inv_brk _ _ _ Hinv). pose proof (inv_max _ _ _ Hinv).
  pose proof (inv_lo _ _ _ Hinv).
  destruct Hvt as [? ?]. repeat split; try assumption; lia.
Qed.

(** When the loop ends without a fit, every block of the nodes that it had
    still to visit is too small. *)
Lemma malloc_loop_none fuel : forall k l1 l2 nextList st bs fls n,
  inv st bs fls -> valid_size n -> (k <= 14)%nat ->
  fls (14 - Z.of_nat k) = l1 ++ l2 ->
  (nextList = true \/ (k = 0%nat /\ l2 = [])) ->
  wpg True (malloc_loop fuel n (hd_or l2) (14 - Z.of_nat k) nextList) st
    (fun r _ => r = None ->
       forall p b, p ∈ l2 ++ nodes fls k (14 - Z.of_nat k + 1) ->
         (p - 8, b, false) ∈ blocks_at (heap_lo st + 8) bs -> b < n).
Proof.
  induction fuel as [|fuel IH]; intros k l1 l2 nextList st bs fls n Hinv Hvn Hk Hl Hnl.
  { exact I. }
  pose proof (inv_lists _ _ _ Hinv) as HL.
  pose proof (inv_sizes _ _ _ Hinv) as Hv.
  assert (Hnext : forall k', k = S k' -> nextList = true ->
            (forall p b, p ∈ l2 -> (p - 8, b, false) ∈ blocks_at (heap_lo st + 8) bs -> b < n) ->
            wpg True
              (ptr <- seg_get (14 - Z.of_nat k + 1) ;;
               malloc_loop fuel n ptr (14 - Z.of_nat k + 1) nextList) st
              (fun r _ => r = None ->
                 forall p b, p ∈ l2 ++ nodes fls k (14 - Z.of_nat k + 1) ->
                   (p - 8, b, false) ∈ blocks_at (heap_lo st + 8) bs -> b < n)).
  { intros k' -> Hn Hsk. replace (14 - Z.of_nat (S k') + 1) with (14 - Z.of_nat k') by lia.
    apply wpg_bind.
    apply (wpg_seg_get _ _ (hd_or (fls (14 - Z.of_nat k')))); [lia|apply seg_head; [exact HL|lia]|].
    eapply wpg_conseq;
      [apply (IH k' [] (fls (14 - Z.of_nat k')) nextList st bs fls n);
       try assumption; [lia|reflexivity|left; exact Hn]|].
    intros r st1 Hr E p b Hp Hb. cbv beta in Hr. apply elem_of_app in Hp. destruct Hp as [Hp|Hp].
    - apply (Hsk p b Hp Hb).
    - cbn [nodes] in Hp. apply (Hr E p b); [|exact Hb].
      replace (14 - Z.of_nat k' + 1 + 1) with (14 - Z.of_nat k' + 1 + 1) in Hp by lia.
      exact Hp. }
  cbn [malloc_loop]. destruct l2 as [|p l2]; cbn [hd_or].
  - change (NULL =? NULL) with true. cbn [negb orb].
    destruct nextList.
    2:{ apply wpg_ret. intros _ q b Hq. destruct Hnl as [?|[-> _]]; [discriminate|].
        simpl in Hq. inversion Hq. }
    destruct k as [|k'].
    + change (14 - Z.of_nat 0 =? 14) with true. cbv iota.
      apply (IH 0%nat l1 [] false st bs fls n); try assumption. right. auto.
    + destruct (Z.eqb_spec (14 - Z.of_nat (S k')) 14) as [?|_]; [lia|].
      apply (Hnext k'); [reflexivity|reflexivity|]. intros q b Hq. inversion Hq.
  - assert (Hp : p ∈ fls (14 - Z.of_nat k)) by (rewrite Hl; elem).
    destruct (member_block _ _ _ _ _ Hinv Hp) as (pre & b & post & -> & -> & Hidx).
    destruct Hnl as [->|[_ ?]]; [|discriminate].
    pose proof (inv_heap _ _ _ Hinv) as [Hlo Hbrk Hmx Hlen Hpro _ HLay Hna Hlast].
    pose proof Hv as Hv0.
    apply Forall_app in Hv. destruct Hv as [Hv1 Hv2].
    apply Forall_cons in Hv2. destruct Hv2 as [[Hb24 Hb16] Hv2]. cbn [fst] in *.
    pose proof (total_nonneg _ Hv1). pose proof (total_nonneg _ Hv2).
    rewrite total_app in Hbrk. cbn [total] in Hbrk.
    apply layout_app in HLay. destruct HLay as [_ HLay]. cbn [layout] in HLay.
    destruct HLay as (Hh & _).
    set (h := heap_lo st + 8 + total pre) in *.
    assert (b mod 8 = 0) by zdm.
    assert (Hblk : (h + 8 - 8, b, false) ∈
                   blocks_at (heap_lo st + 8) (pre ++ (b, false) :: post)).
    { replace (h + 8 - 8) with h by lia. apply blocks_at_mid. }
    destruct (Z.eqb_spec (h + 8) NULL) as [E|_]; [unfold NULL in E; lia|].
    cbn [negb orb]. unfold ptr_sub, get8ByteAlignment, HEADER_SIZE.
    change (8 / 8) with 1. replace (h + 8 - 8 * 1) with h by lia.
    apply wpg_bind. apply wpg_getBlockSize; [lia|lia|].
    rewrite Hh, hdr_size by lia.
    destruct (Z.leb_spec n b) as [Hnb|Hnb].
    + apply wpg_bind. apply wpg_any. intros x st'. apply wpg_ret. discriminate.
    + destruct (Z.leb_spec (14 - Z.of_nat k) 3) as [Hi3|Hi3].
      * destruct k as [|k']; [simpl in Hi3; lia|].
        apply (Hnext k'); [reflexivity|reflexivity|].
        intros q t Hq Ht.
        assert (Hq' : q ∈ fls (14 - Z.of_nat (S k'))) 
          by (rewrite Hl; apply elem_of_app; right; exact Hq).
        destruct (node_size _ _ _ _ _ _ Hinv Hq' Ht) as (It & Hvt & Ht64).
        destruct (node_size _ _ _ _ _ _ Hinv Hp Hblk) as (Ib & Hvb & Hb64).
        rewrite (getFreeListIndex_small t Hvt Ht64) by lia.
        rewrite (getFreeListIndex_small b Hvb Hb64) in Hnb by lia. lia.
      * apply wpg_bind. unfold getNextFreeBlock. apply wpg_load; [lia|lia|].
        assert (Hd : load64 (mem st) (h + 8) = hd_or l2).
        { destruct (HL (14 - Z.of_nat k) ltac:(lia)) as (hd & _ & Hd).
          rewrite Hl in Hd. eapply dll_next. exact Hd. }
        rewrite Hd.
        eapply wpg_conseq;
          [apply (IH k (l1 ++ [h + 8]) l2 true st (pre ++ (b, false) :: post) fls n);
           try assumption; [rewrite Hl, <- app_assoc; reflexivity|left; reflexivity]|].
        intros r st1 Hr E q t Hq Ht. cbv beta in Hr. cbn [app] in Hq.
        apply elem_of_cons in Hq. destruct Hq as [->|Hq]; [|apply (Hr E q t Hq Ht)].
        destruct (blocks_at_same_addr _ _ _ _ _ _ _ Hv0 Ht Hblk) as [-> _]. exact Hnb.
Qed.

Lemma blocks_at_elem a bs s al :
  (s, al) ∈ bs -> exists a', (a', s, al) ∈ blocks_at a bs.
Proof.
  intros H. apply list_elem_of_split in H. destruct H as (pre & post & ->).
  exists (a + total pre). apply blocks_at_mid.
Qed.

(** malloc, with what the search has established when it extends the heap:
    no free block was large enough. *)
Lemma malloc_ok_cp fuel st bs fls size (Q : Z -> state -> Prop) :
  inv st bs fls -> 0 < size <= 2 ^ 64 - 24 ->
  (forall pre b post st',
      bs = pre ++ (b, false) :: post -> newAlign size <= b ->
      inv st' (pre ++ split_blocks (newAlign size) b ++ post)
        (split_lists (heap_lo st + 8 + total pre) (newAlign size) b fls) ->
      same_heap st st' ->
      (forall x, untouchable (heap_lo st + 8) bs x -> mem st' x = mem st x) ->
      Q (heap_lo st + 8 + total pre + 8) st') ->
  ((forall b, (b, false) ∈ bs -> b < newAlign size) ->
   heap_brk st + 8 + newAlign size <= heap_max st ->
   forall st', inv st' (bs ++ [(newAlign size, true)]) fls ->
     heap_lo st' = heap_lo st -> heap_brk st' = heap_brk st + 8 + newAlign size ->
     heap_max st' = heap_max st ->
     (forall x, x < heap_brk st -> mem st' x = mem st x) ->
     Q (heap_brk st + 8) st') ->
  ((forall b, (b, false) ∈ bs -> b < newAlign size) ->
   heap_max st < heap_brk st + 8 + newAlign size -> Q 8 st) ->
  wpg (fuel <= length bs + 15)%nat (malloc fuel size) st Q.
Proof.
  intros Hinv Hsz HQfit HQext HQfail. unfold malloc.
  destruct (Z.eqb_spec size 0) as [?|_]; [lia|].
  destruct (newAlign_valid size ltac:(lia)) as (Hvn & Hle & _).
  pose proof (newAlign_bound size ltac:(lia)) as Hnb.
  set (n := newAlign size) in *.
  pose proof (getFreeListIndex_range n Hvn ltac:(lia)) as Hidx.
  set (index := getFreeListIndex n) in *.
  apply wpg_bind.
  apply (wpg_seg_get _ _ (hd_or (fls index)));
    [lia|apply seg_head; [apply (inv_lists _ _ _ Hinv)|exact Hidx]|].
  apply wpg_bind.
  assert (Ek : index = 14 - Z.of_nat (Z.to_nat (14 - index))) by lia.
  set (k := Z.to_nat (14 - index)) in *.
  rewrite Ek.
  eapply wpg_conseq.
  { apply wpg_and.
    - eapply wpg_weaken;
        [|apply (malloc_loop_ok_fr fuel k [] (fls (14 - Z.of_nat k)) true st bs fls n
                   (fun r st1 =>
                      match r with
                      | None => st1 = st
                      | Some p => exists pre b post,
                          bs = pre ++ (b, false) :: post /\ n <= b /\
                          inv st1 (pre ++ split_blocks n b ++ post)
                            (split_lists (heap_lo st + 8 + total pre) n b fls) /\
                          same_heap st st1 /\
                          (forall x, untouchable (heap_lo st + 8) bs x ->
                                     mem st1 x = mem st x) /\
                          p = heap_lo st + 8 + total pre + 8
                      end));
          [exact Hinv|exact Hvn|lia|reflexivity|reflexivity|]].
      + unfold loop_steps. intros Hf.
        pose proof (nodes_bound st bs fls (S k) (14 - Z.of_nat k) Hinv) as Hb.
        cbn [nodes] in Hb. rewrite length_app, <- tail_len_nodes in Hb. lia.
      + intros pre b post st' E Hb Hinv' Hsame Hfr. exists pre, b, post. auto 10.
    - apply (malloc_loop_none fuel k [] (fls (14 - Z.of_nat k)) true st bs fls n);
        [exact Hinv|exact Hvn|lia|reflexivity|left; reflexivity]. }
  intros [p|] st1 [H1 H2]; cbv beta in H2.
  - destruct H1 as (pre & b & post & E & Hb & Hinv' & Hsame & Hfr & ->).
    apply wpg_ret. apply (HQfit pre b post); assumption.
  - subst st1.
    assert (Hno : forall b, (b, false) ∈ bs -> b < n).
    { intros b Hb. destruct (Z.lt_ge_cases b n) as [?|Hge]; [assumption|exfalso].
      destruct (blocks_at_elem (heap_lo st + 8) _ _ _ Hb) as (a & Ha).
      pose proof (inv_block_bounds _ _ _ Hinv _ _ _ Ha) as Hbd.
      pose proof (blocks_at_bounds _ _ _ _ _ (inv_sizes _ _ _ Hinv) Ha) as (_ & ? & Hvb & _).
      pose proof (inv_brk _ _ _ Hinv). pose proof (inv_max _ _ _ Hinv).
      pose proof (inv_lo _ _ _ Hinv).
      assert (Hb64 : b < 2 ^ 64) by lia.
      pose proof (getFreeListIndex_mono n b Hvn Hvb Hb64 ltac:(lia)) as Hm.
      pose proof (getFreeListIndex_range b Hvb ltac:(lia)) as Hr.
      assert (Hin : a + 8 ∈ fls (getFreeListIndex b)).
      { apply (inv_members _ _ _ Hinv). exists b. split; [|reflexivity].
        replace (a + 8 - 8) with a by lia. exact Ha. }
      assert (Hlt : b < n); [|lia].
      apply (H2 eq_refl (a + 8) b); [|replace (a + 8 - 8) with a by lia; exact Ha].
      fold index in Hm. rewrite <- Ek.
      destruct (Z.eq_dec (getFreeListIndex b) index) as [E|Hne].
      - apply elem_of_app. left. rewrite <- E. exact Hin.
      - apply elem_of_app. right. apply elem_of_nodes.
        exists (getFreeListIndex b). split; [lia|exact Hin]. }
    apply wpg_bind. apply (extendHeap_ok _ st bs fls n); try assumption.
    + intros Hfail. apply wpg_ret. apply HQfail; assumption.
    + intros Hroom st' Hinv' E1 E2 E3 Hfr. apply wpg_ret.
      unfold getPayload, HEADER_SIZE. apply HQext; assumption.
Qed.

(** X13: for a size s with 0 < s <= 2^64 - 24 (and enough loop fuel),
    malloc grows the heap only when no free block is large enough.
    When some free block holds the normalized size, the call returns the
    payload of such a block of the old heap and the break stays where it
    was; when none does, the call either fails for want of room (returning
    8 with the state unchanged) or returns the payload of a new block placed
    at the old break, the heap having grown by 8 bytes plus the normalized
    size. *)
Theorem malloc_grows_only_without_fit :
  forall fuel st bs fls size,
    inv st bs fls -> 0 < size <= 2 ^ 64 - 24 -> (length bs + 15 < fuel)%nat ->
    wp (malloc fuel size) st
      (fun p st' =>
         ((exists b, (b, false) ∈ bs /\ newAlign size <= b) ->
          heap_brk st' = heap_brk st /\
          exists a b, (a, b, false) ∈ blocks_at (heap_lo st + 8) bs /\
                      newAlign size <= b /\ p = a + 8) /\
         ((forall b, (b, false) ∈ bs -> b < newAlign size) ->
          (p = 8 /\ st' = st /\ no_room st size) \/
          (p = heap_brk st + 8 /\
           heap_brk st' = heap_brk st + 8 + newAlign size))).
Proof.
  intros fuel st bs fls size Hinv Hsz Hfuel.
  apply (wpg_weaken (fuel <= length bs + 15)%nat); [lia|].
  apply (malloc_ok_cp fuel st bs fls size _ Hinv Hsz).
  - intros pre b post st' -> Hb Hinv' (E1 & E2 & E3) _. split.
    + intros _. split; [congruence|]. exists (heap_lo st + 8 + total pre), b.
      split; [apply blocks_at_mid|]. split; [exact Hb|reflexivity].
    + intros Hno. exfalso.
      assert (Hin : (b, false) ∈ pre ++ (b, false) :: post) by elem.
      specialize (Hno b Hin). lia.
  - intros Hno Hroom st' Hinv' E1 E2 E3 _. split.
    + intros (b & Hb & Hfit). specialize (Hno b Hb). lia.
    + intros _. right. split; [reflexivity|exact E2].
  - intros Hno Hfail. split.
    + intros (b & Hb & Hfit). specialize (Hno b Hb). lia.
    + intros _. left. split; [reflexivity|]. split; [reflexivity|exact Hfail].
Qed.

Lemma malloc_grows_only_without_fit_witness :
  exists p st',
    malloc 32 24 demo_heap = Some (p, st') /\ heap_brk st' = heap_brk demo_heap.
Proof.
  destruct demo_heap_inv as (fls & Hinv & L & B & Mx).
  destruct (wp_exec _ _ _ (malloc_grows_only_without_fit 32 demo_heap _ fls 24 Hinv
              ltac:(lia) ltac:(simpl; lia))) as (p & E & H & _).
  exists p, (exec (malloc 32 24) demo_heap). split; [exact E|].
  apply H. exists 88. split; [elem|]. change (newAlign 24) with 24. lia.
Defined.

(** ** The contents of the allocated blocks *)

Lemma allocated_untouchable st bs q t x :
  allocated_at st bs q t -> q <= x < q + t -> untouchable (heap_lo st + 8) bs x.
Proof. intros Hq Hx. exists (q - 8), t. split; [exact Hq|lia]. Qed.

(** X14: for a size s with 0 < s <= 2^64 - 24, malloc does not change a
    byte of the payload of any block that is allocated when it is called,
    whether it takes a free block (splitting it or not), extends the heap,
    or fails. *)
Theorem malloc_keeps_payload_bytes :
  forall fuel st bs fls size,
    inv st bs fls -> 0 < size <= 2 ^ 64 - 24 -> (length bs + 15 < fuel)%nat ->
    wp (malloc fuel size) st
      (fun _ st' =>
         forall q t x, allocated_at st bs q t -> q <= x < q + t ->
                       mem st' x = mem st x).
Proof.
  intros fuel st bs fls size Hinv Hsz Hfuel.
  apply (wpg_weaken (fuel <= length bs + 15)%nat); [lia|].
  apply (malloc_spec_fr fuel st bs fls size _ Hinv Hsz).
  - intros st' bs' fls' p s _ _ _ _ _ _ _ _ Hfr q t x Hq Hx.
    apply Hfr. apply (allocated_untouchable st bs q t); assumption.
  - intros _ q t x _ _. reflexivity.
Qed.

Lemma malloc_keeps_payload_bytes_witness :
  exists p st',
    malloc 32 24 demo_heap = Some (p, st') /\ mem st' 4208 = mem demo_heap 4208.
Proof.
  destruct demo_heap_inv as (fls & Hinv & L & B & Mx).
  destruct (wp_exec _ _ _ (malloc_keeps_payload_bytes 32 demo_heap _ fls 24 Hinv
              ltac:(lia) ltac:(simpl; lia))) as (p & E & H).
  exists p, (exec (malloc 32 24) demo_heap). split; [exact E|].
  apply (H 4208 40); [|lia].
  unfold allocated_at. rewrite L. cbn [blocks_at]. elem.
Defined.

(** X15: free of the payload of an allocated block does not change a byte
    of the payload of any other allocated block, whichever neighbours it
    merges with. *)
Theorem free_keeps_other_payload_bytes :
  forall st bs fls p s,
    inv st bs fls -> allocated_at st bs p s ->
    wp (free p) st
      (fun _ st' =>
         forall q t x, allocated_at st bs q t -> q <> p -> q <= x < q + t ->
                       mem st' x = mem st x).
Proof.
  intros st bs fls p s Hinv Hal. apply (free_releases False st bs fls p s _ Hinv Hal).
  intros st' bs' fls' _ _ _ _ _ _ Hfr q t x Hq Hne Hx.
  apply (Hfr q t x); assumption.
Qed.

(** A heap with two allocated blocks: [demo_heap] after one more malloc. *)
Lemma demo_heap_two_blocks :
  exists p st1 bs1 fls1 s,
    malloc 32 24 demo_heap = Some (p, st1) /\ inv st1 bs1 fls1 /\
    allocated_at st1 bs1 p s /\ allocated_at st1 bs1 4208 40 /\ p <> 4208 /\
    24 <= s /\ length bs1 = 3%nat.
Proof.
  destruct demo_heap_inv as (fls & Hinv & L & B & Mx).
  assert (Hal : allocated_at demo_heap [(88, false); (40, true)] 4208 40).
  { unfold allocated_at. rewrite L. cbn [blocks_at]. elem. }
  assert (Hw : wpg (32 <= length [(88, false); (40, true)] + 15)%nat
                 (malloc 32 24) demo_heap
                 (fun p st1 => exists bs1 fls1 s,
                    inv st1 bs1 fls1 /\ allocated_at st1 bs1 p s /\
                    allocated_at st1 bs1 4208 40 /\ p <> 4208 /\ 24 <= s /\
                    length bs1 = 3%nat)).
  2:{ destruct (wpg_exec _ _ _ _ Hw ltac:(simpl; lia)) as (p & E & bs1 & fls1 & s & H).
      exists p, (exec (malloc 32 24) demo_heap), bs1, fls1, s.
      split; [exact E|exact H]. }
  apply (malloc_ok_cp 32 demo_heap _ fls 24 _ Hinv ltac:(lia)).
  - intros pre b post st' Ebs Hb Hinv' (E1 & E2 & E3) _.
    destruct pre as [|c pre].
    2:{ exfalso. injection Ebs as Ec Ebs. destruct pre as [|d pre]; [discriminate Ebs|].
        injection Ebs as _ Ebs. destruct pre; discriminate Ebs. }
    injection Ebs as <- <-. cbn [app total] in *. rewrite L.
    change (newAlign 24) with 24 in *. change (split_blocks 24 88) with [(24, true); (56, false)] in *.
    eexists _, _, 24. split; [exact Hinv'|].
    unfold allocated_at. rewrite E1, L. cbn [app blocks_at].
    repeat split; try lia; elem.
  - intros Hno. exfalso. specialize (Hno 88 ltac:(elem)).
    change (newAlign 24) with 24 in Hno. lia.
  - intros Hno. exfalso. specialize (Hno 88 ltac:(elem)).
    change (newAlign 24) with 24 in Hno. lia.
Qed.

Lemma free_keeps_other_payload_bytes_witness :
  exists p st1 st2,
    malloc 32 24 demo_heap = Some (p, st1) /\ free p st1 = Some (tt, st2) /\
    forall x, 4208 <= x < 4248 -> mem st2 x = mem st1 x.
Proof.
  destruct demo_heap_two_blocks as (p & st1 & bs1 & fls1 & s & E & Hinv & Hp & Hq & Hne & _).
  destruct (wp_exec _ _ _ (free_keeps_other_payload_bytes st1 bs1 fls1 p s Hinv Hp))
    as ([] & E2 & H).
  exists p, st1, (exec (free p) st1). split; [exact E|]. split; [exact E2|].
  intros x Hx. apply (H 4208 40 x Hq); [intros Eq; apply Hne; symmetry; exact Eq|lia].
Defined.

(** ** realloc and calloc *)

(** X16: realloc of an allocated block to a size s with
    0 < s <= 2^64 - 24 either faults, which happens only when the heap
    cannot grow, or moves the block: the
    result is the payload of an allocated block of at least the new size,
    different from the old pointer, whose first min(size, old payload size)
    bytes are the bytes the old payload had; the old block is released, and
    every other allocated block stays allocated with its contents. *)
Theorem realloc_moves_payload :
  forall fuel st bs fls oldptr old_size size,
    inv st bs fls -> allocated_at st bs oldptr old_size ->
    0 < size <= 2 ^ 64 - 24 -> (length bs + 15 < fuel)%nat ->
    wpg (no_room st size) (realloc fuel oldptr size) st
      (fun p st' => exists bs' fls' s,
         inv st' bs' fls' /\ allocated_at st' bs' p s /\ size <= s /\
         p <> oldptr /\ (forall t, ~ allocated_at st' bs' oldptr t) /\
         (forall i, 0 <= i < Z.min size old_size ->
                    mem st' (p + i) = mem st (oldptr + i)) /\
         (forall q t, allocated_at st bs q t -> q <> oldptr ->
            allocated_at st' bs' q t /\
            forall x, q <= x < q + t -> mem st' x = mem st x)).
Proof.
  intros fuel st bs fls oldptr old_size size Hinv Hold Hsz Hfuel.
  pose proof (allocated_bounds _ _ _ _ _ Hinv Hold) as (Ho1 & Ho2 & [Ho3 Ho4] & _).
  pose proof (inv_lo _ _ _ Hinv) as [Hlo0 Hlo16]. pose proof (inv_max _ _ _ Hinv) as [Hmx1 Hmx2].
  assert (Hlo8 : 8 < heap_lo st) by zdm.
  assert (Hs8 : old_size mod 8 = 0) by zdm.
  unfold realloc.
  destruct (Z.eqb_spec oldptr NULL) as [E|_]; [unfold NULL in E; lia|].
  destruct (Z.eqb_spec size 0) as [?|_]; [lia|].
  apply wpg_bind.
  apply (wpg_weaken ((fuel <= length bs + 15)%nat \/ no_room st size));
    [intros [H|H]; [lia|exact H]|].
  eapply wpg_weaken; [intros H; left; exact H|].
  apply (malloc_spec_fr fuel st bs fls size _ Hinv Hsz).
  - intros st1 bs1 fls1 p s Hinv1 E1 E3 Hbrk1 Hp Hps Hfresh Hkeep Hfr1.
    pose proof (Hkeep _ _ Hold) as Hold1.
    pose proof (allocated_bounds _ _ _ _ _ Hinv1 Hp) as (Hp1 & Hp2 & _ & _).
    pose proof (allocated_bounds _ _ _ _ _ Hinv1 Hold1) as (Hq1 & Hq2 & _ & _).
    pose proof (inv_max _ _ _ Hinv1) as [Hm1 Hm2].
    destruct (allocated_header _ _ _ _ _ Hinv1 Hold1) as (pa & Hh).
    assert (Hpo : p <> oldptr).
    { intros ->. apply (Hfresh old_size). exact Hold. }
    destruct (Z.eqb_spec p NULL) as [E|_]; [unfold NULL in E; lia|].
    unfold ptr_sub, get8ByteAlignment, HEADER_SIZE. change (8 / 8) with 1.
    replace (oldptr - 8 * 1) with (oldptr - 8) by lia.
    apply wpg_bind. apply wpg_getBlockSize; [lia|lia|].
    rewrite Hh, hdr_size by lia.
    set (cnt := if size >? old_size then old_size else size).
    assert (Hcnt : cnt = Z.min size old_size).
    { unfold cnt. destruct (Z.gtb_spec size old_size); lia. }
    replace (if size >? old_size then mm_memcpy p oldptr old_size
             else mm_memcpy p oldptr size)
      with (mm_memcpy p oldptr cnt)
      by (unfold cnt; destruct (size >? old_size); reflexivity).
    clearbody cnt.
    apply wpg_bind. apply wpg_mm_memcpy; [lia|lia|lia|lia|lia|].
    set (st2 := set_mem st1 (copy_bytes (mem st1) p oldptr cnt)).
    assert (Hinv2 : inv st2 bs1 fls1).
    { apply (inv_payload_write st1 bs1 fls1 p s); [exact Hinv1|exact Hp|].
      intros x Hx. apply copy_bytes_out. lia. }
    apply wpg_bind.
    apply (free_releases _ st2 bs1 fls1 oldptr old_size); [exact Hinv2|exact Hold1|].
    intros st3 bs3 fls3 Hinv3 (F1 & F2 & F3) Hgone Hkeep3 _ _ Hfr3.
    apply wpg_ret. exists bs3, fls3, s.
    assert (Hp3 : allocated_at st3 bs3 p s) by (apply Hkeep3; [exact Hpo|exact Hp]).
    split; [exact Hinv3|]. split; [exact Hp3|]. split; [exact Hps|].
    split; [exact Hpo|]. split; [exact Hgone|]. split.
    + intros i Hi.
      rewrite (Hfr3 p s (p + i) Hpo Hp ltac:(lia)).
      unfold st2. cbn [mem set_mem]. rewrite copy_bytes_in by lia.
      replace (oldptr + (p + i - p)) with (oldptr + i) by lia.
      apply Hfr1. apply (allocated_untouchable st bs oldptr old_size); [exact Hold|lia].
    + intros q t Hq Hne. pose proof (Hkeep _ _ Hq) as Hq1'.
      split; [apply Hkeep3; [exact Hne|exact Hq1']|].
      intros x Hx. rewrite (Hfr3 q t x Hne Hq1' Hx).
      unfold st2. cbn [mem set_mem]. rewrite copy_bytes_out.
      * apply Hfr1. apply (allocated_untouchable st bs q t); assumption.
      * destruct (blocks_at_sep _ _ _ _ (inv_sizes _ _ _ Hinv1) Hq1' Hp) as [E|E].
        -- exfalso. injection E as E _. apply (Hfresh t).
           replace p with q by lia. exact Hq.
        -- simpl in E. lia.
  - intros Hfail.
    destruct (allocated_header _ _ _ _ _ Hinv Hold) as (pa & Hh).
    change (8 =? NULL) with false. cbv iota.
    unfold ptr_sub, get8ByteAlignment, HEADER_SIZE. change (8 / 8) with 1.
    replace (oldptr - 8 * 1) with (oldptr - 8) by lia.
    apply wpg_bind. apply wpg_getBlockSize; [lia|lia|].
    rewrite Hh, hdr_size by lia.
    apply wpg_bind. unfold wpg at 1.
    assert (Hf : forall n, 0 < n -> mm_memcpy 8 oldptr n st = None).
    { intros n Hn. unfold mm_memcpy. destruct (Z.eqb_spec n 0) as [?|_]; [lia|].
      rewrite (in_bounds_low st 8) by lia. reflexivity. }
    destruct (size >? old_size); rewrite Hf by lia; exact Hfail.
Qed.

Lemma realloc_moves_payload_witness :
  exists p st',
    realloc 32 4208 24 demo_heap = Some (p, st') /\ p <> 4208 /\
    forall i, 0 <= i < 24 -> mem st' (p + i) = mem demo_heap (4208 + i).
Proof.
  destruct demo_heap_inv as (fls & Hinv & L & B & Mx).
  assert (Hal : allocated_at demo_heap [(88, false); (40, true)] 4208 40).
  { unfold allocated_at. rewrite L. cbn [blocks_at]. elem. }
  assert (Hroom : ~ no_room demo_heap 24).
  { unfold no_room. rewrite B, Mx. change (newAlign 24) with 24. lia. }
  destruct (wpg_exec _ _ _ _
              (realloc_moves_payload 32 demo_heap _ fls 4208 40 24 Hinv Hal
                 ltac:(lia) ltac:(simpl; lia)) Hroom)
    as (p & E & bs' & fls' & s & _ & _ & _ & Hne & _ & Hcp & _).
  exists p, (exec (realloc 32 4208 24) demo_heap).
  split; [exact E|]. split; [exact Hne|].
  intros i Hi. apply Hcp. lia.
Defined.

(** X17: calloc allocates the product of its arguments reduced modulo 2^64
    (the multiplication is not checked for overflow).  When that product is
    positive and at most 2^64 - 24, the call either faults, which happens
    only when the heap
    cannot grow, or returns the payload of a block that was not allocated
    before, is at least that large and has its first product-many bytes
    zero; every block that was allocated stays allocated with its
    contents. *)
Theorem calloc_keeps_other_blocks :
  forall fuel st bs fls nmemb size,
    inv st bs fls -> 0 < wrap64 (size * nmemb) <= 2 ^ 64 - 24 ->
    (length bs + 15 < fuel)%nat ->
    wpg (no_room st (wrap64 (size * nmemb))) (calloc fuel nmemb size) st
      (fun p st' => exists bs' fls' s,
         inv st' bs' fls' /\ allocated_at st' bs' p s /\
         wrap64 (size * nmemb) <= s /\
         (forall t, ~ allocated_at st bs p t) /\
         (forall x, p <= x < p + wrap64 (size * nmemb) -> mem st' x = 0) /\
         (forall q t, allocated_at st bs q t ->
            allocated_at st' bs' q t /\
            forall x, q <= x < q + t -> mem st' x = mem st x)).
Proof.
  intros fuel st bs fls nmemb size Hinv Hsz Hfuel. unfold calloc.
  set (sz := wrap64 (size * nmemb)) in *.
  pose proof (inv_lo _ _ _ Hinv) as [Hlo0 Hlo16].
  assert (Hlo8 : 8 < heap_lo st) by zdm.
  apply wpg_bind.
  apply (wpg_weaken ((fuel <= length bs + 15)%nat \/ no_room st sz));
    [intros [H|H]; [lia|exact H]|].
  eapply wpg_weaken; [intros H; left; exact H|].
  apply (malloc_spec_fr fuel st bs fls sz _ Hinv Hsz).
  - intros st1 bs1 fls1 p s Hinv1 E1 E3 Hbrk1 Hp Hps Hfresh Hkeep Hfr1.
    pose proof (allocated_bounds _ _ _ _ _ Hinv1 Hp) as (Hp1 & Hp2 & _ & _).
    destruct (Z.eqb_spec p NULL) as [E|_]; [unfold NULL in E; lia|]. cbn [negb].
    apply wpg_bind. apply wpg_memset; [lia|lia|lia|]. apply wpg_ret.
    exists bs1, fls1, s. split; [|split; [exact Hp|]].
    { apply (inv_payload_write st1 bs1 fls1 p s); [exact Hinv1|exact Hp|].
      intros x Hx. apply fill_bytes_out. lia. }
    split; [exact Hps|]. split; [exact Hfresh|]. split.
    + intros x Hx. cbn [mem set_mem]. rewrite fill_bytes_in by exact Hx. reflexivity.
    + intros q t Hq. pose proof (Hkeep _ _ Hq) as Hq1. split; [exact Hq1|].
      intros x Hx. cbn [mem set_mem]. rewrite fill_bytes_out.
      * apply Hfr1. apply (allocated_untouchable st bs q t); assumption.
      * destruct (blocks_at_sep _ _ _ _ (inv_sizes _ _ _ Hinv1) Hq1 Hp) as [E|E].
        -- exfalso. injection E as E _. apply (Hfresh t).
           replace p with q by lia. exact Hq.
        -- simpl in E. lia.
  - intros Hfail. change (negb (8 =? NULL)) with true. cbv iota.
    apply wpg_bind. unfold wpg at 1, memset.
    destruct (Z.eqb_spec sz 0) as [?|_]; [lia|].
    rewrite (in_bounds_low st 8) by lia. exact Hfail.
Qed.

Lemma calloc_keeps_other_blocks_witness :
  exists p st',
    calloc 32 3 8 demo_heap = Some (p, st') /\
    (forall x, p <= x < p + 24 -> mem st' x = 0) /\
    forall x, 4208 <= x < 4248 -> mem st' x = mem demo_heap x.
Proof.
  destruct demo_heap_inv as (fls & Hinv & L & B & Mx).
  assert (Hal : allocated_at demo_heap [(88, false); (40, true)] 4208 40).
  { unfold allocated_at. rewrite L. cbn [blocks_at]. elem. }
  assert (Hroom : ~ no_room demo_heap (wrap64 (8 * 3))).
  { unfold no_room. rewrite B, Mx. change (newAlign (wrap64 (8 * 3))) with 24. lia. }
  destruct (wpg_exec _ _ _ _
              (calloc_keeps_other_blocks 32 demo_heap _ fls 3 8 Hinv
                 ltac:(change (wrap64 (8 * 3)) with 24; lia) ltac:(simpl; lia)) Hroom)
    as (p & E & bs' & fls' & s & _ & _ & _ & _ & Hz & Hk).
  exists p, (exec (calloc 32 3 8) demo_heap).
  split; [exact E|]. split; [exact Hz|].
  intros x Hx. apply (Hk 4208 40 Hal). exact Hx.
Defined.

(** ** Reuse of freed memory *)

Lemma newAlign_least s t :
  0 < s -> valid_size t -> s <= t -> t <= 2 ^ 64 - 8 -> newAlign s <= t.
Proof.
  intros Hs [Ht24 Ht16] Hst Ht. destruct (Z.le_gt_cases s 24) as [H|H].
  - rewrite newAlign_small by exact H. lia.
  - rewrite newAlign_large by lia. zdm.
Qed.

(** X18: memory released by free is reused.  After free of an allocated
    block of payload size [s], a malloc of a positive size of at most [s]
    does not fail and does not grow the heap: it returns the payload of an
    allocated block that is large enough, inside the old bounds, and the
    other blocks that were allocated before the free are still allocated. *)
Theorem free_then_malloc_reuses :
  forall fuel st bs fls p s size,
    inv st bs fls -> allocated_at st bs p s -> 0 < size <= s ->
    (length bs + 15 < fuel)%nat ->
    wp (free p ;;; malloc fuel size) st
      (fun q st' =>
         q <> 8 /\ heap_brk st' = heap_brk st /\
         exists bs' fls' t,
           inv st' bs' fls' /\ allocated_at st' bs' q t /\ size <= t /\
           forall r u, allocated_at st bs r u -> r <> p -> allocated_at st' bs' r u).
Proof.
  intros fuel st bs fls p s size Hinv Hal Hsz Hfuel.
  pose proof (allocated_bounds _ _ _ _ _ Hinv Hal) as (Hp1 & Hp2 & Hvs & _).
  pose proof (inv_lo _ _ _ Hinv) as [Hlo0 Hlo16]. pose proof (inv_max _ _ _ Hinv) as [Hmx1 Hmx2].
  assert (Hlo8 : 8 < heap_lo st) by zdm.
  assert (Hn : newAlign size <= s) by (apply newAlign_least; [lia|exact Hvs|lia|lia]).
  apply wpg_bind. apply (free_spec False st bs fls p s _ Hinv Hal).
  intros st1 pre op on post fls1 Ebs Ep Hla Hha Hinv1 (L1 & B1 & M1).
  pose proof (inv_sizes _ _ _ Hinv) as Hv. rewrite Ebs in Hv.
  apply Forall_app in Hv. destruct Hv as [_ Hv]. apply Forall_app in Hv.
  destruct Hv as [Hvo Hv]. apply Forall_cons in Hv. destruct Hv as [_ Hv].
  apply Forall_app in Hv. destruct Hv as [Hvn _].
  pose proof (nbsz_nonneg _ Hvo) as Ho. pose proof (nbsz_nonneg _ Hvn) as Hno.
  set (bs1 := pre ++ (nbsz op + s + nbsz on, false) :: post) in *.
  assert (Hlen : (length bs1 <= length bs)%nat).
  { unfold bs1. rewrite Ebs, !length_app. cbn [length]. rewrite length_app. lia. }
  assert (Hfit : (nbsz op + s + nbsz on, false) ∈ bs1) by (unfold bs1; elem).
  assert (Hkeep1 : forall r u, allocated_at st bs r u -> r <> p -> allocated_at st1 bs1 r u).
  { intros r u Hr Hne. unfold allocated_at in *. rewrite L1. rewrite Ebs in Hr.
    apply allocated_after_free; [lia|exact Hr]. }
  apply (wpg_weaken (fuel <= length bs1 + 15)%nat); [lia|].
  apply (malloc_ok_cp fuel st1 bs1 fls1 size _ Hinv1 ltac:(lia)).
  - intros pre' b post' st' E' Hb Hinv' (E1 & E2 & E3) _.
    destruct (victim_after_fit (heap_lo st1 + 8) pre' b post' (newAlign size) Hb)
      as (t & Ht & Halt).
    pose proof (inv_total_nonneg _ _ _ Hinv1) as Htot.
    rewrite E' in Htot. rewrite total_app in Htot.
    pose proof (inv_sizes _ _ _ Hinv1) as Hv1. rewrite E' in Hv1.
    apply Forall_app in Hv1. destruct Hv1 as [Hv1 _]. pose proof (total_nonneg _ Hv1).
    destruct (newAlign_valid size ltac:(lia)) as (_ & Hle & _).
    split; [lia|]. split; [congruence|].
    exists (pre' ++ split_blocks (newAlign size) b ++ post'),
      (split_lists (heap_lo st1 + 8 + total pre') (newAlign size) b fls1), t.
    split; [exact Hinv'|]. split; [|split; [lia|]].
    + unfold allocated_at. rewrite E1.
      replace (heap_lo st1 + 8 + total pre' + 8 - 8) with (heap_lo st1 + 8 + total pre') by lia.
      exact Halt.
    + intros r u Hr Hne. pose proof (Hkeep1 r u Hr Hne) as Hr1.
      unfold allocated_at in *. rewrite E1. apply allocated_after_fit.
      rewrite <- E'. exact Hr1.
  - intros Hnone. exfalso. specialize (Hnone _ Hfit). lia.
  - intros Hnone. exfalso. specialize (Hnone _ Hfit). lia.
Qed.

Lemma free_then_malloc_reuses_witness :
  exists q st',
    (free 4208 ;;; malloc 32 40) demo_heap = Some (q, st') /\
    q <> 8 /\ heap_brk st' = heap_brk demo_heap.
Proof.
  destruct demo_heap_inv as (fls & Hinv & L & B & Mx).
  assert (Hal : allocated_at demo_heap [(88, false); (40, true)] 4208 40).
  { unfold allocated_at. rewrite L. cbn [blocks_at]. elem. }
  destruct (wp_exec _ _ _ (free_then_malloc_reuses 32 demo_heap _ fls 4208 40 40 Hinv Hal
              ltac:(lia) ltac:(simpl; lia))) as (q & E & H1 & H2 & _).
  exists q, (exec (free 4208 ;;; malloc 32 40) demo_heap).
  split; [exact E|]. split; [exact H1|exact H2].
Defined.

(** ** Requests of size zero and null pointers *)

(** X19: the edge cases of the entry points.  In every state, malloc of
    size 0 returns NULL and leaves the state alone, and so does calloc
    whenever the product of its arguments is 0 modulo 2^64, and realloc of
    a NULL pointer is malloc.  On a heap that satisfies the invariant,
    realloc of an allocated block to size 0 returns NULL after releasing
    that block and no other. *)
Theorem zero_size_requests :
  forall fuel st,
    malloc fuel 0 st = Some (NULL, st) /\
    (forall nmemb size, wrap64 (size * nmemb) = 0 ->
       calloc fuel nmemb size st = Some (NULL, st)) /\
    (forall size, realloc fuel NULL size st = malloc fuel size st) /\
    (forall bs fls p s,
       inv st bs fls -> allocated_at st bs p s ->
       wp (realloc fuel p 0) st
         (fun r st' => r = NULL /\ exists bs' fls',
            inv st' bs' fls' /\ same_heap st st' /\
            (forall t, ~ allocated_at st' bs' p t) /\
            (forall q t, q <> p -> allocated_at st bs q t ->
               allocated_at st' bs' q t /\
               forall x, q <= x < q + t -> mem st' x = mem st x))).
Proof.
  intros fuel st.
  split; [reflexivity|]. split; [|split; [reflexivity|]].
  - intros nmemb size E. unfold calloc. rewrite E. reflexivity.
  - intros bs fls p s Hinv Hal.
    pose proof (allocated_bounds _ _ _ _ _ Hinv Hal) as (Hp1 & _).
    pose proof (inv_lo _ _ _ Hinv) as [Hlo0 _].
    unfold realloc.
    destruct (Z.eqb_spec p NULL) as [E|_]; [unfold NULL in E; lia|].
    change (0 =? 0) with true. cbv iota.
    apply wpg_bind. apply (free_releases False st bs fls p s _ Hinv Hal).
    intros st' bs' fls' Hinv' Hsame Hgone Hkeep _ _ Hfr. apply wpg_ret.
    split; [reflexivity|]. exists bs', fls'.
    split; [exact Hinv'|]. split; [exact Hsame|]. split; [exact Hgone|].
    intros q t Hne Hq. split; [apply Hkeep; assumption|].
    intros x Hx. apply (Hfr q t x Hne Hq Hx).
Qed.

Lemma zero_size_requests_witness :
  exists st',
    realloc 32 4208 0 demo_heap = Some (NULL, st') /\
    calloc 32 (2 ^ 32) (2 ^ 32) demo_heap = Some (NULL, demo_heap) /\
    malloc 32 0 (fresh_state 4096 5120) = Some (NULL, fresh_state 4096 5120).
Proof.
  destruct demo_heap_inv as (fls & Hinv & L & B & Mx).
  assert (Hal : allocated_at demo_heap [(88, false); (40, true)] 4208 40).
  { unfold allocated_at. rewrite L. cbn [blocks_at]. elem. }
  destruct (zero_size_requests 32 demo_heap) as (_ & Hc & _ & Hr).
  destruct (wp_exec _ _ _ (Hr _ fls 4208 40 Hinv Hal)) as (r & E & -> & _).
  exists (exec (realloc 32 4208 0) demo_heap). split; [exact E|].
  split; [apply Hc; reflexivity|].
  destruct (zero_size_requests 32 (fresh_state 4096 5120)) as (Hm & _). exact Hm.
Defined.

(** * Requests above the largest size *)

Lemma newAlign_top size :
  2 ^ 64 - 24 < size <= 2 ^ 64 - 8 -> newAlign size = 2 ^ 64 - 8.
Proof. intros H. rewrite newAlign_large by lia. zdm. Qed.

Lemma newAlign_above size : 2 ^ 64 - 8 < size < 2 ^ 64 -> newAlign size = 8.
Proof.
  intros H.
  assert (Hc : size = 2 ^ 64 - 7 \/ size = 2 ^ 64 - 6 \/ size = 2 ^ 64 - 5 \/
               size = 2 ^ 64 - 4 \/ size = 2 ^ 64 - 3 \/ size = 2 ^ 64 - 2 \/
               size = 2 ^ 64 - 1) by lia.
  repeat (destruct Hc as [->|Hc]; [vm_compute; reflexivity|]).
  subst size. vm_compute. reflexivity.
Qed.

Lemma block_below_total bs b al :
  Forall (fun b : block => valid_size (fst b)) bs -> (b, al) ∈ bs -> 8 + b <= total bs.
Proof.
  intros Hv Hb. destruct (blocks_at_elem 0 _ _ _ Hb) as (a & Ha).
  pose proof (blocks_at_bounds _ _ _ _ _ Hv Ha) as (? & ? & _). lia.
Qed.

(** For a size whose normalization is 2^64 - 8, the size of the request to
    the extender, 8 more, wraps around to 0: the extender succeeds without
    moving the break, and [extendHeap] writes the header of the new block
    at the break, outside the heap. *)
Lemma malloc_top fuel st bs fls size :
  inv st bs fls -> 2 ^ 64 - 24 < size <= 2 ^ 64 - 8 ->
  wrap64 (HEADER_SIZE + newAlign size) = 0 /\
  mm_sbrk 0 st = Some (heap_brk st, st) /\
  in_bounds st (heap_brk st) 8 = false /\
  extendHeap (newAlign size) st = None /\
  (forall b, (b, false) ∈ bs -> b < newAlign size) /\
  malloc fuel size st = None.
Proof.
  intros Hinv Hsz. rewrite (newAlign_top size Hsz).
  pose proof (inv_lo _ _ _ Hinv) as [Hlo0 Hlo16].
  pose proof (inv_max _ _ _ Hinv) as [Hmx1 Hmx2].
  pose proof (inv_brk _ _ _ Hinv) as Hbrk.
  pose proof (inv_sizes _ _ _ Hinv) as Hv.
  pose proof (total_mod16 _ Hv) as Ht16.
  assert (Hw : wrap64 (HEADER_SIZE + (2 ^ 64 - 8)) = 0) by reflexivity.
  assert (Hs : mm_sbrk 0 st = Some (heap_brk st, st)).
  { unfold mm_sbrk. rewrite Z.add_0_r.
    destruct (Z.leb_spec (heap_brk st) (heap_max st)) as [_|?]; [|lia].
    destruct st; reflexivity. }
  assert (Hb : in_bounds st (heap_brk st) 8 = false).
  { unfold in_bounds. apply andb_false_iff. right. apply Z.leb_gt. lia. }
  assert (He : extendHeap (2 ^ 64 - 8) st = None).
  { unfold extendHeap. rewrite Hw. unfold bind at 1. rewrite Hs.
    destruct (Z.eqb_spec (heap_brk st) SBRK_FAIL) as [E|_].
    { exfalso. unfold SBRK_FAIL in E. change (wrap64 (-1)) with (2 ^ 64 - 1) in E.
      rewrite Hbrk in E. zdm. }
    unfold bind at 1, store. rewrite Hb. reflexivity. }
  assert (Hno : forall b, (b, false) ∈ bs -> b < 2 ^ 64 - 8).
  { intros b Hin. pose proof (block_below_total _ _ _ Hv Hin). lia. }
  repeat (split; [assumption|]).
  apply (wpg_none True). unfold malloc.
  destruct (Z.eqb_spec size 0) as [?|_]; [lia|].
  rewrite (newAlign_top size Hsz).
  change (getFreeListIndex (2 ^ 64 - 8)) with 14.
  apply wpg_bind.
  apply (wpg_seg_get _ _ (hd_or (fls 14)));
    [lia|apply seg_head; [apply (inv_lists _ _ _ Hinv)|lia]|].
  apply wpg_bind.
  apply (wpg_weaken (fuel <= loop_steps fls 0%nat (fls 14%Z) true)%nat); [auto|].
  apply (malloc_loop_ok fuel 0%nat [] (fls 14) true st bs fls (2 ^ 64 - 8));
    [exact Hinv|split; [lia|reflexivity]|lia|reflexivity| |].
  - unfold wpg, bind. rewrite He. exact I.
  - intros pre b post st' -> Hnb _ _. exfalso.
    specialize (Hno b ltac:(elem)). lia.
Qed.

(** Above 2^64 - 8 the normalization wraps around to 8, whose list index
    is -1: malloc reads [segFreeList[-1]], outside the array. *)
Lemma malloc_above fuel st size :
  2 ^ 64 - 8 < size < 2 ^ 64 ->
  newAlign size = 8 /\ getFreeListIndex 8 = -1 /\ malloc fuel size st = None.
Proof.
  intros H. split; [apply newAlign_above; exact H|]. split; [reflexivity|].
  unfold malloc. destruct (Z.eqb_spec size 0) as [?|_]; [lia|].
  rewrite (newAlign_above size H). reflexivity.
Qed.

Lemma malloc_oversize fuel st bs fls size :
  inv st bs fls -> 2 ^ 64 - 24 < size < 2 ^ 64 -> malloc fuel size st = None.
Proof.
  intros Hinv H. destruct (Z.le_gt_cases size (2 ^ 64 - 8)) as [Hle|Hgt].
  - apply (malloc_top fuel st bs fls size Hinv). lia.
  - apply malloc_above. lia.
Qed.


(** * The split made by malloc *)

(** C3: for every size 0 < s < 2^64, malloc has a result unless
    s > 2^64 - 24 (it then takes no block).  When it takes a free victim of
    payload size b for the normalized request n (it takes one exactly when
    some free block is large enough), it returns the payload of the victim
    and splits the victim exactly when b - n >= 32.  After a split the heap holds, in place of the
    victim, an allocated block of size n followed by a free block of payload
    size b - n - 8: the header of that block carries the size, the free flag
    and previous-allocated bit 1, its footer carries the same size, and its
    payload is a node of the list of its size class.  Without a split the
    victim is allocated whole, with size b.  A victim of the minimum payload
    size 24 is never split. *)
Theorem malloc_splits_iff :
  forall fuel st bs fls size,
    inv st bs fls -> 0 < size < 2 ^ 64 -> (length bs + 15 < fuel)%nat ->
    wpg (2 ^ 64 - 24 < size) (malloc fuel size) st
      (fun p st' =>
         let n := newAlign size in
         ((forall b, (b, false) ∈ bs -> b < n) /\
          (st' = st \/ exists fls', inv st' (bs ++ [(n, true)]) fls')) \/
         exists pre b post,
           let h := heap_lo st + 8 + total pre in
           let r := b - n - 8 in
           bs = pre ++ (b, false) :: post /\ n <= b /\ p = h + 8 /\
           ((exists fls', inv st' (pre ++ (n, true) :: (r, false) :: post) fls')
            <-> 32 <= b - n) /\
           (32 <= b - n ->
              (exists fls', inv st' (pre ++ (n, true) :: (r, false) :: post) fls' /\
                            h + 8 + n + 8 ∈ fls' (getFreeListIndex r)) /\
              load64 (mem st') h = hdr n true (last_alloc true pre) /\
              load64 (mem st') (h + 8 + n) = hdr r false true /\
              Z.land (load64 (mem st') (h + 8 + n + r)) 0xFFFFFFFFFFFFFFF8 = r) /\
           (b - n < 32 ->
              (exists fls', inv st' (pre ++ (b, true) :: post) fls') /\
              load64 (mem st') h = hdr b true (last_alloc true pre)) /\
           (b = 24 -> exists fls', inv st' (pre ++ (b, true) :: post) fls')).
Proof.
  intros fuel st bs fls size Hinv Hsz0 Hfuel.
  destruct (Z.le_gt_cases size (2 ^ 64 - 24)) as [Hle|Hgt].
  2:{ unfold wpg. rewrite (malloc_oversize fuel st bs fls size Hinv) by lia. lia. }
  assert (Hsz : 0 < size <= 2 ^ 64 - 24) by lia.
  destruct (newAlign_valid size ltac:(lia)) as ([Hn24 Hn16] & _ & _).
  apply (wpg_weaken (fuel <= length bs + 15)%nat); [lia|].
  apply (malloc_ok_cp fuel st bs fls size _ Hinv Hsz).
  - intros pre b post st' -> Hb Hinv' (L & _ & _) _. cbv zeta. right.
    exists pre, b, post. split; [reflexivity|]. split; [exact Hb|]. split; [reflexivity|].
    set (n := newAlign size) in *. set (h := heap_lo st + 8 + total pre) in *.
    assert (Hsplit : 32 <= b - n ->
      (exists fls', inv st' (pre ++ (n, true) :: (b - n - 8, false) :: post) fls' /\
                    h + 8 + n + 8 ∈ fls' (getFreeListIndex (b - n - 8))) /\
      load64 (mem st') h = hdr n true (last_alloc true pre) /\
      load64 (mem st') (h + 8 + n) = hdr (b - n - 8) false true /\
      Z.land (load64 (mem st') (h + 8 + n + (b - n - 8))) 0xFFFFFFFFFFFFFFF8 = b - n - 8).
    { intros Hs. rewrite split_blocks_split in Hinv' by exact Hs. cbn [app] in Hinv'.
      pose proof (inv_layout _ _ _ Hinv') as HL.
      pose proof (inv_members _ _ _ Hinv') as HM. rewrite L in HL, HM.
      apply layout_app in HL. destruct HL as [_ HL].
      cbn [layout] in HL. fold h in HL. destruct HL as (Hh0 & _ & Hh & Hf & _).
      split; [|split; [exact Hh0|split; [exact Hh|apply Hf; reflexivity]]].
      eexists. split; [exact Hinv'|]. apply HM. exists (b - n - 8). split; [|reflexivity].
      rewrite blocks_at_app. cbn [blocks_at]. fold h.
      replace (h + 8 + n + 8 - 8) with (h + 8 + n) by lia. elem. }
    assert (Hwhole : b - n < 32 ->
      (exists fls', inv st' (pre ++ (b, true) :: post) fls') /\
      load64 (mem st') h = hdr b true (last_alloc true pre)).
    { intros Hs. rewrite split_blocks_whole in Hinv' by exact Hs. cbn [app] in Hinv'.
      pose proof (inv_layout _ _ _ Hinv') as HL. rewrite L in HL.
      apply layout_app in HL. destruct HL as [_ HL]. cbn [layout] in HL. fold h in HL.
      split; [eexists; exact Hinv'|apply HL]. }
    split; [|split; [exact Hsplit|split; [exact Hwhole|]]].
    + split.
      * intros (fls' & Hi). pose proof (inv_sizes _ _ _ Hi) as Hv.
        apply Forall_app in Hv. destruct Hv as [_ Hv]. apply Forall_cons in Hv.
        destruct Hv as [_ Hv]. apply Forall_cons in Hv. destruct Hv as [[Hr _] _].
        cbn [fst] in Hr. lia.
      * intros Hs. destruct (Hsplit Hs) as ((fls' & Hi & _) & _). exists fls'. exact Hi.
    + intros ->. apply Hwhole. lia.
  - intros Hno Hroom st' Hinv' _ _ _ _. cbv zeta. left. split; [exact Hno|].
    right. exists fls. exact Hinv'.
  - intros Hno _. cbv zeta. left. split; [exact Hno|]. left. reflexivity.
Qed.

Lemma malloc_splits_iff_witness :
  exists p st' fls',
    malloc 32 40 demo_heap = Some (p, st') /\ p = 4112 /\
    inv st' [(40, true); (40, false); (40, true)] fls' /\
    load64 (mem st') 4152 = hdr 40 false true.
Proof.
  destruct demo_heap_inv as (fls & Hinv & L & B & Mx).
  destruct (wpg_exec _ _ _ _ (malloc_splits_iff 32 demo_heap _ fls 40 Hinv
              ltac:(lia) ltac:(simpl; lia)) ltac:(lia)) as (p & E & H).
  cbv zeta in H. change (newAlign 40) with 40 in H.
  destruct H as [(Hno & _)|(pre & b & post & Ebs & Hb & Hp & _ & Hs & _)].
  { exfalso. specialize (Hno 88 ltac:(elem)). lia. }
  destruct pre as [|c pre].
  2:{ exfalso. injection Ebs as Ec Ebs. destruct pre as [|d pre]; [discriminate Ebs|].
      injection Ebs as _ Ebs. destruct pre; discriminate Ebs. }
  injection Ebs as <- <-. cbn [app total] in *. rewrite L in *.
  destruct (Hs ltac:(lia)) as ((fls' & Hi & _) & _ & Hh & _).
  exists p, (exec (malloc 32 40) demo_heap), fls'.
  split; [exact E|]. split; [rewrite Hp; reflexivity|]. split; [exact Hi|exact Hh].
Defined.

(** * The invariant across the public operations *)



(** * Alignment of the payloads *)

(** C6 fails on the code where the heap extender fails.  With the heap low
    address 16-byte aligned (part of the invariant), every payload address
    of the heap is a multiple of 16, and a pointer that malloc, realloc or
    calloc returns for valid arguments (a size of at most 2^64 - 24) is
    NULL, or the payload address of an allocated block of the resulting heap
    and a multiple of 16, or the value 8.  That value is what malloc, and
    realloc of a NULL pointer, return when no free block is large enough and
    the extender fails: it is not NULL, not a multiple of 16 and not the
    payload of a block. *)
Theorem payloads_aligned :
  forall fuel st bs fls r,
    inv st bs fls -> valid_request st bs r -> (length bs + 15 < fuel)%nat ->
    heap_lo st mod 16 = 0 /\
    (forall a s al, (a, s, al) ∈ blocks_at (heap_lo st + 8) bs ->
       (a + 8) mod 16 = 0 /\ s mod 16 = 8 /\ 24 <= s) /\
    wpg (uses_failed_malloc st r) (run_request fuel r) st
      (fun p st' =>
         p = NULL \/
         (p = 8 /\ st' = st /\ exists size,
             (r = ReqMalloc size \/ r = ReqRealloc NULL size) /\ no_room st size) \/
         (p mod 16 = 0 /\
          exists bs' fls' s, inv st' bs' fls' /\ allocated_at st' bs' p s)) /\
    (forall size,
       r = ReqMalloc size \/ r = ReqRealloc NULL size -> 0 < size ->
       (forall b, (b, false) ∈ bs -> b < newAlign size) -> no_room st size ->
       run_request fuel r st = Some (8, st) /\
       8 <> NULL /\ aligned 8 = false /\ 8 mod 16 <> 0 /\
       forall s, ~ allocated_at st bs 8 s).
Proof.
  intros fuel st bs fls r Hinv Hval Hfuel.
  pose proof (inv_lo _ _ _ Hinv) as [Hlo Hlo16]. split; [exact Hlo16|]. split; [|split].
  - intros a s al Hb. pose proof (inv_sizes _ _ _ Hinv) as Hv.
    pose proof (blocks_at_bounds _ _ _ _ _ Hv Hb) as (_ & _ & [Hs24 Hs16] & _).
    apply blocks_at_split in Hb. destruct Hb as (pre & post & -> & ->).
    apply Forall_app in Hv. destruct Hv as [Hv1 _].
    pose proof (total_mod16 _ Hv1). split; [zdm|]. split; assumption.
  - eapply wpg_conseq; [apply (request_ok fuel st bs fls r); assumption|].
    intros p st' (bs' & fls' & Hinv' & [->|[H|(s & Hp)]]); [left; reflexivity|right; left; exact H|].
    right. right. pose proof (allocated_bounds _ _ _ _ _ Hinv' Hp) as (_ & _ & _ & Hm).
    split; [exact Hm|]. exists bs', fls', s. auto.
  - intros size Hr Hpos Hnofit Hno.
    assert (Hsz : 0 < size <= 2 ^ 64 - 24).
    { destruct Hr as [->| ->]; cbn [valid_request] in Hval; lia. }
    pose proof (malloc_failure_eq fuel st bs fls size Hinv Hsz Hnofit Hno Hfuel) as Hm.
    split; [|split; [discriminate|split; [reflexivity|split; [discriminate|]]]].
    + destruct Hr as [->| ->]; cbn [run_request]; [exact Hm|].
      unfold realloc. change (NULL =? NULL) with true. exact Hm.
    + intros s Hal. pose proof (allocated_bounds _ _ _ _ _ Hinv Hal) as (? & _). lia.
Qed.

Lemma payloads_aligned_witness :
  run_request 32 (ReqMalloc 2000) demo_heap = Some (8, demo_heap) /\
  8 <> NULL /\ aligned 8 = false.
Proof.
  destruct demo_heap_inv as (fls & Hinv & L & B & Mx).
  destruct (payloads_aligned 32 demo_heap [(88, false); (40, true)] fls
              (ReqMalloc 2000) Hinv) as (_ & _ & _ & H).
  - cbn [valid_request]. lia.
  - simpl. lia.
  - destruct (H 2000) as (H1 & H2 & H3 & _).
    + left. reflexivity.
    + lia.
    + apply demo_heap_no_fit.
    + unfold no_room. rewrite B, Mx. change (newAlign 2000) with 2008. lia.
    + split; [exact H1|]. split; [exact H2|exact H3].
Defined.
